(** * Cache simulator: address decoding, replacement policies, cache levels,
      the inclusion state machine of the hierarchy, and the AMAT computation.

    The development is a shallow embedding of the C++ sources.  Unsigned
    64-bit integers are integers in [0, 2^64) with the wrap-around written
    out; [std::vector] is a list indexed with stdpp's lookup and insert;
    [std::unordered_map] is a [gmap].  Operations whose C++ behaviour is
    undefined (a shift by 64 or more, an index past the end of a vector, a
    division by zero) return [None]. *)

From Stdlib Require Import ZArith QArith Qround Qabs Lia Lqa.
From Stdlib Require Floats.SpecFloat.
From stdpp Require Import base option list gmap strings.

Local Open Scope Z_scope.

(** ** Machine integers *)

Definition ADDRESS_WIDTH : Z := 64.
Definition UINT64_MODULUS : Z := 2 ^ 64.

Definition wrap64 (z : Z) : Z := z mod UINT64_MODULUS.

(** [x >> n] on [uint64_t]; undefined for [n] outside [0, 64). *)
Definition shr64 (x n : Z) : option Z :=
  if decide (0 ≤ n < ADDRESS_WIDTH) then Some (Z.shiftr x n) else None.

(** [x << n] on [uint64_t]; undefined for [n] outside [0, 64). *)
Definition shl64 (x n : Z) : option Z :=
  if decide (0 ≤ n < ADDRESS_WIDTH) then Some (wrap64 (Z.shiftl x n)) else None.

(** ** address.cpp: MemoryAddress *)

Module MemoryAddress.

(** [MemoryAddress::getTag] *)
Definition getTag (address_ blockOffsetBits indexBits : Z) : option Z :=
  let totalLowerBits := blockOffsetBits + indexBits in
  if decide (ADDRESS_WIDTH ≤ totalLowerBits) then Some 0
  else shr64 address_ totalLowerBits.

(** [MemoryAddress::getIndex] *)
Definition getIndex (address_ blockOffsetBits indexBits : Z) : option Z :=
  if decide (indexBits = 0) then Some 0
  else if decide (ADDRESS_WIDTH ≤ blockOffsetBits) then Some 0
  else
    shifted_address ← shr64 address_ blockOffsetBits;
    if decide (ADDRESS_WIDTH ≤ indexBits) then Some shifted_address
    else
      one ← shl64 1 indexBits;
      let mask := wrap64 (one - 1) in
      Some (Z.land shifted_address mask).

(** [MemoryAddress::getBlockOffset] *)
Definition getBlockOffset (address_ blockOffsetBits : Z) : option Z :=
  if decide (blockOffsetBits = 0) then Some 0
  else if decide (ADDRESS_WIDTH ≤ blockOffsetBits) then Some address_
  else
    one ← shl64 1 blockOffsetBits;
    let mask := wrap64 (one - 1) in
    Some (Z.land address_ mask).

End MemoryAddress.

(** The earlier address.cpp, whose decode functions shift without a guard. *)
Module MemoryAddressUnguarded.

(** [MemoryAddress::getTag] *)
Definition getTag (address_ blockOffsetBits indexBits : Z) : option Z :=
  shr64 address_ (blockOffsetBits + indexBits).

(** [MemoryAddress::getIndex] *)
Definition getIndex (address_ blockOffsetBits indexBits : Z) : option Z :=
  one ← shl64 1 indexBits;
  let mask := wrap64 (one - 1) in
  shifted ← shr64 address_ blockOffsetBits;
  Some (Z.land shifted mask).

(** [MemoryAddress::getBlockOffset] *)
Definition getBlockOffset (address_ blockOffsetBits : Z) : option Z :=
  one ← shl64 1 blockOffsetBits;
  let mask := wrap64 (one - 1) in
  Some (Z.land address_ mask).

End MemoryAddressUnguarded.

(** ** cache.hpp: entries, configuration, results *)

(** [class CacheEntry] *)
Record CacheEntry := mkCacheEntry {
  valid_ : bool;
  dirty_ : bool;
  tag_ : Z
}.

Global Instance CacheEntry_eq_dec : EqDecision CacheEntry.
Proof. solve_decision. Defined.

(** [CacheEntry::CacheEntry()] and [CacheEntry::reset]. *)
Definition CacheEntry_default : CacheEntry :=
  {| valid_ := false; dirty_ := false; tag_ := 0 |}.

Definition setValid (e : CacheEntry) (valid : bool) : CacheEntry :=
  {| valid_ := valid; dirty_ := dirty_ e; tag_ := tag_ e |}.
Definition setDirty (e : CacheEntry) (dirty : bool) : CacheEntry :=
  {| valid_ := valid_ e; dirty_ := dirty; tag_ := tag_ e |}.
Definition setTag (e : CacheEntry) (tag : Z) : CacheEntry :=
  {| valid_ := valid_ e; dirty_ := dirty_ e; tag_ := tag |}.

Inductive InclusionPolicy := Inclusive | Exclusive | NINE.

Global Instance InclusionPolicy_eq_dec : EqDecision InclusionPolicy.
Proof. solve_decision. Defined.

Inductive Organization := DirectMapped | SetAssociative | FullyAssociative.

Inductive AccessType := Read | Write.

Global Instance AccessType_eq_dec : EqDecision AccessType.
Proof. solve_decision. Defined.

(** [struct CacheConfig] *)
Record CacheConfig := mkCacheConfig {
  organization : Organization;
  size : Z;
  blockSize : Z;
  associativity : Z;
  policy : string;
  accessLatency : Z;
  writeBack : bool;
  writeAllocate : bool;
  level : Z;
  inclusionPolicy : InclusionPolicy
}.

(** The [while (temp > 1) { temp >>= 1; count++; }] loop shared by
    [getBlockOffsetBits] and [getIndexBits]; 64 iterations exhaust every
    [uint64_t]. *)
Fixpoint shift_count (fuel : nat) (temp count : Z) : Z :=
  match fuel with
  | O => count
  | S fuel' =>
      if decide (1 < temp) then shift_count fuel' (Z.shiftr temp 1) (count + 1)
      else count
  end.

(** Unsigned division; a zero divisor is undefined. *)
Definition udiv (a b : Z) : option Z :=
  if decide (b = 0) then None else Some (a / b).

(** [CacheConfig::getNumSets] *)
Definition getNumSets (c : CacheConfig) : option Z :=
  match organization c with
  | FullyAssociative => Some 1
  | DirectMapped => udiv (size c) (blockSize c)
  | SetAssociative => udiv (size c) (wrap64 (blockSize c * associativity c))
  end.

(** [CacheConfig::getNumWays] *)
Definition getNumWays (c : CacheConfig) : option Z :=
  match organization c with
  | FullyAssociative => udiv (size c) (blockSize c)
  | DirectMapped => Some 1
  | SetAssociative => Some (associativity c)
  end.

(** [CacheConfig::getBlockOffsetBits] *)
Definition getBlockOffsetBits (c : CacheConfig) : Z :=
  shift_count 64 (blockSize c) 0 mod 256.

(** [CacheConfig::getIndexBits] *)
Definition getIndexBits (c : CacheConfig) : option Z :=
  match organization c with
  | FullyAssociative => Some 0
  | _ =>
      numSets ← getNumSets c;
      Some (shift_count 64 numSets 0 mod 256)
  end.

(** [struct CacheResult] *)
Record CacheResult := mkCacheResult {
  hit : bool;
  latency : Z;
  writeBackTriggered : bool;
  evictedAddress : option Z;
  evictedEntry : option CacheEntry
}.

(** ** cache_policy.cpp: replacement policies

    Ways are positions in a set's vector and are kept as [nat]; sets are the
    keys of the [std::unordered_map]s.  The iterators stored in
    [lruPositions_] are represented by the set of ways that own one. *)

Inductive ReplacementPolicy :=
| LRUPolicy (lruList_ : gmap nat (list nat)) (lruPositions_ : gmap nat (gset nat))
| FIFOPolicy (circularCounters_ : gmap nat nat) (usedWays_ : gmap nat (gset nat))
| RandomPolicy (usedFlags_ : gmap nat (list bool)) (random_device : nat → nat) (draws : nat).

(** [list.erase(it)] for the iterator of the node that holds [way]. *)
Fixpoint list_erase (way : nat) (l : list nat) : list nat :=
  match l with
  | [] => []
  | w :: l' => if decide (w = way) then l' else w :: list_erase way l'
  end.

(** The first way in [0, numWays) that satisfies [unused]. *)
Definition first_way (unused : nat → bool) (numWays : nat) : option nat :=
  snd <$> list_find (λ w, unused w = true) (seq 0 numWays).

(** [std::uniform_int_distribution<uint64_t>(0, numWays - 1)] applied to a
    fresh draw: any value in the range; for [numWays = 0] the upper bound
    wraps and any draw is possible. *)
Definition uniform_draw (draw numWays : nat) : nat :=
  if decide (numWays = 0)%nat then draw else (draw mod numWays)%nat.

Module Policy.

(** [LRUPolicy::onAccess], [FIFOPolicy::onAccess], [RandomPolicy::onAccess] *)
Definition onAccess (p : ReplacementPolicy) (set way : nat) : ReplacementPolicy :=
  match p with
  | LRUPolicy lruList lruPositions =>
      match lruList !! set with
      | None =>
          LRUPolicy (<[set := [way]]> lruList)
                    (<[set := {[way]} ∪ default ∅ (lruPositions !! set)]> lruPositions)
      | Some list =>
          let positions := default ∅ (lruPositions !! set) in
          let list := if decide (way ∈ positions) then list_erase way list else list in
          LRUPolicy (<[set := way :: list]> lruList)
                    (<[set := {[way]} ∪ positions]> lruPositions)
      end
  | FIFOPolicy circularCounters usedWays =>
      let circularCounters :=
        match circularCounters !! set with
        | None => <[set := 0%nat]> circularCounters
        | Some _ => circularCounters
        end in
      let used := default ∅ (usedWays !! set) in
      FIFOPolicy circularCounters (<[set := {[way]} ∪ used]> usedWays)
  | RandomPolicy usedFlags rd draws =>
      let flags := default (replicate 32 false) (usedFlags !! set) in
      RandomPolicy (<[set := <[way := true]> flags]> usedFlags) rd draws
  end.

(** [LRUPolicy::getVictim], [FIFOPolicy::getVictim],
    [RandomPolicy::getVictim]; [None] when the C++ is undefined
    ([back()] of an empty list, [% 0]). *)
Definition getVictim (p : ReplacementPolicy) (set numWays : nat)
  : option (ReplacementPolicy * nat) :=
  match p with
  | LRUPolicy lruList lruPositions =>
      match lruList !! set with
      | None => Some (p, 0%nat)
      | Some list =>
          let unused :=
            if decide (length list < numWays)%nat
            then first_way (λ w, bool_decide (w ∉ list)) numWays
            else None in
          match unused with
          | Some way => Some (p, way)
          | None => victim ← last list; Some (p, victim)
          end
      end
  | FIFOPolicy circularCounters usedWays =>
      let circularCounters :=
        match circularCounters !! set with
        | None => <[set := 0%nat]> circularCounters
        | Some _ => circularCounters
        end in
      let used := default ∅ (usedWays !! set) in
      let usedWays := <[set := used]> usedWays in
      let unused :=
        if decide (base.size used < numWays)%nat
        then first_way (λ w, bool_decide (w ∉ used)) numWays
        else None in
      match unused with
      | Some way => Some (FIFOPolicy circularCounters usedWays, way)
      | None =>
          let victim := default 0%nat (circularCounters !! set) in
          if decide (numWays = 0)%nat then None
          else Some (FIFOPolicy (<[set := ((victim + 1) mod numWays)%nat]> circularCounters)
                                usedWays, victim)
      end
  | RandomPolicy usedFlags rd draws =>
      let flags := default (replicate numWays false) (usedFlags !! set) in
      let flags := if decide (length flags < numWays)%nat
                   then resize numWays false flags else flags in
      match first_way (λ w, bool_decide (flags !! w = Some false)) numWays with
      | Some way =>
          Some (RandomPolicy (<[set := <[way := true]> flags]> usedFlags) rd (S draws), way)
      | None =>
          Some (RandomPolicy (<[set := flags]> usedFlags) rd (S draws),
                uniform_draw (rd draws) numWays)
      end
  end.

(** [LRUPolicy::reset], [FIFOPolicy::reset], [RandomPolicy::reset] *)
Definition reset (p : ReplacementPolicy) : ReplacementPolicy :=
  match p with
  | LRUPolicy _ _ => LRUPolicy ∅ ∅
  | FIFOPolicy _ _ => FIFOPolicy ∅ ∅
  | RandomPolicy _ rd draws => RandomPolicy ∅ rd draws
  end.

(** [createPolicy]: unknown names default to LRU.  The random device is
    the only input of a policy that is not in the configuration. *)
Definition createPolicy (name : string) (rd : nat → nat) : ReplacementPolicy :=
  if decide (name = "LRU") then LRUPolicy ∅ ∅
  else if decide (name = "FIFO") then FIFOPolicy ∅ ∅
  else if decide (name = "RANDOM") then RandomPolicy ∅ rd 0
  else LRUPolicy ∅ ∅.

End Policy.

(** ** cache.cpp: one cache level *)

(** How an attempt to construct a cache can end.  [ConfigError] is the error
    kind of the specification's taxonomy; [DivisionByZero] is the undefined
    integer division inside [getNumSets] / [getNumWays]. *)
Inductive ConstructionFailure := ConfigError | DivisionByZero.

Module Cache.

Record t := mk {
  config_ : CacheConfig;
  policy_ : ReplacementPolicy;
  cacheEntries_ : list (list CacheEntry);
  hits_ : Z;
  misses_ : Z
}.

Definition set_policy (c : t) (p : ReplacementPolicy) : t :=
  {| config_ := config_ c; policy_ := p; cacheEntries_ := cacheEntries_ c;
     hits_ := hits_ c; misses_ := misses_ c |}.
Definition set_entries (c : t) (es : list (list CacheEntry)) : t :=
  {| config_ := config_ c; policy_ := policy_ c; cacheEntries_ := es;
     hits_ := hits_ c; misses_ := misses_ c |}.
Definition set_hits (c : t) (h : Z) : t :=
  {| config_ := config_ c; policy_ := policy_ c; cacheEntries_ := cacheEntries_ c;
     hits_ := h; misses_ := misses_ c |}.
Definition set_misses (c : t) (m : Z) : t :=
  {| config_ := config_ c; policy_ := policy_ c; cacheEntries_ := cacheEntries_ c;
     hits_ := hits_ c; misses_ := m |}.

(** [cacheEntries_[set][way] = e] *)
Definition write_entry (c : t) (set way : nat) (e : CacheEntry) : t :=
  set_entries c (alter (λ row, <[way := e]> row) set (cacheEntries_ c)).

(** [Cache::Cache(const CacheConfig&)]: the member initialisers, then the
    two [resize] calls.  There is no validation of the geometry. *)
Definition new (config : CacheConfig) (rd : nat → nat) : ConstructionFailure + t :=
  match getNumSets config, getNumWays config with
  | Some numSets, Some numWays =>
      inr {| config_ := config;
             policy_ := Policy.createPolicy (policy config) rd;
             cacheEntries_ :=
               replicate (Z.to_nat numSets)
                         (replicate (Z.to_nat numWays) CacheEntry_default);
             hits_ := 0;
             misses_ := 0 |}
  | _, _ => inl DivisionByZero
  end.

(** [Cache::getSetAndTag] *)
Definition getSetAndTag (c : t) (address : Z) : option (nat * Z) :=
  let blockOffsetBits := getBlockOffsetBits (config_ c) in
  indexBits ← getIndexBits (config_ c);
  set ← MemoryAddress.getIndex address blockOffsetBits indexBits;
  tag ← MemoryAddress.getTag address blockOffsetBits indexBits;
  Some (Z.to_nat set, tag).

(** The loop of [Cache::findEntry] over one set. *)
Definition find_way (row : list CacheEntry) (tag : Z) : option nat :=
  fst <$> list_find (λ entry, valid_ entry = true ∧ tag_ entry = tag) row.

(** [Cache::findEntry]; the outer [None] is [cacheEntries_[set]] past the
    end. *)
Definition findEntry (c : t) (set : nat) (tag : Z) : option (option nat) :=
  row ← cacheEntries_ c !! set;
  Some (find_way row tag).

(** [Cache::reconstructAddress], also written inline in
    [Cache::allocateEntry]. *)
Definition reconstructAddress (c : t) (set : nat) (tag : Z) : option Z :=
  let blockOffsetBits := getBlockOffsetBits (config_ c) in
  indexBits ← getIndexBits (config_ c);
  hi ← shl64 tag (blockOffsetBits + indexBits);
  lo ← shl64 (Z.of_nat set) blockOffsetBits;
  Some (Z.lor hi lo).

(** [Cache::allocateEntry] *)
Definition allocateEntry (c : t) (set : nat) (tag : Z) (type : AccessType)
  : option (t * CacheResult) :=
  row ← cacheEntries_ c !! set;
  '(policy', way) ← Policy.getVictim (policy_ c) set (length row);
  victimEntry ← row !! way;
  evicted ←
    (if valid_ victimEntry then
       reconstructedAddress ← reconstructAddress c set (tag_ victimEntry);
       Some (Some reconstructedAddress, Some victimEntry,
             writeBack (config_ c) && dirty_ victimEntry)
     else Some (None, None, false));
  let '(evictedAddress, evictedEntry, wb) := evicted in
  let newEntry :=
    {| valid_ := true; tag_ := tag;
       dirty_ := bool_decide (type = Write) && writeBack (config_ c) |} in
  let c := write_entry (set_policy c policy') set way newEntry in
  let c := set_policy c (Policy.onAccess (policy_ c) set way) in
  Some (c, {| hit := false; latency := 0; writeBackTriggered := wb;
              evictedAddress := evictedAddress; evictedEntry := evictedEntry |}).

(** [Cache::access] *)
Definition access (c : t) (address : Z) (type : AccessType)
  : option (t * CacheResult) :=
  '(set, tag) ← getSetAndTag c address;
  wayOpt ← findEntry c set tag;
  match wayOpt with
  | Some way =>
      let c := set_hits c (wrap64 (hits_ c + 1)) in
      let c := set_policy c (Policy.onAccess (policy_ c) set way) in
      c ← (if bool_decide (type = Write) && writeBack (config_ c) then
             row ← cacheEntries_ c !! set;
             entry ← row !! way;
             Some (write_entry c set way (setDirty entry true))
           else Some c);
      Some (c, {| hit := true; latency := accessLatency (config_ c);
                  writeBackTriggered := false;
                  evictedAddress := None; evictedEntry := None |})
  | None =>
      let c := set_misses c (wrap64 (misses_ c + 1)) in
      if bool_decide (type = Read)
         || (bool_decide (type = Write) && writeAllocate (config_ c)) then
        '(c, allocResult) ← allocateEntry c set tag type;
        _ ← findEntry c set tag;
        Some (c, {| hit := false;
                    latency := wrap64 (accessLatency (config_ c) + latency allocResult);
                    writeBackTriggered := writeBackTriggered allocResult;
                    evictedAddress := evictedAddress allocResult;
                    evictedEntry := None |})
      else
        Some (c, {| hit := false; latency := accessLatency (config_ c);
                    writeBackTriggered := false;
                    evictedAddress := None; evictedEntry := None |})
  end.

(** [Cache::getEntry] *)
Definition getEntry (c : t) (address : Z) : option (option CacheEntry) :=
  '(set, tag) ← getSetAndTag c address;
  wayOpt ← findEntry c set tag;
  match wayOpt with
  | Some way =>
      row ← cacheEntries_ c !! set;
      entry ← row !! way;
      Some (Some entry)
  | None => Some None
  end.

(** [Cache::contains] *)
Definition contains (c : t) (address : Z) : option bool :=
  '(set, tag) ← getSetAndTag c address;
  wayOpt ← findEntry c set tag;
  Some (bool_decide (is_Some wayOpt)).

(** [Cache::invalidateEntry] *)
Definition invalidateEntry (c : t) (address : Z) : option t :=
  '(set, tag) ← getSetAndTag c address;
  wayOpt ← findEntry c set tag;
  match wayOpt with
  | Some way => Some (write_entry c set way CacheEntry_default)
  | None => Some c
  end.

(** [Cache::forceEntry] *)
Definition forceEntry (c : t) (address : Z) (entry : CacheEntry) (type : AccessType)
  : option (t * CacheResult) :=
  '(set, tag) ← getSetAndTag c address;
  wayOpt ← findEntry c set tag;
  '(c, way, evictedAddress, evictedEntry, wb) ←
    match wayOpt with
    | Some way => Some (c, way, None, None, false)
    | None =>
        row ← cacheEntries_ c !! set;
        '(policy', way) ← Policy.getVictim (policy_ c) set (length row);
        let c := set_policy c policy' in
        victimEntry ← row !! way;
        let evictedEntry := if valid_ victimEntry then Some victimEntry else None in
        if valid_ victimEntry && dirty_ victimEntry then
          evictedAddr ← reconstructAddress c set (tag_ victimEntry);
          Some (c, way, Some evictedAddr, evictedEntry, true)
        else Some (c, way, None, evictedEntry, false)
    end;
  let installed := setValid (setTag entry tag) true in
  let installed :=
    if bool_decide (type = Write) && writeBack (config_ c)
    then setDirty installed true else installed in
  let c := write_entry c set way installed in
  let c := set_policy c (Policy.onAccess (policy_ c) set way) in
  Some (c, {| hit := false; latency := accessLatency (config_ c);
              writeBackTriggered := wb;
              evictedAddress := evictedAddress; evictedEntry := evictedEntry |}).

(** [Cache::reset] *)
Definition reset (c : t) : t :=
  {| config_ := config_ c;
     policy_ := Policy.reset (policy_ c);
     cacheEntries_ := map (map (λ _, CacheEntry_default)) (cacheEntries_ c);
     hits_ := 0;
     misses_ := 0 |}.

End Cache.

(** ** cache.cpp: the hierarchy and its inclusion state machine *)

(** [CacheHierarchy::EvictionTracker] *)
Record EvictionTracker := mkEvictionTracker {
  hasEviction : bool;
  trackedAddress : Z;
  trackedEntry : CacheEntry
}.

Module CacheHierarchy.

Record t := mk {
  caches_ : list Cache.t;
  evictionTracker_ : EvictionTracker
}.

Definition empty : t :=
  {| caches_ := [];
     evictionTracker_ := {| hasEviction := false; trackedAddress := 0;
                            trackedEntry := CacheEntry_default |} |}.

(** [CacheHierarchy::addCacheLevel] *)
Definition addCacheLevel (h : t) (cache : Cache.t) : t :=
  {| caches_ := caches_ h ++ [cache]; evictionTracker_ := evictionTracker_ h |}.

Definition set_level (h : t) (i : nat) (cache : Cache.t) : t :=
  {| caches_ := <[i := cache]> (caches_ h); evictionTracker_ := evictionTracker_ h |}.
Definition set_tracker (h : t) (tr : EvictionTracker) : t :=
  {| caches_ := caches_ h; evictionTracker_ := tr |}.

(** The block shared by both places that capture an eviction from L1,
    guarded by [if (result.evictedAddress)]: the tracker takes the evicted
    address and either the evicted entry of the result or a fresh valid
    entry carrying the tag of that address. *)
Definition capture_eviction (h : t) (l1Cache : Cache.t) (result : CacheResult)
  : option t :=
  match evictedAddress result with
  | Some evictedAddr =>
      entry ←
        match evictedEntry result with
        | Some e => Some e
        | None =>
            '(_, tag) ← Cache.getSetAndTag l1Cache evictedAddr;
            Some (setTag (setValid CacheEntry_default true) tag)
        end;
      Some (set_tracker h {| hasEviction := true; trackedAddress := evictedAddr;
                             trackedEntry := entry |})
  | None => Some h
  end.

(** [CacheHierarchy::backinvalidate]: levels [0 .. fromLevel-1], written
    as a countdown over the remaining levels. *)
Fixpoint backinvalidate_from (h : t) (address : Z) (i remaining : nat) : option t :=
  match remaining with
  | O => Some h
  | S remaining' =>
      cache ← caches_ h !! i;
      cache ← Cache.invalidateEntry cache address;
      backinvalidate_from (set_level h i cache) address (S i) remaining'
  end.

Definition backinvalidate (h : t) (address : Z) (fromLevel : nat) : option t :=
  backinvalidate_from h address 0 fromLevel.

(** The loop [for (i = 1; i < caches_.size(); ++i)] that searches the lower
    levels after an L1 miss; [remaining] counts the levels still to visit.
    Returns the hierarchy, the accumulated latency and [hitInCache]. *)
Fixpoint search_lower (h : t) (address : Z) (type : AccessType)
         (totalLatency : Z) (i remaining : nat) : option (t * Z * bool) :=
  match remaining with
  | O => Some (h, totalLatency, false)
  | S remaining' =>
      cache ← caches_ h !! i;
      '(cache, result) ← Cache.access cache address type;
      let h := set_level h i cache in
      let totalLatency := wrap64 (totalLatency + latency result) in
      if hit result then
        if decide (inclusionPolicy (Cache.config_ cache) = Exclusive) then
          entry ← Cache.getEntry cache address;
          match entry with
          | Some entry =>
              cache ← Cache.invalidateEntry cache address;
              let h := set_level h i cache in
              l1Cache ← caches_ h !! 0%nat;
              '(l1Cache, l1EvictResult) ← Cache.forceEntry l1Cache address entry type;
              let h := set_level h 0 l1Cache in
              h ← capture_eviction h l1Cache l1EvictResult;
              Some (h, totalLatency, true)
          | None => Some (h, totalLatency, true)
          end
        else Some (h, totalLatency, true)
      else search_lower h address type totalLatency (S i) remaining'
  end.

(** The loop that allocates in every Inclusive lower level after a miss in
    all levels, with back-invalidation of what that allocation evicts. *)
Fixpoint allocate_inclusive (h : t) (address : Z) (type : AccessType)
         (totalLatency : Z) (i remaining : nat) : option (t * Z) :=
  match remaining with
  | O => Some (h, totalLatency)
  | S remaining' =>
      cache ← caches_ h !! i;
      if decide (inclusionPolicy (Cache.config_ cache) = Inclusive) then
        '(cache, result) ← Cache.access cache address type;
        let h := set_level h i cache in
        let totalLatency := wrap64 (totalLatency + latency result) in
        h ← match evictedAddress result with
             | Some evicted => backinvalidate h evicted i
             | None => Some h
             end;
        allocate_inclusive h address type totalLatency (S i) remaining'
      else allocate_inclusive h address type totalLatency (S i) remaining'
  end.

(** [hasExclusiveL2] *)
Definition hasExclusiveL2 (h : t) : bool :=
  match caches_ h !! 1%nat with
  | Some l2 => bool_decide (inclusionPolicy (Cache.config_ l2) = Exclusive)
  | None => false
  end.

(** The block of [CacheHierarchy::access] under "Miss in all cache levels":
    with an Exclusive L2 the block is removed from L2, otherwise every
    Inclusive lower level allocates. *)
Definition allocate_after_miss (h : t) (address : Z) (type : AccessType)
           (l1Cache : Cache.t) (exclusiveL2 hitInCache : bool) (totalLatency : Z)
  : option (t * Z) :=
  if negb hitInCache
     && (bool_decide (type = Read)
         || (bool_decide (type = Write)
             && writeAllocate (Cache.config_ l1Cache))) then
    if exclusiveL2 then
      match caches_ h !! 1%nat with
      | Some l2 =>
          l2 ← Cache.invalidateEntry l2 address;
          Some (set_level h 1 l2, totalLatency)
      | None => Some (h, totalLatency)
      end
    else allocate_inclusive h address type totalLatency 1 (length (caches_ h) - 1)
  else Some (h, totalLatency).

(** The block of [CacheHierarchy::access] under "Process any L1 evictions
    for exclusive caches": victim caching of the tracked eviction. *)
Definition process_l1_eviction (h : t) (address : Z) (exclusiveL2 : bool)
  : option t :=
  if exclusiveL2 && hasEviction (evictionTracker_ h) then
    l2Cache ← caches_ h !! 1%nat;
    if decide (trackedAddress (evictionTracker_ h) ≠ address) then
      '(l2Cache, _) ← Cache.forceEntry l2Cache
                         (trackedAddress (evictionTracker_ h))
                         (trackedEntry (evictionTracker_ h)) Write;
      Some (set_level h 1 l2Cache)
    else Some h
  else Some h.

(** [CacheHierarchy::access]: returns the hierarchy after the call and the
    pair (total latency, hit in some cache). *)
Definition access (h : t) (address : Z) (type : AccessType)
  : option (t * (Z * bool)) :=
  let h := set_tracker h {| hasEviction := false;
                            trackedAddress := trackedAddress (evictionTracker_ h);
                            trackedEntry := trackedEntry (evictionTracker_ h) |} in
  let exclusiveL2 := hasExclusiveL2 h in
  l1Cache ← caches_ h !! 0%nat;
  _ ← (if exclusiveL2 then Cache.getEntry l1Cache address else Some None);
  '(l1Cache, l1Result) ← Cache.access l1Cache address type;
  let h := set_level h 0 l1Cache in
  let totalLatency := wrap64 (0 + latency l1Result) in
  h ← (if exclusiveL2 then capture_eviction h l1Cache l1Result else Some h);
  if hit l1Result then Some (h, (totalLatency, true))
  else
    '(h, totalLatency, hitInCache) ←
      search_lower h address type totalLatency 1 (length (caches_ h) - 1);
    '(h, totalLatency) ←
      allocate_after_miss h address type l1Cache exclusiveL2 hitInCache totalLatency;
    h ← process_l1_eviction h address exclusiveL2;
    Some (h, (totalLatency, hitInCache)).

(** [CacheHierarchy::reset] *)
Definition reset (h : t) : t :=
  {| caches_ := map Cache.reset (caches_ h); evictionTracker_ := evictionTracker_ h |}.

End CacheHierarchy.

(** ** memory.cpp: main memory, and the driver loop of metrics.cpp *)

Module MainMemory.

Record t := mk {
  accessLatency_ : Z;
  reads_ : Z;
  writes_ : Z
}.

Definition new (accessLatency : Z) : t :=
  {| accessLatency_ := accessLatency; reads_ := 0; writes_ := 0 |}.

(** [MainMemory::access] *)
Definition access (m : t) (address : Z) (type : AccessType) : t * Z :=
  match type with
  | Read => ({| accessLatency_ := accessLatency_ m;
                reads_ := wrap64 (reads_ m + 1); writes_ := writes_ m |},
             accessLatency_ m)
  | Write => ({| accessLatency_ := accessLatency_ m;
                 reads_ := reads_ m; writes_ := wrap64 (writes_ m + 1) |},
              accessLatency_ m)
  end.

(** [MainMemory::reset] *)
Definition reset (m : t) : t :=
  {| accessLatency_ := accessLatency_ m; reads_ := 0; writes_ := 0 |}.

End MainMemory.

(** One iteration of the [while] loop of [PerformanceAnalyzer::runTests]:
    the hierarchy is accessed, and main memory only when no cache hit. *)
Definition run_access (h : CacheHierarchy.t) (m : MainMemory.t)
           (address : Z) (type : AccessType)
  : option (CacheHierarchy.t * MainMemory.t * Z) :=
  '(h, (latency, hitInCache)) ← CacheHierarchy.access h address type;
  if negb hitInCache then
    let '(m, memLatency) := MainMemory.access m address type in
    Some (h, m, wrap64 (latency + memLatency))
  else Some (h, m, latency).

(** A trace is a list of (address, type); the hierarchy after the whole
    trace. *)
Fixpoint run_trace (h : CacheHierarchy.t) (trace : list (Z * AccessType))
  : option CacheHierarchy.t :=
  match trace with
  | [] => Some h
  | (address, type) :: trace' =>
      '(h, _) ← CacheHierarchy.access h address type;
      run_trace h trace'
  end.

(** The per-access outcomes of a trace on a single cache level. *)
Fixpoint cache_trace (c : Cache.t) (trace : list (Z * AccessType))
  : option (Cache.t * list bool) :=
  match trace with
  | [] => Some (c, [])
  | (address, type) :: trace' =>
      '(c, result) ← Cache.access c address type;
      '(c, outcomes) ← cache_trace c trace';
      Some (c, hit result :: outcomes)
  end.

(** ** [double]

    A finite [double] is a rational: an integer multiple of 2^-1074 whose
    size, counted in units of the last place, takes at most 53 bits.  An
    operation computes its result exactly and rounds it to the nearest such
    number, to the one with the even last bit when two are equally near
    (IEEE 754 binary64, the default rounding mode).  A result that is not
    finite (an overflow, a division by zero) is [None].  The sign of a zero
    is not kept. *)

Module Double.

(** The integer nearest to [x], the even one of two that are equally near. *)
Definition nearest_even (x : Q) : Z :=
  let f := Qfloor x in
  match (x - inject_Z f ?= 1 # 2)%Q with
  | Lt => f
  | Gt => f + 1
  | Eq => if Z.even f then f else f + 1
  end.

(** The exponent of the last place of [x >= 0], where [x] counts units of
    2^-1074: 53 bits are kept, and nothing below one unit. *)
Definition ulp_exponent (x : Q) : Z := Z.max (Z.log2 (Qfloor x) - 52) 0.

(** [x >= 0] rounded to a multiple of its last place. *)
Definition round_units (x : Q) : Z :=
  let e := ulp_exponent x in
  nearest_even (x / inject_Z (2 ^ e)) * 2 ^ e.

(** The least positive [double]. *)
Definition unit : Q := 1 # (2 ^ 1074).

(** Rounding to nearest, ties to even, with no bound on the exponent. *)
Definition round_nearest (q : Q) : Q :=
  match (q ?= 0)%Q with
  | Eq => 0%Q
  | Gt => Qred (inject_Z (round_units (q / unit)) * unit)
  | Lt => Qred (- (inject_Z (round_units (- q / unit)) * unit))
  end.

(** The [double] an exact result is rounded to; magnitudes that round to
    2^1024 or more overflow. *)
Definition round (q : Q) : option Q :=
  let r := round_nearest q in
  if Qlt_le_dec (Qabs r) (inject_Z (2 ^ 1024)) then Some r else None.

(** [static_cast<double>(z)], and the implicit conversion of a [uint64_t]
    operand. *)
Definition of_uint64 (z : Z) : option Q := round (inject_Z z).

Definition add (x y : Q) : option Q := round (x + y).
Definition sub (x y : Q) : option Q := round (x - y).
Definition mul (x y : Q) : option Q := round (x * y).
Definition div (x y : Q) : option Q :=
  if Qeq_dec y 0 then None else round (x / y).

(** The value of a number of the Standard Library's specification of
    IEEE 754 ([SpecFloat]), for comparison. *)
Definition of_spec_float (x : SpecFloat.spec_float) : option Q :=
  match x with
  | SpecFloat.S754_zero _ => Some 0%Q
  | SpecFloat.S754_finite s m e =>
      let v := (inject_Z (Z.pos m)
                * (if decide (0 ≤ e) then inject_Z (2 ^ e)
                   else 1 # (2 ^ Z.to_pos (- e))))%Q in
      Some (Qred (if s then - v else v))
  | _ => None
  end.

(** The binary64 number of [SpecFloat] for the integer [z]. *)
Definition binary64_of_Z (z : Z) : SpecFloat.spec_float :=
  SpecFloat.binary_normalize 53 1024 z 0 false.

End Double.

(** ** metrics.cpp: the AMAT of [PerformanceAnalyzer::collectMetrics]

    The C++ computes in [double]: every conversion from [uint64_t] and every
    arithmetic operation rounds. *)

Module Metrics.


(** The loop over levels [1 ..]: each entry is (hit rate, access latency).
    Returns the total and the probability of missing every level. *)
Fixpoint amat_levels (lower : list (Q * Z)) (totalAMAT missPathProbability : Q)
  : option (Q * Q) :=
  match lower with
  | [] => Some (totalAMAT, missPathProbability)
  | (hitRate, accessLatency) :: lower' =>
      missRate ← Double.sub 1 hitRate;
      accessLatency ← Double.of_uint64 accessLatency;
      levelContribution ← Double.mul missPathProbability accessLatency;
      totalAMAT ← Double.add totalAMAT levelContribution;
      missPathProbability ← Double.mul missPathProbability missRate;
      amat_levels lower' totalAMAT missPathProbability
  end.

(** "Total System AMAT" from per-level (hit rate, latency) statistics;
    [None] for an empty hierarchy ([cacheStats[0]] past the end). *)
Definition totalAMAT (stats : list (Q * Z)) (memoryLatency : Z) : option Q :=
  match stats with
  | [] => None
  | (l1HitRate, l1Latency) :: lower =>
      l1Latency ← Double.of_uint64 l1Latency;
      l1MissRate ← Double.sub 1 l1HitRate;
      '(totalAMAT, missPathProbability) ← amat_levels lower l1Latency l1MissRate;
      memoryLatency ← Double.of_uint64 memoryLatency;
      memoryContribution ← Double.mul missPathProbability memoryLatency;
      Double.add totalAMAT memoryContribution
  end.



End Metrics.

(** ** The queue-based FIFO policy (the earlier cache_policy.cpp) *)

Module FIFOQueue.

(** [FIFOPolicy::onAccess] over [fifoQueue_] *)
Definition onAccess (fifoQueue_ : gmap nat (list nat)) (set way : nat)
  : gmap nat (list nat) :=
  match fifoQueue_ !! set with
  | None => <[set := [way]]> fifoQueue_
  | Some queue =>
      if decide (way ∈ queue) then fifoQueue_
      else <[set := queue ++ [way]]> fifoQueue_
  end.

(** [FIFOPolicy::getVictim] over [fifoQueue_]; [front()] of an empty list
    is undefined. *)
Definition getVictim (fifoQueue_ : gmap nat (list nat)) (set numWays : nat)
  : option (gmap nat (list nat) * nat) :=
  let queue := default [] (fifoQueue_ !! set) in
  let unused :=
    if decide (fifoQueue_ !! set = None ∨ (length queue < numWays)%nat)
    then first_way (λ w, bool_decide (w ∉ queue)) numWays
    else None in
  match unused with
  | Some way => Some (fifoQueue_, way)
  | None => victim ← head queue; Some (<[set := queue]> fifoQueue_, victim)
  end.

End FIFOQueue.

(** The cache's usage discipline towards a policy, for one set: a miss asks
    for a victim, installs there and reports the way; a hit reports the way
    that was hit. *)
Inductive PolicyEvent := MissEvent | HitEvent (way : nat).

(** The victims the circular-counter FIFO returns along a list of events. *)
Fixpoint circular_victims (p : ReplacementPolicy) (set numWays : nat)
         (events : list PolicyEvent) : option (list nat) :=
  match events with
  | [] => Some []
  | MissEvent :: events' =>
      '(p, way) ← Policy.getVictim p set numWays;
      rest ← circular_victims (Policy.onAccess p set way) set numWays events';
      Some (way :: rest)
  | HitEvent way :: events' =>
      circular_victims (Policy.onAccess p set way) set numWays events'
  end.

(** The victims the queue-based FIFO returns along the same events. *)
Fixpoint queue_victims (q : gmap nat (list nat)) (set numWays : nat)
         (events : list PolicyEvent) : option (list nat) :=
  match events with
  | [] => Some []
  | MissEvent :: events' =>
      '(q, way) ← FIFOQueue.getVictim q set numWays;
      rest ← queue_victims (FIFOQueue.onAccess q set way) set numWays events';
      Some (way :: rest)
  | HitEvent way :: events' =>
      queue_victims (FIFOQueue.onAccess q set way) set numWays events'
  end.


(** ** Building hierarchies, and the concrete configurations used below *)

(** A random device that always yields 0; the LRU and FIFO policies never
    consult it. *)
Definition no_entropy : nat → nat := λ _, 0%nat.

(** Two [addCacheLevel] calls on freshly constructed caches. *)
Definition two_level (l1Config l2Config : CacheConfig) (rd : nat → nat)
  : option CacheHierarchy.t :=
  match Cache.new l1Config rd, Cache.new l2Config rd with
  | inr l1, inr l2 =>
      Some (CacheHierarchy.addCacheLevel
              (CacheHierarchy.addCacheLevel CacheHierarchy.empty l1) l2)
  | _, _ => None
  end.

(** [getCacheLevel(0).contains(a)] and [getCacheLevel(1).contains(a)]. *)
Definition residency (h : CacheHierarchy.t) (address : Z) : option (bool * bool) :=
  l1 ← CacheHierarchy.caches_ h !! 0%nat;
  l2 ← CacheHierarchy.caches_ h !! 1%nat;
  inL1 ← Cache.contains l1 address;
  inL2 ← Cache.contains l2 address;
  Some (inL1, inL2).

(** Residency of [address] in both levels after running [trace] on a fresh
    two-level hierarchy. *)
Definition residency_after (l1Config l2Config : CacheConfig)
           (trace : list (Z * AccessType)) (address : Z) : option (bool * bool) :=
  h ← two_level l1Config l2Config no_entropy;
  h ← run_trace h trace;
  residency h address.

(** Scenario 1: direct-mapped, 256 B, 64 B blocks (the configuration of
    [testDirectMappedCache]). *)
Definition scenario1_config : CacheConfig :=
  {| organization := DirectMapped; size := 256; blockSize := 64;
     associativity := 1; policy := "LRU"; accessLatency := 1;
     writeBack := true; writeAllocate := true; level := 1;
     inclusionPolicy := Inclusive |}.

Definition scenario1_trace : list (Z * AccessType) :=
  [(0x0, Read); (0x0, Read); (0x100, Read); (0x0, Read); (0x40, Read); (0x100, Read)].

(** The outcomes, hits and misses of a trace on a fresh cache. *)
Definition outcomes_of (config : CacheConfig) (trace : list (Z * AccessType))
  : option (list bool * Z * Z) :=
  match Cache.new config no_entropy with
  | inr c =>
      '(c, outcomes) ← cache_trace c trace;
      Some (outcomes, Cache.hits_ c, Cache.misses_ c)
  | inl _ => None
  end.

(** The result of one more access after a trace on a fresh cache, and the
    entry that sat in [cacheEntries_[set][way]] just before it. *)
Definition result_after (config : CacheConfig) (trace : list (Z * AccessType))
           (address : Z) (type : AccessType) : option CacheResult :=
  match Cache.new config no_entropy with
  | inr c =>
      '(c, _) ← cache_trace c trace;
      '(_, result) ← Cache.access c address type;
      Some result
  | inl _ => None
  end.

Definition entry_after (config : CacheConfig) (trace : list (Z * AccessType))
           (set way : nat) : option CacheEntry :=
  match Cache.new config no_entropy with
  | inr c =>
      '(c, _) ← cache_trace c trace;
      row ← Cache.cacheEntries_ c !! set;
      row !! way
  | inl _ => None
  end.

(** A two-level Inclusive hierarchy: L1 one set of two ways, L2 direct-mapped
    with four sets; 64 B blocks in both. *)
Definition inclusive_l1 : CacheConfig :=
  {| organization := SetAssociative; size := 128; blockSize := 64;
     associativity := 2; policy := "LRU"; accessLatency := 1;
     writeBack := true; writeAllocate := true; level := 1;
     inclusionPolicy := Inclusive |}.
Definition inclusive_l2 : CacheConfig :=
  {| organization := DirectMapped; size := 256; blockSize := 64;
     associativity := 1; policy := "LRU"; accessLatency := 10;
     writeBack := true; writeAllocate := true; level := 2;
     inclusionPolicy := Inclusive |}.

(** The geometry of the inclusion test and of Scenario 4: L1 4 KB 4-way,
    L2 8 KB 8-way, 64 B blocks, 16 sets each. *)
Definition scenario4_l1 : CacheConfig :=
  {| organization := SetAssociative; size := 4096; blockSize := 64;
     associativity := 4; policy := "LRU"; accessLatency := 1;
     writeBack := true; writeAllocate := true; level := 1;
     inclusionPolicy := Inclusive |}.
Definition scenario4_l2 : CacheConfig :=
  {| organization := SetAssociative; size := 8192; blockSize := 64;
     associativity := 8; policy := "LRU"; accessLatency := 10;
     writeBack := true; writeAllocate := true; level := 2;
     inclusionPolicy := Inclusive |}.

(** Reads of 0x3000 alternating with reads of [count] other blocks of the
    same set: 0x3000 stays hot in L1 and is never seen again by L2. *)
Definition hot_block_trace (count : nat) : list (Z * AccessType) :=
  flat_map (λ i, [(0x3000, Read); (0x3000 + Z.of_nat i * 16 * 64, Read)])
           (seq 1 count).

(** A two-level Exclusive hierarchy whose L1 does not allocate on write
    misses: L1 a single block, L2 one set of four ways. *)
Definition nwa_l1 : CacheConfig :=
  {| organization := DirectMapped; size := 64; blockSize := 64;
     associativity := 1; policy := "LRU"; accessLatency := 1;
     writeBack := true; writeAllocate := false; level := 1;
     inclusionPolicy := Inclusive |}.
Definition exclusive_l2 : CacheConfig :=
  {| organization := SetAssociative; size := 256; blockSize := 64;
     associativity := 4; policy := "LRU"; accessLatency := 10;
     writeBack := true; writeAllocate := true; level := 2;
     inclusionPolicy := Exclusive |}.


(** Invalid geometries in the sense of the specification. *)
Definition is_power_of_two (n : Z) : bool :=
  bool_decide (0 < n ∧ Z.land n (n - 1) = 0).

Definition invalid_geometry (c : CacheConfig) : bool :=
  negb (is_power_of_two (size c))
  || negb (is_power_of_two (blockSize c))
  || bool_decide (blockSize c = 0)
  || bool_decide (blockSize c ≠ 0 ∧ size c / blockSize c < associativity c).

Definition non_power_of_two_config : CacheConfig :=
  {| organization := DirectMapped; size := 200; blockSize := 48;
     associativity := 1; policy := "LRU"; accessLatency := 1;
     writeBack := true; writeAllocate := true; level := 1;
     inclusionPolicy := Inclusive |}.
Definition over_associative_config : CacheConfig :=
  {| organization := SetAssociative; size := 256; blockSize := 64;
     associativity := 8; policy := "LRU"; accessLatency := 1;
     writeBack := true; writeAllocate := true; level := 1;
     inclusionPolicy := Inclusive |}.
Definition zero_block_config : CacheConfig :=
  {| organization := DirectMapped; size := 256; blockSize := 0;
     associativity := 1; policy := "LRU"; accessLatency := 1;
     writeBack := true; writeAllocate := true; level := 1;
     inclusionPolicy := Inclusive |}.

(** The sum of the access latencies of a list of per-level statistics. *)
Definition total_latency (stats : list (Q * Z)) : Z :=
  foldr (λ s acc, s.2 + acc) 0 stats.

(** A per-level statistic is plausible when the hit rate lies in [0, 1]
    and the latency is not negative. *)
Definition plausible_stat (s : Q * Z) : Prop :=
  (0 <= s.1)%Q ∧ (s.1 <= 1)%Q ∧ 0 ≤ s.2.

(** Scenario 6: hit rates 0.8 and 0.5, latencies 1 and 10.  The hit rate
    of L1 is the [double] nearest to 0.8, as [getHitRate] returns it for
    8 hits in 10 accesses. *)
Definition scenario6_l1 : Q * Z := (Double.round_nearest (4 # 5), 1).
Definition scenario6_lower : list (Q * Z) := [((1 # 2)%Q, 10)].

(** A streaming workload: nothing ever hits. *)
Definition cold_stats : list (Q * Z) := [(0%Q, 1); (0%Q, 10)].

(** A level that always hits, with a latency that is not a [double]: 2^53 + 1. *)
Definition slow_l1_stats : list (Q * Z) := [(1%Q, 2 ^ 53 + 1)].

(** Operands for comparing the arithmetic of [Double] with the Standard
    Library's binary64: pairs of [double]s, and integers to convert. *)
Definition double_samples : list (Q * Q) :=
  [(1, Double.round_nearest (4 # 5));
   (Double.round_nearest (1 # 5), 10);
   (8, 10); (1, 3);
   (Double.round_nearest (1 # 3), Double.round_nearest (2 # 7));
   (inject_Z (2 ^ 53), 1);
   (inject_Z (2 ^ 64), 3);
   (Double.round_nearest (1 # 3), inject_Z (2 ^ 60));
   (Double.unit, 3);
   (inject_Z (2 ^ 1023), inject_Z (2 ^ 1023))]%Q.
Definition integer_samples : list Z :=
  [0; 1; 10; 2 ^ 53; 2 ^ 53 + 1; 2 ^ 53 + 3; 2 ^ 63 + 1025; 2 ^ 64 - 1].

(** The binary64 number of [SpecFloat] for a [double]. *)
Definition binary64_of_double (x : Q) : SpecFloat.spec_float :=
  let x := Qred x in
  SpecFloat.binary_normalize 53 1024 (Qnum x) (- Z.log2 (Z.pos (Qden x))) false.

(** Whether the four operations of [Double] give, on [x] and [y], what the
    Standard Library's binary64 operations give. *)
Definition agrees_with_binary64 (x y : Q) : Prop :=
  let bx := binary64_of_double x in
  let by_ := binary64_of_double y in
  Double.add x y = Double.of_spec_float (SpecFloat.SFadd 53 1024 bx by_)
  ∧ Double.sub x y = Double.of_spec_float (SpecFloat.SFsub 53 1024 bx by_)
  ∧ Double.mul x y = Double.of_spec_float (SpecFloat.SFmul 53 1024 bx by_)
  ∧ Double.div x y = Double.of_spec_float (SpecFloat.SFdiv 53 1024 bx by_).

(** ** Well-formed geometry and the invariants of a cache level *)

(** The geometry of the specification's data model, without the
    power-of-two requirement: a positive block size, a size that fits 64
    bits, and at least one set of at least one way. *)
Definition well_formed (c : CacheConfig) : Prop :=
  0 < blockSize c ∧ size c < UINT64_MODULUS
  ∧ match organization c with
    | DirectMapped | FullyAssociative => blockSize c ≤ size c
    | SetAssociative =>
        0 < associativity c ∧ blockSize c * associativity c ≤ size c
    end.

(** What a policy must satisfy to return ways below [numWays]. *)
Definition policy_inv (p : ReplacementPolicy) (numWays : nat) : Prop :=
  match p with
  | LRUPolicy lruList _ =>
      ∀ set l, lruList !! set = Some l → l ≠ [] ∧ Forall (λ w, w < numWays)%nat l
  | FIFOPolicy circularCounters _ =>
      ∀ set c, circularCounters !! set = Some c → (c < numWays)%nat
  | RandomPolicy _ _ _ => True
  end.

(** Some valid way of the set carries the tag. *)
Definition row_has (row : list CacheEntry) (tag : Z) : Prop :=
  ∃ way entry, row !! way = Some entry ∧ valid_ entry = true ∧ tag_ entry = tag.

(** At most one valid way of the set carries a given tag. *)
Definition row_unique (row : list CacheEntry) : Prop :=
  ∀ w1 w2 e1 e2,
    row !! w1 = Some e1 → row !! w2 = Some e2 →
    valid_ e1 = true → valid_ e2 = true → tag_ e1 = tag_ e2 → w1 = w2.

(** The tag is valid in the set [set] of the cache. *)
Definition holds (c : Cache.t) (set : nat) (tag : Z) : Prop :=
  ∃ row, Cache.cacheEntries_ c !! set = Some row ∧ row_has row tag.

(** The block number [b] (the address without its offset bits) is resident
    in a cache with [S] index bits. *)
Definition resident (c : Cache.t) (S : Z) (b : Z) : Prop :=
  holds c (Z.to_nat (b mod 2 ^ S)) (b / 2 ^ S).

(** The invariant of a cache level with [B] offset bits, [S] index bits and
    [numWays] ways. *)
Record cache_inv (c : Cache.t) (B S : Z) (numWays : nat) : Prop := {
  inv_offset_bits : getBlockOffsetBits (Cache.config_ c) = B;
  inv_index_bits : getIndexBits (Cache.config_ c) = Some S;
  inv_bits : 0 ≤ B ∧ 0 ≤ S ∧ B + S < 64;
  inv_sets : 2 ^ S ≤ Z.of_nat (length (Cache.cacheEntries_ c));
  inv_ways : ∀ set row, Cache.cacheEntries_ c !! set = Some row → length row = numWays;
  inv_some_way : (0 < numWays)%nat;
  inv_policy : policy_inv (Cache.policy_ c) numWays;
  inv_unique : ∀ set row, Cache.cacheEntries_ c !! set = Some row → row_unique row;
  inv_tags : ∀ set row way entry,
      Cache.cacheEntries_ c !! set = Some row → row !! way = Some entry →
      valid_ entry = true → 0 ≤ tag_ entry < 2 ^ (64 - B - S)
}.




(** What [Cache::access] on address [a] may leave resident in the cache
    [c'] it returns, and what its result reports as evicted, relative to
    the cache [c] it started from. *)
Definition access_post (c : Cache.t) (B S : Z) (numWays : nat)
           (a : Z) (type : AccessType) (c' : Cache.t) (result : CacheResult) : Prop :=
  cache_inv c' B S numWays
  ∧ Cache.config_ c' = Cache.config_ c
  ∧ (∀ b, 0 ≤ b → resident c' S b → b = a / 2 ^ B ∨ resident c S b)
  ∧ (hit result = true →
     evictedAddress result = None ∧ resident c' S (a / 2 ^ B)
     ∧ ∀ b, resident c' S b → resident c S b)
  ∧ (hit result = false → ¬ resident c S (a / 2 ^ B))
  ∧ (hit result = false → type = Write →
     writeAllocate (Cache.config_ c) = false →
     evictedAddress result = None ∧ ∀ b, resident c' S b → resident c S b)
  ∧ (∀ v, evictedAddress result = Some v →
          0 ≤ v < UINT64_MODULUS ∧ ¬ resident c' S (v / 2 ^ B)
          ∧ v / 2 ^ B ≠ a / 2 ^ B).

(** The same for [Cache::forceEntry]. *)
Definition forceEntry_post (c : Cache.t) (B S : Z) (numWays : nat)
           (a : Z) (c' : Cache.t) (result : CacheResult) : Prop :=
  cache_inv c' B S numWays
  ∧ Cache.config_ c' = Cache.config_ c
  ∧ (∀ b, 0 ≤ b → resident c' S b → b = a / 2 ^ B ∨ resident c S b)
  ∧ (∀ v, evictedAddress result = Some v →
          0 ≤ v < UINT64_MODULUS ∧ ¬ resident c' S (v / 2 ^ B)
          ∧ v / 2 ^ B ≠ a / 2 ^ B).


(** ** The FIFO rule as the specification words it

    The ways of one set in the order in which their current blocks were
    installed, oldest first.  While the set is filling the victim is the
    lowest-numbered empty way; once it is full, the oldest-installed way.
    Installing in a way moves it to the back; a hit changes nothing. *)
Module FIFOReference.

Definition victim (order : list nat) (numWays : nat) : option nat :=
  if decide (length order < numWays)%nat
  then first_way (λ w, bool_decide (w ∉ order)) numWays
  else head order.

Definition install (order : list nat) (way : nat) : list nat :=
  filter (λ w, w ≠ way) order ++ [way].

Fixpoint victims (order : list nat) (numWays : nat) (events : list PolicyEvent)
  : option (list nat) :=
  match events with
  | [] => Some []
  | MissEvent :: events' =>
      way ← victim order numWays;
      rest ← victims (install order way) numWays events';
      Some (way :: rest)
  | HitEvent _ :: events' => victims order numWays events'
  end.

(** The usage discipline: hits only name ways that hold a block. *)
Fixpoint disciplined (order : list nat) (numWays : nat) (events : list PolicyEvent)
  : Prop :=
  match events with
  | [] => True
  | MissEvent :: events' =>
      match victim order numWays with
      | Some way => disciplined (install order way) numWays events'
      | None => True
      end
  | HitEvent way :: events' => way ∈ order ∧ disciplined order numWays events'
  end.

End FIFOReference.

(** How the state of the circular-counter FIFO for one set mirrors the
    installation order: while filling, ways [0 .. k-1] are used in that
    order; once full, the counter [c] points at the oldest way. *)
Definition circular_mirrors (p : ReplacementPolicy) (set numWays : nat)
           (order : list nat) : Prop :=
  ∃ circularCounters usedWays,
    p = FIFOPolicy circularCounters usedWays
    ∧ ((∃ k, (k < numWays)%nat ∧ order = seq 0 k
             ∧ default ∅ (usedWays !! set) = set_seq 0 k
             ∧ default 0%nat (circularCounters !! set) = 0%nat)
       ∨ (∃ c, (c < numWays)%nat
               ∧ order = seq c (numWays - c) ++ seq 0 c
               ∧ default ∅ (usedWays !! set) = set_seq 0 numWays
               ∧ default 0%nat (circularCounters !! set) = c)).

(** ** The states of one cache level that its clients can reach *)

(** The values of a [uint64_t]. *)
Definition uint64 (z : Z) : Prop := 0 ≤ z < UINT64_MODULUS.

(** A call of one of the state-changing public methods of [Cache]. *)
Inductive CacheCall :=
| CallAccess (address : Z) (type : AccessType)
| CallInvalidateEntry (address : Z)
| CallForceEntry (address : Z) (entry : CacheEntry) (type : AccessType)
| CallReset.

(** The arguments of a call are 64-bit addresses. *)
Definition call_in_range (k : CacheCall) : Prop :=
  match k with
  | CallAccess address _ | CallInvalidateEntry address
  | CallForceEntry address _ _ => uint64 address
  | CallReset => True
  end.

(** The cache after the call; the results of the calls are dropped. *)
Definition cache_call (c : Cache.t) (k : CacheCall) : option Cache.t :=
  match k with
  | CallAccess address type => fst <$> Cache.access c address type
  | CallInvalidateEntry address => Cache.invalidateEntry c address
  | CallForceEntry address entry type => fst <$> Cache.forceEntry c address entry type
  | CallReset => Some (Cache.reset c)
  end.

Fixpoint cache_calls (c : Cache.t) (ks : list CacheCall) : option Cache.t :=
  match ks with
  | [] => Some c
  | k :: ks' => c ← cache_call c k; cache_calls c ks'
  end.

(** [c] is a cache constructed from [config] and then driven through some
    calls. *)
Definition reachable (config : CacheConfig) (rd : nat → nat) (c : Cache.t) : Prop :=
  ∃ c0 ks, Cache.new config rd = inr c0 ∧ Forall call_in_range ks
           ∧ cache_calls c0 ks = Some c.

(** The same with [Cache::access] as the only call, as when the cache is
    used on its own or as a level of a hierarchy that never promotes or
    invalidates. *)
Definition reachable_by_accesses (config : CacheConfig) (rd : nat → nat)
           (c : Cache.t) : Prop :=
  ∃ c0 trace outcomes,
    Cache.new config rd = inr c0 ∧ Forall (λ access, uint64 access.1) trace
    ∧ cache_trace c0 trace = Some (c, outcomes).

(** The number of the block of [address] for a cache with this
    configuration: the address without its offset bits. *)
Definition block_of (config : CacheConfig) (address : Z) : Z :=
  address / 2 ^ getBlockOffsetBits config.

(** The results of a trace on a single cache level, one per access. *)
Fixpoint cache_results (c : Cache.t) (trace : list (Z * AccessType))
  : option (Cache.t * list CacheResult) :=
  match trace with
  | [] => Some (c, [])
  | (address, type) :: trace' =>
      '(c, result) ← Cache.access c address type;
      '(c, results) ← cache_results c trace';
      Some (c, result :: results)
  end.

(** A freshly constructed cache after a trace of accesses. *)
Definition cache_after (config : CacheConfig) (trace : list (Z * AccessType))
  : option Cache.t :=
  match Cache.new config no_entropy with
  | inr c => fst <$> cache_trace c trace
  | inl _ => None
  end.

(** What [Cache::reset] returns only depends on the configuration, the
    shape of the entries and the kind of the policy. *)
Definition same_reset (c c' : Cache.t) : Prop :=
  Cache.config_ c' = Cache.config_ c
  ∧ length <$> Cache.cacheEntries_ c' = length <$> Cache.cacheEntries_ c
  ∧ match Cache.policy_ c with
    | RandomPolicy _ _ _ => ∃ flags rd d, Cache.policy_ c' = RandomPolicy flags rd d
    | _ => Policy.reset (Cache.policy_ c') = Policy.reset (Cache.policy_ c)
    end.

(** ** The replacement policy's view of a set *)

(** The ways of a set that the policy has on record as used. *)
Definition policy_used (p : ReplacementPolicy) (set way : nat) : Prop :=
  match p with
  | LRUPolicy lruList _ => way ∈ default [] (lruList !! set)
  | FIFOPolicy _ usedWays => way ∈ default ∅ (usedWays !! set)
  | RandomPolicy usedFlags _ _ => default [] (usedFlags !! set) !! way = Some true
  end.

(** What the records of a policy satisfy when it is only ever told about
    ways below [numWays]: an LRU list has no duplicates and its ways own an
    iterator; the recorded ways are below [numWays]; a vector of flags
    covers all ways. *)
Definition policy_records (p : ReplacementPolicy) (numWays : nat) : Prop :=
  match p with
  | LRUPolicy lruList lruPositions =>
      ∀ set l, lruList !! set = Some l →
               NoDup l ∧ Forall (λ w, w < numWays)%nat l
               ∧ ∀ w, w ∈ l → w ∈ default ∅ (lruPositions !! set)
  | FIFOPolicy _ usedWays =>
      ∀ set used w, usedWays !! set = Some used → w ∈ used → (w < numWays)%nat
  | RandomPolicy usedFlags _ _ =>
      ∀ set flags, usedFlags !! set = Some flags → (numWays ≤ length flags)%nat
  end.

(** [onAccess(set, way)] marks the way: for the Random policy this needs a
    vector of flags for the set that reaches the way. *)
Definition policy_ready (p : ReplacementPolicy) (set way : nat) : Prop :=
  match p with
  | RandomPolicy usedFlags _ _ =>
      ∃ flags, usedFlags !! set = Some flags ∧ (way < length flags)%nat
  | _ => True
  end.

(** The policy's records are in step with the valid bits: a way holds a
    valid entry exactly when the policy has it on record as used. *)
Definition policy_tracks (c : Cache.t) (numWays : nat) : Prop :=
  policy_records (Cache.policy_ c) numWays
  ∧ ∀ set row way entry,
      Cache.cacheEntries_ c !! set = Some row → row !! way = Some entry →
      (valid_ entry = true ↔ policy_used (Cache.policy_ c) set way).

(** No entry of the cache is dirty. *)
Definition clean (c : Cache.t) : Prop :=
  Forall (Forall (λ entry, dirty_ entry = false)) (Cache.cacheEntries_ c).

(** ** Histories of a replacement policy *)

(** The policy after a list of [onAccess(set, way)] calls, oldest first. *)
Definition policy_accesses (p : ReplacementPolicy) (history : list (nat * nat))
  : ReplacementPolicy :=
  foldl (λ p access, Policy.onAccess p access.1 access.2) p history.

(** The ways of [set] that a history touches, oldest first. *)
Definition ways_of (set : nat) (history : list (nat * nat)) : list nat :=
  omap (λ access, if decide (access.1 = set) then Some access.2 else None) history.

(** The distinct ways of a list of accesses given most recent first, in
    the order of their most recent access. *)
Fixpoint recency (accessed : list nat) : list nat :=
  match accessed with
  | [] => []
  | way :: accessed' => way :: filter (λ w, w ≠ way) (recency accessed')
  end.

(** A hit names a way of the set. *)
Definition event_in_range (numWays : nat) (event : PolicyEvent) : Prop :=
  match event with
  | MissEvent => True
  | HitEvent way => (way < numWays)%nat
  end.

(** ** What one call of the hierarchy does to a level, in numbers *)

(** A level kept its configuration, its shape and the kind of its policy,
    and its counters advanced by [dh] hits and [dm] misses (as 64-bit
    values). *)
Definition level_step (c c' : Cache.t) (dh dm : Z) : Prop :=
  Cache.config_ c' = Cache.config_ c
  ∧ same_reset c c'
  ∧ wrap64 (Cache.hits_ c') = wrap64 (Cache.hits_ c + dh)
  ∧ wrap64 (Cache.misses_ c') = wrap64 (Cache.misses_ c + dm)
  ∧ (uint64 (Cache.hits_ c) → uint64 (Cache.hits_ c'))
  ∧ (uint64 (Cache.misses_ c) → uint64 (Cache.misses_ c')).

(** The tracker, when set, holds a 64-bit address. *)
Definition tracker_in_range (tr : EvictionTracker) : Prop :=
  hasEviction tr = true → uint64 (trackedAddress tr).

(** After a miss in both levels, [CacheHierarchy::access] accesses an
    Inclusive L2 a second time, when the access is a read or L1 allocates
    on writes. *)
Definition second_l2_access (l1Config l2Config : CacheConfig) (type : AccessType)
  : bool :=
  bool_decide (inclusionPolicy l2Config = Inclusive)
  && (bool_decide (type = Read) || writeAllocate l1Config).

(** A miss of this type allocates in a cache with this configuration. *)
Definition allocates (config : CacheConfig) (type : AccessType) : bool :=
  bool_decide (type = Read) || writeAllocate config.

(** The latency that [CacheHierarchy::access] returns in a two-level
    hierarchy, given whether L1 and L2 held the address. *)
Definition hierarchy_latency (l1Config l2Config : CacheConfig) (type : AccessType)
           (inL1 inL2 : bool) : Z :=
  wrap64 (accessLatency l1Config
          + (if inL1 then 0
             else accessLatency l2Config
                  + (if negb inL2 && second_l2_access l1Config l2Config type
                     then accessLatency l2Config else 0))).

(** By how much the hit and miss counters of L2 advance. *)
Definition l2_hits_step (l1Config l2Config : CacheConfig) (type : AccessType)
           (inL1 inL2 : bool) : Z :=
  if inL1 then 0
  else if inL2 then 1
       else if second_l2_access l1Config l2Config type && allocates l2Config type
            then 1 else 0.

Definition l2_misses_step (l1Config l2Config : CacheConfig) (type : AccessType)
           (inL1 inL2 : bool) : Z :=
  if inL1 then 0
  else if inL2 then 0
       else if second_l2_access l1Config l2Config type && negb (allocates l2Config type)
            then 2 else 1.

(** ** Hierarchies under a trace, and the loop of metrics.cpp *)

(** [h] is a two-level hierarchy made of freshly constructed caches and then
    driven through some accesses. *)
Definition hierarchy_reachable (l1Config l2Config : CacheConfig) (rd : nat → nat)
           (h : CacheHierarchy.t) : Prop :=
  ∃ h0 trace, two_level l1Config l2Config rd = Some h0
              ∧ Forall (λ access : Z * AccessType, uint64 access.1) trace
              ∧ run_trace h0 trace = Some h.







(** ** Arbitrary use of a replacement policy *)

(** A call of [onAccess(set, way)] or of [getVictim(set, numWays)]. *)
Inductive PolicyCall := OnAccess (set way : nat) | GetVictim (set : nat).

(** [onAccess] is only told ways of the set. *)
Definition policy_call_in_range (numWays : nat) (call : PolicyCall) : Prop :=
  match call with
  | OnAccess _ way => (way < numWays)%nat
  | GetVictim _ => True
  end.

(** The policy after a list of calls, all with the same [numWays], and the
    ways that the [getVictim] calls returned. *)
Fixpoint policy_calls (p : ReplacementPolicy) (numWays : nat) (calls : list PolicyCall)
  : option (ReplacementPolicy * list nat) :=
  match calls with
  | [] => Some (p, [])
  | OnAccess set way :: calls' =>
      policy_calls (Policy.onAccess p set way) numWays calls'
  | GetVictim set :: calls' =>
      '(p, way) ← Policy.getVictim p set numWays;
      '(p, ways) ← policy_calls p numWays calls';
      Some (p, way :: ways)
  end.

(** The number of [getVictim] calls in a list of calls. *)
Fixpoint victim_calls (calls : list PolicyCall) : nat :=
  match calls with
  | [] => 0%nat
  | OnAccess _ _ :: calls' => victim_calls calls'
  | GetVictim _ :: calls' => S (victim_calls calls')
  end.

(** ** address.cpp: [MemoryAddress::getBits] *)

(** The loop [for (uint8_t i = start; i <= end; ++i) if (i < ADDRESS_WIDTH)
    mask |= (1ULL << i);] with [count] iterations left. *)
Fixpoint getBits_mask (i : Z) (count : nat) (mask : Z) : option Z :=
  match count with
  | O => Some mask
  | S count' =>
      mask ← (if decide (i < ADDRESS_WIDTH)
               then one ← shl64 1 i; Some (Z.lor mask one)
               else Some mask);
      getBits_mask (i + 1) count' mask
  end.

(** [MemoryAddress::getBits(start, end)] for [uint8_t] arguments: the two
    are swapped if out of order, [end] is clamped to 63, and a [start] of
    64 or more gives 0. *)
Definition getBits (address_ start end_ : Z) : option Z :=
  let '(start, end_) := if decide (end_ < start) then (end_, start) else (start, end_) in
  let end_ := if decide (ADDRESS_WIDTH ≤ end_) then ADDRESS_WIDTH - 1 else end_ in
  if decide (ADDRESS_WIDTH ≤ start) then Some 0
  else
    mask ← getBits_mask start (Z.to_nat (end_ - start + 1)) 0;
    shr64 (Z.land address_ mask) start.

(** The values of a [uint8_t]. *)
Definition uint8 (z : Z) : Prop := 0 ≤ z < 256.

(** ** memory.cpp: [SyntheticTraceSource]

    The generator [rng_] is modelled by the sequence of raw values it will
    produce and the number of values drawn so far; the two distributions
    map a raw value into their range. *)

(** [std::uniform_int_distribution<uint64_t>(a, b)] applied to a raw
    value: a value in [a, b]; constructing it with [b < a] is undefined. *)
Definition uniform_int (a b raw : Z) : option Z :=
  if decide (a ≤ b) then Some (a + raw mod (b - a + 1)) else None.

(** [std::uniform_real_distribution<double>(0.0, 1.0)] applied to a raw
    value: a multiple of 2^-53 in [0, 1). *)
Definition uniform_real (raw : Z) : Q :=
  (inject_Z (raw mod 2 ^ 53) / inject_Z (2 ^ 53))%Q.

Module SyntheticTraceSource.

Inductive Pattern := Sequential | Random | Strided | Looping.

Record t := mk {
  pattern_ : Pattern;
  startAddress_ : Z;
  endAddress_ : Z;
  numAccesses_ : Z;
  readRatio_ : Q;
  currentAccess_ : Z;
  rng_ : nat → Z;
  drawn_ : nat;
  loopAddresses_ : list Z
}.

Definition set_current (s : t) (currentAccess : Z) : t :=
  {| pattern_ := pattern_ s; startAddress_ := startAddress_ s;
     endAddress_ := endAddress_ s; numAccesses_ := numAccesses_ s;
     readRatio_ := readRatio_ s; currentAccess_ := currentAccess;
     rng_ := rng_ s; drawn_ := drawn_ s; loopAddresses_ := loopAddresses_ s |}.

Definition set_drawn (s : t) (drawn : nat) : t :=
  {| pattern_ := pattern_ s; startAddress_ := startAddress_ s;
     endAddress_ := endAddress_ s; numAccesses_ := numAccesses_ s;
     readRatio_ := readRatio_ s; currentAccess_ := currentAccess_ s;
     rng_ := rng_ s; drawn_ := drawn; loopAddresses_ := loopAddresses_ s |}.

(** The loop of the constructor that fills [loopAddresses_]. *)
Fixpoint loop_addresses (rng : nat → Z) (drawn : nat) (a b : Z) (count : nat)
  : option (list Z * nat) :=
  match count with
  | O => Some ([], drawn)
  | S count' =>
      address ← uniform_int a b (rng drawn);
      '(rest, drawn') ← loop_addresses rng (S drawn) a b count';
      Some (address :: rest, drawn')
  end.

(** The constructor. *)
Definition new (pattern : Pattern) (startAddress endAddress numAccesses : Z)
           (readRatio : Q) (rng : nat → Z) : option t :=
  '(loopAddresses, drawn) ←
    match pattern with
    | Looping =>
        let loopSize := Z.min 100 (wrap64 (endAddress - startAddress)) in
        if decide (startAddress ≤ endAddress)
        then loop_addresses rng 0 startAddress endAddress (Z.to_nat loopSize)
        else None
    | _ => Some ([], 0%nat)
    end;
  Some {| pattern_ := pattern; startAddress_ := startAddress;
          endAddress_ := endAddress; numAccesses_ := numAccesses;
          readRatio_ := readRatio; currentAccess_ := 0;
          rng_ := rng; drawn_ := drawn; loopAddresses_ := loopAddresses |}.

(** [x % y] on [uint64_t]; undefined for [y = 0]. *)
Definition umod (x y : Z) : option Z :=
  if decide (y = 0) then None else Some (x mod y).

(** [generateAddress] *)
Definition generateAddress (s : t) : option (Z * t) :=
  match pattern_ s with
  | Sequential =>
      r ← umod (currentAccess_ s) (wrap64 (endAddress_ s - startAddress_ s));
      Some (wrap64 (startAddress_ s + r), s)
  | Random =>
      address ← uniform_int (startAddress_ s) (wrap64 (endAddress_ s - 1))
                            (rng_ s (drawn_ s));
      Some (address, set_drawn s (S (drawn_ s)))
  | Strided =>
      let stride := 64 in
      r ← umod (wrap64 (currentAccess_ s * stride))
               (wrap64 (endAddress_ s - startAddress_ s));
      Some (wrap64 (startAddress_ s + r), s)
  | Looping =>
      i ← umod (currentAccess_ s) (Z.of_nat (length (loopAddresses_ s)));
      address ← loopAddresses_ s !! Z.to_nat i;
      Some (address, s)
  end.

(** [generateAccessType] *)
Definition generateAccessType (s : t) : AccessType * t :=
  (if Qlt_le_dec (uniform_real (rng_ s (drawn_ s))) (readRatio_ s) then Read else Write,
   set_drawn s (S (drawn_ s))).

(** [getNextAccess]: [Some (None, _)] is [std::nullopt]. *)
Definition getNextAccess (s : t) : option (option (Z * AccessType) * t) :=
  if decide (numAccesses_ s ≤ currentAccess_ s) then Some (None, s)
  else
    '(addr, s) ← generateAddress s;
    let '(type, s) := generateAccessType s in
    let s := set_current s (wrap64 (currentAccess_ s + 1)) in
    Some (Some (addr, type), s).

(** [reset] *)
Definition reset (s : t) : t := set_current s 0.

End SyntheticTraceSource.

(** The accesses that [while (auto access = source->getNextAccess())]
    sees, for at most [fuel] calls; the flag says whether the source
    ended with [std::nullopt]. *)
Fixpoint drain (fuel : nat) (s : SyntheticTraceSource.t)
  : option (list (Z * AccessType) * bool * SyntheticTraceSource.t) :=
  match fuel with
  | O => Some ([], false, s)
  | S fuel' =>
      '(next, s) ← SyntheticTraceSource.getNextAccess s;
      match next with
      | None => Some ([], true, s)
      | Some access =>
          '(rest, ended, s) ← drain fuel' s;
          Some (access :: rest, ended, s)
      end
  end.

(** ** Trace files: [MemoryAddress::toString] and the line parser of
       [FileTraceSource::getNextAccess]

    Lines are lists of characters. *)

From Stdlib Require Import Ascii.

(** The digit [0 .. 15] as [std::hex] prints it. *)
Definition hex_char (d : Z) : ascii :=
  nth (Z.to_nat d) (String.list_ascii_of_string "0123456789abcdef") "0"%char.

(** The last [width] hexadecimal digits of a number, most significant
    first. *)
Fixpoint to_hex (width : nat) (a : Z) : list ascii :=
  match width with
  | O => []
  | S width' => to_hex width' (a / 16) ++ [hex_char (a mod 16)]
  end.

(** [MemoryAddress::toString]: ["0x"] and the address as 16 hexadecimal
    digits, padded with zeros. *)
Definition toString (address_ : Z) : list ascii :=
  String.list_ascii_of_string "0x" ++ to_hex 16 address_.

(** [isspace] in the "C" locale. *)
Definition isspace (c : ascii) : bool :=
  let n := nat_of_ascii c in
  (n =? 32)%nat || ((9 <=? n)%nat && (n <=? 13)%nat).

(** [iss >> str]: leading white space is skipped, then characters are
    taken up to the next white space or the end.  Returns the token and
    the rest of the stream. *)
Fixpoint skip_space (s : list ascii) : list ascii :=
  match s with
  | c :: s' => if isspace c then skip_space s' else s
  | [] => []
  end.

Fixpoint take_token (s : list ascii) : list ascii * list ascii :=
  match s with
  | c :: s' =>
      if isspace c then ([], s)
      else let '(token, rest) := take_token s' in (c :: token, rest)
  | [] => ([], [])
  end.

Definition extract (s : list ascii) : list ascii * list ascii :=
  take_token (skip_space s).

(** The value of a hexadecimal digit. *)
Definition hex_digit (c : ascii) : option Z :=
  let n := Z.of_nat (nat_of_ascii c) in
  if decide (48 ≤ n ≤ 57) then Some (n - 48)
  else if decide (97 ≤ n ≤ 102) then Some (n - 87)
  else if decide (65 ≤ n ≤ 70) then Some (n - 55)
  else None.

(** The number that the leading hexadecimal digits of [s] denote, after
    [acc]. *)
Fixpoint hex_digits (acc : Z) (s : list ascii) : Z :=
  match s with
  | c :: s' =>
      match hex_digit c with
      | Some d => hex_digits (acc * 16 + d) s'
      | None => acc
      end
  | [] => acc
  end.

(** [std::stoull(str, nullptr, 16)]: white space, an optional sign, an
    optional ["0x"] or ["0X"] in front of a digit, then as many digits as
    there are; what follows is ignored.  [None] stands for the exception
    ([std::invalid_argument] without a digit, [std::out_of_range] above
    2^64 - 1).  A minus sign negates the value as a 64-bit number. *)
Definition stoull16 (s : list ascii) : option Z :=
  let s := skip_space s in
  let '(negative, s) :=
    match s with
    | c :: s' =>
        if decide (c = "+"%char) then (false, s')
        else if decide (c = "-"%char) then (true, s')
        else (false, s)
    | [] => (false, s)
    end in
  let s :=
    match s with
    | zero :: x :: d :: s' =>
        if bool_decide (zero = "0"%char)
           && (bool_decide (x = "x"%char) || bool_decide (x = "X"%char))
           && bool_decide (is_Some (hex_digit d))
        then d :: s' else s
    | _ => s
    end in
  match s with
  | c :: _ =>
      if decide (is_Some (hex_digit c)) then
        let value := hex_digits 0 s in
        if decide (value < UINT64_MODULUS)
        then Some (if negative then wrap64 (- value) else value)
        else None
      else None
  | [] => None
  end.

(** What [FileTraceSource::getNextAccess] does with a line that
    [std::getline] delivered: the access, or one of its two
    [std::runtime_error]s. *)
Inductive LineResult :=
| LineAccess (address : Z) (type : AccessType)
| InvalidAddressFormat
| InvalidAccessType.

Definition parse_line (line : list ascii) : LineResult :=
  let '(addrStr, rest) := extract line in
  let typeStr := if decide (addrStr = []) then [] else (extract rest).1 in
  match stoull16 addrStr with
  | None => InvalidAddressFormat
  | Some addr =>
      if decide (typeStr = ["R"%char] ∨ typeStr = ["r"%char]) then LineAccess addr Read
      else if decide (typeStr = ["W"%char] ∨ typeStr = ["w"%char])
           then LineAccess addr Write
           else InvalidAccessType
  end.

(** The letter of an access type in a trace file. *)
Definition type_letter (type : AccessType) : ascii :=
  match type with Read => "R"%char | Write => "W"%char end.

(** ** Hierarchies that differ only in what the eviction tracker remembers *)

(** The same levels, and trackers that agree on the flag and, when the
    flag is set, on the address and the entry. *)
Definition same_hierarchy (h h' : CacheHierarchy.t) : Prop :=
  CacheHierarchy.caches_ h = CacheHierarchy.caches_ h'
  ∧ hasEviction (CacheHierarchy.evictionTracker_ h)
    = hasEviction (CacheHierarchy.evictionTracker_ h')
  ∧ (hasEviction (CacheHierarchy.evictionTracker_ h) = true →
     CacheHierarchy.evictionTracker_ h = CacheHierarchy.evictionTracker_ h').

(** What a trace returns, access by access: (latency, hit in a cache). *)
Fixpoint run_results (h : CacheHierarchy.t) (trace : list (Z * AccessType))
  : option (list (Z * bool)) :=
  match trace with
  | [] => Some []
  | (address, type) :: trace' =>
      '(h, result) ← CacheHierarchy.access h address type;
      results ← run_results h trace';
      Some (result :: results)
  end.
(** * Properties *)

(** Inversion of a successful run of code written in the option monad. *)
Ltac option_inv :=
  repeat match goal with
  | H : (_ ≫= _) = Some _ |- _ => apply bind_Some in H as (? & ? & H)
  | H : (let '(_, _) := ?x in _) = Some _ |- _ => destruct x
  | H : (if ?b then _ else _) = Some _ |- _ =>
      match type of b with
      | bool => let E := fresh "Hb" in destruct b eqn:E
      | _ => destruct b
      end
  | H : Some _ = Some _ |- _ => injection H as H
  | H : None = Some _ |- _ => discriminate H
  | H : (_, _) = (_, _) |- _ => injection H as ? H
  end.

(** ** Address decoding *)

Section decode.

Lemma pow2_64 : UINT64_MODULUS = 18446744073709551616.
Proof. reflexivity. Qed.

Lemma wrap64_small z : 0 ≤ z < UINT64_MODULUS → wrap64 z = z.
Proof. intros. unfold wrap64. apply Z.mod_small. lia. Qed.

Lemma wrap64_range z : 0 ≤ wrap64 z < UINT64_MODULUS.
Proof. unfold wrap64. apply Z.mod_pos_bound. rewrite pow2_64. lia. Qed.

Lemma pow2_lt_modulus n : 0 ≤ n < 64 → 0 < 2 ^ n < UINT64_MODULUS.
Proof.
  intros. split; [apply Z.pow_pos_nonneg; lia|].
  unfold UINT64_MODULUS. apply Z.pow_lt_mono_r; lia.
Qed.

Lemma pow2_ge_modulus n : 64 ≤ n → UINT64_MODULUS ≤ 2 ^ n.
Proof. intros. unfold UINT64_MODULUS. apply Z.pow_le_mono_r; lia. Qed.

(** The mask [(1ULL << n) - 1] is [n] ones. *)
Lemma mask_ones n :
  0 ≤ n < 64 → (one ← shl64 1 n; Some (wrap64 (one - 1))) = Some (Z.ones n).
Proof.
  intros Hn. unfold shl64, ADDRESS_WIDTH. rewrite decide_True by lia. simpl.
  rewrite Z.shiftl_1_l. pose proof (pow2_lt_modulus n Hn).
  rewrite (wrap64_small (2 ^ n)) by lia.
  rewrite wrap64_small by lia. rewrite Z.ones_equiv. f_equal; lia.
Qed.

Lemma getTag_spec a B S :
  0 ≤ a < UINT64_MODULUS → 0 ≤ B → 0 ≤ S →
  MemoryAddress.getTag a B S = Some (a / 2 ^ (B + S)).
Proof.
  intros Ha HB HS. unfold MemoryAddress.getTag, shr64, ADDRESS_WIDTH.
  destruct (decide (64 ≤ B + S)) as [Hge|Hlt].
  - f_equal. symmetry. apply Z.div_small.
    pose proof (pow2_ge_modulus (B + S) Hge). lia.
  - rewrite decide_True by lia. f_equal. apply Z.shiftr_div_pow2. lia.
Qed.

Lemma getIndex_spec a B S :
  0 ≤ a < UINT64_MODULUS → 0 ≤ B → 0 ≤ S →
  MemoryAddress.getIndex a B S = Some ((a / 2 ^ B) mod 2 ^ S).
Proof.
  intros Ha HB HS. unfold MemoryAddress.getIndex, ADDRESS_WIDTH.
  destruct (decide (S = 0)) as [->|HS0].
  { by rewrite Z.pow_0_r, Z.mod_1_r. }
  destruct (decide (64 ≤ B)) as [Hge|Hlt].
  { pose proof (pow2_ge_modulus B Hge).
    rewrite (Z.div_small a) by lia. by rewrite Zmod_0_l. }
  unfold shr64, ADDRESS_WIDTH. rewrite decide_True by lia. simpl.
  rewrite Z.shiftr_div_pow2 by lia.
  assert (0 ≤ a / 2 ^ B < UINT64_MODULUS) as Hq.
  { split; [apply Z.div_pos; [lia|apply Z.pow_pos_nonneg; lia]|].
    apply Z.le_lt_trans with a; [|lia].
    apply Z.div_le_upper_bound; [apply Z.pow_pos_nonneg; lia|].
    assert (0 < 2 ^ B) by (apply Z.pow_pos_nonneg; lia). nia. }
  destruct (decide (64 ≤ S)) as [HgeS|HltS].
  { pose proof (pow2_ge_modulus S HgeS). by rewrite Z.mod_small by lia. }
  pose proof (mask_ones S ltac:(lia)) as Hm.
  destruct (shl64 1 S) as [one|] eqn:Hone; simpl in *; [|done].
  injection Hm as ->. by rewrite Z.land_ones by lia.
Qed.

Lemma getBlockOffset_spec a B :
  0 ≤ a < UINT64_MODULUS → 0 ≤ B →
  MemoryAddress.getBlockOffset a B = Some (a mod 2 ^ B).
Proof.
  intros Ha HB. unfold MemoryAddress.getBlockOffset, ADDRESS_WIDTH.
  destruct (decide (B = 0)) as [->|HB0].
  { by rewrite Z.pow_0_r, Z.mod_1_r. }
  destruct (decide (64 ≤ B)) as [Hge|Hlt].
  { pose proof (pow2_ge_modulus B Hge). by rewrite Z.mod_small by lia. }
  pose proof (mask_ones B ltac:(lia)) as Hm.
  destruct (shl64 1 B) as [one|] eqn:Hone; simpl in *; [|done].
  injection Hm as ->. by rewrite Z.land_ones by lia.
Qed.

End decode.

(** C9: for every 64-bit address and widths [B], [S] with [B + S <= 64], the
    three decode functions return a value (no shift by 64 or more is ever
    evaluated, also for [S = 0] and [B + S = 64]); the values are the bit
    fields of the address; and for [S = 0] the index is 0 and the tag is the
    address shifted right by [B]. *)
Theorem decode_total_and_fully_associative_case (a B S : Z) :
  0 ≤ a < UINT64_MODULUS → 0 ≤ B → 0 ≤ S → B + S ≤ 64 →
  MemoryAddress.getTag a B S = Some (a / 2 ^ (B + S))
  ∧ MemoryAddress.getIndex a B S = Some ((a / 2 ^ B) mod 2 ^ S)
  ∧ MemoryAddress.getBlockOffset a B = Some (a mod 2 ^ B)
  ∧ (S = 0 →
     MemoryAddress.getIndex a B S = Some 0
     ∧ MemoryAddress.getTag a B S = Some (Z.shiftr a B)).
Proof.
  intros Ha HB HS _. repeat split.
  - by apply getTag_spec.
  - by apply getIndex_spec.
  - by apply getBlockOffset_spec.
  - subst S. rewrite getIndex_spec by done. by rewrite Z.pow_0_r, Z.mod_1_r.
  - subst S. rewrite getTag_spec by done.
    by rewrite Z.add_0_r, Z.shiftr_div_pow2 by done.
Qed.

Lemma decode_total_and_fully_associative_case_witness :
  MemoryAddress.getTag 18446744073709551615 64 0 = Some 0
  ∧ MemoryAddress.getIndex 18446744073709551615 64 0 = Some 0
  ∧ MemoryAddress.getBlockOffset 18446744073709551615 64
    = Some 18446744073709551615.
Proof.
  destruct (decode_total_and_fully_associative_case 18446744073709551615 64 0)
    as (Ht & Hi & Ho & _).
  - rewrite pow2_64. lia.
  - lia.
  - lia.
  - lia.
  - rewrite Ht, Hi, Ho. repeat split; reflexivity.
Defined.


(** The unguarded decode functions of the earlier address.cpp do shift by 64
    when [B + S = 64] or [B = 64]: they are undefined there. *)
Lemma unguarded_decode_shifts_by_64 :
  MemoryAddressUnguarded.getTag 0 58 6 = None
  ∧ MemoryAddressUnguarded.getIndex 0 64 0 = None
  ∧ MemoryAddressUnguarded.getBlockOffset 0 64 = None.
Proof. repeat split. Qed.

(** ** Single-level scenarios *)

(** C4: on a direct-mapped cache of 256 B with 64 B blocks, the reads at
    0x0, 0x0, 0x100, 0x0, 0x40, 0x100 give MISS, HIT, MISS, MISS, MISS, MISS
    (0x100 shares set 0 with 0x0 and was displaced by the fourth access),
    leaving hits = 1 and misses = 5. *)
Theorem scenario1_outcomes :
  outcomes_of scenario1_config scenario1_trace
  = Some ([false; true; false; false; false; false], 1, 5).
Proof. vm_compute. reflexivity. Qed.

(** The outcomes MISS, HIT, MISS, MISS, MISS, HIT with hits = 2 and
    misses = 4 are not what the cache produces. *)
Lemma scenario1_expected_outcomes_fail :
  outcomes_of scenario1_config scenario1_trace
  ≠ Some ([false; true; false; false; false; true], 2, 4).
Proof. vm_compute. discriminate. Qed.

(** 0x0 and 0x100 decode to the same set of this cache, with tags 0 and 1. *)
Lemma scenario1_conflict :
  (c ← match Cache.new scenario1_config no_entropy with
       | inr c => Some c | inl _ => None end;
   s0 ← Cache.getSetAndTag c 0x0;
   s1 ← Cache.getSetAndTag c 0x100;
   Some (s0, s1)) = Some ((0%nat, 0), (0%nat, 1)).
Proof. vm_compute. reflexivity. Qed.

(** C5: a read of 0x100 after a read of 0x0 misses, allocates, and displaces
    the valid entry of 0x0; the result carries the reconstructed address 0x0
    but no evicted entry. *)
Theorem access_drops_evicted_entry :
  entry_after scenario1_config [(0x0, Read)] 0 0
  = Some {| valid_ := true; dirty_ := false; tag_ := 0 |}
  ∧ result_after scenario1_config [(0x0, Read)] 0x100 Read
    = Some {| hit := false; latency := 1; writeBackTriggered := false;
              evictedAddress := Some 0x0; evictedEntry := None |}.
Proof. split; vm_compute; reflexivity. Qed.

(** No result of [Cache::access] carries an evicted entry: the field of the
    allocation result is not copied. *)
Lemma access_evictedEntry_none c address type c' result :
  Cache.access c address type = Some (c', result) → evictedEntry result = None.
Proof.
  unfold Cache.access. intros H.
  apply bind_Some in H as ([set tag] & Hst & H).
  apply bind_Some in H as (wayOpt & Hfind & H).
  destruct wayOpt as [way|]; option_inv; subst; done.
Qed.

(** ** The two FIFO variants *)

(** C6: with two ways and four consecutive misses, the circular-counter FIFO
    evicts ways 0, 1, 0, 1, while the queue-based FIFO, which never removes
    the front of its queue, evicts 0, 1, 0, 0: on the fourth miss it returns
    the way it refilled last instead of the oldest-installed way 1. *)
Theorem fifo_variants_diverge :
  circular_victims (FIFOPolicy ∅ ∅) 0 2 [MissEvent; MissEvent; MissEvent; MissEvent]
  = Some [0; 1; 0; 1]%nat
  ∧ queue_victims ∅ 0 2 [MissEvent; MissEvent; MissEvent; MissEvent]
    = Some [0; 1; 0; 0]%nat.
Proof. split; vm_compute; reflexivity. Qed.

(** ** Two-level scenarios *)

(** C1: in the small Inclusive hierarchy, reading 0x0 and then 0x100 leaves
    0x0 valid in L1 and absent from L2: the allocation of 0x100 in L2
    displaced 0x0 there, and nothing invalidated it in L1.  In the geometry
    of Scenario 4, 0x3000 is in both levels while seven other blocks of its
    set have been read; the eighth displaces it from L2 and it stays valid
    in L1. *)
Theorem inclusive_eviction_not_back_invalidated :
  residency_after inclusive_l1 inclusive_l2 [(0x0, Read)] 0x0 = Some (true, true)
  ∧ residency_after inclusive_l1 inclusive_l2 [(0x0, Read); (0x100, Read)] 0x0
    = Some (true, false)
  ∧ residency_after scenario4_l1 scenario4_l2 (hot_block_trace 7) 0x3000
    = Some (true, true)
  ∧ residency_after scenario4_l1 scenario4_l2 (hot_block_trace 8) 0x3000
    = Some (true, false).
Proof. repeat split; vm_compute; reflexivity. Qed.

(** C3: in the Exclusive hierarchy whose L1 does not write-allocate, after
    reads of 0x0 and 0x40 the block 0x40 is in L1 and 0x0 in L2; the write to
    0x0 hits L2, is promoted to L1 and displaces the clean block 0x40, which
    then is in neither level. *)
Theorem clean_victim_of_promotion_is_lost :
  residency_after nwa_l1 exclusive_l2 [(0x0, Read); (0x40, Read)] 0x40
  = Some (true, false)
  ∧ residency_after nwa_l1 exclusive_l2 [(0x0, Read); (0x40, Read)] 0x0
    = Some (false, true)
  ∧ residency_after nwa_l1 exclusive_l2
      [(0x0, Read); (0x40, Read); (0x0, Write)] 0x0 = Some (true, false)
  ∧ residency_after nwa_l1 exclusive_l2
      [(0x0, Read); (0x40, Read); (0x0, Write)] 0x40 = Some (false, false).
Proof. repeat split; vm_compute; reflexivity. Qed.


(** ** Construction *)

(** C8: each of the three configurations is invalid in the sense of the
    specification, and none of them is rejected at construction.  With a
    size of 200 and a block size of 48 the constructor returns a cache of
    four sets, which then works with blocks of 32 bytes: after a read of
    address 0, address 32 of the same configured block is not contained.
    With associativity above [size / blockSize] it returns a cache without
    sets, and the first access indexes past the end of [cacheEntries_].
    With a block size of zero [getNumSets] divides by zero. *)
Lemma invalid_geometry_not_rejected :
  invalid_geometry non_power_of_two_config = true
  ∧ invalid_geometry over_associative_config = true
  ∧ invalid_geometry zero_block_config = true
  ∧ (∃ c c' result,
       Cache.new non_power_of_two_config no_entropy = inr c
       ∧ length (Cache.cacheEntries_ c) = 4%nat
       ∧ Cache.access c 0 Read = Some (c', result)
       ∧ Cache.contains c' 32 = Some false)
  ∧ (∃ c,
       Cache.new over_associative_config no_entropy = inr c
       ∧ Cache.cacheEntries_ c = []
       ∧ Cache.access c 0 Read = None)
  ∧ Cache.new zero_block_config no_entropy = inl DivisionByZero.
Proof.
  split; [by vm_compute|]. split; [by vm_compute|]. split; [by vm_compute|].
  split; [|split].
  - destruct (Cache.new non_power_of_two_config no_entropy) as [|c] eqn:Hnew;
      [vm_compute in Hnew; discriminate|].
    destruct (Cache.access c 0 Read) as [[c' result]|] eqn:Haccess.
    2:{ vm_compute in Hnew. injection Hnew as <-. vm_compute in Haccess. discriminate. }
    exists c, c', result. split; [reflexivity|].
    vm_compute in Hnew. injection Hnew as <-.
    split; [by vm_compute|]. split; [exact Haccess|].
    vm_compute in Haccess. injection Haccess as <- _. by vm_compute.
  - destruct (Cache.new over_associative_config no_entropy) as [|c] eqn:Hnew;
      [vm_compute in Hnew; discriminate|].
    exists c. split; [reflexivity|].
    vm_compute in Hnew. injection Hnew as <-. split; by vm_compute.
  - by vm_compute.
Qed.

(** With associativity above [size / blockSize] the constructed cache has no
    sets, and the first access indexes past the end of [cacheEntries_]. *)
Lemma over_associative_fails_at_first_access :
  (match Cache.new over_associative_config no_entropy with
   | inr c => Some (length (Cache.cacheEntries_ c), Cache.access c 0 Read)
   | inl _ => None
   end) = Some (0%nat, None).
Proof. vm_compute. reflexivity. Qed.

(** ** Facts about one cache level *)

Section cache_facts.

Lemma find_way_Some row tag way :
  Cache.find_way row tag = Some way ↔
  ∃ entry, row !! way = Some entry ∧ valid_ entry = true ∧ tag_ entry = tag
           ∧ ∀ j e, row !! j = Some e → (j < way)%nat →
                    ¬ (valid_ e = true ∧ tag_ e = tag).
Proof.
  unfold Cache.find_way. rewrite fmap_Some. split.
  - intros ([i e] & Hf & ->). apply list_find_Some in Hf as (Hl & [Hv Ht] & Hmin).
    exists e. simpl. eauto.
  - intros (e & Hl & Hv & Ht & Hmin). exists (way, e). split; [|done].
    apply list_find_Some. eauto.
Qed.

Lemma find_way_None row tag :
  Cache.find_way row tag = None ↔
  ∀ j e, row !! j = Some e → ¬ (valid_ e = true ∧ tag_ e = tag).
Proof.
  unfold Cache.find_way. rewrite fmap_None, list_find_None, Forall_lookup.
  done.
Qed.

Lemma find_way_lt row tag way :
  Cache.find_way row tag = Some way → (way < length row)%nat.
Proof.
  intros (e & Hl & _)%find_way_Some. by eapply lookup_lt_Some.
Qed.

(** What a hit of [Cache::access] looks like. *)
Lemma access_hit_inv c address type c' result :
  Cache.access c address type = Some (c', result) → hit result = true →
  ∃ set tag way,
    Cache.getSetAndTag c address = Some (set, tag)
    ∧ Cache.findEntry c set tag = Some (Some way)
    ∧ Cache.config_ c' = Cache.config_ c
    ∧ result = {| hit := true; latency := accessLatency (Cache.config_ c);
                  writeBackTriggered := false;
                  evictedAddress := None; evictedEntry := None |}.
Proof.
  unfold Cache.access. intros H Hhit.
  apply bind_Some in H as ([set tag] & Hst & H).
  apply bind_Some in H as (wayOpt & Hfind & H).
  destruct wayOpt as [way|].
  - exists set, tag, way. split; [done|]. split; [done|]. option_inv; subst; done.
  - option_inv; subst; simpl in *; done.
Qed.

(** When the tag is found, [Cache::getEntry] returns the entry. *)
Lemma getEntry_found c address set tag way :
  Cache.getSetAndTag c address = Some (set, tag) →
  Cache.findEntry c set tag = Some (Some way) →
  ∃ entry, Cache.getEntry c address = Some (Some entry).
Proof.
  intros Hst Hfind. unfold Cache.getEntry. rewrite Hst. simpl. rewrite Hfind. simpl.
  unfold Cache.findEntry in Hfind.
  destruct (Cache.cacheEntries_ c !! set) as [row|]; simpl in *; [|done].
  injection Hfind as Hfind. apply find_way_Some in Hfind as (e & -> & _).
  simpl. eauto.
Qed.

End cache_facts.

(** ** The L1-hit path of the hierarchy *)

(** C10: when the access to L1 hits, [CacheHierarchy::access] completes,
    returns L1's latency with [hitInCache = true], replaces level 0 by the
    accessed L1 and leaves every lower level (entries, counters, replacement
    state, configuration) as it was; the driver then performs no main-memory
    access, for reads and for writes, write-back or write-through. *)
Theorem l1_hit_leaves_lower_levels
        (h : CacheHierarchy.t) (m : MainMemory.t) (address : Z) (type : AccessType)
        (l1 l1' : Cache.t) (result : CacheResult) :
  CacheHierarchy.caches_ h !! 0%nat = Some l1 →
  Cache.access l1 address type = Some (l1', result) →
  hit result = true →
  ∃ h',
    CacheHierarchy.access h address type
    = Some (h', (wrap64 (accessLatency (Cache.config_ l1)), true))
    ∧ CacheHierarchy.caches_ h' = <[0%nat := l1']> (CacheHierarchy.caches_ h)
    ∧ (∀ i, (0 < i)%nat →
            CacheHierarchy.caches_ h' !! i = CacheHierarchy.caches_ h !! i)
    ∧ run_access h m address type
      = Some (h', m, wrap64 (accessLatency (Cache.config_ l1))).
Proof.
  intros Hl1 Hacc Hhit.
  destruct (access_hit_inv _ _ _ _ _ Hacc Hhit) as (set & tag & way & Hst & Hfind & Hcfg & ->).
  destruct (getEntry_found _ _ _ _ _ Hst Hfind) as (entry & Hentry).
  assert (∃ h', CacheHierarchy.access h address type
                = Some (h', (wrap64 (accessLatency (Cache.config_ l1)), true))
                ∧ CacheHierarchy.caches_ h' = <[0%nat := l1']> (CacheHierarchy.caches_ h))
    as (h' & Hh' & Hcaches).
  { unfold CacheHierarchy.access. simpl. unfold CacheHierarchy.hasExclusiveL2. simpl.
    rewrite Hl1. simpl.
    destruct (match CacheHierarchy.caches_ h !! 1%nat with
              | Some l2 => _ | None => false end);
      [rewrite Hentry|]; simpl; rewrite Hacc; simpl; eauto. }
  exists h'. split; [done|]. split; [done|]. split.
  - intros i Hi. rewrite Hcaches. apply list_lookup_insert_ne. lia.
  - unfold run_access. rewrite Hh'. done.
Qed.

Lemma l1_hit_leaves_lower_levels_witness :
  ∃ h l1 l1' result h',
    two_level inclusive_l1 inclusive_l2 no_entropy ≫= (λ h0, run_trace h0 [(0x0, Write)])
    = Some h
    ∧ CacheHierarchy.caches_ h !! 0%nat = Some l1
    ∧ Cache.access l1 0x0 Write = Some (l1', result)
    ∧ hit result = true
    ∧ CacheHierarchy.access h 0x0 Write = Some (h', (1, true))
    ∧ CacheHierarchy.caches_ h' !! 1%nat = CacheHierarchy.caches_ h !! 1%nat
    ∧ run_access h (MainMemory.new 100) 0x0 Write = Some (h', MainMemory.new 100, 1).
Proof.
  destruct (two_level inclusive_l1 inclusive_l2 no_entropy
              ≫= (λ h0, run_trace h0 [(0x0, Write)])) as [h|] eqn:Hh;
    [|vm_compute in Hh; discriminate].
  destruct (CacheHierarchy.caches_ h !! 0%nat) as [l1|] eqn:Hl1;
    [|vm_compute in Hh; injection Hh as <-; vm_compute in Hl1; discriminate].
  destruct (Cache.access l1 0x0 Write) as [[l1' result]|] eqn:Hacc;
    [|vm_compute in Hh; injection Hh as <-; vm_compute in Hl1; injection Hl1 as <-;
      vm_compute in Hacc; discriminate].
  assert (hit result = true) as Hhit.
  { vm_compute in Hh; injection Hh as <-. vm_compute in Hl1; injection Hl1 as <-.
    vm_compute in Hacc. injection Hacc as _ <-. reflexivity. }
  assert (accessLatency (Cache.config_ l1) = 1) as Hlat.
  { vm_compute in Hh; injection Hh as <-. vm_compute in Hl1; injection Hl1 as <-.
    reflexivity. }
  destruct (l1_hit_leaves_lower_levels h (MainMemory.new 100) 0x0 Write l1 l1' result
              Hl1 Hacc Hhit) as (h' & Ha & _ & Hlow & Hrun).
  rewrite Hlat in Ha, Hrun. change (wrap64 1) with 1 in Ha, Hrun.
  exists h, l1, l1', result, h'. repeat split; try done. apply Hlow. lia.
Defined.
(** ** Rounding to [double] *)

Section double.

Local Open Scope Q_scope.

Lemma nearest_even_bounds (x : Q) :
  (Qfloor x ≤ Double.nearest_even x ≤ Qfloor x + 1)%Z.
Proof.
  unfold Double.nearest_even.
  destruct (x - inject_Z (Qfloor x) ?= 1 # 2); [destruct (Z.even _)|..]; lia.
Qed.

Lemma nearest_even_Z (x : Q) (n : Z) : x == inject_Z n → Double.nearest_even x = n.
Proof.
  intros Hx. unfold Double.nearest_even.
  assert (Qfloor x = n) as -> by (rewrite Hx; apply Qfloor_Z).
  destruct (Qcompare_spec (x - inject_Z n) (1 # 2)) as [H|H|H]; [lra|done|lra].
Qed.

Lemma nearest_even_mono (x y : Q) :
  x <= y → (Double.nearest_even x ≤ Double.nearest_even y)%Z.
Proof.
  intros Hxy. pose proof (Qfloor_resp_le x y Hxy) as Hfloor.
  pose proof (nearest_even_bounds x) as Hx. pose proof (nearest_even_bounds y) as Hy.
  destruct (decide (Qfloor x = Qfloor y)) as [Heq|Hne]; [|lia].
  unfold Double.nearest_even in *. rewrite <- Heq in *.
  destruct (Qcompare_spec (x - inject_Z (Qfloor x)) (1 # 2)) as [Hcx|Hcx|Hcx];
    destruct (Qcompare_spec (y - inject_Z (Qfloor x)) (1 # 2)) as [Hcy|Hcy|Hcy];
    try destruct (Z.even (Qfloor x)); try lia; lra.
Qed.

Lemma pow2_Q_pos (e : Z) : 0 < inject_Z (2 ^ e) ∨ (e < 0)%Z.
Proof.
  destruct (decide (0 ≤ e)%Z) as [He|He]; [left|right; lia].
  change 0 with (inject_Z 0). rewrite <- Zlt_Qlt. by apply Z.pow_pos_nonneg.
Qed.

Lemma div_pow2_le (x y : Q) (e : Z) :
  (0 ≤ e)%Z → x <= y → x / inject_Z (2 ^ e) <= y / inject_Z (2 ^ e).
Proof.
  intros He Hxy. destruct (pow2_Q_pos e) as [Hpos|]; [|lia].
  apply Qmult_le_compat_r; [done|]. apply Qinv_le_0_compat. lra.
Qed.

Lemma ulp_exponent_nonneg (x : Q) : (0 ≤ Double.ulp_exponent x)%Z.
Proof. unfold Double.ulp_exponent. lia. Qed.

Lemma round_units_nonneg (x : Q) : 0 <= x → (0 ≤ Double.round_units x)%Z.
Proof.
  intros Hx. unfold Double.round_units.
  pose proof (ulp_exponent_nonneg x) as He.
  apply Z.mul_nonneg_nonneg; [|by apply Z.pow_nonneg].
  pose proof (div_pow2_le 0 x _ He Hx) as Hdiv.
  pose proof (nearest_even_mono _ _ Hdiv) as Hmono.
  rewrite (nearest_even_Z (0 / _) 0) in Hmono; [done|].
  unfold Qdiv. by rewrite Qmult_0_l.
Qed.

(** A number of at most 53 bits times a power of two is its own rounding. *)
Lemma round_units_exact (m k : Z) (x : Q) :
  (0 ≤ m < 2 ^ 53)%Z → (0 ≤ k)%Z → x == inject_Z (m * 2 ^ k) →
  Double.round_units x = (m * 2 ^ k)%Z.
Proof.
  intros Hm Hk Hx. unfold Double.round_units, Double.ulp_exponent.
  assert (Qfloor x = (m * 2 ^ k)%Z) as -> by (rewrite Hx; apply Qfloor_Z).
  set (e := Z.max (Z.log2 (m * 2 ^ k) - 52) 0).
  assert (0 ≤ e ≤ k)%Z as He.
  { split; [unfold e; lia|]. unfold e.
    destruct (decide (m = 0%Z)) as [->|Hm0]; [rewrite Z.mul_0_l; simpl; lia|].
    assert (0 < 2 ^ k)%Z as Hpow by (by apply Z.pow_pos_nonneg).
    assert (Z.log2 (m * 2 ^ k) < 53 + k)%Z; [|lia].
    apply Z.log2_lt_pow2; [nia|]. rewrite Z.pow_add_r by lia. nia. }
  assert (2 ^ k = 2 ^ (k - e) * 2 ^ e)%Z as Hsplit.
  { rewrite <- Z.pow_add_r by lia. f_equal. lia. }
  rewrite (nearest_even_Z _ (m * 2 ^ (k - e))).
  - rewrite Hsplit. ring.
  - destruct (pow2_Q_pos e) as [Hpos|]; [|lia].
    rewrite Hx, Hsplit, Z.mul_assoc, inject_Z_mult. field. lra.
Qed.

Lemma round_units_mono (x y : Q) :
  0 <= x → x <= y → (Double.round_units x ≤ Double.round_units y)%Z.
Proof.
  intros Hx Hxy.
  assert (0 ≤ Qfloor x ≤ Qfloor y)%Z as Hfloor.
  { split; [|by apply Qfloor_resp_le].
    rewrite <- (Qfloor_Z 0). by apply Qfloor_resp_le. }
  unfold Double.round_units, Double.ulp_exponent.
  set (ex := Z.max (Z.log2 (Qfloor x) - 52) 0).
  set (ey := Z.max (Z.log2 (Qfloor y) - 52) 0).
  assert (0 ≤ ex ≤ ey)%Z as Hexp.
  { pose proof (Z.log2_le_mono (Qfloor x) (Qfloor y)). unfold ex, ey. lia. }
  destruct (decide (ex = ey)) as [<-|Hne].
  - apply Z.mul_le_mono_nonneg_r; [apply Z.pow_nonneg; lia|].
    apply nearest_even_mono, div_pow2_le; [lia|done].
  - destruct (pow2_Q_pos ex) as [Hposx|]; [|lia].
    destruct (pow2_Q_pos ey) as [Hposy|]; [|lia].
    assert (Double.nearest_even (x / inject_Z (2 ^ ex)) ≤ 2 ^ 53)%Z as Hup.
    { apply (Z.le_trans _ (Double.nearest_even (inject_Z (2 ^ 53))));
        [|by rewrite (nearest_even_Z _ (2 ^ 53))].
      apply nearest_even_mono. apply Qle_shift_div_r; [done|].
      rewrite <- inject_Z_mult, <- Z.pow_add_r by lia.
      pose proof (Qlt_floor x) as Hlt.
      assert (Qfloor x + 1 ≤ 2 ^ (53 + ex))%Z as Hbound.
      { destruct (decide (Qfloor x = 0%Z)) as [->|Hx0].
        - assert (1 ≤ 2 ^ (53 + ex))%Z; [|lia].
          apply (Z.pow_le_mono_r 2 0); lia.
        - assert (Qfloor x < 2 ^ (53 + ex))%Z; [|lia].
          apply Z.log2_lt_pow2; [lia|]. unfold ex. lia. }
      rewrite Zle_Qle in Hbound. lra. }
    assert (2 ^ 52 ≤ Double.nearest_even (y / inject_Z (2 ^ ey)))%Z as Hlow.
    { apply (Z.le_trans _ (Double.nearest_even (inject_Z (2 ^ 52))));
        [by rewrite (nearest_even_Z _ (2 ^ 52))|].
      apply nearest_even_mono. apply Qle_shift_div_l; [done|].
      rewrite <- inject_Z_mult, <- Z.pow_add_r by lia.
      pose proof (Qfloor_le y) as Hle.
      assert (2 ^ (52 + ey) ≤ Qfloor y)%Z as Hbound.
      { assert (ey = Z.log2 (Qfloor y) - 52)%Z as Hey by (unfold ex, ey in *; lia).
        assert (Qfloor y ≠ 0%Z) as Hy0.
        { intros Hy0. unfold ex, ey in *. rewrite Hy0 in *. simpl in *. lia. }
        rewrite Hey.
        replace (52 + (Z.log2 (Qfloor y) - 52))%Z with (Z.log2 (Qfloor y)) by lia.
        apply Z.log2_spec. lia. }
      rewrite Zle_Qle in Hbound. lra. }
    assert (0 < 2 ^ ex)%Z as Hpx by (apply Z.pow_pos_nonneg; lia).
    assert (0 < 2 ^ ey)%Z as Hpy by (apply Z.pow_pos_nonneg; lia).
    assert (2 ^ 53 * 2 ^ ex ≤ 2 ^ 52 * 2 ^ ey)%Z as Hstep.
    { rewrite <- !Z.pow_add_r by lia. apply Z.pow_le_mono_r; lia. }
    nia.
Qed.

Lemma unit_spec : Double.unit * inject_Z (2 ^ 1074) == 1.
Proof. reflexivity. Qed.

Lemma unit_pos : 0 < Double.unit.
Proof. reflexivity. Qed.

Lemma div_unit (q : Q) : q / Double.unit == q * inject_Z (2 ^ 1074).
Proof.
  pose proof unit_spec as Hu. pose proof unit_pos as Hp.
  apply Qmult_inj_r with (z := Double.unit); [lra|].
  unfold Qdiv. rewrite <- Qmult_assoc, (Qmult_comm (/ _)), Qmult_inv_r by lra.
  rewrite <- Qmult_assoc, (Qmult_comm (inject_Z _)), Hu. reflexivity.
Qed.

Lemma round_nearest_pos (q : Q) :
  0 < q →
  Double.round_nearest q == inject_Z (Double.round_units (q / Double.unit)) * Double.unit.
Proof.
  intros Hq. unfold Double.round_nearest.
  destruct (Qcompare_spec q 0) as [H|H|H]; [lra|lra|apply Qred_correct].
Qed.

Lemma round_nearest_0 (q : Q) : q == 0 → Double.round_nearest q == 0.
Proof.
  intros Hq. unfold Double.round_nearest.
  destruct (Qcompare_spec q 0) as [H|H|H]; [reflexivity|lra|lra].
Qed.

Lemma round_nearest_nonneg (q : Q) : 0 <= q → 0 <= Double.round_nearest q.
Proof.
  intros Hq. destruct (Qlt_le_dec 0 q) as [Hpos|Hle].
  - rewrite (round_nearest_pos q Hpos).
    pose proof unit_pos as Hu. pose proof (div_unit q) as Hdiv.
    assert (0 <= q / Double.unit) as Hx.
    { rewrite Hdiv. apply Qmult_le_0_compat; [done|]. by change (0 <= 2 ^ 1074)%Z. }
    pose proof (round_units_nonneg _ Hx) as Hr. rewrite Zle_Qle in Hr.
    apply Qmult_le_0_compat; [done|lra].
  - rewrite round_nearest_0; lra.
Qed.

(** Rounding never reverses the order of two numbers. *)
Lemma round_nearest_mono (a b : Q) :
  0 <= a → a <= b → Double.round_nearest a <= Double.round_nearest b.
Proof.
  intros Ha Hab. destruct (Qlt_le_dec 0 a) as [Hpos|Hle].
  - rewrite (round_nearest_pos a Hpos), (round_nearest_pos b) by lra.
    pose proof unit_pos as Hu.
    apply Qmult_le_compat_r; [|lra]. rewrite <- Zle_Qle.
    apply round_units_mono.
    + rewrite div_unit. apply Qmult_le_0_compat; [lra|]. by change (0 <= 2 ^ 1074)%Z.
    + rewrite !div_unit. apply Qmult_le_compat_r; [done|]. by change (0 <= 2 ^ 1074)%Z.
  - rewrite (round_nearest_0 a) by lra. apply round_nearest_nonneg. lra.
Qed.

(** Integers up to 2^53 are [double]s. *)
Lemma round_nearest_Z (z : Z) :
  (0 ≤ z ≤ 2 ^ 53)%Z → Double.round_nearest (inject_Z z) == inject_Z z.
Proof.
  intros Hz. destruct (decide (z = 0%Z)) as [->|Hz0]; [by apply round_nearest_0|].
  assert (0 < inject_Z z) as Hpos.
  { change 0 with (inject_Z 0). rewrite <- Zlt_Qlt. lia. }
  rewrite (round_nearest_pos _ Hpos).
  assert (Double.round_units (inject_Z z / Double.unit) = (z * 2 ^ 1074)%Z) as ->.
  { destruct (decide (z = 2 ^ 53)%Z) as [->|Hlt].
    - rewrite (round_units_exact 1 (53 + 1074)); [reflexivity|lia|lia|].
      rewrite div_unit, <- inject_Z_mult. reflexivity.
    - apply round_units_exact; [lia|lia|].
      by rewrite div_unit, <- inject_Z_mult. }
  rewrite inject_Z_mult, <- Qmult_assoc, (Qmult_comm (inject_Z (2 ^ 1074))), unit_spec.
  apply Qmult_1_r.
Qed.

(** An exact result between two integers of at most 53 bits is rounded to a
    [double] between them. *)
Lemma round_between (a b : Z) (q : Q) :
  (0 ≤ a)%Z → (b ≤ 2 ^ 53)%Z → inject_Z a <= q → q <= inject_Z b →
  ∃ r, Double.round q = Some r ∧ inject_Z a <= r ∧ r <= inject_Z b.
Proof.
  intros Ha Hb Haq Hqb.
  assert (a ≤ b)%Z as Hab by (rewrite Zle_Qle; lra).
  assert (0 <= inject_Z a) as Ha0 by (change 0 with (inject_Z 0); by rewrite <- Zle_Qle).
  pose proof (round_nearest_mono _ _ Ha0 Haq) as Hlo.
  pose proof (round_nearest_mono q _ ltac:(lra) Hqb) as Hhi.
  rewrite round_nearest_Z in Hlo by lia. rewrite round_nearest_Z in Hhi by lia.
  exists (Double.round_nearest q). split; [|done].
  unfold Double.round.
  destruct (Qlt_le_dec _ _) as [|Hover]; [done|].
  exfalso. rewrite Qabs_pos in Hover by lra.
  assert (inject_Z b < inject_Z (2 ^ 1024)) as Hlt; [|lra].
  rewrite <- Zlt_Qlt. assert (2 ^ 53 < 2 ^ 1024)%Z by (apply Z.pow_lt_mono_r; lia). lia.
Qed.






End double.

(** On the sample operands the four operations and the conversion from
    integers agree with the Standard Library's specification of binary64,
    including a tie, a subnormal result and an overflow. *)
Lemma double_agrees_with_binary64 :
  Forall (λ xy, agrees_with_binary64 xy.1 xy.2) double_samples
  ∧ Forall (λ z, Double.of_uint64 z = Double.of_spec_float (Double.binary64_of_Z z))
           integer_samples.
Proof. split; repeat constructor; vm_compute; reflexivity. Qed.
(** ** AMAT *)

Section amat.

Local Open Scope Q_scope.

Lemma inject_Z_nonneg (z : Z) : (0 ≤ z)%Z → 0 <= inject_Z z.
Proof. intros. change 0 with (inject_Z 0). by rewrite <- Zle_Qle. Qed.

Lemma total_latency_nonneg (stats : list (Q * Z)) :
  Forall plausible_stat stats → (0 ≤ total_latency stats)%Z.
Proof.
  induction 1 as [|[h l] ? (_ & _ & Hl) _ IH]; simpl in *; lia.
Qed.

(** The conversion of a latency of at most 53 bits is exact. *)
Lemma of_uint64_exact (z : Z) :
  (0 ≤ z ≤ 2 ^ 53)%Z → ∃ r, Double.of_uint64 z = Some r ∧ r == inject_Z z.
Proof.
  intros Hz. destruct (round_between z z (inject_Z z)) as (r & Hr & Hlo & Hhi);
    [lia|lia|apply Qle_refl|apply Qle_refl|].
  exists r. split; [exact Hr|]. by apply Qle_antisym.
Qed.

(** A product with a probability: rounded, it stays between 0 and the
    other factor when that is an integer of at most 53 bits. *)
Lemma mul_probability (p x : Q) (z : Z) :
  (0 ≤ z ≤ 2 ^ 53)%Z → 0 <= p → p <= 1 → x == inject_Z z →
  ∃ r, Double.mul p x = Some r ∧ 0 <= r ∧ r <= inject_Z z.
Proof.
  intros Hz Hp0 Hp1 Hx. pose proof (inject_Z_nonneg z ltac:(lia)) as HzQ.
  destruct (round_between 0 z (p * x)) as (r & Hr & Hlo & Hhi); [lia|lia|..].
  - rewrite Hx. by apply Qmult_le_0_compat.
  - rewrite Hx. nra.
  - exists r. split; [exact Hr|]. split; [exact Hlo|exact Hhi].
Qed.

(** A probability stays one: the complement of a hit rate, and the product
    of two probabilities. *)
Lemma probability_rounds (q : Q) :
  0 <= q → q <= 1 → ∃ r, Double.round q = Some r ∧ 0 <= r ∧ r <= 1.
Proof. intros H0 H1. by apply (round_between 0 1 q). Qed.

(** The loop over the lower levels keeps the total between the bounds it
    had, the upper one raised by the latencies of the levels, and keeps the
    miss-path probability a probability. *)
Lemma amat_levels_bounds (lower : list (Q * Z)) (total p : Q) (lo hi : Z) :
  Forall plausible_stat lower →
  (0 ≤ lo)%Z → (hi + total_latency lower ≤ 2 ^ 53)%Z →
  inject_Z lo <= total → total <= inject_Z hi → 0 <= p → p <= 1 →
  ∃ total' p',
    Metrics.amat_levels lower total p = Some (total', p')
    ∧ inject_Z lo <= total' ∧ total' <= inject_Z (hi + total_latency lower)
    ∧ 0 <= p' ∧ p' <= 1.
Proof.
  intros Hstats. revert total p hi.
  induction Hstats as [|[hitRate lat] lower (Hh0 & Hh1 & Hlat) Hrest IH];
    intros total p hi Hlo Hsum Htlo Hthi Hp0 Hp1;
    cbn [Metrics.amat_levels total_latency foldr fst snd] in *.
  - exists total, p. rewrite Z.add_0_r. done.
  - change (foldr _ 0%Z lower) with (total_latency lower) in *.
    pose proof (total_latency_nonneg lower Hrest) as Hnonneg.
    assert (lo ≤ hi)%Z as Hlohi by (rewrite Zle_Qle; lra).
    destruct (probability_rounds (1 - hitRate)) as (missRate & Hmiss & Hm0 & Hm1);
      [lra|lra|].
    destruct (of_uint64_exact lat) as (latency & Hlat' & Hlatency); [lia|].
    destruct (mul_probability p latency lat) as (contribution & Hmul & Hc0 & Hc1);
      [lia|done|done|done|].
    destruct (round_between lo (hi + lat) (total + contribution))
      as (total1 & Htotal1 & Ht1lo & Ht1hi); [lia|lia|lra|rewrite inject_Z_plus; lra|].
    destruct (probability_rounds (p * missRate)) as (p1 & Hp1eq & Hp10 & Hp11);
      [by apply Qmult_le_0_compat|nra|].
    destruct (IH total1 p1 (hi + lat)%Z) as (total' & p' & Hrec & Hb);
      [lia|lia|done..|].
    exists total', p'. split.
    + unfold Double.sub. rewrite Hmiss. cbn [mbind option_bind].
      rewrite Hlat'. cbn [mbind option_bind]. rewrite Hmul. cbn [mbind option_bind].
      unfold Double.add. rewrite Htotal1. cbn [mbind option_bind].
      unfold Double.mul. rewrite Hp1eq. cbn [mbind option_bind]. exact Hrec.
    + replace (hi + (lat + total_latency lower))%Z
        with (hi + lat + total_latency lower)%Z by lia.
      exact Hb.
Qed.

End amat.

(** With hit rate 0 in both of two levels of latencies 1 and 10 and a memory
    latency of 100, the AMAT is 111, above L1 latency + memory latency.  All
    values of this run are exact in [double]. *)
Lemma amat_upper_bound_fails :
  Forall plausible_stat cold_stats
  ∧ ∃ amat, Metrics.totalAMAT cold_stats 100 = Some amat
            ∧ (amat == 111)%Q
            ∧ ¬ (amat <= inject_Z 1 + inject_Z 100)%Q.
Proof.
  split.
  - repeat constructor; simpl; try lia; by vm_compute.
  - eexists. split; [vm_compute; reflexivity|]. split; by vm_compute.
Qed.

(** An L1 latency of 2^53 + 1 is converted to the [double] 2^53, so with a
    hit rate of 1 the AMAT is 2^53, below the L1 latency: the lower bound
    needs latencies that are exact in [double]. *)
Lemma amat_below_inexact_latency :
  Forall plausible_stat slow_l1_stats
  ∧ ∃ amat, Metrics.totalAMAT slow_l1_stats 0 = Some amat
            ∧ (amat == inject_Z (2 ^ 53))%Q
            ∧ (amat < inject_Z (2 ^ 53 + 1))%Q.
Proof.
  split.
  - repeat constructor; simpl; try lia; by vm_compute.
  - eexists. split; [vm_compute; reflexivity|]. split; by vm_compute.
Qed.

(** C7: for a non-empty hierarchy with hit rates in [0, 1] and non-negative
    latencies that sum to at most 2^53, the AMAT computed in [double] is a
    finite number, is at least the L1 latency, and is at most the L1 latency
    plus the latencies of all lower levels plus the memory latency. *)
Theorem amat_bounds (l1HitRate : Q) (l1Latency : Z) (lower : list (Q * Z))
        (memoryLatency : Z) :
  Forall plausible_stat ((l1HitRate, l1Latency) :: lower) →
  0 ≤ memoryLatency →
  l1Latency + total_latency lower + memoryLatency ≤ 2 ^ 53 →
  ∃ amat,
    Metrics.totalAMAT ((l1HitRate, l1Latency) :: lower) memoryLatency = Some amat
    ∧ (inject_Z l1Latency <= amat)%Q
    ∧ (amat <= inject_Z (l1Latency + total_latency lower + memoryLatency))%Q.
Proof.
  intros Hstats Hmem Hsum.
  apply Forall_cons in Hstats as [(Hh0 & Hh1 & Hl1) Hlower].
  cbn [fst snd] in *.
  pose proof (total_latency_nonneg lower Hlower) as Hnonneg.
  destruct (of_uint64_exact l1Latency) as (latency & Hlat & Hlatency); [lia|].
  destruct (probability_rounds (1 - l1HitRate)%Q) as (missRate & Hmiss & Hm0 & Hm1);
    [lra|lra|].
  destruct (amat_levels_bounds lower latency missRate l1Latency l1Latency)
    as (total & p & Hlevels & Htlo & Hthi & Hp0 & Hp1);
    [done|lia|lia|lra|lra|done|done|].
  destruct (of_uint64_exact memoryLatency) as (memory & Hmemory & HmemoryQ); [lia|].
  destruct (mul_probability p memory memoryLatency) as (contribution & Hmul & Hc0 & Hc1);
    [lia|done|done|done|].
  destruct (round_between l1Latency (l1Latency + total_latency lower + memoryLatency)
              (total + contribution)%Q) as (amat & Hamat & Halo & Hahi);
    [lia|lia|lra|rewrite inject_Z_plus; lra|].
  exists amat. split; [|split; [exact Halo|exact Hahi]].
  unfold Metrics.totalAMAT. rewrite Hlat. cbn [mbind option_bind].
  unfold Double.sub. rewrite Hmiss. cbn [mbind option_bind].
  rewrite Hlevels. cbn [mbind option_bind].
  rewrite Hmemory. cbn [mbind option_bind]. rewrite Hmul. cbn [mbind option_bind].
  exact Hamat.
Qed.

Lemma amat_bounds_witness :
  Forall plausible_stat (scenario6_l1 :: scenario6_lower)
  ∧ ∃ amat, Metrics.totalAMAT (scenario6_l1 :: scenario6_lower) 100 = Some amat
            ∧ (amat == 13 - (1 # 2 ^ 49))%Q
            ∧ (inject_Z 1 <= amat)%Q
            ∧ (amat <= inject_Z (1 + total_latency scenario6_lower + 100))%Q.
Proof.
  assert (Forall plausible_stat (scenario6_l1 :: scenario6_lower)) as Hs.
  { repeat constructor; simpl; try lia; by vm_compute. }
  split; [exact Hs|].
  destruct (amat_bounds (Double.round_nearest (4 # 5)) 1 scenario6_lower 100 Hs
              ltac:(lia) ltac:(vm_compute; discriminate))
    as (amat & Ha & Hlo & Hhi).
  exists amat. split; [exact Ha|]. split; [|split; assumption].
  vm_compute in Ha. injection Ha as <-. by vm_compute.
Defined.

(** ** Arithmetic of the geometry *)

Section geometry.

Lemma shift_count_log2 (fuel : nat) (n c : Z) :
  0 ≤ n < 2 ^ Z.of_nat fuel → shift_count fuel n c = c + Z.log2 n.
Proof.
  revert n c. induction fuel as [|fuel IH]; intros n c Hn.
  - simpl in *. assert (n = 0) as -> by lia. simpl. lia.
  - simpl. destruct (decide (1 < n)) as [Hgt|Hle].
    + rewrite IH.
      * rewrite Z.log2_shiftr by lia. assert (1 ≤ Z.log2 n) by (apply Z.log2_le_pow2; simpl; lia). lia.
      * rewrite Z.shiftr_div_pow2 by lia. change (2 ^ 1) with 2.
        rewrite Nat2Z.inj_succ, Z.pow_succ_r in Hn by lia.
        split; [apply Z.div_pos; lia|]. apply Z.div_lt_upper_bound; lia.
    + assert (n = 0 ∨ n = 1) as [-> | ->] by lia; simpl; lia.
Qed.

End geometry.

Section geometry2.

Lemma getBlockOffsetBits_log2 (config : CacheConfig) :
  0 < blockSize config < UINT64_MODULUS →
  getBlockOffsetBits config = Z.log2 (blockSize config)
  ∧ 0 ≤ Z.log2 (blockSize config) < 64.
Proof.
  intros Hbs. unfold getBlockOffsetBits.
  rewrite shift_count_log2 by (rewrite pow2_64 in Hbs; simpl; lia).
  assert (0 ≤ Z.log2 (blockSize config) < 64) as Hlog.
  { split; [apply Z.log2_nonneg|]. apply Z.log2_lt_pow2; [lia|].
    rewrite pow2_64 in Hbs. simpl. lia. }
  split; [|done]. rewrite Z.add_0_l. apply Z.mod_small. lia.
Qed.

(** [hi << n | lo] is [hi * 2^n + lo] when [lo] fits below bit [n]. *)
Lemma lor_shiftl_low (hi lo n : Z) :
  0 ≤ n → 0 ≤ lo < 2 ^ n → Z.lor (Z.shiftl hi n) lo = hi * 2 ^ n + lo.
Proof.
  intros Hn Hlo. rewrite <- Z.shiftl_mul_pow2 by done.
  rewrite <- Z.add_lor_land.
  assert (Z.land (Z.shiftl hi n) lo = 0) as ->; [|lia].
  apply Z.bits_inj'. intros i Hi. rewrite Z.land_spec, Z.bits_0.
  destruct (decide (i < n)).
  - by rewrite Z.shiftl_spec_low.
  - assert (Z.testbit lo i = false) as ->; [|apply andb_false_r].
    destruct (decide (lo = 0)) as [->|]; [apply Z.bits_0|].
    apply Z.bits_above_log2; [lia|].
    apply Z.lt_le_trans with n; [apply Z.log2_lt_pow2; lia|lia].
Qed.

(** A block number is determined by its set and tag. *)
Lemma slot_injective (S b b' : Z) :
  0 ≤ S → 0 ≤ b → 0 ≤ b' →
  Z.to_nat (b mod 2 ^ S) = Z.to_nat (b' mod 2 ^ S) → b / 2 ^ S = b' / 2 ^ S →
  b = b'.
Proof.
  intros HS Hb Hb' Hset Htag.
  assert (0 < 2 ^ S) as Hpow by (apply Z.pow_pos_nonneg; lia).
  pose proof (Z.mod_pos_bound b (2 ^ S) Hpow).
  pose proof (Z.mod_pos_bound b' (2 ^ S) Hpow).
  apply Z2Nat.inj in Hset; [|lia|lia].
  rewrite (Z.div_mod b (2 ^ S)), (Z.div_mod b' (2 ^ S)) by lia.
  by rewrite Hset, Htag.
Qed.

End geometry2.

(** ** The replacement policies return ways of the set *)

Section policy_facts.

Lemma first_way_Some (unused : nat → bool) (numWays way : nat) :
  first_way unused numWays = Some way → (way < numWays)%nat ∧ unused way = true.
Proof.
  unfold first_way. rewrite fmap_Some. intros ([i w] & Hf & ->).
  apply list_find_Some in Hf as (Hl & Hu & _). simpl.
  apply lookup_seq in Hl as [-> Hlt]. done.
Qed.

Lemma list_erase_Forall (P : nat → Prop) (way : nat) (l : list nat) :
  Forall P l → Forall P (list_erase way l).
Proof.
  induction 1 as [|w l Hw Hl IH]; simpl; [done|].
  destruct (decide (w = way)); [done|]. by constructor.
Qed.

Lemma getVictim_in_range (p : ReplacementPolicy) (set numWays : nat) :
  policy_inv p numWays → (0 < numWays)%nat →
  ∃ p' way, Policy.getVictim p set numWays = Some (p', way)
            ∧ (way < numWays)%nat ∧ policy_inv p' numWays.
Proof.
  intros Hinv Hpos. destruct p as [lruList lruPositions|counters usedWays|flags rd draws];
    simpl in *.
  - destruct (lruList !! set) as [l|] eqn:Hl.
    2:{ eexists _, _. split; [reflexivity|]. split; [lia|exact Hinv]. }
    destruct (Hinv _ _ Hl) as [Hne Hall].
    destruct (if decide (length l < numWays)%nat then _ else None) as [way|] eqn:Hun.
    + destruct (decide (length l < numWays)%nat); [|done].
      apply first_way_Some in Hun as [Hlt _].
      eexists _, _. split; [reflexivity|]. split; [done|exact Hinv].
    + destruct (last l) as [victim|] eqn:Hlast.
      * simpl. eexists _, _. split; [reflexivity|]. split; [|exact Hinv].
        apply last_Some in Hlast as [l' ->].
        apply Forall_app in Hall as [_ Hv].
        by inversion Hv.
      * by apply last_None in Hlast.
  - set (counters' := match counters !! set with
                      | Some _ => counters | None => <[set:=0%nat]> counters end).
    assert (∀ s c, counters' !! s = Some c → (c < numWays)%nat) as Hinv'.
    { intros s c. unfold counters'. destruct (counters !! set) eqn:Hc; [by apply Hinv|].
      destruct (decide (s = set)) as [->|Hne].
      - rewrite lookup_insert_eq. by intros [= <-].
      - rewrite lookup_insert_ne by done. by apply Hinv. }
    destruct (if decide (_ < numWays)%nat then _ else None) as [way|] eqn:Hun.
    + destruct (decide (_ < numWays)%nat); [|done].
      apply first_way_Some in Hun as [Hlt _].
      eexists _, _. split; [reflexivity|]. split; [done|exact Hinv'].
    + rewrite decide_False by lia. eexists _, _. split; [reflexivity|]. split.
      * destruct (counters' !! set) as [c|] eqn:Hc; simpl; [by eapply Hinv'|done].
      * simpl. intros s c. destruct (decide (s = set)) as [->|Hne].
        -- rewrite lookup_insert_eq. intros [= <-]. apply Nat.mod_upper_bound. lia.
        -- rewrite lookup_insert_ne by done. by apply Hinv'.
  - destruct (first_way _ numWays) as [way|] eqn:Hun.
    + apply first_way_Some in Hun as [Hlt _].
      eexists _, _. split; [reflexivity|]. split; [done|exact I].
    + eexists _, _. split; [reflexivity|]. split; [|exact I].
      unfold uniform_draw. rewrite decide_False by lia.
      apply Nat.mod_upper_bound. lia.
Qed.

Lemma onAccess_inv (p : ReplacementPolicy) (set way numWays : nat) :
  policy_inv p numWays → (way < numWays)%nat →
  policy_inv (Policy.onAccess p set way) numWays.
Proof.
  intros Hinv Hway. destruct p as [lruList lruPositions|counters usedWays|flags rd draws];
    simpl in *; [| |done].
  - destruct (lruList !! set) as [l|] eqn:Hl; simpl; intros s l'.
    + destruct (Hinv _ _ Hl) as [_ Hall].
      destruct (decide (s = set)) as [->|Hne].
      * rewrite lookup_insert_eq. intros [= <-]. split; [done|].
        constructor; [done|]. destruct (decide _); [by apply list_erase_Forall|done].
      * rewrite lookup_insert_ne by done. by apply Hinv.
    + destruct (decide (s = set)) as [->|Hne].
      * rewrite lookup_insert_eq. intros [= <-]. split; [done|]. by constructor.
      * rewrite lookup_insert_ne by done. by apply Hinv.
  - intros s c. destruct (counters !! set) eqn:Hc; [by apply Hinv|].
    destruct (decide (s = set)) as [->|Hne].
    + rewrite lookup_insert_eq. intros [= <-]. lia.
    + rewrite lookup_insert_ne by done. by apply Hinv.
Qed.

Lemma createPolicy_inv (name : string) (rd : nat → nat) (numWays : nat) :
  policy_inv (Policy.createPolicy name rd) numWays.
Proof.
  unfold Policy.createPolicy.
  repeat case_decide; simpl; try done; intros ? ?; by rewrite lookup_empty.
Qed.

End policy_facts.

(** ** Writing one entry of a cache *)

Section write_entry_facts.

Lemma write_entry_lookup (c : Cache.t) (set way : nat) (e : CacheEntry) (set' : nat) :
  Cache.cacheEntries_ (Cache.write_entry c set way e) !! set'
  = if decide (set' = set)
    then (λ row, <[way := e]> row) <$> Cache.cacheEntries_ c !! set
    else Cache.cacheEntries_ c !! set'.
Proof.
  simpl. destruct (decide (set' = set)) as [->|Hne].
  - apply list_lookup_alter_eq.
  - apply list_lookup_alter_ne. done.
Qed.

(** A cache that differs from [c] only in its policy and counters. *)
Lemma cache_inv_same_entries (c c' : Cache.t) (B S : Z) (numWays : nat) :
  cache_inv c B S numWays →
  Cache.config_ c' = Cache.config_ c →
  Cache.cacheEntries_ c' = Cache.cacheEntries_ c →
  policy_inv (Cache.policy_ c') numWays →
  cache_inv c' B S numWays.
Proof.
  intros [] Hcfg Hes Hpol. split; rewrite ?Hcfg, ?Hes; done.
Qed.

(** Writing an entry keeps the invariant when the entry, if valid, carries
    a tag of the right width that no other way of the set holds. *)
Lemma write_entry_inv (c : Cache.t) (B S : Z) (numWays set way : nat)
      (e : CacheEntry) (row : list CacheEntry) :
  cache_inv c B S numWays →
  Cache.cacheEntries_ c !! set = Some row →
  (valid_ e = true →
   0 ≤ tag_ e < 2 ^ (64 - B - S)
   ∧ ∀ w' e', row !! w' = Some e' → w' ≠ way → valid_ e' = true → tag_ e' ≠ tag_ e) →
  cache_inv (Cache.write_entry c set way e) B S numWays.
Proof.
  intros [HB HS Hbits Hsets Hways Hnw Hpol Huniq Htags] Hrow He.
  split; try done.
  - simpl. by rewrite length_alter.
  - intros s r. rewrite write_entry_lookup. case_decide as Hs; [subst s|by apply Hways].
    rewrite Hrow. simpl. intros [= <-]. rewrite length_insert. by eapply Hways.
  - intros s r. rewrite write_entry_lookup. case_decide as Hs; [subst s|by apply Huniq].
    rewrite Hrow. simpl. intros [= <-] w1 w2 e1 e2 H1 H2 Hv1 Hv2 Ht.
    apply list_lookup_insert_Some in H1 as [(-> & <- & Hlt1)|[Hne1 H1]];
      apply list_lookup_insert_Some in H2 as [(-> & <- & Hlt2)|[Hne2 H2]]; try done.
    + destruct (He Hv1) as [_ Hother]. exfalso. by eapply (Hother w2 e2).
    + destruct (He Hv2) as [_ Hother]. exfalso. by eapply (Hother w1 e1).
    + by eapply (Huniq set row).
  - intros s r w e0. rewrite write_entry_lookup.
    case_decide as Hs; [subst s|by apply Htags].
    rewrite Hrow. simpl. intros [= <-] Hl Hv.
    apply list_lookup_insert_Some in Hl as [(-> & <- & Hlt)|[Hne Hl]].
    + by destruct (He Hv).
    + by eapply (Htags set row).
Qed.

(** Whatever the cache holds after a write is the written entry or was
    held before in another way. *)
Lemma write_entry_holds (c : Cache.t) (set way : nat) (e : CacheEntry)
      (set' : nat) (tag : Z) :
  holds (Cache.write_entry c set way e) set' tag →
  (set' = set ∧ valid_ e = true ∧ tag_ e = tag)
  ∨ ∃ row w' e', Cache.cacheEntries_ c !! set' = Some row ∧ row !! w' = Some e'
                 ∧ valid_ e' = true ∧ tag_ e' = tag ∧ (set' = set → w' ≠ way).
Proof.
  intros (r & Hr & w' & e' & Hl & Hv & Ht). rewrite write_entry_lookup in Hr.
  case_decide as Hs.
  - subst set'. destruct (Cache.cacheEntries_ c !! set) as [row|] eqn:Hrow; [|done].
    simpl in Hr. injection Hr as <-.
    apply list_lookup_insert_Some in Hl as [(-> & <- & Hlt)|[Hne Hl]].
    + by left.
    + right. exists row, w', e'. repeat split; done.
  - right. exists r, w', e'. repeat split; try done.
Qed.

Lemma write_entry_holds_before (c : Cache.t) (set way : nat) (e : CacheEntry)
      (set' : nat) (tag : Z) :
  holds (Cache.write_entry c set way e) set' tag →
  (set' = set ∧ valid_ e = true ∧ tag_ e = tag) ∨ holds c set' tag.
Proof.
  intros [H|(row & w' & e' & Hrow & Hl & Hv & Ht & _)]%write_entry_holds; [by left|].
  right. exists row. split; [done|]. by exists w', e'.
Qed.

(** The written entry, if valid, is held afterwards. *)
Lemma write_entry_holds_new (c : Cache.t) (set way : nat) (e : CacheEntry)
      (row : list CacheEntry) :
  Cache.cacheEntries_ c !! set = Some row → (way < length row)%nat →
  valid_ e = true → holds (Cache.write_entry c set way e) set (tag_ e).
Proof.
  intros Hrow Hway Hv. exists (<[way := e]> row). split.
  - rewrite write_entry_lookup, decide_True by done. by rewrite Hrow.
  - exists way, e. split; [|done]. by apply list_lookup_insert_eq.
Qed.

(** The tag of the entry that a write replaces is gone from the set, unless
    the written entry carries it again. *)
Lemma write_entry_removes (c : Cache.t) (B S : Z) (numWays set way : nat)
      (e old : CacheEntry) (row : list CacheEntry) :
  cache_inv c B S numWays →
  Cache.cacheEntries_ c !! set = Some row → row !! way = Some old →
  valid_ old = true → (valid_ e = true → tag_ e ≠ tag_ old) →
  ¬ holds (Cache.write_entry c set way e) set (tag_ old).
Proof.
  intros Hinv Hrow Hold Hvalid Hne
         [(_ & Hv & Ht)|(row' & w' & e' & Hrow' & Hl & Hv & Ht & Hw)]%write_entry_holds.
  - by apply Hne.
  - rewrite Hrow in Hrow'. injection Hrow' as <-.
    apply Hw; [done|]. by eapply (inv_unique _ _ _ _ Hinv set row).
Qed.

End write_entry_facts.

(** ** Decoding inside a cache that satisfies the invariant *)

Section level_facts.

Context (c : Cache.t) (B S : Z) (numWays : nat).
Hypothesis Hinv : cache_inv c B S numWays.

Lemma inv_pow_pos : 0 < 2 ^ B ∧ 0 < 2 ^ S ∧ 0 < 2 ^ (64 - B - S).
Proof.
  destruct (inv_bits _ _ _ _ Hinv) as (? & ? & ?).
  repeat split; apply Z.pow_pos_nonneg; lia.
Qed.

Lemma inv_pow_split :
  UINT64_MODULUS = 2 ^ (64 - B - S) * 2 ^ S * 2 ^ B.
Proof.
  destruct (inv_bits _ _ _ _ Hinv) as (? & ? & ?).
  rewrite <- !Z.pow_add_r by lia. unfold UINT64_MODULUS. f_equal. lia.
Qed.

Lemma block_nonneg (a : Z) : 0 ≤ a → 0 ≤ a / 2 ^ B.
Proof. intros. apply Z.div_pos; [done|]. apply inv_pow_pos. Qed.

Lemma decode_tag_range (a : Z) :
  0 ≤ a < UINT64_MODULUS → 0 ≤ a / 2 ^ B / 2 ^ S < 2 ^ (64 - B - S).
Proof.
  intros Ha. destruct inv_pow_pos as (HB & HS & HT).
  split; [apply Z.div_pos; [apply block_nonneg; lia|done]|].
  apply Z.div_lt_upper_bound; [done|]. apply Z.div_lt_upper_bound; [done|].
  rewrite inv_pow_split in Ha. lia.
Qed.

Lemma decode_set_lt (b : Z) :
  (Z.to_nat (b mod 2 ^ S) < length (Cache.cacheEntries_ c))%nat.
Proof.
  destruct inv_pow_pos as (_ & HS & _).
  pose proof (Z.mod_pos_bound b (2 ^ S) HS).
  pose proof (inv_sets _ _ _ _ Hinv). lia.
Qed.

Lemma decode_row (b : Z) :
  ∃ row, Cache.cacheEntries_ c !! Z.to_nat (b mod 2 ^ S) = Some row
         ∧ length row = numWays.
Proof.
  destruct (lookup_lt_is_Some_2 _ _ (decode_set_lt b)) as [row Hrow].
  exists row. split; [done|]. by eapply inv_ways.
Qed.

Lemma getSetAndTag_spec (a : Z) :
  0 ≤ a < UINT64_MODULUS →
  Cache.getSetAndTag c a
  = Some (Z.to_nat ((a / 2 ^ B) mod 2 ^ S), a / 2 ^ B / 2 ^ S).
Proof.
  intros Ha. destruct (inv_bits _ _ _ _ Hinv) as (HB & HS & HBS).
  unfold Cache.getSetAndTag.
  rewrite (inv_offset_bits _ _ _ _ Hinv), (inv_index_bits _ _ _ _ Hinv). simpl.
  rewrite getIndex_spec, getTag_spec by done. simpl.
  by rewrite Z.pow_add_r, Z.div_div by (try apply Z.pow_pos_nonneg; lia).
Qed.

Lemma reconstructAddress_spec (set : nat) (tag : Z) :
  Z.of_nat set < 2 ^ S → 0 ≤ tag < 2 ^ (64 - B - S) →
  ∃ v, Cache.reconstructAddress c set tag = Some v
       ∧ 0 ≤ v < UINT64_MODULUS
       ∧ v / 2 ^ B = tag * 2 ^ S + Z.of_nat set.
Proof.
  intros Hset Htag. destruct (inv_bits _ _ _ _ Hinv) as (HB & HS & HBS).
  destruct inv_pow_pos as (HpB & HpS & HpT).
  assert (0 ≤ tag * 2 ^ S + Z.of_nat set < 2 ^ (64 - B - S) * 2 ^ S) as Hblock by nia.
  assert (0 ≤ (tag * 2 ^ S + Z.of_nat set) * 2 ^ B < UINT64_MODULUS) as Hv.
  { rewrite inv_pow_split. nia. }
  exists ((tag * 2 ^ S + Z.of_nat set) * 2 ^ B).
  split; [|split; [done|by rewrite Z.div_mul by lia]].
  unfold Cache.reconstructAddress.
  rewrite (inv_offset_bits _ _ _ _ Hinv), (inv_index_bits _ _ _ _ Hinv). simpl.
  unfold shl64, ADDRESS_WIDTH. rewrite !decide_True by lia. simpl.
  rewrite !Z.shiftl_mul_pow2 by lia.
  assert (0 ≤ Z.of_nat set * 2 ^ B < 2 ^ (B + S)) as Hlo.
  { rewrite Z.pow_add_r by lia. nia. }
  assert (0 ≤ tag * 2 ^ (B + S)) as Hhi0.
  { apply Z.mul_nonneg_nonneg; [lia|]. apply Z.pow_nonneg. lia. }
  assert (tag * 2 ^ (B + S) + Z.of_nat set * 2 ^ B
          = (tag * 2 ^ S + Z.of_nat set) * 2 ^ B) as Hsum.
  { rewrite Z.pow_add_r by lia. ring. }
  rewrite (wrap64_small (tag * 2 ^ (B + S))) by lia.
  rewrite (wrap64_small (Z.of_nat set * 2 ^ B)) by lia.
  rewrite <- (Z.shiftl_mul_pow2 tag) by lia.
  rewrite lor_shiftl_low by lia. by rewrite Hsum.
Qed.

End level_facts.

(** ** The operations of a cache level, in terms of resident blocks *)

Section operations.

Context (c : Cache.t) (B S : Z) (numWays : nat).
Hypothesis Hinv : cache_inv c B S numWays.

Lemma resident_same_entries (c1 c2 : Cache.t) (b : Z) :
  Cache.cacheEntries_ c1 = Cache.cacheEntries_ c2 →
  resident c1 S b → resident c2 S b.
Proof. unfold resident, holds. by intros ->. Qed.

(** Installing a valid entry for the block of [a] in a way of its set, when
    no other way of the set holds that tag. *)
Lemma install_spec (c0 : Cache.t) (a : Z) (way : nat) (newE : CacheEntry)
      (row : list CacheEntry) :
  0 ≤ a < UINT64_MODULUS →
  Cache.config_ c0 = Cache.config_ c →
  Cache.cacheEntries_ c0 = Cache.cacheEntries_ c →
  policy_inv (Cache.policy_ c0) numWays →
  Cache.cacheEntries_ c !! Z.to_nat ((a / 2 ^ B) mod 2 ^ S) = Some row →
  valid_ newE = true → tag_ newE = a / 2 ^ B / 2 ^ S →
  (∀ w' e', row !! w' = Some e' → w' ≠ way → valid_ e' = true →
            tag_ e' ≠ a / 2 ^ B / 2 ^ S) →
  let c1 := Cache.write_entry c0 (Z.to_nat ((a / 2 ^ B) mod 2 ^ S)) way newE in
  cache_inv c1 B S numWays
  ∧ (∀ b, 0 ≤ b → resident c1 S b → b = a / 2 ^ B ∨ resident c S b)
  ∧ (∀ victim, row !! way = Some victim → valid_ victim = true →
               tag_ victim ≠ a / 2 ^ B / 2 ^ S →
               ∃ v, Cache.reconstructAddress c (Z.to_nat ((a / 2 ^ B) mod 2 ^ S))
                                             (tag_ victim) = Some v
                    ∧ 0 ≤ v < UINT64_MODULUS
                    ∧ ¬ resident c1 S (v / 2 ^ B)
                    ∧ v / 2 ^ B ≠ a / 2 ^ B).
Proof.
  intros Ha Hcfg Hes Hpol Hrow Hvalid Htag Hothers c1.
  destruct (inv_bits _ _ _ _ Hinv) as (HB & HS & HBS).
  destruct (inv_pow_pos _ _ _ _ Hinv) as (HpB & HpS & HpT).
  pose proof (cache_inv_same_entries _ _ _ _ _ Hinv Hcfg Hes Hpol) as Hinv0.
  assert (Cache.cacheEntries_ c0 !! Z.to_nat ((a / 2 ^ B) mod 2 ^ S) = Some row)
    as Hrow0 by by rewrite Hes.
  pose proof (Z.mod_pos_bound (a / 2 ^ B) (2 ^ S) HpS) as Hset.
  split; [|split].
  - apply (write_entry_inv _ _ _ _ _ _ _ row Hinv0 Hrow0).
    intros _. rewrite Htag. split; [by apply (decode_tag_range _ _ _ _ Hinv)|done].
  - intros b Hb Hres. apply write_entry_holds_before in Hres as [(Hs & _ & Ht)|Hold].
    + left. apply (slot_injective S); try done.
      * by apply (block_nonneg _ _ _ _ Hinv); lia.
      * by rewrite <- Ht.
    + right. unfold resident, holds. by rewrite <- Hes.
  - intros victim Hvictim Hvv Hvt.
    destruct (reconstructAddress_spec _ _ _ _ Hinv
                (Z.to_nat ((a / 2 ^ B) mod 2 ^ S)) (tag_ victim))
      as (v & Hv & Hrange & Hblock).
    { rewrite Z2Nat.id by lia. lia. }
    { by eapply (inv_tags _ _ _ _ Hinv). }
    rewrite Z2Nat.id in Hblock by lia.
    assert ((v / 2 ^ B) mod 2 ^ S = (a / 2 ^ B) mod 2 ^ S) as Hvset.
    { rewrite Hblock, Z.add_comm, Z.mod_add by lia. apply Z.mod_small. lia. }
    assert (v / 2 ^ B / 2 ^ S = tag_ victim) as Hvtag.
    { rewrite Hblock, Z.div_add_l by lia. rewrite (Z.div_small (_ mod _)) by lia. lia. }
    exists v. split; [done|]. split; [done|]. split.
    + unfold resident. rewrite Hvset, Hvtag.
      apply (write_entry_removes _ _ _ _ _ _ _ victim row Hinv0 Hrow0 Hvictim Hvv).
      intros _. by rewrite Htag.
    + intros Heq. apply Hvt. by rewrite <- Hvtag, Heq.
Qed.

(** Ways that [findEntry] returns or that hold an entry are ways of the set. *)
Lemma row_way_lt (set way : nat) (row : list CacheEntry) (e : CacheEntry) :
  Cache.cacheEntries_ c !! set = Some row → row !! way = Some e →
  (way < numWays)%nat.
Proof.
  intros Hrow Hl. rewrite <- (inv_ways _ _ _ _ Hinv set row Hrow).
  by eapply lookup_lt_Some.
Qed.

(** [Cache::access] completes and satisfies [access_post]. *)
Lemma access_spec (a : Z) (type : AccessType) :
  0 ≤ a < UINT64_MODULUS →
  match Cache.access c a type with
  | Some (c', result) => access_post c B S numWays a type c' result
  | None => False
  end.
Proof.
  intros Ha. unfold Cache.access, access_post.
  rewrite (getSetAndTag_spec _ _ _ _ Hinv) by done.
  simpl. unfold Cache.findEntry.
  destruct (decode_row _ _ _ _ Hinv (a / 2 ^ B)) as (row & Hrow & Hlen).
  rewrite Hrow. simpl.
  destruct (Cache.find_way row (a / 2 ^ B / 2 ^ S)) as [way|] eqn:Hfind.
  - (* hit *)
    apply find_way_Some in Hfind as (entry & Hentry & Hvalid & Htag & _).
    pose proof (row_way_lt _ _ _ _ Hrow Hentry) as Hway.
    set (c1 := Cache.set_policy _ _).
    assert (cache_inv c1 B S numWays) as Hinv1.
    { apply (cache_inv_same_entries c); try done.
      apply onAccess_inv; [apply Hinv|done]. }
    destruct (bool_decide (type = Write) && writeBack (Cache.config_ c)) eqn:Hwb.
    + rewrite Hentry. simpl.
      assert (∀ b, resident (Cache.write_entry c1 (Z.to_nat ((a / 2 ^ B) mod 2 ^ S))
                                               way (setDirty entry true)) S b
                   → resident c S b) as Hsame.
      { intros b [(Hs & _ & Ht)|Hold]%write_entry_holds_before; [|done].
        unfold resident. rewrite Hs, <- Ht. exists row. split; [done|].
        by exists way, entry. }
      split; [|split; [done|]].
      2:{ repeat split; try done; auto.
          unfold resident. rewrite <- Htag.
          apply (write_entry_holds_new c1 _ way (setDirty entry true) row); try done.
          rewrite Hlen. done. }
      apply (write_entry_inv _ _ _ _ _ _ _ row Hinv1 Hrow). intros _. simpl. split.
      * by eapply (inv_tags _ _ _ _ Hinv).
      * intros w' e' Hl Hne Hv' Ht. apply Hne.
        by eapply (inv_unique _ _ _ _ Hinv _ row).
    + simpl. split; [done|]. split; [done|]. repeat split; try done; auto.
      unfold resident. exists row. split; [done|]. by exists way, entry.
  - (* miss *)
    pose proof (proj1 (find_way_None _ _) Hfind) as Hnone.
    assert (¬ resident c S (a / 2 ^ B)) as Hmiss.
    { intros (row' & Hrow' & w & e & Hl & Hv & Ht). rewrite Hrow in Hrow'.
      injection Hrow' as <-. by eapply Hnone. }
    set (c1 := Cache.set_misses _ _).
    assert (cache_inv c1 B S numWays) as Hinv1.
    { apply (cache_inv_same_entries c); try done. apply Hinv. }
    destruct (bool_decide (type = Read)
              || bool_decide (type = Write) && writeAllocate (Cache.config_ c)) eqn:Halloc.
    + unfold Cache.allocateEntry.
      change (Cache.cacheEntries_ c1) with (Cache.cacheEntries_ c).
      change (Cache.policy_ c1) with (Cache.policy_ c).
      rewrite Hrow. simpl.
      destruct (getVictim_in_range (Cache.policy_ c)
                  (Z.to_nat ((a / 2 ^ B) mod 2 ^ S)) (length row))
        as (p' & way & Hvictim & Hway & Hpol'); [rewrite Hlen; apply Hinv
                                                 |rewrite Hlen; apply Hinv|].
      rewrite Hvictim. simpl.
      destruct (lookup_lt_is_Some_2 row way Hway) as [victim Hventry].
      rewrite Hventry. simpl. rewrite Hlen in Hway, Hpol'.
      set (newE := {| valid_ := true; dirty_ := _; tag_ := _ |}).
      destruct (install_spec (Cache.set_policy c1 p') a way newE row Ha)
        as (Hinv2 & Hres2 & Hev2); try done.
      { intros w' e' Hl _ Hv Ht. by eapply Hnone. }
      set (c2 := Cache.write_entry _ _ _ _) in *.
      assert (cache_inv (Cache.set_policy c2
                (Policy.onAccess (Cache.policy_ c2) (Z.to_nat ((a / 2 ^ B) mod 2 ^ S)) way))
                B S numWays) as Hinv3.
      { apply (cache_inv_same_entries c2); try done.
        apply onAccess_inv; [apply Hinv2|done]. }
      assert (is_Some (Cache.cacheEntries_ c2 !! Z.to_nat ((a / 2 ^ B) mod 2 ^ S)))
        as [row2 Hrow2].
      { apply lookup_lt_is_Some_2. unfold c2. simpl. rewrite length_alter.
        apply (decode_set_lt _ _ _ _ Hinv). }
      destruct (valid_ victim) eqn:Hvv.
      * assert (tag_ victim ≠ a / 2 ^ B / 2 ^ S) as Hvt.
        { intros Ht. by eapply Hnone. }
        destruct (Hev2 victim Hventry Hvv Hvt) as (v & Hv & Hvr & Hvres & Hvne).
        change (Cache.reconstructAddress c1) with (Cache.reconstructAddress c) .
        unfold Cache.reconstructAddress in *. simpl in *. rewrite Hv. simpl.
        rewrite Hrow2. simpl.
        split; [done|]. split; [done|]. split; [exact Hres2|].
        split; [done|]. split; [done|]. split.
        -- intros _ -> Hwa. rewrite Hwa in Halloc. done.
        -- intros v' [= <-]. done.
      * simpl in *. rewrite Hrow2. simpl.
        split; [done|]. split; [done|]. split; [exact Hres2|].
        split; [done|]. split; [done|]. split; [|done].
        intros _ -> Hwa. rewrite Hwa in Halloc. done.
    + simpl.
      split; [done|]. split; [done|]. split; [auto|].
      split; [done|]. split; [done|]. split; [|done]. auto.
Qed.

(** [Cache::invalidateEntry] completes, removes the block of [a] and adds
    nothing. *)
Lemma invalidateEntry_spec (a : Z) :
  0 ≤ a < UINT64_MODULUS →
  match Cache.invalidateEntry c a with
  | Some c' =>
      cache_inv c' B S numWays
      ∧ Cache.config_ c' = Cache.config_ c
      ∧ ¬ resident c' S (a / 2 ^ B)
      ∧ ∀ b, resident c' S b → resident c S b
  | None => False
  end.
Proof.
  intros Ha. unfold Cache.invalidateEntry.
  rewrite (getSetAndTag_spec _ _ _ _ Hinv) by done.
  simpl. unfold Cache.findEntry.
  destruct (decode_row _ _ _ _ Hinv (a / 2 ^ B)) as (row & Hrow & Hlen).
  rewrite Hrow. simpl.
  destruct (Cache.find_way row (a / 2 ^ B / 2 ^ S)) as [way|] eqn:Hfind.
  - apply find_way_Some in Hfind as (entry & Hentry & Hvalid & Htag & _).
    split; [|split; [done|split]].
    + by apply (write_entry_inv _ _ _ _ _ _ _ row Hinv Hrow).
    + unfold resident. rewrite <- Htag.
      by apply (write_entry_removes _ _ _ _ _ _ _ entry row Hinv Hrow Hentry).
    + by intros b [(_ & Hv & _)|Hold]%write_entry_holds_before.
  - pose proof (proj1 (find_way_None _ _) Hfind) as Hnone.
    split; [done|]. split; [done|]. split; [|done].
    intros (row' & Hrow' & w & e & Hl & Hv & Ht). rewrite Hrow in Hrow'.
    injection Hrow' as <-. by eapply Hnone.
Qed.

(** [Cache::forceEntry] completes and satisfies [forceEntry_post]. *)
Lemma forceEntry_spec (a : Z) (entry : CacheEntry) (type : AccessType) :
  0 ≤ a < UINT64_MODULUS →
  match Cache.forceEntry c a entry type with
  | Some (c', result) => forceEntry_post c B S numWays a c' result
  | None => False
  end.
Proof.
  intros Ha. unfold Cache.forceEntry, forceEntry_post.
  rewrite (getSetAndTag_spec _ _ _ _ Hinv) by done.
  simpl. unfold Cache.findEntry.
  destruct (decode_row _ _ _ _ Hinv (a / 2 ^ B)) as (row & Hrow & Hlen).
  rewrite Hrow. simpl.
  set (installed :=
         if bool_decide (type = Write) && writeBack (Cache.config_ c)
         then setDirty (setValid (setTag entry (a / 2 ^ B / 2 ^ S)) true) true
         else setValid (setTag entry (a / 2 ^ B / 2 ^ S)) true).
  assert (valid_ installed = true ∧ tag_ installed = a / 2 ^ B / 2 ^ S)
    as [Hivalid Hitag].
  { unfold installed. by destruct (_ && _). }
  destruct (Cache.find_way row (a / 2 ^ B / 2 ^ S)) as [way|] eqn:Hfind; simpl.
  - apply find_way_Some in Hfind as (old & Hold & Hvalid & Htag & _).
    pose proof (row_way_lt _ _ _ _ Hrow Hold) as Hway.
    fold installed.
    destruct (install_spec c a way installed row Ha)
      as (Hinv2 & Hres2 & _); try done; [apply Hinv| |].
    { intros w' e' Hl Hne Hv Ht. apply Hne.
      eapply (inv_unique _ _ _ _ Hinv _ row); try done. by rewrite Htag. }
    set (c2 := Cache.write_entry _ _ _ _) in *.
    split; [|split; [done|split; [exact Hres2|done]]].
    apply (cache_inv_same_entries c2); try done.
    apply onAccess_inv; [apply Hinv2|done].
  - pose proof (proj1 (find_way_None _ _) Hfind) as Hnone.
    destruct (getVictim_in_range (Cache.policy_ c)
                (Z.to_nat ((a / 2 ^ B) mod 2 ^ S)) (length row))
      as (p' & way & Hvictim & Hway & Hpol'); [rewrite Hlen; apply Hinv
                                               |rewrite Hlen; apply Hinv|].
    rewrite Hvictim. simpl.
    destruct (lookup_lt_is_Some_2 row way Hway) as [victim Hventry].
    rewrite Hventry. simpl. rewrite Hlen in Hway, Hpol'.
    destruct (install_spec (Cache.set_policy c p') a way installed row Ha)
      as (Hinv2 & Hres2 & Hev2); try done.
    { intros w' e' Hl _ Hv Ht. by eapply Hnone. }
    set (c2 := Cache.write_entry _ _ _ _) in *.
    assert (cache_inv (Cache.set_policy c2
              (Policy.onAccess (Cache.policy_ c2) (Z.to_nat ((a / 2 ^ B) mod 2 ^ S)) way))
              B S numWays) as Hinv3.
    { apply (cache_inv_same_entries c2); try done.
      apply onAccess_inv; [apply Hinv2|done]. }
    destruct (valid_ victim && dirty_ victim) eqn:Hvd.
    + apply andb_true_iff in Hvd as [Hvv Hvdirty].
      assert (tag_ victim ≠ a / 2 ^ B / 2 ^ S) as Hvt.
      { intros Ht. by eapply Hnone. }
      destruct (Hev2 victim Hventry Hvv Hvt) as (v & Hv & Hvr & Hvres & Hvne).
      change (Cache.reconstructAddress (Cache.set_policy c p'))
        with (Cache.reconstructAddress c).
      rewrite Hv. simpl. fold installed. fold c2.
      split; [done|]. split; [done|]. split; [exact Hres2|].
      intros v' [= <-]. done.
    + simpl. fold installed. fold c2.
      split; [done|]. split; [done|]. split; [exact Hres2|done].
Qed.

(** [Cache::getEntry] and [Cache::contains] complete. *)
Lemma getEntry_spec (a : Z) :
  0 ≤ a < UINT64_MODULUS →
  match Cache.getEntry c a with
  | Some (Some _) => resident c S (a / 2 ^ B)
  | Some None => ¬ resident c S (a / 2 ^ B)
  | None => False
  end.
Proof.
  intros Ha. unfold Cache.getEntry.
  rewrite (getSetAndTag_spec _ _ _ _ Hinv) by done.
  simpl. unfold Cache.findEntry.
  destruct (decode_row _ _ _ _ Hinv (a / 2 ^ B)) as (row & Hrow & Hlen).
  rewrite Hrow. simpl.
  destruct (Cache.find_way row (a / 2 ^ B / 2 ^ S)) as [way|] eqn:Hfind; simpl.
  - apply find_way_Some in Hfind as (entry & Hentry & Hv & Ht & _).
    rewrite Hentry. simpl. exists row. split; [done|]. by exists way, entry.
  - pose proof (proj1 (find_way_None _ _) Hfind) as Hnone.
    intros (row' & Hrow' & w & e & Hl & Hv & Ht). rewrite Hrow in Hrow'.
    injection Hrow' as <-. by eapply Hnone.
Qed.

Lemma contains_spec (a : Z) :
  0 ≤ a < UINT64_MODULUS →
  ∃ inCache, Cache.contains c a = Some inCache
             ∧ (inCache = true ↔ resident c S (a / 2 ^ B)).
Proof.
  intros Ha. unfold Cache.contains.
  rewrite (getSetAndTag_spec _ _ _ _ Hinv) by done.
  simpl. unfold Cache.findEntry.
  destruct (decode_row _ _ _ _ Hinv (a / 2 ^ B)) as (row & Hrow & Hlen).
  rewrite Hrow. simpl. eexists. split; [reflexivity|].
  rewrite bool_decide_eq_true. unfold resident, holds. split.
  - intros [way (e & Hl & Hv & Ht & _)%find_way_Some]. exists row. split; [done|].
    by exists way, e.
  - intros (row' & Hrow' & way & e & Hl & Hv & Ht). rewrite Hrow in Hrow'.
    injection Hrow' as <-.
    destruct (Cache.find_way row (a / 2 ^ B / 2 ^ S)) eqn:Hfind; [done|].
    exfalso. by eapply (proj1 (find_way_None _ _) Hfind).
Qed.

End operations.

(** ** A freshly constructed cache *)

Section fresh.

Lemma getIndexBits_log2 (config : CacheConfig) (numSets : Z) :
  getNumSets config = Some numSets → 0 < numSets < UINT64_MODULUS →
  getIndexBits config = Some (Z.log2 numSets).
Proof.
  intros Hns Hrange. rewrite pow2_64 in Hrange.
  assert (shift_count 64 numSets 0 mod 256 = Z.log2 numSets) as Hcount.
  { rewrite shift_count_log2 by (change (2 ^ Z.of_nat 64) with 18446744073709551616; lia).
    rewrite Z.add_0_l. apply Z.mod_small.
    split; [apply Z.log2_nonneg|]. apply Z.lt_trans with 64; [|lia].
    apply Z.log2_lt_pow2; [lia|].
    change (2 ^ 64) with 18446744073709551616. lia. }
  unfold getIndexBits.
  destruct (organization config) eqn:Horg; rewrite ?Hns; cbn [mbind option_bind];
    rewrite ?Hcount; try done.
  unfold getNumSets in Hns. rewrite Horg in Hns. by injection Hns as <-.
Qed.

Lemma well_formed_geometry (config : CacheConfig) :
  well_formed config →
  ∃ numSets numWays,
    getNumSets config = Some numSets ∧ getNumWays config = Some numWays
    ∧ 0 < numSets ∧ 0 < numWays
    ∧ blockSize config * numSets ≤ size config.
Proof.
  intros (Hbs & Hsize & Horg). unfold getNumSets, getNumWays, udiv.
  destruct (organization config).
  - rewrite decide_False by lia. eexists _, _. split; [done|]. split; [done|].
    split; [|split; [lia|]].
    + apply Z.div_str_pos. lia.
    + apply Z.mul_div_le. lia.
  - destruct Horg as [Hassoc Hprod].
    rewrite wrap64_small by nia. rewrite decide_False by nia.
    eexists _, _. split; [done|]. split; [done|].
    split; [|split; [lia|]].
    + apply Z.div_str_pos. nia.
    + pose proof (Z.mul_div_le (size config) (blockSize config * associativity config)
                    ltac:(nia)).
      assert (0 ≤ size config / (blockSize config * associativity config))
        by (apply Z.div_pos; nia).
      nia.
  - rewrite decide_False by lia. eexists _, _. split; [done|]. split; [done|].
    split; [lia|]. split; [|lia]. apply Z.div_str_pos. lia.
Qed.

Lemma new_inv (config : CacheConfig) (rd : nat → nat) :
  well_formed config →
  ∃ c S numWays,
    Cache.new config rd = inr c
    ∧ Cache.config_ c = config
    ∧ cache_inv c (Z.log2 (blockSize config)) S numWays
    ∧ ∀ b, ¬ resident c S b.
Proof.
  intros Hwf.
  destruct (well_formed_geometry config Hwf) as (ns & nw & Hns & Hnw & Hns0 & Hnw0 & Hprod).
  destruct Hwf as (Hbs & Hsize & Horg).
  assert (blockSize config ≤ size config) as Hbs_le by nia.
  assert (ns ≤ size config) as Hns_le by nia.
  destruct (getBlockOffsetBits_log2 config ltac:(lia)) as [HB HBrange].
  pose proof (getIndexBits_log2 config ns Hns ltac:(lia)) as HS.
  pose proof (Z.log2_nonneg ns) as HS0.
  pose proof (Z.log2_spec (blockSize config) Hbs) as [HpB _].
  pose proof (Z.log2_spec ns Hns0) as [HpS _].
  unfold Cache.new. rewrite Hns, Hnw.
  eexists _, (Z.log2 ns), (Z.to_nat nw). split; [reflexivity|]. split; [done|].
  assert (∀ set row way entry,
            replicate (Z.to_nat ns) (replicate (Z.to_nat nw) CacheEntry_default)
              !! set = Some row →
            row !! way = Some entry → entry = CacheEntry_default) as Hdefault.
  { intros set row way entry [-> _]%lookup_replicate [-> _]%lookup_replicate. done. }
  split; [split; simpl; try done|].
  - split; [lia|]. split; [done|].
    apply (Z.pow_lt_mono_r_iff 2); [lia|lia|].
    rewrite Z.pow_add_r by lia.
    assert (0 < 2 ^ Z.log2 (blockSize config)) by (apply Z.pow_pos_nonneg; lia).
    assert (0 < 2 ^ Z.log2 ns) by (apply Z.pow_pos_nonneg; lia).
    rewrite pow2_64 in Hsize. change (2 ^ 64) with 18446744073709551616. nia.
  - rewrite length_replicate. lia.
  - intros set row [-> _]%lookup_replicate. by rewrite length_replicate.
  - lia.
  - apply createPolicy_inv.
  - intros set row Hrow w1 w2 e1 e2 H1 H2 Hv1.
    by rewrite (Hdefault _ _ _ _ Hrow H1) in Hv1.
  - intros set row way entry Hrow Hl Hv.
    by rewrite (Hdefault _ _ _ _ Hrow Hl) in Hv.
  - intros b (row & Hrow & way & e & Hl & Hv & _). simpl in Hrow.
    by rewrite (Hdefault _ _ _ _ Hrow Hl) in Hv.
Qed.

End fresh.

(** ** The Exclusive state machine *)

Section exclusive_step.

Context (B S1 S2 : Z) (ways1 ways2 : nat).

Local Arguments Cache.access : simpl never.
Local Arguments Cache.forceEntry : simpl never.
Local Arguments Cache.invalidateEntry : simpl never.
Local Arguments Cache.getEntry : simpl never.
Local Arguments Cache.getSetAndTag : simpl never.



Local Arguments CacheHierarchy.search_lower : simpl never.




End exclusive_step.

(** ** Exclusive hierarchies over whole traces *)






(** ** The circular-counter FIFO follows the FIFO rule *)

Section fifo_refinement.

Lemma first_way_intro (unused : nat → bool) (numWays k : nat) :
  (k < numWays)%nat → unused k = true → (∀ j, (j < k)%nat → unused j = false) →
  first_way unused numWays = Some k.
Proof.
  intros Hk Hu Hbefore. unfold first_way. apply fmap_Some. exists (k, k).
  split; [|done]. apply list_find_Some. split; [by apply lookup_seq_lt|].
  split; [done|]. intros i y [-> _]%lookup_seq Hi. simpl.
  by rewrite Hbefore.
Qed.

Lemma filter_all (P : nat → Prop) `{∀ x, Decision (P x)} (l : list nat) :
  Forall P l → filter P l = l.
Proof.
  induction 1 as [|x l Hx _ IH]; [done|].
  by rewrite filter_cons_True, IH.
Qed.

(** Installing in the next empty way of a filling set. *)
Lemma install_fill (k : nat) :
  FIFOReference.install (seq 0 k) k = seq 0 (S k).
Proof.
  unfold FIFOReference.install. rewrite filter_all.
  - by rewrite seq_S.
  - apply Forall_forall. intros x [_ Hx]%elem_of_seq. lia.
Qed.

(** Installing in the oldest way of a full set rotates the order. *)
Lemma install_rotate (numWays c : nat) :
  (c < numWays)%nat →
  FIFOReference.install (seq c (numWays - c) ++ seq 0 c) c
  = seq (S c) (numWays - S c) ++ seq 0 (S c).
Proof.
  intros Hc. unfold FIFOReference.install.
  replace (numWays - c)%nat with (S (numWays - S c)) by lia. simpl seq at 1.
  rewrite filter_app, filter_cons_False by (intros Hne; by apply Hne).
  rewrite !filter_all.
  - by rewrite seq_S, app_assoc.
  - apply Forall_forall. intros x [_ Hx]%elem_of_seq. lia.
  - apply Forall_forall. intros x [Hx _]%elem_of_seq. lia.
Qed.

Lemma init_counter_default (circularCounters : gmap nat nat) (set : nat) :
  default 0%nat
    (match circularCounters !! set with
     | Some _ => circularCounters
     | None => <[set := 0%nat]> circularCounters
     end !! set)
  = default 0%nat (circularCounters !! set).
Proof.
  destruct (circularCounters !! set) eqn:Hc; [by rewrite Hc|].
  by rewrite lookup_insert_eq.
Qed.

(** A miss: both return the same way, and the states keep mirroring. *)
Lemma circular_miss (p : ReplacementPolicy) (set numWays : nat) (order : list nat) :
  (0 < numWays)%nat → circular_mirrors p set numWays order →
  ∃ p' way,
    Policy.getVictim p set numWays = Some (p', way)
    ∧ FIFOReference.victim order numWays = Some way
    ∧ circular_mirrors (Policy.onAccess p' set way) set numWays
                       (FIFOReference.install order way).
Proof.
  intros Hn (counters & used & -> & [(k & Hk & -> & HU & HC)|(c & Hc & -> & HU & HC)]).
  - (* filling: the victim is way k *)
    simpl. rewrite HU, size_set_seq. rewrite decide_True by done.
    erewrite (first_way_intro _ numWays k); [|done| |].
    2:{ apply bool_decide_eq_true. rewrite elem_of_set_seq. lia. }
    2:{ intros j Hj. apply bool_decide_eq_false. rewrite elem_of_set_seq. lia. }
    eexists _, k. split; [reflexivity|]. split.
    + unfold FIFOReference.victim. rewrite length_seq, decide_True by done.
      apply first_way_intro; [done| |].
      * apply bool_decide_eq_true. rewrite elem_of_seq. lia.
      * intros j Hj. apply bool_decide_eq_false. rewrite elem_of_seq. lia.
    + simpl. eexists _, _. split; [reflexivity|].
      rewrite !lookup_insert_eq. simpl. rewrite install_fill.
      assert ({[k]} ∪ set_seq 0 k = set_seq (C:=gset nat) 0 (S k)) as HU'.
      { by rewrite set_seq_S_end_union_L. }
      assert (default 0%nat
                (match (match counters !! set with
                        | Some _ => counters
                        | None => <[set:=0%nat]> counters
                        end) !! set with
                 | Some _ => match counters !! set with
                             | Some _ => counters
                             | None => <[set:=0%nat]> counters
                             end
                 | None => <[set:=0%nat]> (match counters !! set with
                                            | Some _ => counters
                                            | None => <[set:=0%nat]> counters
                                            end)
                 end !! set) = 0%nat) as HC'.
      { by rewrite !init_counter_default. }
      destruct (decide (S k < numWays)%nat) as [Hlt|Hfull].
      * left. exists (S k). by rewrite HU'.
      * right. exists 0%nat. assert (S k = numWays) as <- by lia.
        rewrite Nat.sub_0_r, app_nil_r. by rewrite HU'.
  - (* full: the victim is the way under the counter *)
    simpl. rewrite HU, size_set_seq. rewrite decide_False by lia.
    rewrite decide_False by lia. rewrite init_counter_default, HC.
    eexists _, c. split; [reflexivity|]. split.
    + unfold FIFOReference.victim.
      rewrite length_app, !length_seq, decide_False by lia.
      replace (numWays - c)%nat with (S (numWays - S c)) by lia. done.
    + simpl. eexists _, _. split; [reflexivity|].
      rewrite !lookup_insert_eq. simpl. rewrite install_rotate by done.
      assert ({[c]} ∪ set_seq 0 numWays = set_seq (C:=gset nat) 0 numWays) as HU'.
      { apply set_eq. intros x. rewrite elem_of_union, elem_of_singleton.
        rewrite elem_of_set_seq. lia. }
      destruct (decide (S c < numWays)%nat) as [Hlt|Hwrap].
      * right. exists (S c). rewrite HU'. repeat split; try done.
        replace (c + 1)%nat with (S c) by lia. by rewrite Nat.mod_small.
      * right. exists 0%nat. assert (S c = numWays) as Hw by lia.
        rewrite HU'. repeat split; try done.
        -- rewrite Hw, Nat.sub_diag, Nat.sub_0_r. simpl. by rewrite app_nil_r.
        -- replace (c + 1)%nat with numWays by lia. by rewrite Nat.Div0.mod_same.
Qed.

(** A hit on a way that holds a block changes neither side. *)
Lemma circular_hit (p : ReplacementPolicy) (set numWays way : nat) (order : list nat) :
  way ∈ order → circular_mirrors p set numWays order →
  circular_mirrors (Policy.onAccess p set way) set numWays order.
Proof.
  intros Hway (counters & used & -> & Hstate). simpl.
  eexists _, _. split; [reflexivity|].
  rewrite lookup_insert_eq, init_counter_default. simpl.
  destruct Hstate as [(k & Hk & -> & HU & HC)|(c & Hc & -> & HU & HC)].
  - left. exists k. repeat split; try done. rewrite HU.
    apply elem_of_seq in Hway. apply set_eq. intros x.
    rewrite elem_of_union, elem_of_singleton, elem_of_set_seq. lia.
  - right. exists c. repeat split; try done. rewrite HU.
    apply elem_of_app in Hway. rewrite !elem_of_seq in Hway.
    apply set_eq. intros x.
    rewrite elem_of_union, elem_of_singleton, elem_of_set_seq. lia.
Qed.

Lemma circular_mirrors_fresh (set numWays : nat) :
  (0 < numWays)%nat → circular_mirrors (FIFOPolicy ∅ ∅) set numWays [].
Proof.
  intros Hn. eexists _, _. split; [reflexivity|]. left. exists 0%nat.
  rewrite !lookup_empty. simpl. repeat split; try done.
Qed.

(** Along any disciplined list of events the circular-counter FIFO returns
    the victims of the FIFO rule, and it returns one at every miss. *)
Lemma circular_victims_follow_rule (events : list PolicyEvent) :
  ∀ (p : ReplacementPolicy) (set numWays : nat) (order : list nat),
    (0 < numWays)%nat → circular_mirrors p set numWays order →
    FIFOReference.disciplined order numWays events →
    ∃ victims, circular_victims p set numWays events = Some victims
               ∧ FIFOReference.victims order numWays events = Some victims.
Proof.
  induction events as [|[|way] events IH]; intros p set numWays order Hn Hm Hd.
  - by exists [].
  - destruct (circular_miss p set numWays order Hn Hm) as (p' & way & Hv & Hr & Hm').
    simpl in Hd. rewrite Hr in Hd.
    destruct (IH _ _ _ _ Hn Hm' Hd) as (rest & Hc & Hf).
    exists (way :: rest). simpl. rewrite Hv, Hr. simpl. by rewrite Hc, Hf.
  - destruct Hd as [Hway Hd].
    apply (IH _ set numWays order Hn (circular_hit _ _ _ _ _ Hway Hm) Hd).
Qed.

(** X17: the circular-counter [FIFOPolicy] evicts in installation order.
    Along any list of misses and hits of one set that follows the cache's
    usage (a miss installs in the way that [getVictim] returned and reports
    it with [onAccess]; a hit reports a way that holds a block), every
    [getVictim] returns, and it returns the lowest-numbered empty way while
    the set is filling and the oldest-installed way once it is full. *)
Lemma circular_fifo_is_fifo (set numWays : nat) (events : list PolicyEvent) :
  (0 < numWays)%nat → FIFOReference.disciplined [] numWays events →
  ∃ victims, circular_victims (FIFOPolicy ∅ ∅) set numWays events = Some victims
             ∧ FIFOReference.victims [] numWays events = Some victims.
Proof.
  intros Hn Hd.
  apply (circular_victims_follow_rule events _ set numWays []); [done| |done].
  by apply circular_mirrors_fresh.
Qed.

End fifo_refinement.

Lemma circular_fifo_is_fifo_witness :
  ∃ victims,
    circular_victims (FIFOPolicy ∅ ∅) 3 2
                     [MissEvent; MissEvent; HitEvent 0; MissEvent; MissEvent; MissEvent]
    = Some victims
    ∧ FIFOReference.victims [] 2
        [MissEvent; MissEvent; HitEvent 0; MissEvent; MissEvent; MissEvent]
      = Some victims
    ∧ victims = [0; 1; 0; 1; 0]%nat.
Proof.
  destruct (circular_fifo_is_fifo 3 2
              [MissEvent; MissEvent; HitEvent 0; MissEvent; MissEvent; MissEvent])
    as (victims & Hc & Hf).
  - lia.
  - simpl. split; [|exact I]. vm_compute. by left.
  - exists victims. split; [exact Hc|]. split; [exact Hf|].
    vm_compute in Hf. by injection Hf as <-.
Defined.

(** ** Reachable states of one cache level *)

(** Closed range conditions on concrete addresses and traces. *)
Ltac in_range := unfold uint64; simpl; rewrite ?pow2_64; lia.
Ltac trace_in_range :=
  repeat (apply Forall_cons; split; [in_range|]); apply Forall_nil_2.

Section reachable_states.

Local Arguments Cache.access : simpl never.
Local Arguments Cache.forceEntry : simpl never.
Local Arguments Cache.invalidateEntry : simpl never.

(** [Cache::reset] keeps the invariant and empties the cache. *)
Lemma reset_inv (c : Cache.t) (B S : Z) (numWays : nat) :
  cache_inv c B S numWays →
  cache_inv (Cache.reset c) B S numWays ∧ ∀ b, ¬ resident (Cache.reset c) S b.
Proof.
  intros Hinv.
  assert (∀ set row way entry,
            Cache.cacheEntries_ (Cache.reset c) !! set = Some row →
            row !! way = Some entry → entry = CacheEntry_default) as Hdefault.
  { simpl. intros set row way entry Hrow Hl.
    rewrite list_lookup_fmap in Hrow.
    destruct (Cache.cacheEntries_ c !! set) as [row0|]; [|done].
    injection Hrow as <-. rewrite list_lookup_fmap in Hl.
    destruct (row0 !! way); [|done]. by injection Hl as <-. }
  split; [split|].
  - apply Hinv.
  - apply Hinv.
  - apply Hinv.
  - simpl. rewrite length_map. apply Hinv.
  - simpl. intros set row Hrow. rewrite list_lookup_fmap in Hrow.
    destruct (Cache.cacheEntries_ c !! set) as [row0|] eqn:Hrow0; [|done].
    injection Hrow as <-. rewrite length_map. by eapply (inv_ways _ _ _ _ Hinv).
  - apply Hinv.
  - simpl. destruct (Cache.policy_ c); simpl; try done;
      intros set l Hl; by rewrite lookup_empty in Hl.
  - intros set row Hrow w1 w2 e1 e2 H1 H2 Hv1.
    by rewrite (Hdefault _ _ _ _ Hrow H1) in Hv1.
  - intros set row way entry Hrow Hl Hv.
    by rewrite (Hdefault _ _ _ _ Hrow Hl) in Hv.
  - intros b (row & Hrow & way & e & Hl & Hv & _).
    by rewrite (Hdefault _ _ _ _ Hrow Hl) in Hv.
Qed.

(** Every call on a cache that satisfies the invariant completes and
    keeps the invariant and the configuration. *)
Lemma cache_call_inv (c : Cache.t) (B S : Z) (numWays : nat) (k : CacheCall) :
  cache_inv c B S numWays → call_in_range k →
  ∃ c', cache_call c k = Some c' ∧ cache_inv c' B S numWays
        ∧ Cache.config_ c' = Cache.config_ c.
Proof.
  intros Hinv Hk. destruct k as [a t|a|a e t|]; simpl in *.
  - pose proof (access_spec c B S numWays Hinv a t Hk) as H.
    destruct (Cache.access c a t) as [[c' r]|]; [|done].
    exists c'. split; [done|]. split; apply H.
  - pose proof (invalidateEntry_spec c B S numWays Hinv a Hk) as H.
    destruct (Cache.invalidateEntry c a) as [c'|]; [|done].
    exists c'. split; [done|]. split; apply H.
  - pose proof (forceEntry_spec c B S numWays Hinv a e t Hk) as H.
    destruct (Cache.forceEntry c a e t) as [[c' r]|]; [|done].
    exists c'. split; [done|]. split; apply H.
  - eexists. split; [done|]. split; [|done]. by apply reset_inv.
Qed.

Lemma cache_calls_inv (ks : list CacheCall) :
  ∀ (c : Cache.t) (B S : Z) (numWays : nat),
    cache_inv c B S numWays → Forall call_in_range ks →
    ∃ c', cache_calls c ks = Some c' ∧ cache_inv c' B S numWays
          ∧ Cache.config_ c' = Cache.config_ c.
Proof.
  induction ks as [|k ks IH]; intros c B S numWays Hinv Hks.
  - by exists c.
  - apply Forall_cons in Hks as [Hk Hks].
    destruct (cache_call_inv c B S numWays k Hinv Hk) as (c1 & Hc1 & Hinv1 & Hcfg1).
    destruct (IH c1 B S numWays Hinv1 Hks) as (c' & Hc' & Hinv' & Hcfg').
    exists c'. simpl. rewrite Hc1. simpl. split; [done|]. split; [done|].
    by rewrite Hcfg'.
Qed.

(** A reachable cache of a well-formed configuration satisfies the
    invariant, with the offset bits of the configuration. *)
Lemma reachable_inv (config : CacheConfig) (rd : nat → nat) (c : Cache.t) :
  well_formed config → reachable config rd c →
  Cache.config_ c = config
  ∧ ∃ S numWays, cache_inv c (getBlockOffsetBits config) S numWays.
Proof.
  intros Hwf (c0 & ks & Hnew & Hks & Hrun).
  destruct (new_inv config rd Hwf) as (c0' & S & numWays & Hnew' & Hcfg & Hinv & _).
  rewrite Hnew in Hnew'. injection Hnew' as <-.
  destruct (cache_calls_inv ks c0 _ S numWays Hinv Hks) as (c' & Hc' & Hinv' & Hcfg').
  rewrite Hrun in Hc'. injection Hc' as <-.
  split; [by rewrite Hcfg'|]. exists S, numWays.
  replace (getBlockOffsetBits config) with (Z.log2 (blockSize config)); [done|].
  pose proof (inv_offset_bits _ _ _ _ Hinv) as HB. by rewrite Hcfg in HB.
Qed.

(** One more call keeps a cache reachable. *)
Lemma reachable_step (config : CacheConfig) (rd : nat → nat) (c c' : Cache.t)
      (k : CacheCall) :
  reachable config rd c → call_in_range k → cache_call c k = Some c' →
  reachable config rd c'.
Proof.
  intros (c0 & ks & Hnew & Hks & Hrun) Hk Hcall.
  exists c0, (ks ++ [k]). split; [done|]. split.
  - apply Forall_app. split; [done|]. by apply Forall_singleton.
  - clear Hks Hnew. revert c0 Hrun. induction ks as [|k0 ks IH]; intros c0 Hrun.
    + simpl in *. injection Hrun as ->. by rewrite Hcall.
    + simpl in *. destruct (cache_call c0 k0) as [c1|]; [|done]. simpl in *.
      by apply IH.
Qed.

Lemma reachable_by_accesses_reachable (config : CacheConfig) (rd : nat → nat)
      (c : Cache.t) :
  reachable_by_accesses config rd c → reachable config rd c.
Proof.
  intros (c0 & trace & outcomes & Hnew & Htrace & Hrun).
  exists c0, (map (λ access, CallAccess access.1 access.2) trace).
  split; [done|]. split.
  - apply Forall_fmap. eapply Forall_impl; [done|]. by intros [a t].
  - clear Hnew Htrace. revert c0 outcomes Hrun.
    induction trace as [|[a t] trace IH]; intros c0 outcomes Hrun.
    + simpl in *. by injection Hrun as -> _.
    + simpl in *. destruct (Cache.access c0 a t) as [[c1 r]|]; [|done]. simpl in *.
      destruct (cache_trace c1 trace) as [[c2 outs]|] eqn:Hrest; [|done].
      simpl in Hrun. injection Hrun as -> _. by eapply IH.
Qed.

End reachable_states.

Lemma cache_after_reachable (config : CacheConfig) (trace : list (Z * AccessType))
      (c : Cache.t) :
  cache_after config trace = Some c → Forall (λ access, uint64 access.1) trace →
  reachable_by_accesses config no_entropy c.
Proof.
  unfold cache_after. intros Hc Htrace.
  destruct (Cache.new config no_entropy) as [|c0] eqn:Hnew; [done|].
  apply fmap_Some in Hc as ([c1 outcomes] & Hrun & ->).
  by exists c0, trace, outcomes.
Qed.

(** ** What one call changes in a cache level *)

Section level_contents.

Context (c : Cache.t) (B S : Z) (numWays : nat).
Hypothesis Hinv : cache_inv c B S numWays.

(** A valid entry that is not overwritten keeps its block in the cache. *)
Lemma write_entry_holds_other (c0 : Cache.t) (set way : nat) (e : CacheEntry)
      (set' w' : nat) (row' : list CacheEntry) (e' : CacheEntry) :
  Cache.cacheEntries_ c0 !! set' = Some row' → row' !! w' = Some e' →
  valid_ e' = true → set' ≠ set ∨ w' ≠ way →
  holds (Cache.write_entry c0 set way e) set' (tag_ e').
Proof.
  intros Hrow Hl Hv Hne. unfold holds. rewrite write_entry_lookup.
  destruct (decide (set' = set)) as [->|Hset].
  - rewrite Hrow. simpl. eexists. split; [done|].
    exists w', e'. split; [|done]. rewrite list_lookup_insert_ne; [done|].
    destruct Hne; congruence.
  - exists row'. split; [done|]. by exists w', e'.
Qed.

(** Overwriting an entry: every block that was in the cache is still
    there, unless it sat in the overwritten way. *)
Lemma write_entry_keeps (c0 : Cache.t) (set way : nat) (e : CacheEntry) (b : Z) :
  resident c0 S b →
  resident (Cache.write_entry c0 set way e) S b
  ∨ ∃ row old, Cache.cacheEntries_ c0 !! set = Some row ∧ row !! way = Some old
               ∧ valid_ old = true ∧ tag_ old = b / 2 ^ S
               ∧ set = Z.to_nat (b mod 2 ^ S).
Proof.
  intros (row' & Hrow' & w' & e' & Hl & Hv & Ht). unfold resident.
  destruct (decide (Z.to_nat (b mod 2 ^ S) = set ∧ w' = way)) as [[Hs Hw]|Hne].
  - right. subst. by exists row', e'.
  - left. rewrite <- Ht. eapply write_entry_holds_other; try done.
    destruct (decide (Z.to_nat (b mod 2 ^ S) = set)); [right|left]; naive_solver.
Qed.

(** The block number of the address rebuilt from a set and a tag. *)
Lemma block_of_slot (b : Z) : b / 2 ^ S * 2 ^ S + b mod 2 ^ S = b.
Proof.
  destruct (inv_pow_pos _ _ _ _ Hinv) as (_ & HpS & _).
  pose proof (Z.div_mod b (2 ^ S) ltac:(lia)). lia.
Qed.

(** [Cache::access]: which blocks the cache holds afterwards, and what the
    reported eviction is. *)
Lemma access_contents (a : Z) (type : AccessType) :
  0 ≤ a < UINT64_MODULUS →
  match Cache.access c a type with
  | Some (c', result) =>
      (hit result = false →
       type = Read ∨ writeAllocate (Cache.config_ c) = true →
       resident c' S (a / 2 ^ B))
      ∧ (∀ b, resident c S b →
              resident c' S b
              ∨ ∃ v, evictedAddress result = Some v ∧ v / 2 ^ B = b)
      ∧ (∀ v, evictedAddress result = Some v →
              resident c S (v / 2 ^ B) ∧ v mod 2 ^ B = 0
              ∧ (v / 2 ^ B) mod 2 ^ S = (a / 2 ^ B) mod 2 ^ S)
  | None => False
  end.
Proof.
  intros Ha. unfold Cache.access.
  destruct (inv_bits _ _ _ _ Hinv) as (HB & HS & HBS).
  destruct (inv_pow_pos _ _ _ _ Hinv) as (HpB & HpS & HpT).
  rewrite (getSetAndTag_spec _ _ _ _ Hinv) by done.
  simpl. unfold Cache.findEntry.
  destruct (decode_row _ _ _ _ Hinv (a / 2 ^ B)) as (row & Hrow & Hlen).
  rewrite Hrow. simpl.
  pose proof (Z.mod_pos_bound (a / 2 ^ B) (2 ^ S) HpS) as Hset.
  destruct (Cache.find_way row (a / 2 ^ B / 2 ^ S)) as [way|] eqn:Hfind.
  - (* hit *)
    apply find_way_Some in Hfind as (entry & Hentry & Hvalid & Htag & _).
    pose proof (row_way_lt _ _ _ _ Hinv _ _ _ _ Hrow Hentry) as Hway.
    destruct (bool_decide (type = Write) && writeBack (Cache.config_ c)) eqn:Hwb.
    + rewrite Hentry. simpl. split; [done|]. split; [|done].
      intros b Hres. left.
      match goal with |- resident (Cache.write_entry ?c1 _ _ _) _ _ =>
        destruct (write_entry_keeps c1 (Z.to_nat ((a / 2 ^ B) mod 2 ^ S)) way
                    (setDirty entry true) b Hres)
          as [Hkept|(row' & old & Hrow' & Hold & Hv & Ht & Hs)]; [done|]
      end.
      simpl in Hrow'. rewrite Hrow in Hrow'. injection Hrow' as <-.
      rewrite Hentry in Hold. injection Hold as <-.
      unfold resident. rewrite <- Hs, <- Ht.
      apply (write_entry_holds_new _ _ way (setDirty entry true) row); try done.
      by rewrite Hlen.
    + simpl. split; [done|]. split; [|done]. intros b Hres. by left.
  - (* miss *)
    pose proof (proj1 (find_way_None _ _) Hfind) as Hnone.
    destruct (bool_decide (type = Read)
              || bool_decide (type = Write) && writeAllocate (Cache.config_ c)) eqn:Halloc.
    + unfold Cache.allocateEntry. simpl. rewrite Hrow. simpl.
      destruct (getVictim_in_range (Cache.policy_ c)
                  (Z.to_nat ((a / 2 ^ B) mod 2 ^ S)) (length row))
        as (p' & way & Hvictim & Hway & Hpol'); [rewrite Hlen; apply Hinv
                                                 |rewrite Hlen; apply Hinv|].
      rewrite Hvictim. simpl.
      destruct (lookup_lt_is_Some_2 row way Hway) as [victim Hventry].
      rewrite Hventry. simpl.
      set (newE := {| valid_ := true; dirty_ := _; tag_ := _ |}).
      set (c2 := Cache.write_entry _ _ _ _).
      assert (is_Some (Cache.cacheEntries_ c2 !! Z.to_nat ((a / 2 ^ B) mod 2 ^ S)))
        as [row2 Hrow2].
      { apply lookup_lt_is_Some_2. unfold c2. simpl. rewrite length_alter.
        apply (decode_set_lt _ _ _ _ Hinv). }
      assert (resident c2 S (a / 2 ^ B)) as Hnew.
      { unfold resident, c2.
        change (a / 2 ^ B / 2 ^ S) with (tag_ newE).
        by apply (write_entry_holds_new _ _ way newE row). }
      assert (∀ b, resident c S b →
                   resident c2 S b
                   ∨ (valid_ victim = true ∧ tag_ victim = b / 2 ^ S
                      ∧ (a / 2 ^ B) mod 2 ^ S = b mod 2 ^ S)) as Hkeep.
      { intros b Hres.
        destruct (write_entry_keeps
                    (Cache.set_policy (Cache.set_misses c (wrap64 (Cache.misses_ c + 1))) p')
                    (Z.to_nat ((a / 2 ^ B) mod 2 ^ S)) way newE b Hres)
          as [Hkept|(row' & old & Hrow' & Hold & Hv & Ht & Hs)]; [by left|].
        right. simpl in Hrow'. rewrite Hrow in Hrow'. injection Hrow' as <-.
        rewrite Hventry in Hold. injection Hold as <-. split; [done|]. split; [done|].
        pose proof (Z.mod_pos_bound b (2 ^ S) HpS). lia. }
      destruct (valid_ victim) eqn:Hvv.
      * destruct (reconstructAddress_spec _ _ _ _ Hinv
                    (Z.to_nat ((a / 2 ^ B) mod 2 ^ S)) (tag_ victim))
          as (v & Hv & Hrange & Hblock).
        { rewrite Z2Nat.id by lia. lia. }
        { by eapply (inv_tags _ _ _ _ Hinv). }
        rewrite Z2Nat.id in Hblock by lia.
        unfold Cache.reconstructAddress in *. simpl in *. rewrite Hv. simpl.
        fold newE. fold c2. rewrite Hrow2. simpl.
        split; [done|]. split.
        -- intros b Hres. destruct (Hkeep b Hres) as [Hkept|(_ & Ht & Hs)]; [by left|].
           right. exists v. split; [done|]. rewrite Hblock, Ht, Hs.
           apply block_of_slot.
        -- intros v' [= <-].
           assert ((v / 2 ^ B) mod 2 ^ S = (a / 2 ^ B) mod 2 ^ S) as Hvset.
           { rewrite Hblock, Z.add_comm, Z.mod_add by lia. apply Z.mod_small. lia. }
           assert (v / 2 ^ B / 2 ^ S = tag_ victim) as Hvtag.
           { rewrite Hblock, Z.div_add_l by lia.
             rewrite (Z.div_small (_ mod _)) by lia. lia. }
           split; [|split; [|done]].
           ++ unfold resident. rewrite Hvset, Hvtag. exists row. split; [done|].
              by exists way, victim.
           ++ apply bind_Some in Hv as (S' & HS' & Hv).
              rewrite (inv_index_bits _ _ _ _ Hinv) in HS'. injection HS' as <-.
              rewrite (inv_offset_bits _ _ _ _ Hinv) in Hv.
              apply bind_Some in Hv as (hi & Hhi & Hv).
              apply bind_Some in Hv as (lo & Hlo & Hv). injection Hv as <-.
              unfold shl64, ADDRESS_WIDTH in Hhi, Hlo.
              rewrite decide_True in Hhi by lia. rewrite decide_True in Hlo by lia.
              injection Hhi as <-. injection Hlo as <-.
              apply Z.bits_inj'. intros n Hn. rewrite Z.bits_0.
              destruct (decide (n < B)) as [Hlt|Hge].
              ** rewrite Z.mod_pow2_bits_low by lia.
                 rewrite Z.lor_spec.
                 assert (∀ x k, 0 ≤ k → n < k → Z.testbit (wrap64 (Z.shiftl x k)) n = false)
                   as Hlow.
                 { intros x k Hk Hnk. unfold wrap64, UINT64_MODULUS.
                   rewrite Z.mod_pow2_bits_low by lia.
                   rewrite Z.shiftl_spec by lia. apply Z.testbit_neg_r. lia. }
                 rewrite !Hlow by lia. done.
              ** rewrite Z.mod_pow2_bits_high by lia. done.
      * simpl in *. rewrite Hrow2. simpl.
        split; [done|]. split; [|done].
        intros b Hres. destruct (Hkeep b Hres) as [Hkept|(Hv & _)]; [by left|done].
    + simpl. split.
      * intros _ [->|Hwa]; [done|]. rewrite Hwa in Halloc.
        by destruct type.
      * split; [|done]. intros b Hres. by left.
Qed.

End level_contents.

Section level_contents2.

Context (c : Cache.t) (B S : Z) (numWays : nat).
Hypothesis Hinv : cache_inv c B S numWays.

(** Two blocks with the same set and tag are the same block. *)
Lemma slot_eq (b b' : Z) :
  Z.to_nat (b mod 2 ^ S) = Z.to_nat (b' mod 2 ^ S) → b / 2 ^ S = b' / 2 ^ S → b = b'.
Proof.
  intros Hs Ht. destruct (inv_pow_pos _ _ _ _ Hinv) as (_ & HpS & _).
  pose proof (Z.mod_pos_bound b (2 ^ S) HpS).
  pose proof (Z.mod_pos_bound b' (2 ^ S) HpS).
  rewrite <- (block_of_slot c B S numWays Hinv b).
  rewrite <- (block_of_slot c B S numWays Hinv b'). rewrite Ht. f_equal. lia.
Qed.

(** [Cache::getEntry] returns the one valid entry that carries the tag. *)
Lemma getEntry_unique_at (c0 : Cache.t) (B0 S0 : Z) (ways0 : nat)
      (a : Z) (row : list CacheEntry) (way : nat) (e : CacheEntry) :
  cache_inv c0 B0 S0 ways0 →
  0 ≤ a < UINT64_MODULUS →
  Cache.cacheEntries_ c0 !! Z.to_nat ((a / 2 ^ B0) mod 2 ^ S0) = Some row →
  row !! way = Some e → valid_ e = true → tag_ e = a / 2 ^ B0 / 2 ^ S0 →
  Cache.getEntry c0 a = Some (Some e).
Proof.
  intros Hinv0 Ha Hrow Hl Hv Ht. unfold Cache.getEntry.
  rewrite (getSetAndTag_spec _ _ _ _ Hinv0) by done.
  simpl. unfold Cache.findEntry. rewrite Hrow. simpl.
  destruct (Cache.find_way row (a / 2 ^ B0 / 2 ^ S0)) as [way'|] eqn:Hfind; simpl.
  - apply find_way_Some in Hfind as (e' & Hl' & Hv' & Ht' & _).
    assert (way' = way) as ->.
    { eapply (inv_unique _ _ _ _ Hinv0 _ row); try done. by rewrite Ht. }
    by rewrite Hl.
  - exfalso. by eapply (proj1 (find_way_None _ _) Hfind).
Qed.

(** [Cache::invalidateEntry] removes no other block. *)
Lemma invalidateEntry_keeps (a : Z) :
  0 ≤ a < UINT64_MODULUS →
  match Cache.invalidateEntry c a with
  | Some c' =>
      Cache.hits_ c' = Cache.hits_ c ∧ Cache.misses_ c' = Cache.misses_ c
      ∧ Cache.policy_ c' = Cache.policy_ c
      ∧ ∀ b, resident c S b → b ≠ a / 2 ^ B → resident c' S b
  | None => False
  end.
Proof.
  intros Ha. unfold Cache.invalidateEntry.
  rewrite (getSetAndTag_spec _ _ _ _ Hinv) by done.
  simpl. unfold Cache.findEntry.
  destruct (decode_row _ _ _ _ Hinv (a / 2 ^ B)) as (row & Hrow & Hlen).
  rewrite Hrow. simpl.
  destruct (Cache.find_way row (a / 2 ^ B / 2 ^ S)) as [way|] eqn:Hfind; [|done].
  apply find_way_Some in Hfind as (entry & Hentry & Hvalid & Htag & _).
  repeat split; try done. intros b Hres Hne.
  destruct (write_entry_keeps S c (Z.to_nat ((a / 2 ^ B) mod 2 ^ S)) way
              CacheEntry_default b Hres)
    as [Hkept|(row' & old & Hrow' & Hold & Hv & Ht & Hs)]; [done|].
  exfalso. apply Hne. rewrite Hrow in Hrow'. injection Hrow' as <-.
  rewrite Hentry in Hold. injection Hold as <-.
  apply slot_eq; [done|]. by rewrite <- Ht.
Qed.

(** [Cache::forceEntry]: the block is in the cache afterwards, with the
    flags of the forced entry; the call counts as neither hit nor miss; and
    a block that was displaced is reported in [evictedEntry]. *)
Lemma forceEntry_contents (a : Z) (entry : CacheEntry) (type : AccessType) :
  0 ≤ a < UINT64_MODULUS →
  match Cache.forceEntry c a entry type with
  | Some (c', result) =>
      resident c' S (a / 2 ^ B)
      ∧ Cache.getEntry c' a
        = Some (Some {| valid_ := true;
                        dirty_ := dirty_ entry
                                  || (bool_decide (type = Write)
                                      && writeBack (Cache.config_ c));
                        tag_ := a / 2 ^ B / 2 ^ S |})
      ∧ hit result = false
      ∧ latency result = accessLatency (Cache.config_ c)
      ∧ Cache.hits_ c' = Cache.hits_ c ∧ Cache.misses_ c' = Cache.misses_ c
      ∧ (∀ b, resident c S b →
              resident c' S b
              ∨ ∃ old, evictedEntry result = Some old ∧ valid_ old = true
                       ∧ tag_ old = b / 2 ^ S
                       ∧ (a / 2 ^ B) mod 2 ^ S = b mod 2 ^ S)
  | None => False
  end.
Proof.
  intros Ha.
  pose proof (forceEntry_spec c B S numWays Hinv a entry type Ha) as Hspec.
  destruct (inv_pow_pos _ _ _ _ Hinv) as (HpB & HpS & HpT).
  revert Hspec. unfold Cache.forceEntry.
  rewrite (getSetAndTag_spec _ _ _ _ Hinv) by done.
  simpl. unfold Cache.findEntry.
  destruct (decode_row _ _ _ _ Hinv (a / 2 ^ B)) as (row & Hrow & Hlen).
  rewrite Hrow. simpl.
  set (installed :=
         if bool_decide (type = Write) && writeBack (Cache.config_ c)
         then setDirty (setValid (setTag entry (a / 2 ^ B / 2 ^ S)) true) true
         else setValid (setTag entry (a / 2 ^ B / 2 ^ S)) true).
  assert (installed = {| valid_ := true;
                         dirty_ := dirty_ entry
                                   || (bool_decide (type = Write)
                                       && writeBack (Cache.config_ c));
                         tag_ := a / 2 ^ B / 2 ^ S |}) as Hinstalled.
  { unfold installed. destruct (_ && _); simpl.
    - by rewrite orb_true_r.
    - by rewrite orb_false_r. }
  assert (valid_ installed = true ∧ tag_ installed = a / 2 ^ B / 2 ^ S)
    as [Hivalid Hitag] by by rewrite Hinstalled.
  assert (∀ c0 way, Cache.cacheEntries_ c0 = Cache.cacheEntries_ c →
                    (way < length row)%nat →
                    ∃ row', Cache.cacheEntries_
                              (Cache.write_entry c0 (Z.to_nat ((a / 2 ^ B) mod 2 ^ S))
                                                 way installed)
                            !! Z.to_nat ((a / 2 ^ B) mod 2 ^ S) = Some row'
                            ∧ row' !! way = Some installed) as Hwritten.
  { intros c0 way Hes Hway. rewrite write_entry_lookup, decide_True by done.
    rewrite Hes, Hrow. simpl. eexists. split; [done|].
    by apply list_lookup_insert_eq. }
  destruct (Cache.find_way row (a / 2 ^ B / 2 ^ S)) as [way|] eqn:Hfind; simpl.
  - apply find_way_Some in Hfind as (old & Hold & Hvalid & Htag & _).
    pose proof (lookup_lt_Some _ _ _ Hold) as Hway.
    fold installed. intros (Hinv' & _).
    destruct (Hwritten c way eq_refl Hway) as (row' & Hrow' & Hl').
    split; [|split; [|repeat split; try done]].
    + unfold resident. rewrite <- Hitag. exists row'. split; [done|].
      by exists way, installed.
    + rewrite <- Hinstalled.
      by apply (getEntry_unique_at _ B S numWays a row' way installed Hinv').
    + intros b Hres.
      match goal with |- resident (Cache.set_policy (Cache.write_entry ?c1 _ _ _) _) _ _ ∨ _ =>
        destruct (write_entry_keeps S c1 (Z.to_nat ((a / 2 ^ B) mod 2 ^ S)) way
                    installed b Hres)
          as [Hkept|(row0 & old0 & Hrow0 & Hold0 & Hv0 & Ht0 & Hs0)]; [by left|]
      end.
      left. rewrite Hrow in Hrow0. injection Hrow0 as <-.
      rewrite Hold in Hold0. injection Hold0 as <-.
      unfold resident. rewrite <- Hs0, <- Ht0, Htag, <- Hitag.
      exists row'. split; [done|]. by exists way, installed.
  - destruct (getVictim_in_range (Cache.policy_ c)
                (Z.to_nat ((a / 2 ^ B) mod 2 ^ S)) (length row))
      as (p' & way & Hvictim & Hway & Hpol'); [rewrite Hlen; apply Hinv
                                               |rewrite Hlen; apply Hinv|].
    rewrite Hvictim. simpl.
    destruct (lookup_lt_is_Some_2 row way Hway) as [victim Hventry].
    rewrite Hventry. simpl.
    destruct (Hwritten (Cache.set_policy c p') way eq_refl Hway) as (row' & Hrow' & Hl').
    assert (∀ b, resident c S b →
                 resident (Cache.write_entry (Cache.set_policy c p')
                             (Z.to_nat ((a / 2 ^ B) mod 2 ^ S)) way installed) S b
                 ∨ (valid_ victim = true ∧ tag_ victim = b / 2 ^ S
                    ∧ (a / 2 ^ B) mod 2 ^ S = b mod 2 ^ S)) as Hkeep.
    { intros b Hres.
      destruct (write_entry_keeps S (Cache.set_policy c p')
                  (Z.to_nat ((a / 2 ^ B) mod 2 ^ S)) way installed b Hres)
        as [Hkept|(row0 & old0 & Hrow0 & Hold0 & Hv0 & Ht0 & Hs0)]; [by left|].
      right. simpl in Hrow0. rewrite Hrow in Hrow0. injection Hrow0 as <-.
      rewrite Hventry in Hold0. injection Hold0 as <-. split; [done|]. split; [done|].
      pose proof (Z.mod_pos_bound b (2 ^ S) HpS).
      pose proof (Z.mod_pos_bound (a / 2 ^ B) (2 ^ S) HpS). lia. }
    destruct (valid_ victim && dirty_ victim) eqn:Hvd.
    + destruct (Cache.reconstructAddress (Cache.set_policy c p') _ _) as [v|]; [|done].
      simpl. fold installed. intros (Hinv' & _).
      split; [|split; [|repeat split; try done]].
      * unfold resident. rewrite <- Hitag. exists row'. split; [done|].
        by exists way, installed.
      * rewrite <- Hinstalled.
        by apply (getEntry_unique_at _ B S numWays a row' way installed Hinv').
      * intros b Hres. destruct (Hkeep b Hres) as [Hkept|(Hv & Ht & Hs)]; [by left|].
        right. exists victim. by rewrite Hv.
    + simpl. fold installed. intros (Hinv' & _).
      split; [|split; [|repeat split; try done]].
      * unfold resident. rewrite <- Hitag. exists row'. split; [done|].
        by exists way, installed.
      * rewrite <- Hinstalled.
        by apply (getEntry_unique_at _ B S numWays a row' way installed Hinv').
      * intros b Hres. destruct (Hkeep b Hres) as [Hkept|(Hv & Ht & Hs)]; [by left|].
        right. exists victim. by rewrite Hv.
Qed.

End level_contents2.

Section contains_facts.

Lemma contains_true (c : Cache.t) (B S : Z) (numWays : nat) (a : Z) :
  cache_inv c B S numWays → 0 ≤ a < UINT64_MODULUS →
  resident c S (a / 2 ^ B) → Cache.contains c a = Some true.
Proof.
  intros Hinv Ha Hres.
  destruct (contains_spec c B S numWays Hinv a Ha) as ([|] & Hc & Hiff); [done|].
  by apply Hiff in Hres.
Qed.

Lemma contains_false (c : Cache.t) (B S : Z) (numWays : nat) (a : Z) :
  cache_inv c B S numWays → 0 ≤ a < UINT64_MODULUS →
  ¬ resident c S (a / 2 ^ B) → Cache.contains c a = Some false.
Proof.
  intros Hinv Ha Hres.
  destruct (contains_spec c B S numWays Hinv a Ha) as ([|] & Hc & Hiff); [|done].
  exfalso. by apply Hres, Hiff.
Qed.

Lemma contains_resident (c : Cache.t) (B S : Z) (numWays : nat) (a : Z) :
  cache_inv c B S numWays → 0 ≤ a < UINT64_MODULUS →
  Cache.contains c a = Some true → resident c S (a / 2 ^ B).
Proof.
  intros Hinv Ha Hc.
  destruct (contains_spec c B S numWays Hinv a Ha) as (b & Hc' & Hiff).
  rewrite Hc in Hc'. injection Hc' as <-. by apply Hiff.
Qed.

Lemma contains_not_resident (c : Cache.t) (B S : Z) (numWays : nat) (a : Z) :
  cache_inv c B S numWays → 0 ≤ a < UINT64_MODULUS →
  Cache.contains c a = Some false → ¬ resident c S (a / 2 ^ B).
Proof.
  intros Hinv Ha Hc Hres.
  by rewrite (contains_true c B S numWays a Hinv Ha Hres) in Hc.
Qed.

(** [Cache::contains] only depends on the block of the address. *)
Lemma contains_same_block (c : Cache.t) (B S : Z) (numWays : nat) (a a' : Z) :
  cache_inv c B S numWays → 0 ≤ a < UINT64_MODULUS → 0 ≤ a' < UINT64_MODULUS →
  a' / 2 ^ B = a / 2 ^ B → Cache.contains c a' = Cache.contains c a.
Proof.
  intros Hinv Ha Ha' Hb.
  destruct (contains_spec c B S numWays Hinv a Ha) as (b & Hc & Hiff).
  destruct (contains_spec c B S numWays Hinv a' Ha') as (b' & Hc' & Hiff').
  rewrite Hc, Hc'. f_equal. rewrite Hb in Hiff'.
  destruct b, b'; try done.
  - by apply (proj2 Hiff'), (proj1 Hiff).
  - symmetry. by apply (proj2 Hiff), (proj1 Hiff').
Qed.

(** The counters and the latency of [Cache::access]: one of the two
    counters moves by one, and the latency is that of the level. *)
Lemma access_counters (c : Cache.t) (a : Z) (type : AccessType)
      (c' : Cache.t) (result : CacheResult) :
  Cache.access c a type = Some (c', result) →
  Cache.config_ c' = Cache.config_ c
  ∧ (if hit result
     then Cache.hits_ c' = wrap64 (Cache.hits_ c + 1)
          ∧ Cache.misses_ c' = Cache.misses_ c
     else Cache.hits_ c' = Cache.hits_ c
          ∧ Cache.misses_ c' = wrap64 (Cache.misses_ c + 1))
  ∧ wrap64 (latency result) = wrap64 (accessLatency (Cache.config_ c)).
Proof.
  unfold Cache.access. intros H.
  apply bind_Some in H as ([set tag] & Hst & H).
  apply bind_Some in H as (wayOpt & Hfind & H).
  destruct wayOpt as [way|].
  - apply bind_Some in H as (c1 & Hc1 & H). injection H as <- <-. simpl.
    destruct (_ && _) in Hc1.
    + apply bind_Some in Hc1 as (row & Hrow & Hc1).
      apply bind_Some in Hc1 as (entry & Hentry & Hc1). by injection Hc1 as <-.
    + by injection Hc1 as <-.
  - destruct (_ || _) in H.
    + apply bind_Some in H as ([c1 allocResult] & Halloc & H).
      apply bind_Some in H as (chk & _ & H). injection H as <- <-. simpl.
      unfold Cache.allocateEntry in Halloc.
      apply bind_Some in Halloc as (row & Hrow & Halloc).
      apply bind_Some in Halloc as ([p' way] & Hvictim & Halloc).
      apply bind_Some in Halloc as (victim & Hventry & Halloc).
      apply bind_Some in Halloc as ([[ea ee] wb] & Hev & Halloc).
      injection Halloc as <- <-. simpl.
      repeat split; try done. unfold wrap64.
      by rewrite Z.add_0_r, Z.mod_mod by done.
    + by injection H as <- <-.
Qed.

End contains_facts.

(** ** One cache level, as its clients see it *)

(** X1: on a cache built from a well-formed configuration and driven
    through any calls, [Cache::access] returns; it reports a hit exactly
    when [contains] held the address before; and afterwards every address
    of the same block is contained, except after a write miss of a cache
    that does not allocate on writes. *)
Theorem access_reports_presence_and_installs
        (config : CacheConfig) (rd : nat → nat) (c : Cache.t)
        (address : Z) (type : AccessType) :
  well_formed config → reachable config rd c → uint64 address →
  ∃ c' result,
    Cache.access c address type = Some (c', result)
    ∧ reachable config rd c'
    ∧ Cache.contains c address = Some (hit result)
    ∧ ∀ address', uint64 address' →
        block_of config address' = block_of config address →
        Cache.contains c' address'
        = Some (hit result || bool_decide (type = Read) || writeAllocate config).
Proof.
  intros Hwf Hreach Ha.
  destruct (reachable_inv config rd c Hwf Hreach) as (Hcfg & S & numWays & Hinv).
  pose (B := getBlockOffsetBits config).
  pose proof (access_spec c B S numWays Hinv address type Ha) as Hspec.
  pose proof (access_contents c B S numWays Hinv address type Ha) as Hcont.
  destruct (Cache.access c address type) as [[c' result]|] eqn:Hacc; [|done].
  destruct Hspec as (Hinv' & Hcfg' & _ & Hhit & Hmiss & Hnoalloc & _).
  destruct Hcont as (Hinst & _ & _).
  exists c', result. split; [done|]. split.
  { apply (reachable_step config rd c c' (CallAccess address type)); try done.
    simpl. by rewrite Hacc. }
  split.
  - destruct (hit result) eqn:Hh.
    + apply (contains_true c B S numWays); try done.
      destruct (contains_spec c B S numWays Hinv address Ha) as ([|] & Hc & Hiff).
      * by apply Hiff.
      * exfalso. destruct (Hhit eq_refl) as (_ & Hres' & Hsub).
        apply Hsub in Hres'. by apply Hiff in Hres'.
    + apply (contains_false c B S numWays); try done. by apply Hmiss.
  - intros a' Ha' Hblock. unfold block_of in Hblock.
    rewrite (contains_same_block c' B S numWays address a' Hinv' Ha Ha' Hblock).
    rewrite Hcfg in *.
    destruct (hit result) eqn:Hh; simpl.
    + apply (contains_true c' B S numWays); try done. by apply Hhit.
    + destruct type; simpl.
      * apply (contains_true c' B S numWays); try done. apply Hinst; auto.
      * destruct (writeAllocate config) eqn:Hwa.
        -- apply (contains_true c' B S numWays); try done. apply Hinst; auto.
        -- apply (contains_false c' B S numWays); try done.
           intros Hres. destruct (Hnoalloc eq_refl eq_refl eq_refl) as [_ Hsub].
           by apply Hmiss, Hsub.
Qed.

Lemma access_reports_presence_and_installs_witness :
  ∃ c c' result,
    Cache.new scenario1_config no_entropy = inr c
    ∧ Cache.access c 0x40 Read = Some (c', result)
    ∧ Cache.contains c 0x40 = Some (hit result)
    ∧ Cache.contains c' 0x7f = Some true.
Proof.
  destruct (Cache.new scenario1_config no_entropy) as [|c] eqn:Hnew;
    [vm_compute in Hnew; discriminate|].
  assert (well_formed scenario1_config) as Hwf.
  { unfold well_formed. simpl. rewrite pow2_64. lia. }
  assert (reachable scenario1_config no_entropy c) as Hreach.
  { exists c, []. split; [exact Hnew|]. split; [constructor|reflexivity]. }
  assert (uint64 0x40) as Ha by in_range.
  destruct (access_reports_presence_and_installs scenario1_config no_entropy c 0x40 Read
              Hwf Hreach Ha) as (c' & result & Hacc & _ & Hbefore & Hafter).
  exists c, c', result. split; [reflexivity|]. split; [exact Hacc|].
  split; [exact Hbefore|].
  rewrite (Hafter 0x7f).
  - simpl. by rewrite orb_true_r.
  - in_range.
  - reflexivity.
Defined.

(** X2: an access removes at most one block from the cache, and it
    reports that block: every address contained before is contained
    afterwards unless its block is the reported [evictedAddress]; and an
    address is reported only if the access missed, it was contained
    before and is not afterwards, and it is the first address of a block
    of the set of the accessed address. *)
Theorem access_evicts_only_the_reported_block
        (config : CacheConfig) (rd : nat → nat) (c : Cache.t)
        (address : Z) (type : AccessType) :
  well_formed config → reachable config rd c → uint64 address →
  ∃ c' result,
    Cache.access c address type = Some (c', result)
    ∧ (∀ address', uint64 address' → Cache.contains c address' = Some true →
         Cache.contains c' address' = Some true
         ∨ ∃ evicted, evictedAddress result = Some evicted
                      ∧ block_of config evicted = block_of config address')
    ∧ (∀ evicted, evictedAddress result = Some evicted →
         uint64 evicted ∧ hit result = false
         ∧ Cache.contains c evicted = Some true
         ∧ Cache.contains c' evicted = Some false
         ∧ block_of config evicted ≠ block_of config address
         ∧ evicted mod 2 ^ getBlockOffsetBits config = 0
         ∧ ∃ set tag tag',
             Cache.getSetAndTag c address = Some (set, tag)
             ∧ Cache.getSetAndTag c evicted = Some (set, tag')).
Proof.
  intros Hwf Hreach Ha.
  destruct (reachable_inv config rd c Hwf Hreach) as (Hcfg & S & numWays & Hinv).
  pose (B := getBlockOffsetBits config).
  pose proof (access_spec c B S numWays Hinv address type Ha) as Hspec.
  pose proof (access_contents c B S numWays Hinv address type Ha) as Hcont.
  destruct (Cache.access c address type) as [[c' result]|] eqn:Hacc; [|done].
  destruct Hspec as (Hinv' & Hcfg' & _ & Hhit & _ & _ & Hev).
  destruct Hcont as (_ & Hkeep & Hvictim).
  exists c', result. split; [done|]. split.
  - intros a' Ha' Hin.
    apply (contains_resident c B S numWays a' Hinv Ha') in Hin.
    destruct (Hkeep _ Hin) as [Hkept|(v & Hv & Hvb)].
    + left. by apply (contains_true c' B S numWays).
    + right. by exists v.
  - intros v Hv. destruct (Hev v Hv) as (Hvr & Hgone & Hne).
    destruct (Hvictim v Hv) as (Hwas & Haligned & Hset).
    split; [done|]. split.
    { destruct (hit result) eqn:Hh; [|done].
      destruct (Hhit eq_refl) as (Hnone & _). by rewrite Hv in Hnone. }
    split; [by apply (contains_true c B S numWays)|].
    split; [by apply (contains_false c' B S numWays)|].
    split; [done|]. split; [done|].
    rewrite !(getSetAndTag_spec c B S numWays Hinv) by done.
    rewrite Hset. by eexists _, _, _.
Qed.

Lemma access_evicts_only_the_reported_block_witness :
  ∃ c c' result,
    cache_after scenario1_config [(0x0, Read)] = Some c
    ∧ Cache.access c 0x100 Read = Some (c', result)
    ∧ evictedAddress result = Some 0x0
    ∧ Cache.contains c 0x0 = Some true
    ∧ Cache.contains c' 0x0 = Some false.
Proof.
  destruct (cache_after scenario1_config [(0x0, Read)]) as [c|] eqn:Hc;
    [|vm_compute in Hc; discriminate].
  assert (well_formed scenario1_config) as Hwf.
  { unfold well_formed. simpl. rewrite pow2_64. lia. }
  assert (reachable scenario1_config no_entropy c) as Hreach.
  { apply reachable_by_accesses_reachable, (cache_after_reachable _ _ _ Hc).
    trace_in_range. }
  assert (uint64 0x100) as Ha by in_range.
  destruct (access_evicts_only_the_reported_block scenario1_config no_entropy c 0x100 Read
              Hwf Hreach Ha) as (c' & result & Hacc & _ & Hev).
  assert (evictedAddress result = Some 0x0) as Hevicted.
  { vm_compute in Hc. injection Hc as <-. vm_compute in Hacc.
    by injection Hacc as _ <-. }
  destruct (Hev 0x0 Hevicted) as (_ & _ & Hbefore & Hafter & _).
  exists c, c', result. repeat split; assumption.
Defined.

(** X3: [Cache::invalidateEntry] returns; afterwards no address of the
    block is contained and [contains] is unchanged for every other block;
    the counters and the state of the replacement policy are untouched. *)
Theorem invalidateEntry_removes_exactly_the_block
        (config : CacheConfig) (rd : nat → nat) (c : Cache.t) (address : Z) :
  well_formed config → reachable config rd c → uint64 address →
  ∃ c', Cache.invalidateEntry c address = Some c'
        ∧ Cache.hits_ c' = Cache.hits_ c ∧ Cache.misses_ c' = Cache.misses_ c
        ∧ Cache.policy_ c' = Cache.policy_ c
        ∧ ∀ address', uint64 address' →
            Cache.contains c' address'
            = if decide (block_of config address' = block_of config address)
              then Some false else Cache.contains c address'.
Proof.
  intros Hwf Hreach Ha.
  destruct (reachable_inv config rd c Hwf Hreach) as (Hcfg & S & numWays & Hinv).
  pose (B := getBlockOffsetBits config).
  pose proof (invalidateEntry_spec c B S numWays Hinv address Ha) as Hspec.
  pose proof (invalidateEntry_keeps c B S numWays Hinv address Ha) as Hkeep.
  destruct (Cache.invalidateEntry c address) as [c'|]; [|done].
  destruct Hspec as (Hinv' & _ & Hgone & Hsub).
  destruct Hkeep as (Hhits & Hmisses & Hpol & Hkeep).
  exists c'. repeat split; try done. intros a' Ha'. unfold block_of. fold B.
  destruct (decide (a' / 2 ^ B = address / 2 ^ B)) as [Hb|Hb].
  - apply (contains_false c' B S numWays); try done. by rewrite Hb.
  - destruct (contains_spec c B S numWays Hinv a' Ha') as ([|] & -> & Hiff).
    + apply (contains_true c' B S numWays); try done. apply Hkeep; [|done].
      by apply Hiff.
    + apply (contains_false c' B S numWays); try done.
      intros Hres. apply Hsub in Hres. by apply Hiff in Hres.
Qed.

Lemma invalidateEntry_removes_exactly_the_block_witness :
  ∃ c c',
    cache_after scenario1_config [(0x0, Read); (0x40, Read)] = Some c
    ∧ Cache.invalidateEntry c 0x7 = Some c'
    ∧ Cache.contains c' 0x0 = Some false
    ∧ Cache.contains c' 0x40 = Cache.contains c 0x40.
Proof.
  destruct (cache_after scenario1_config [(0x0, Read); (0x40, Read)]) as [c|] eqn:Hc;
    [|vm_compute in Hc; discriminate].
  assert (well_formed scenario1_config) as Hwf.
  { unfold well_formed. simpl. rewrite pow2_64. lia. }
  assert (reachable scenario1_config no_entropy c) as Hreach.
  { apply reachable_by_accesses_reachable, (cache_after_reachable _ _ _ Hc).
    trace_in_range. }
  destruct (invalidateEntry_removes_exactly_the_block scenario1_config no_entropy c 0x7
              Hwf Hreach ltac:(in_range)) as (c' & Hinv & _ & _ & _ & Hall).
  exists c, c'. split; [reflexivity|]. split; [exact Hinv|]. split.
  - rewrite (Hall 0x0) by in_range. reflexivity.
  - rewrite (Hall 0x40) by in_range. reflexivity.
Defined.

(** X4: [Cache::forceEntry] returns; afterwards [getEntry] of the address
    gives a valid entry with the tag of the address, whatever tag and
    valid bit the forced entry had, dirty when the forced entry was dirty
    or the call is a write to a write-back cache; every address of the
    block is contained; and the call moves neither counter. *)
Theorem forceEntry_installs_the_block
        (config : CacheConfig) (rd : nat → nat) (c : Cache.t)
        (address : Z) (entry : CacheEntry) (type : AccessType) :
  well_formed config → reachable config rd c → uint64 address →
  ∃ c' result set tag,
    Cache.forceEntry c address entry type = Some (c', result)
    ∧ Cache.getSetAndTag c address = Some (set, tag)
    ∧ Cache.getEntry c' address
      = Some (Some {| valid_ := true;
                      dirty_ := dirty_ entry
                                || (bool_decide (type = Write) && writeBack config);
                      tag_ := tag |})
    ∧ (∀ address', uint64 address' →
         block_of config address' = block_of config address →
         Cache.contains c' address' = Some true)
    ∧ hit result = false
    ∧ latency result = accessLatency config
    ∧ Cache.hits_ c' = Cache.hits_ c ∧ Cache.misses_ c' = Cache.misses_ c.
Proof.
  intros Hwf Hreach Ha.
  destruct (reachable_inv config rd c Hwf Hreach) as (Hcfg & S & numWays & Hinv).
  pose (B := getBlockOffsetBits config).
  pose proof (forceEntry_spec c B S numWays Hinv address entry type Ha) as Hspec.
  pose proof (forceEntry_contents c B S numWays Hinv address entry type Ha) as Hcont.
  destruct (Cache.forceEntry c address entry type) as [[c' result]|]; [|done].
  destruct Hspec as (Hinv' & _).
  destruct Hcont as (Hres & Hget & Hhit & Hlat & Hhits & Hmisses & _).
  rewrite Hcfg in Hget, Hlat.
  exists c', result. eexists _, _. split; [done|].
  split; [by apply (getSetAndTag_spec c B S numWays Hinv)|].
  split; [exact Hget|]. repeat split; try done.
  intros a' Ha' Hb. apply (contains_true c' B S numWays); try done.
  unfold block_of in Hb. fold B in Hb. by rewrite Hb.
Qed.

Lemma forceEntry_installs_the_block_witness :
  ∃ c c' result,
    Cache.new scenario1_config no_entropy = inr c
    ∧ Cache.forceEntry c 0x1234 {| valid_ := false; dirty_ := true; tag_ := 99 |} Read
      = Some (c', result)
    ∧ Cache.getEntry c' 0x1234
      = Some (Some {| valid_ := true; dirty_ := true; tag_ := 0x12 |})
    ∧ Cache.contains c' 0x1200 = Some true.
Proof.
  destruct (Cache.new scenario1_config no_entropy) as [|c] eqn:Hnew;
    [vm_compute in Hnew; discriminate|].
  assert (well_formed scenario1_config) as Hwf.
  { unfold well_formed. simpl. rewrite pow2_64. lia. }
  assert (reachable scenario1_config no_entropy c) as Hreach.
  { exists c, []. split; [exact Hnew|]. split; [constructor|reflexivity]. }
  destruct (forceEntry_installs_the_block scenario1_config no_entropy c 0x1234
              {| valid_ := false; dirty_ := true; tag_ := 99 |} Read
              Hwf Hreach ltac:(in_range))
    as (c' & result & set & tag & Hforce & Hst & Hget & Hall & _).
  assert (tag = 0x12) as ->.
  { vm_compute in Hnew. injection Hnew as <-. vm_compute in Hst. by injection Hst as _ <-. }
  exists c, c', result. split; [reflexivity|]. split; [exact Hforce|].
  split; [exact Hget|]. apply Hall; [in_range|reflexivity].
Defined.

(** X5: an access that hits, and a write that misses in a cache that does
    not allocate on writes, evict nothing, trigger no write-back and leave
    [contains] unchanged for every address; the latter changes nothing in
    the cache but the miss counter. *)
Theorem access_without_allocation_keeps_contents
        (config : CacheConfig) (rd : nat → nat) (c : Cache.t)
        (address : Z) (type : AccessType) :
  well_formed config → reachable config rd c → uint64 address →
  ∃ c' result,
    Cache.access c address type = Some (c', result)
    ∧ (hit result = true ∨ (type = Write ∧ writeAllocate config = false) →
       evictedAddress result = None ∧ writeBackTriggered result = false
       ∧ ∀ address', uint64 address' →
           Cache.contains c' address' = Cache.contains c address')
    ∧ (hit result = false → type = Write → writeAllocate config = false →
       c' = Cache.set_misses c (wrap64 (Cache.misses_ c + 1))).
Proof.
  intros Hwf Hreach Ha.
  destruct (reachable_inv config rd c Hwf Hreach) as (Hcfg & S & numWays & Hinv).
  pose (B := getBlockOffsetBits config).
  pose proof (access_spec c B S numWays Hinv address type Ha) as Hspec.
  pose proof (access_contents c B S numWays Hinv address type Ha) as Hcont.
  destruct (Cache.access c address type) as [[c' result]|] eqn:Hacc; [|done].
  destruct Hspec as (Hinv' & Hcfg' & _ & Hhit & _ & Hnoalloc & _).
  destruct Hcont as (_ & Hkeep & _).
  exists c', result. split; [done|].
  assert (hit result = true ∨ (hit result = false ∧ type = Write
                               ∧ writeAllocate config = false) →
          writeBackTriggered result = false) as Hwb.
  { clear -Hacc Hcfg. unfold Cache.access in Hacc. intros Hcase.
    apply bind_Some in Hacc as ([set tag] & Hst & H).
    apply bind_Some in H as (wayOpt & Hfind & H).
    destruct wayOpt as [way|].
    - apply bind_Some in H as (c1 & Hc1 & H). by injection H as <- <-.
    - destruct Hcase as [Hh|(_ & -> & Hwa)].
      + destruct (_ || _) in H.
        * apply bind_Some in H as ([c1 allocResult] & Halloc & H).
          apply bind_Some in H as (chk & _ & H). by injection H as <- <-.
        * by injection H as <- <-.
      + cbn [Cache.config_ Cache.set_misses] in H. rewrite Hcfg, Hwa in H.
        simpl in H. by injection H as <- <-. }
  split.
  - intros Hcase.
    assert (evictedAddress result = None ∧ ∀ b, resident c' S b → resident c S b)
      as [Hnone Hsub].
    { destruct Hcase as [Hh|[-> Hwa]].
      - destruct (Hhit Hh) as (? & _ & ?). done.
      - destruct (hit result) eqn:Hh.
        + destruct (Hhit eq_refl) as (? & _ & ?). done.
        + apply Hnoalloc; try done. by rewrite Hcfg. }
    split; [done|]. split.
    { apply Hwb. destruct (hit result); [by left|right].
      destruct Hcase as [?|[? ?]]; done. }
    intros a' Ha'.
    destruct (contains_spec c B S numWays Hinv a' Ha') as ([|] & -> & Hiff).
    + apply (contains_true c' B S numWays); try done.
      destruct (Hkeep (a' / 2 ^ B)) as [Hkept|(v & Hv & _)]; [by apply Hiff|done|].
      by rewrite Hnone in Hv.
    + apply (contains_false c' B S numWays); try done.
      intros Hres. apply Hsub in Hres. by apply Hiff in Hres.
  - intros Hh -> Hwa. clear -Hacc Hh Hwa Hcfg. unfold Cache.access in Hacc.
    apply bind_Some in Hacc as ([set tag] & Hst & H).
    apply bind_Some in H as (wayOpt & Hfind & H).
    destruct wayOpt as [way|].
    + apply bind_Some in H as (c1 & Hc1 & H). injection H as <- <-. done.
    + cbn [Cache.config_ Cache.set_misses] in H. rewrite Hcfg, Hwa in H.
      simpl in H. by injection H as <- <-.
Qed.

Lemma access_without_allocation_keeps_contents_witness :
  ∃ c c' result,
    cache_after scenario1_config [(0x0, Read)] = Some c
    ∧ Cache.access c 0x8 Write = Some (c', result)
    ∧ evictedAddress result = None
    ∧ Cache.contains c' 0x100 = Cache.contains c 0x100.
Proof.
  destruct (cache_after scenario1_config [(0x0, Read)]) as [c|] eqn:Hc;
    [|vm_compute in Hc; discriminate].
  assert (well_formed scenario1_config) as Hwf.
  { unfold well_formed. simpl. rewrite pow2_64. lia. }
  assert (reachable scenario1_config no_entropy c) as Hreach.
  { apply reachable_by_accesses_reachable, (cache_after_reachable _ _ _ Hc).
    trace_in_range. }
  destruct (access_without_allocation_keeps_contents scenario1_config no_entropy c 0x8
              Write Hwf Hreach ltac:(in_range)) as (c' & result & Hacc & Hkeep & _).
  assert (hit result = true) as Hhit.
  { vm_compute in Hc. injection Hc as <-. vm_compute in Hacc.
    by injection Hacc as _ <-. }
  destruct (Hkeep (or_introl Hhit)) as (Hnone & _ & Hall).
  exists c, c', result. split; [reflexivity|]. split; [exact Hacc|].
  split; [exact Hnone|]. apply Hall. in_range.
Defined.

Section trace_counters.

Lemma wrap64_add_l (x n : Z) : wrap64 (wrap64 x + n) = wrap64 (x + n).
Proof. unfold wrap64. by rewrite Zplus_mod_idemp_l. Qed.

(** Along a trace the counters stay 64-bit values and advance by the
    number of hits and of misses. *)
Lemma cache_trace_counters (trace : list (Z * AccessType)) :
  ∀ (c c' : Cache.t) (outcomes : list bool),
    cache_trace c trace = Some (c', outcomes) →
    uint64 (Cache.hits_ c) → uint64 (Cache.misses_ c) →
    length outcomes = length trace
    ∧ uint64 (Cache.hits_ c') ∧ uint64 (Cache.misses_ c')
    ∧ Cache.hits_ c'
      = wrap64 (Cache.hits_ c + Z.of_nat (length (filter (λ o, o = true) outcomes)))
    ∧ Cache.misses_ c'
      = wrap64 (Cache.misses_ c + Z.of_nat (length (filter (λ o, o = false) outcomes))).
Proof.
  induction trace as [|[a t] trace IH]; intros c c' outcomes Hrun Hh Hm.
  - simpl in Hrun. injection Hrun as <- <-. simpl.
    rewrite !Z.add_0_r, !wrap64_small by done. done.
  - simpl in Hrun.
    destruct (Cache.access c a t) as [[c1 r]|] eqn:Hacc; [|done]. simpl in Hrun.
    destruct (cache_trace c1 trace) as [[c2 outs]|] eqn:Hrest; [|done].
    simpl in Hrun. injection Hrun as <- <-.
    destruct (access_counters c a t c1 r Hacc) as (_ & Hcount & _).
    assert (uint64 (Cache.hits_ c1) ∧ uint64 (Cache.misses_ c1)) as [Hh1 Hm1].
    { destruct (hit r); destruct Hcount as [-> ->]; split; try done;
        apply wrap64_range. }
    destruct (IH c1 c2 outs Hrest Hh1 Hm1) as (Hlen & Hh2 & Hm2 & Hhits & Hmisses).
    split; [simpl; by rewrite Hlen|]. split; [done|]. split; [done|].
    rewrite Hhits, Hmisses.
    destruct (hit r); destruct Hcount as [-> ->].
    + rewrite filter_cons_True by done. rewrite filter_cons_False by done.
      simpl length. rewrite wrap64_add_l. split; [f_equal; lia|done].
    + rewrite filter_cons_False by done. rewrite filter_cons_True by done.
      simpl length. rewrite wrap64_add_l. split; [done|f_equal; lia].
Qed.

(** A trace of 64-bit addresses runs to its end on a cache that satisfies
    the invariant. *)
Lemma cache_trace_total (trace : list (Z * AccessType)) :
  ∀ (c : Cache.t) (B S : Z) (numWays : nat),
    cache_inv c B S numWays → Forall (λ access, uint64 access.1) trace →
    ∃ c' outcomes, cache_trace c trace = Some (c', outcomes)
                   ∧ cache_inv c' B S numWays.
Proof.
  induction trace as [|[a t] trace IH]; intros c B S numWays Hinv Htrace.
  - by exists c, [].
  - apply Forall_cons in Htrace as [Ha Htrace]. simpl in Ha.
    pose proof (access_spec c B S numWays Hinv a t Ha) as Hspec. simpl.
    destruct (Cache.access c a t) as [[c1 r]|]; [|done]. simpl.
    destruct Hspec as (Hinv1 & _).
    destruct (IH c1 B S numWays Hinv1 Htrace) as (c' & outs & -> & Hinv').
    simpl. by eexists _, _.
Qed.

End trace_counters.

(** X6: on a freshly constructed cache every trace of 64-bit addresses
    runs to its end with one outcome per access; the hit counter is the
    number of hits and the miss counter the number of misses (as 64-bit
    values), so that, short of overflow, their sum is the number of
    accesses. *)
Theorem counters_count_the_outcomes
        (config : CacheConfig) (rd : nat → nat) (trace : list (Z * AccessType)) :
  well_formed config → Forall (λ access, uint64 access.1) trace →
  ∃ c0 c outcomes,
    Cache.new config rd = inr c0
    ∧ cache_trace c0 trace = Some (c, outcomes)
    ∧ length outcomes = length trace
    ∧ Cache.hits_ c = wrap64 (Z.of_nat (length (filter (λ o, o = true) outcomes)))
    ∧ Cache.misses_ c = wrap64 (Z.of_nat (length (filter (λ o, o = false) outcomes)))
    ∧ (Z.of_nat (length trace) < UINT64_MODULUS →
       Cache.hits_ c + Cache.misses_ c = Z.of_nat (length trace)).
Proof.
  intros Hwf Htrace.
  destruct (new_inv config rd Hwf) as (c0 & S & numWays & Hnew & Hcfg & Hinv & _).
  destruct (cache_trace_total trace c0 _ S numWays Hinv Htrace)
    as (c & outcomes & Hrun & _).
  assert (Cache.hits_ c0 = 0 ∧ Cache.misses_ c0 = 0) as [Hh0 Hm0].
  { unfold Cache.new in Hnew.
    destruct (getNumSets config), (getNumWays config); try done.
    by injection Hnew as <-. }
  destruct (cache_trace_counters trace c0 c outcomes Hrun) as (Hlen & _ & _ & Hh & Hm).
  { rewrite Hh0. unfold uint64. rewrite pow2_64. lia. }
  { rewrite Hm0. unfold uint64. rewrite pow2_64. lia. }
  rewrite Hh0, Z.add_0_l in Hh. rewrite Hm0, Z.add_0_l in Hm.
  exists c0, c, outcomes. repeat split; try done.
  intros Hsmall. rewrite Hh, Hm.
  assert (length (filter (λ o, o = true) outcomes)
          + length (filter (λ o, o = false) outcomes) = length outcomes)%nat as Hsum.
  { clear. induction outcomes as [|[|] outs IH]; [done| |].
    - rewrite filter_cons_True, filter_cons_False by done. simpl. lia.
    - rewrite filter_cons_False, filter_cons_True by done. simpl. lia. }
  rewrite !wrap64_small by (unfold uint64 in *; lia). lia.
Qed.

Lemma counters_count_the_outcomes_witness :
  ∃ c0 c,
    Cache.new scenario1_config no_entropy = inr c0
    ∧ cache_trace c0 scenario1_trace
      = Some (c, [false; true; false; false; false; false])
    ∧ Cache.hits_ c = 1 ∧ Cache.misses_ c = 5.
Proof.
  assert (well_formed scenario1_config) as Hwf.
  { unfold well_formed. simpl. rewrite pow2_64. lia. }
  destruct (counters_count_the_outcomes scenario1_config no_entropy scenario1_trace Hwf)
    as (c0 & c & outcomes & Hnew & Hrun & _ & Hh & Hm & _).
  { unfold scenario1_trace. trace_in_range. }
  assert (outcomes = [false; true; false; false; false; false]) as ->.
  { vm_compute in Hnew. injection Hnew as <-. vm_compute in Hrun.
    by injection Hrun as _ <-. }
  exists c0, c. split; [exact Hnew|]. split; [exact Hrun|].
  split; [exact Hh|exact Hm].
Defined.

Section shape.

(** No call changes the number of sets or of ways. *)
Lemma write_entry_shape (c : Cache.t) (set way : nat) (e : CacheEntry) :
  length <$> Cache.cacheEntries_ (Cache.write_entry c set way e)
  = length <$> Cache.cacheEntries_ c.
Proof.
  simpl. rewrite (list_fmap_alter length _ id).
  - by rewrite list_alter_id.
  - apply Forall_forall. intros row _. by rewrite length_insert.
Qed.

(** The kind of a policy, which no call changes: what [reset] returns for
    the LRU and FIFO policies. *)
Lemma onAccess_reset (p : ReplacementPolicy) (set way : nat) :
  match p with
  | RandomPolicy _ _ _ => True
  | _ => Policy.reset (Policy.onAccess p set way) = Policy.reset p
  end.
Proof.
  destruct p as [l pos|cs used|flags rd d]; simpl; try done.
  by destruct (l !! set).
Qed.

Lemma getVictim_reset (p p' : ReplacementPolicy) (set numWays way : nat) :
  Policy.getVictim p set numWays = Some (p', way) →
  match p with
  | RandomPolicy _ _ _ => ∃ flags rd d, p' = RandomPolicy flags rd d
  | _ => Policy.reset p' = Policy.reset p
  end.
Proof.
  destruct p as [l pos|cs used|flags rd d]; simpl.
  - destruct (l !! set) as [list|]; [|by intros [= <- _]].
    destruct (if decide (length list < numWays)%nat then _ else None).
    + by intros [= <- _].
    + intros H. apply bind_Some in H as (v & _ & H). by injection H as <- _.
  - destruct (if decide (_ < numWays)%nat then _ else None).
    + by intros [= <- _].
    + destruct (decide (numWays = 0)%nat); [done|]. by intros [= <- _].
  - destruct (first_way _ _); intros [= <- _]; by eexists _, _, _.
Qed.

Lemma same_reset_refl (c : Cache.t) : same_reset c c.
Proof.
  split; [done|]. split; [done|]. destruct (Cache.policy_ c); try done.
  by eexists _, _, _.
Qed.

Lemma same_reset_trans (c1 c2 c3 : Cache.t) :
  same_reset c1 c2 → same_reset c2 c3 → same_reset c1 c3.
Proof.
  intros (Hc & Hs & Hp) (Hc' & Hs' & Hp').
  split; [congruence|]. split; [congruence|].
  destruct (Cache.policy_ c1), (Cache.policy_ c2); try done;
    try (by destruct Hp as (? & ? & ? & ?)); congruence.
Qed.

Lemma same_reset_policy (c : Cache.t) (p : ReplacementPolicy) :
  match Cache.policy_ c with
  | RandomPolicy _ _ _ => ∃ flags rd d, p = RandomPolicy flags rd d
  | _ => Policy.reset p = Policy.reset (Cache.policy_ c)
  end →
  same_reset c (Cache.set_policy c p).
Proof. intros Hp. split; [done|]. split; [done|]. done. Qed.

Lemma same_reset_onAccess (c : Cache.t) (set way : nat) :
  same_reset c (Cache.set_policy c (Policy.onAccess (Cache.policy_ c) set way)).
Proof.
  apply same_reset_policy. pose proof (onAccess_reset (Cache.policy_ c) set way).
  destruct (Cache.policy_ c) as [| |flags rd d]; try done. simpl. by eexists _, _, _.
Qed.

Lemma same_reset_write_entry (c : Cache.t) (set way : nat) (e : CacheEntry) :
  same_reset c (Cache.write_entry c set way e).
Proof.
  split; [done|]. split; [apply write_entry_shape|].
  simpl. destruct (Cache.policy_ c); try done. by eexists _, _, _.
Qed.

Lemma same_reset_access (c : Cache.t) (a : Z) (t : AccessType)
      (c' : Cache.t) (r : CacheResult) :
  Cache.access c a t = Some (c', r) → same_reset c c'.
Proof.
  unfold Cache.access. intros H.
  apply bind_Some in H as ([set tag] & Hst & H).
  apply bind_Some in H as (wayOpt & Hfind & H).
  destruct wayOpt as [way|].
  - apply bind_Some in H as (c1 & Hc1 & H). injection H as <- _.
    eapply same_reset_trans; [apply (same_reset_onAccess _ set way)|].
    eapply same_reset_trans; [|].
    { instantiate (1 := Cache.set_policy (Cache.set_hits c (wrap64 (Cache.hits_ c + 1)))
                          (Policy.onAccess (Cache.policy_ c) set way)).
      split; [done|]. split; [done|]. simpl.
      destruct (Policy.onAccess (Cache.policy_ c) set way); try done.
      by eexists _, _, _. }
    destruct (_ && _) in Hc1.
    + apply bind_Some in Hc1 as (row & Hrow & Hc1).
      apply bind_Some in Hc1 as (entry & Hentry & Hc1). injection Hc1 as <-.
      apply same_reset_write_entry.
    + injection Hc1 as <-. apply same_reset_refl.
  - destruct (_ || _) in H.
    + apply bind_Some in H as ([c1 allocResult] & Halloc & H).
      apply bind_Some in H as (chk & _ & H). injection H as <- _.
      unfold Cache.allocateEntry in Halloc.
      apply bind_Some in Halloc as (row & Hrow & Halloc).
      apply bind_Some in Halloc as ([p' way] & Hvictim & Halloc).
      apply bind_Some in Halloc as (victim & Hventry & Halloc).
      apply bind_Some in Halloc as ([[ea ee] wb] & Hev & Halloc).
      injection Halloc as <- _. simpl in Hvictim.
      eapply same_reset_trans; [apply (same_reset_policy c p')|].
      { by apply getVictim_reset in Hvictim. }
      eapply same_reset_trans; [|apply same_reset_onAccess].
      eapply same_reset_trans; [|apply same_reset_write_entry].
      split; [done|]. split; [done|]. simpl.
      destruct p'; try done. by eexists _, _, _.
    + injection H as <- _. split; [done|]. split; [done|]. simpl.
      destruct (Cache.policy_ c); try done. by eexists _, _, _.
Qed.

Lemma same_reset_invalidateEntry (c : Cache.t) (a : Z) (c' : Cache.t) :
  Cache.invalidateEntry c a = Some c' → same_reset c c'.
Proof.
  unfold Cache.invalidateEntry. intros H.
  apply bind_Some in H as ([set tag] & Hst & H).
  apply bind_Some in H as (wayOpt & Hfind & H).
  destruct wayOpt as [way|]; injection H as <-.
  - apply same_reset_write_entry.
  - apply same_reset_refl.
Qed.

Lemma same_reset_forceEntry (c : Cache.t) (a : Z) (e : CacheEntry) (t : AccessType)
      (c' : Cache.t) (r : CacheResult) :
  Cache.forceEntry c a e t = Some (c', r) → same_reset c c'.
Proof.
  unfold Cache.forceEntry. intros H.
  apply bind_Some in H as ([set tag] & Hst & H).
  apply bind_Some in H as (wayOpt & Hfind & H).
  apply bind_Some in H as ([[[[c1 way] ea] ee] wb] & Hsel & H).
  injection H as <- _.
  assert (same_reset c c1) as Hc1.
  { destruct wayOpt as [way'|].
    - injection Hsel as <- _ _ _ _. apply same_reset_refl.
    - apply bind_Some in Hsel as (row & Hrow & Hsel).
      apply bind_Some in Hsel as ([p' way'] & Hvictim & Hsel).
      apply bind_Some in Hsel as (victim & Hventry & Hsel).
      assert (c1 = Cache.set_policy c p') as ->.
      { destruct (_ && _) in Hsel.
        - apply bind_Some in Hsel as (v & _ & Hsel). by injection Hsel as <- _ _ _ _.
        - by injection Hsel as <- _ _ _ _. }
      apply same_reset_policy. by apply getVictim_reset in Hvictim. }
  eapply same_reset_trans; [exact Hc1|].
  eapply same_reset_trans;
    [|apply (same_reset_onAccess (Cache.write_entry c1 set way _) set way)].
  apply same_reset_write_entry.
Qed.

Lemma reset_shape (c c' : Cache.t) :
  same_reset c c' →
  Cache.cacheEntries_ (Cache.reset c') = Cache.cacheEntries_ (Cache.reset c)
  ∧ Cache.config_ (Cache.reset c') = Cache.config_ (Cache.reset c)
  ∧ match Cache.policy_ c with
    | RandomPolicy _ _ _ => True
    | _ => Cache.reset c' = Cache.reset c
    end.
Proof.
  intros (Hcfg & Hshape & Hpol).
  assert (∀ l : list (list CacheEntry),
            map (map (λ _, CacheEntry_default)) l
            = map (λ n, replicate n CacheEntry_default) (length <$> l)) as Hmap.
  { intros l. rewrite <- list_fmap_compose. apply list_fmap_ext. intros _ row _.
    simpl. induction row as [|e row IH]; [done|]. simpl. by rewrite IH. }
  assert (Cache.cacheEntries_ (Cache.reset c') = Cache.cacheEntries_ (Cache.reset c))
    as Hes.
  { simpl. by rewrite !Hmap, Hshape. }
  split; [done|]. split; [done|].
  destruct (Cache.policy_ c) eqn:Hp; try done;
    unfold Cache.reset in *; simpl in *; rewrite Hes, Hcfg, Hpol, Hp; done.
Qed.

Lemma same_reset_reset (c : Cache.t) : same_reset c (Cache.reset c).
Proof.
  split; [done|]. split.
  - simpl. rewrite <- list_fmap_compose. apply list_fmap_ext. intros _ row _.
    simpl. by rewrite length_map.
  - simpl. destruct (Cache.policy_ c); simpl; try done. by eexists _, _, _.
Qed.

Lemma same_reset_calls (ks : list CacheCall) :
  ∀ c c', cache_calls c ks = Some c' → same_reset c c'.
Proof.
  induction ks as [|k ks IH]; intros c c' Hrun.
  - injection Hrun as <-. apply same_reset_refl.
  - simpl in Hrun. apply bind_Some in Hrun as (c1 & Hcall & Hrun).
    eapply same_reset_trans; [|by apply IH].
    destruct k as [a t|a|a e t|]; simpl in Hcall.
    + apply fmap_Some in Hcall as ([c2 r] & Hacc & ->).
      by eapply same_reset_access.
    + by eapply same_reset_invalidateEntry.
    + apply fmap_Some in Hcall as ([c2 r] & Hforce & ->).
      by eapply same_reset_forceEntry.
    + injection Hcall as <-. apply same_reset_reset.
Qed.

End shape.

(** X7: whatever calls were made since the construction, [Cache::reset]
    brings back the entries of the constructed cache with zero counters;
    for the LRU and FIFO policies the cache is then the constructed cache
    itself, replacement state included. *)
Theorem reset_restores_the_constructed_cache
        (config : CacheConfig) (rd : nat → nat) (c0 c : Cache.t) (ks : list CacheCall) :
  Cache.new config rd = inr c0 → cache_calls c0 ks = Some c →
  Cache.cacheEntries_ (Cache.reset c) = Cache.cacheEntries_ c0
  ∧ Cache.config_ (Cache.reset c) = config
  ∧ Cache.hits_ (Cache.reset c) = 0 ∧ Cache.misses_ (Cache.reset c) = 0
  ∧ (policy config ≠ "RANDOM" → Cache.reset c = c0).
Proof.
  intros Hnew Hrun.
  pose proof (same_reset_calls ks c0 c Hrun) as Hsame.
  destruct (reset_shape c0 c Hsame) as (Hes & Hcfg & Hpol).
  unfold Cache.new in Hnew.
  destruct (getNumSets config) as [ns|], (getNumWays config) as [nw|]; try done.
  injection Hnew as <-.
  assert (map (map (λ _ : CacheEntry, CacheEntry_default))
              (replicate (Z.to_nat ns) (replicate (Z.to_nat nw) CacheEntry_default))
          = replicate (Z.to_nat ns) (replicate (Z.to_nat nw) CacheEntry_default))
    as Hfresh.
  { change map with (@fmap list _). rewrite fmap_replicate. f_equal.
    by rewrite fmap_replicate. }
  split; [rewrite Hes; simpl; exact Hfresh|]. split; [by rewrite Hcfg|].
  split; [done|]. split; [done|].
  intros Hname. simpl in Hpol. unfold Policy.createPolicy in *.
  repeat case_decide; try done; rewrite Hpol; unfold Cache.reset;
    cbn [Cache.config_ Cache.policy_ Cache.cacheEntries_ Policy.reset];
    by rewrite Hfresh.
Qed.

Lemma reset_restores_the_constructed_cache_witness :
  ∃ c0 c,
    Cache.new scenario1_config no_entropy = inr c0
    ∧ cache_calls c0 [CallAccess 0x0 Write; CallAccess 0x100 Read;
                      CallInvalidateEntry 0x100] = Some c
    ∧ c ≠ c0 ∧ Cache.reset c = c0.
Proof.
  destruct (Cache.new scenario1_config no_entropy) as [|c0] eqn:Hnew;
    [vm_compute in Hnew; discriminate|].
  destruct (cache_calls c0 [CallAccess 0x0 Write; CallAccess 0x100 Read;
                            CallInvalidateEntry 0x100]) as [c|] eqn:Hrun;
    [|vm_compute in Hnew; injection Hnew as <-; vm_compute in Hrun; discriminate].
  destruct (reset_restores_the_constructed_cache scenario1_config no_entropy c0 c _
              Hnew Hrun) as (_ & _ & _ & _ & Hreset).
  exists c0, c. split; [reflexivity|]. split; [exact Hrun|]. split.
  - vm_compute in Hnew. injection Hnew as <-. vm_compute in Hrun.
    injection Hrun as <-. discriminate.
  - apply Hreset. discriminate.
Defined.

Section block_addresses.

Context (c : Cache.t) (B S : Z) (numWays : nat).
Hypothesis Hinv : cache_inv c B S numWays.

(** The address that [Cache::reconstructAddress] computes. *)
Lemma reconstructAddress_exact (set : nat) (tag : Z) :
  Z.of_nat set < 2 ^ S → 0 ≤ tag < 2 ^ (64 - B - S) →
  Cache.reconstructAddress c set tag
  = Some ((tag * 2 ^ S + Z.of_nat set) * 2 ^ B).
Proof.
  intros Hset Htag. destruct (inv_bits _ _ _ _ Hinv) as (HB & HS & HBS).
  destruct (inv_pow_pos _ _ _ _ Hinv) as (HpB & HpS & HpT).
  assert (0 ≤ tag * 2 ^ S + Z.of_nat set < 2 ^ (64 - B - S) * 2 ^ S) as Hblock by nia.
  assert (0 ≤ (tag * 2 ^ S + Z.of_nat set) * 2 ^ B < UINT64_MODULUS) as Hv.
  { rewrite (inv_pow_split _ _ _ _ Hinv). nia. }
  unfold Cache.reconstructAddress.
  rewrite (inv_offset_bits _ _ _ _ Hinv), (inv_index_bits _ _ _ _ Hinv). simpl.
  unfold shl64, ADDRESS_WIDTH. rewrite !decide_True by lia. simpl.
  rewrite !Z.shiftl_mul_pow2 by lia.
  assert (0 ≤ Z.of_nat set * 2 ^ B < 2 ^ (B + S)) as Hlo.
  { rewrite Z.pow_add_r by lia. nia. }
  assert (0 ≤ tag * 2 ^ (B + S)) as Hhi0.
  { apply Z.mul_nonneg_nonneg; [lia|]. apply Z.pow_nonneg. lia. }
  assert (tag * 2 ^ (B + S) + Z.of_nat set * 2 ^ B
          = (tag * 2 ^ S + Z.of_nat set) * 2 ^ B) as Hsum.
  { rewrite Z.pow_add_r by lia. ring. }
  rewrite (wrap64_small (tag * 2 ^ (B + S))) by lia.
  rewrite (wrap64_small (Z.of_nat set * 2 ^ B)) by lia.
  rewrite <- (Z.shiftl_mul_pow2 tag) by lia.
  rewrite lor_shiftl_low by lia. by rewrite Hsum.
Qed.

(** Rebuilding the address from the set and tag of [a] gives the first
    address of the block of [a]. *)
Lemma reconstructAddress_block (a : Z) :
  0 ≤ a < UINT64_MODULUS →
  Cache.reconstructAddress c (Z.to_nat ((a / 2 ^ B) mod 2 ^ S)) (a / 2 ^ B / 2 ^ S)
  = Some (a - a mod 2 ^ B).
Proof.
  intros Ha. destruct (inv_pow_pos _ _ _ _ Hinv) as (HpB & HpS & HpT).
  pose proof (Z.mod_pos_bound (a / 2 ^ B) (2 ^ S) HpS) as Hset.
  rewrite reconstructAddress_exact.
  - f_equal. rewrite Z2Nat.id by lia.
    rewrite (block_of_slot c B S numWays Hinv).
    pose proof (Z.div_mod a (2 ^ B) ltac:(lia)). lia.
  - rewrite Z2Nat.id by lia. lia.
  - by apply (decode_tag_range _ _ _ _ Hinv).
Qed.

End block_addresses.

(** X8: [reconstructAddress] inverts [getSetAndTag] up to the offset
    bits: from the set and tag of an address it rebuilds the first address
    of its block, and that address has the same set and tag. *)
Theorem reconstructAddress_inverts_getSetAndTag
        (config : CacheConfig) (rd : nat → nat) (c : Cache.t) (address : Z) :
  well_formed config → reachable config rd c → uint64 address →
  ∃ set tag,
    Cache.getSetAndTag c address = Some (set, tag)
    ∧ Cache.reconstructAddress c set tag
      = Some (address - address mod 2 ^ getBlockOffsetBits config)
    ∧ Cache.getSetAndTag c (address - address mod 2 ^ getBlockOffsetBits config)
      = Some (set, tag).
Proof.
  intros Hwf Hreach Ha.
  destruct (reachable_inv config rd c Hwf Hreach) as (Hcfg & S & numWays & Hinv).
  pose (B := getBlockOffsetBits config).
  destruct (inv_pow_pos _ _ _ _ Hinv) as (HpB & HpS & HpT).
  eexists _, _. split; [by apply (getSetAndTag_spec c B S numWays Hinv)|].
  split; [by apply (reconstructAddress_block c B S numWays Hinv)|].
  fold B. pose proof (Z.mod_pos_bound address (2 ^ B) HpB) as Hoff.
  assert ((address - address mod 2 ^ B) / 2 ^ B = address / 2 ^ B) as Hblock.
  { pose proof (Z.div_mod address (2 ^ B) ltac:(lia)).
    replace (address - address mod 2 ^ B) with (address / 2 ^ B * 2 ^ B) by lia.
    apply Z.div_mul. lia. }
  rewrite (getSetAndTag_spec c B S numWays Hinv); [by rewrite Hblock|].
  unfold uint64 in Ha. pose proof (Z.mod_le address (2 ^ B) ltac:(lia) HpB). lia.
Qed.

Lemma reconstructAddress_inverts_getSetAndTag_witness :
  ∃ c,
    Cache.new scenario1_config no_entropy = inr c
    ∧ Cache.getSetAndTag c 0x1234 = Some (0%nat, 0x12)
    ∧ Cache.reconstructAddress c 0 0x12 = Some 0x1200
    ∧ Cache.getSetAndTag c 0x1200 = Some (0%nat, 0x12).
Proof.
  destruct (Cache.new scenario1_config no_entropy) as [|c] eqn:Hnew;
    [vm_compute in Hnew; discriminate|].
  assert (well_formed scenario1_config) as Hwf.
  { unfold well_formed. simpl. rewrite pow2_64. lia. }
  assert (reachable scenario1_config no_entropy c) as Hreach.
  { exists c, []. split; [exact Hnew|]. split; [constructor|reflexivity]. }
  destruct (reconstructAddress_inverts_getSetAndTag scenario1_config no_entropy c 0x1234
              Hwf Hreach ltac:(in_range)) as (set & tag & Hst & Hrec & Hst').
  assert (set = 0%nat ∧ tag = 0x12) as [-> ->].
  { vm_compute in Hnew. injection Hnew as <-. vm_compute in Hst.
    by injection Hst as <- <-. }
  exists c. split; [reflexivity|]. split; [exact Hst|].
  split; [exact Hrec|exact Hst'].
Defined.

(** X9: for a well-formed configuration the geometry functions return:
    at least one set and one way, never more blocks than the size holds,
    and offset and index bit counts that are the integer logarithms of the
    block size and of the number of sets, together below 64. *)
Theorem geometry_of_a_well_formed_configuration (config : CacheConfig) :
  well_formed config →
  ∃ numSets numWays indexBits,
    getNumSets config = Some numSets ∧ getNumWays config = Some numWays
    ∧ getIndexBits config = Some indexBits
    ∧ 0 < numSets ∧ 0 < numWays
    ∧ numSets * numWays * blockSize config ≤ size config
    ∧ 2 ^ getBlockOffsetBits config ≤ blockSize config
      < 2 ^ (getBlockOffsetBits config + 1)
    ∧ 2 ^ indexBits ≤ numSets < 2 ^ (indexBits + 1)
    ∧ 0 ≤ getBlockOffsetBits config ∧ 0 ≤ indexBits
    ∧ getBlockOffsetBits config + indexBits < 64.
Proof.
  intros Hwf.
  destruct (well_formed_geometry config Hwf) as (ns & nw & Hns & Hnw & Hns0 & Hnw0 & Hprod).
  pose proof Hwf as (Hbs & Hsize & Horg).
  assert (ns * nw * blockSize config ≤ size config) as Hcap.
  { unfold getNumSets, getNumWays, udiv in Hns, Hnw.
    destruct (organization config).
    - injection Hnw as <-. lia.
    - destruct Horg as [Hassoc Hmul]. injection Hnw as <-.
      rewrite wrap64_small in Hns by nia. case_decide; [done|]. injection Hns as <-.
      pose proof (Z.mul_div_le (size config) (blockSize config * associativity config)
                    ltac:(nia)). nia.
    - injection Hns as <-. case_decide; [done|]. injection Hnw as <-.
      pose proof (Z.mul_div_le (size config) (blockSize config) ltac:(lia)). lia. }
  assert (ns ≤ size config) as Hns_le by nia.
  assert (blockSize config ≤ size config) as Hbs_le by nia.
  destruct (getBlockOffsetBits_log2 config ltac:(lia)) as [HB HBrange].
  pose proof (getIndexBits_log2 config ns Hns ltac:(lia)) as HS.
  pose proof (Z.log2_nonneg ns) as HS0.
  pose proof (Z.log2_spec (blockSize config) Hbs) as HlB.
  pose proof (Z.log2_spec ns Hns0) as HlS.
  exists ns, nw, (Z.log2 ns). rewrite HB.
  replace (Z.succ (Z.log2 (blockSize config))) with (Z.log2 (blockSize config) + 1)
    in HlB by lia.
  replace (Z.succ (Z.log2 ns)) with (Z.log2 ns + 1) in HlS by lia.
  repeat split; try done; try lia.
  apply (Z.pow_lt_mono_r_iff 2); [lia|lia|].
  rewrite Z.pow_add_r by lia.
  assert (0 < 2 ^ Z.log2 (blockSize config)) by (apply Z.pow_pos_nonneg; lia).
  assert (0 < 2 ^ Z.log2 ns) by (apply Z.pow_pos_nonneg; lia).
  rewrite pow2_64 in Hsize. change (2 ^ 64) with 18446744073709551616. nia.
Qed.

Lemma geometry_of_a_well_formed_configuration_witness :
  getNumSets scenario4_l2 = Some 16 ∧ getNumWays scenario4_l2 = Some 8
  ∧ getIndexBits scenario4_l2 = Some 4 ∧ getBlockOffsetBits scenario4_l2 = 6.
Proof.
  assert (well_formed scenario4_l2) as Hwf.
  { unfold well_formed. simpl. rewrite pow2_64. lia. }
  destruct (geometry_of_a_well_formed_configuration scenario4_l2 Hwf)
    as (ns & nw & ib & Hns & Hnw & Hib & _).
  vm_compute in Hns. vm_compute in Hnw. vm_compute in Hib.
  injection Hns as <-. injection Hnw as <-. injection Hib as <-.
  repeat split; reflexivity.
Defined.

(** ** The policies' records of used ways *)

Section policy_records_facts.

Lemma list_erase_elem (way w : nat) (l : list nat) :
  w ≠ way → w ∈ list_erase way l ↔ w ∈ l.
Proof.
  intros Hne. induction l as [|x l IH]; [done|]. simpl.
  destruct (decide (x = way)) as [->|Hx].
  - rewrite elem_of_cons. (intuition (subst; try congruence; auto)).
  - rewrite !elem_of_cons, IH. done.
Qed.

Lemma list_erase_NoDup (way : nat) (l : list nat) :
  NoDup l → NoDup (list_erase way l) ∧ way ∉ list_erase way l.
Proof.
  induction 1 as [|x l Hx Hnd IH]; simpl.
  - split; [constructor|]. by intros ?%elem_of_nil.
  - destruct (decide (x = way)) as [->|Hne]; [done|].
    destruct IH as [IH1 IH2]. split.
    + constructor; [|done]. by rewrite list_erase_elem.
    + rewrite elem_of_cons. (intuition (subst; try congruence; auto)).
Qed.

(** Ways below [numWays] without duplicates: as many as [numWays] of them
    are all of them. *)
Lemma all_ways_listed (l : list nat) (numWays : nat) :
  NoDup l → Forall (λ w, w < numWays)%nat l → (numWays ≤ length l)%nat →
  ∀ w, (w < numWays)%nat → w ∈ l.
Proof.
  intros Hnd Hlt Hlen w Hw.
  assert (l ⊆+ seq 0 numWays) as Hsub.
  { apply NoDup_submseteq; [done|]. intros x Hx. apply elem_of_seq.
    rewrite Forall_forall in Hlt. specialize (Hlt x Hx). lia. }
  assert (l ≡ₚ seq 0 numWays) as Hperm.
  { apply submseteq_length_Permutation; [done|]. by rewrite length_seq. }
  rewrite Hperm. apply elem_of_seq. lia.
Qed.

Lemma all_ways_in_set (used : gset nat) (numWays : nat) :
  (∀ w, w ∈ used → (w < numWays)%nat) → (numWays ≤ base.size used)%nat →
  ∀ w, (w < numWays)%nat → w ∈ used.
Proof.
  intros Hlt Hsize w Hw.
  assert (used ⊆ set_seq 0 numWays) as Hsub.
  { intros x Hx. apply elem_of_set_seq. specialize (Hlt x Hx). lia. }
  assert (used ≡ set_seq 0 numWays) as Heq.
  { apply set_subseteq_size_equiv; [done|]. by rewrite size_set_seq. }
  rewrite Heq. apply elem_of_set_seq. lia.
Qed.

(** [first_way] finds nothing only when no way satisfies the test. *)
Lemma first_way_None (unused : nat → bool) (numWays : nat) :
  first_way unused numWays = None → ∀ w, (w < numWays)%nat → unused w = false.
Proof.
  unfold first_way. intros H%fmap_None w Hw.
  rewrite list_find_None, Forall_forall in H.
  destruct (unused w) eqn:Hu; [|done]. exfalso. apply (H w); [|done].
  apply elem_of_seq. lia.
Qed.

(** [onAccess] records the way, and nothing else. *)
Lemma onAccess_used (p : ReplacementPolicy) (set way set' w : nat) :
  policy_ready p set way →
  policy_used (Policy.onAccess p set way) set' w
  ↔ policy_used p set' w ∨ (set' = set ∧ w = way).
Proof.
  intros Hready. destruct p as [lists pos|cs used|flags rd d]; simpl.
  - destruct (lists !! set) as [l|] eqn:Hl; simpl.
    + destruct (decide (set' = set)) as [->|Hne].
      * rewrite lookup_insert_eq, Hl. simpl. rewrite elem_of_cons.
        destruct (decide (w = way)) as [->|Hw]; [(intuition (subst; try congruence; auto))|].
        case_decide; [rewrite list_erase_elem by done|]; (intuition (subst; try congruence; auto)).
      * rewrite lookup_insert_ne by done. (intuition (subst; try congruence; auto)).
    + destruct (decide (set' = set)) as [->|Hne].
      * rewrite lookup_insert_eq, Hl. simpl. rewrite list_elem_of_singleton.
        split; [(intuition (subst; try congruence; auto))|]. intros [?%elem_of_nil|[_ ->]]; done.
      * rewrite lookup_insert_ne by done. (intuition (subst; try congruence; auto)).
  - destruct (decide (set' = set)) as [->|Hne].
    + rewrite lookup_insert_eq. simpl. rewrite elem_of_union, elem_of_singleton.
      (intuition (subst; try congruence; auto)).
    + rewrite lookup_insert_ne by done. (intuition (subst; try congruence; auto)).
  - destruct Hready as (fl & Hfl & Hway). rewrite Hfl. simpl.
    destruct (decide (set' = set)) as [->|Hne].
    + rewrite lookup_insert_eq, Hfl. simpl.
      destruct (decide (w = way)) as [->|Hw].
      * rewrite list_lookup_insert_eq by done. (intuition (subst; try congruence; auto)).
      * rewrite list_lookup_insert_ne by done. (intuition (subst; try congruence; auto)).
    + rewrite lookup_insert_ne by done. (intuition (subst; try congruence; auto)).
Qed.

Lemma onAccess_records (p : ReplacementPolicy) (set way numWays : nat) :
  policy_records p numWays → (way < numWays)%nat → policy_ready p set way →
  policy_records (Policy.onAccess p set way) numWays.
Proof.
  intros Hrec Hway Hready. destruct p as [lists pos|cs used|flags rd d]; simpl in *.
  - destruct (lists !! set) as [l|] eqn:Hl; simpl.
    + destruct (Hrec set l Hl) as (Hnd & Hlt & Hpos).
      intros set' l'. destruct (decide (set' = set)) as [->|Hne].
      * rewrite !lookup_insert_eq. intros [= <-]. simpl.
        destruct (list_erase_NoDup way l Hnd) as [Hnd' Hnotin].
        split; [|split].
        -- case_decide as Hin; constructor; try done.
           intros Hw. by apply Hin, Hpos.
        -- constructor; [done|]. case_decide; [by apply list_erase_Forall|done].
        -- intros w. rewrite elem_of_cons, elem_of_union, elem_of_singleton.
           intros [->|Hw]; [by left|right]. apply Hpos.
           case_decide; [|done].
           destruct (decide (w = way)) as [->|Hne]; [done|].
           by apply list_erase_elem in Hw.
      * rewrite !lookup_insert_ne by done. apply Hrec.
    + intros set' l'. destruct (decide (set' = set)) as [->|Hne].
      * rewrite !lookup_insert_eq. intros [= <-]. simpl. split; [|split].
        -- apply NoDup_singleton.
        -- by apply Forall_singleton.
        -- intros w ->%list_elem_of_singleton.
           apply elem_of_union_l. by apply elem_of_singleton.
      * rewrite !lookup_insert_ne by done. apply Hrec.
  - intros set' used' w. destruct (decide (set' = set)) as [->|Hne].
    + rewrite lookup_insert_eq. intros [= <-].
      rewrite elem_of_union, elem_of_singleton. intros [->|Hw]; [done|].
      destruct (used !! set) as [u|] eqn:Hu; simpl in Hw.
      * by eapply Hrec.
      * by apply elem_of_empty in Hw.
    + rewrite lookup_insert_ne by done. apply Hrec.
  - destruct Hready as (fl & Hfl & Hlen). rewrite Hfl. simpl.
    intros set' flags'. destruct (decide (set' = set)) as [->|Hne].
    + rewrite lookup_insert_eq. intros [= <-]. rewrite length_insert.
      by eapply Hrec.
    + rewrite lookup_insert_ne by done. apply Hrec.
Qed.

(** [getVictim]: it changes no record except that the Random policy
    records the way it returns; it leaves the policy ready for the
    [onAccess] that follows; and it returns a way on record as used only
    when all ways of the set are. *)
Lemma getVictim_used (p p' : ReplacementPolicy) (set numWays way : nat) :
  policy_records p numWays → (0 < numWays)%nat →
  Policy.getVictim p set numWays = Some (p', way) →
  policy_records p' numWays
  ∧ policy_ready p' set way
  ∧ (∀ set' w, policy_used p set' w → policy_used p' set' w)
  ∧ (∀ set' w, policy_used p' set' w →
               policy_used p set' w ∨ (set' = set ∧ w = way))
  ∧ (policy_used p set way → ∀ w, (w < numWays)%nat → policy_used p set w).
Proof.
  intros Hrec Hn. destruct p as [lists pos|cs used|flags rd d]; simpl in *.
  - assert (∀ P : Prop, P →
              policy_records (LRUPolicy lists pos) numWays
              ∧ policy_ready (LRUPolicy lists pos) set way
              ∧ (∀ set' w, policy_used (LRUPolicy lists pos) set' w →
                           policy_used (LRUPolicy lists pos) set' w)
              ∧ (∀ set' w, policy_used (LRUPolicy lists pos) set' w →
                           policy_used (LRUPolicy lists pos) set' w
                           ∨ (set' = set ∧ w = way))
              ∧ P) as Hsame.
    { intros P HP. split; [exact Hrec|]. split; [exact I|]. split; [auto|].
      split; [auto|done]. }
    destruct (lists !! set) as [l|] eqn:Hl; simpl.
    + destruct (Hrec set l Hl) as (Hnd & Hlt & Hpos).
      destruct (decide (length l < numWays)%nat) as [Hshort|Hfull].
      * destruct (first_way _ numWays) as [w0|] eqn:Hfirst.
        -- intros [= <- <-]. apply first_way_Some in Hfirst as [Hw0 Hunused].
           apply bool_decide_eq_true in Hunused.
           apply Hsame. simpl. by rewrite ?Hl.
        -- intros H. apply bind_Some in H as (v & Hlast & [= <- <-]).
           apply Hsame. simpl. rewrite ?Hl. simpl.
           intros _ w Hw. pose proof (first_way_None _ _ Hfirst w Hw) as Hf.
           apply bool_decide_eq_false in Hf. by apply dec_stable.
      * intros H. apply bind_Some in H as (v & Hlast & [= <- <-]).
        apply Hsame. simpl. rewrite ?Hl. simpl.
        intros _ w Hw. apply (all_ways_listed l numWays); try done. lia.
    + intros [= <- <-]. apply Hsame.
      simpl. rewrite ?Hl. simpl. by intros ?%elem_of_nil.
  - set (used0 := default ∅ (used !! set)).
    assert (∀ set' w, w ∈ default ∅ (<[set := used0]> used !! set')
                      ↔ w ∈ default ∅ (used !! set')) as Hsame.
    { intros set' w. destruct (decide (set' = set)) as [->|Hne].
      - by rewrite lookup_insert_eq.
      - by rewrite lookup_insert_ne. }
    assert (∀ set' u w, <[set := used0]> used !! set' = Some u → w ∈ u →
                        (w < numWays)%nat) as Hrec'.
    { intros set' u w. destruct (decide (set' = set)) as [->|Hne].
      - rewrite lookup_insert_eq. intros [= <-] Hw. unfold used0 in Hw.
        destruct (used !! set) as [u0|] eqn:Hu; simpl in Hw.
        + by eapply Hrec.
        + by apply elem_of_empty in Hw.
      - rewrite lookup_insert_ne by done. apply Hrec. }
    assert (∀ w, w ∈ used0 → (w < numWays)%nat) as Hlt.
    { intros w Hw. apply (Hrec' set used0 w); [|done]. by rewrite lookup_insert_eq. }
    destruct (decide (base.size used0 < numWays)%nat) as [Hshort|Hfull].
    + destruct (first_way _ numWays) as [w0|] eqn:Hfirst.
      * intros [= <- <-]. apply first_way_Some in Hfirst as [Hw0 Hunused].
        apply bool_decide_eq_true in Hunused.
        repeat split; try done.
        -- intros set' w Hw. by apply Hsame.
        -- intros set' w Hw. left. by apply Hsame.
      * rewrite decide_False by lia. intros [= <- <-].
        repeat split; try done.
        -- intros set' w Hw. by apply Hsame.
        -- intros set' w Hw. left. by apply Hsame.
        -- intros _ w Hw. pose proof (first_way_None _ _ Hfirst w Hw) as Hf.
           apply bool_decide_eq_false in Hf. by apply dec_stable.
    + rewrite decide_False by lia. intros [= <- <-].
      repeat split; try done.
      * intros set' w Hw. by apply Hsame.
      * intros set' w Hw. left. by apply Hsame.
      * intros _ w Hw. apply (all_ways_in_set used0 numWays); try done. lia.
  - set (flags0 := default (replicate numWays false) (flags !! set)).
    assert ((if decide (length flags0 < numWays)%nat
             then resize numWays false flags0 else flags0) = flags0) as ->.
    { case_decide as Hshort; [|done]. exfalso. unfold flags0 in Hshort.
      destruct (flags !! set) as [fl|] eqn:Hfl; simpl in Hshort.
      - specialize (Hrec set fl Hfl). lia.
      - rewrite length_replicate in Hshort. lia. }
    assert (numWays ≤ length flags0)%nat as Hlen0.
    { unfold flags0. destruct (flags !! set) as [fl|] eqn:Hfl; simpl.
      - by eapply Hrec.
      - by rewrite length_replicate. }
    assert (∀ w, flags0 !! w = Some true ↔ default [] (flags !! set) !! w = Some true)
      as Hflags0.
    { intros w. unfold flags0. destruct (flags !! set) as [fl|] eqn:Hfl; simpl; [done|].
      rewrite lookup_nil. split; [|done]. by intros [? _]%lookup_replicate. }
    destruct (first_way _ numWays) as [w0|] eqn:Hfirst.
    + intros [= <- <-]. apply first_way_Some in Hfirst as [Hw0 Hunused].
      apply bool_decide_eq_true in Hunused.
      split; [|split; [|split; [|split]]].
      * simpl. intros set' fl'. destruct (decide (set' = set)) as [->|Hne].
        -- rewrite lookup_insert_eq. intros [= <-]. by rewrite length_insert.
        -- rewrite lookup_insert_ne by done. apply Hrec.
      * simpl. eexists. rewrite lookup_insert_eq. split; [done|].
        rewrite length_insert. lia.
      * intros set' w. simpl. destruct (decide (set' = set)) as [->|Hne].
        -- rewrite lookup_insert_eq. simpl. intros Hw%Hflags0.
           destruct (decide (w = w0)) as [->|Hne]; [congruence|].
           by rewrite list_lookup_insert_ne.
        -- by rewrite lookup_insert_ne.
      * intros set' w. simpl. destruct (decide (set' = set)) as [->|Hne].
        -- rewrite lookup_insert_eq. simpl.
           destruct (decide (w = w0)) as [->|Hne]; [by right|].
           rewrite list_lookup_insert_ne by done. intros Hw%Hflags0. by left.
        -- rewrite lookup_insert_ne by done. by left.
      * simpl. intros Hused%Hflags0. congruence.
    + intros [= <- <-].
      split; [|split; [|split; [|split]]].
      * simpl. intros set' fl'. destruct (decide (set' = set)) as [->|Hne].
        -- rewrite lookup_insert_eq. by intros [= <-].
        -- rewrite lookup_insert_ne by done. apply Hrec.
      * simpl. eexists. rewrite lookup_insert_eq. split; [done|].
        assert (uniform_draw (rd d) numWays < numWays)%nat; [|lia].
        unfold uniform_draw. rewrite decide_False by lia.
        apply Nat.mod_upper_bound. lia.
      * intros set' w. simpl. destruct (decide (set' = set)) as [->|Hne].
        -- rewrite lookup_insert_eq. simpl. by intros Hw%Hflags0.
        -- by rewrite lookup_insert_ne.
      * intros set' w. simpl. destruct (decide (set' = set)) as [->|Hne].
        -- rewrite lookup_insert_eq. simpl. intros Hw%Hflags0. by left.
        -- rewrite lookup_insert_ne by done. by left.
      * simpl. intros _ w Hw. apply Hflags0.
        pose proof (first_way_None _ _ Hfirst w Hw) as Hf.
        apply bool_decide_eq_false in Hf.
        destruct (lookup_lt_is_Some_2 flags0 w ltac:(lia)) as [[|] Hb]; [done|].
        by rewrite Hb in Hf.
Qed.

End policy_records_facts.

Section tracking.

Lemma used_ready (p : ReplacementPolicy) (set way : nat) :
  policy_used p set way → policy_ready p set way.
Proof.
  destruct p as [| |flags rd d]; simpl; try done.
  destruct (flags !! set) as [fl|]; simpl.
  - intros Hl. exists fl. split; [done|]. by eapply lookup_lt_Some.
  - by rewrite lookup_nil.
Qed.

(** The entries of a cache after one entry was overwritten. *)
Lemma write_entry_lookup_entry (c : Cache.t) (set way : nat) (e : CacheEntry)
      (set' w' : nat) (row' : list CacheEntry) (e' : CacheEntry) :
  Cache.cacheEntries_ (Cache.write_entry c set way e) !! set' = Some row' →
  row' !! w' = Some e' →
  ∃ row0, Cache.cacheEntries_ c !! set' = Some row0
          ∧ ((set' = set ∧ w' = way ∧ e' = e)
             ∨ ((set' ≠ set ∨ w' ≠ way) ∧ row0 !! w' = Some e')).
Proof.
  rewrite write_entry_lookup. destruct (decide (set' = set)) as [->|Hne].
  - destruct (Cache.cacheEntries_ c !! set) as [row0|]; [|done]. simpl.
    intros [= <-] Hl. exists row0. split; [done|].
    destruct (decide (w' = way)) as [->|Hw].
    + left. apply list_lookup_insert_Some in Hl as [(_ & -> & _)|[? _]]; done.
    + right. rewrite list_lookup_insert_ne in Hl by done. auto.
  - intros Hrow Hl. exists row'. auto.
Qed.

Context (c : Cache.t) (B S : Z) (numWays : nat).
Hypothesis Hinv : cache_inv c B S numWays.
Hypothesis Htracks : policy_tracks c numWays.

(** [Cache::access] keeps the policy's records in step with the valid
    bits, and it reports an eviction only when every way of the set held a
    valid entry. *)
Lemma access_tracks (a : Z) (type : AccessType) :
  0 ≤ a < UINT64_MODULUS →
  match Cache.access c a type with
  | Some (c', result) =>
      policy_tracks c' numWays
      ∧ (∀ v row, evictedAddress result = Some v →
                  Cache.cacheEntries_ c !! Z.to_nat ((a / 2 ^ B) mod 2 ^ S) = Some row →
                  Forall (λ entry, valid_ entry = true) row)
  | None => False
  end.
Proof.
  intros Ha. destruct Htracks as [Hrec Hused]. unfold Cache.access.
  rewrite (getSetAndTag_spec _ _ _ _ Hinv) by done.
  simpl. unfold Cache.findEntry.
  destruct (decode_row _ _ _ _ Hinv (a / 2 ^ B)) as (row & Hrow & Hlen).
  rewrite Hrow. simpl.
  set (set := Z.to_nat ((a / 2 ^ B) mod 2 ^ S)) in *.
  destruct (Cache.find_way row (a / 2 ^ B / 2 ^ S)) as [way|] eqn:Hfind.
  - (* hit *)
    apply find_way_Some in Hfind as (entry & Hentry & Hvalid & Htag & _).
    pose proof (row_way_lt _ _ _ _ Hinv _ _ _ _ Hrow Hentry) as Hway.
    pose proof (proj1 (Hused _ _ _ _ Hrow Hentry) Hvalid) as Hwused.
    pose proof (used_ready _ _ _ Hwused) as Hready.
    assert (∀ set' w, policy_used (Policy.onAccess (Cache.policy_ c) set way) set' w
                      ↔ policy_used (Cache.policy_ c) set' w) as Hsame.
    { intros set' w. rewrite onAccess_used by done. (intuition (subst; try congruence; auto)). }
    pose proof (onAccess_records _ set way numWays Hrec Hway Hready) as Hrec'.
    destruct (bool_decide (type = Write) && writeBack (Cache.config_ c)) eqn:Hwb.
    + rewrite Hentry. simpl. split; [|done]. split; [exact Hrec'|].
      intros set' row' w' e' Hrow' Hl'. simpl. rewrite Hsame.
      destruct (write_entry_lookup_entry _ _ _ _ _ _ _ _ Hrow' Hl')
        as (row0 & Hrow0 & [(-> & -> & ->)|(_ & Hl0)]).
      * simpl. by rewrite Hvalid.
      * by apply (Hused set' row0).
    + simpl. split; [|done]. split; [exact Hrec'|].
      intros set' row' w' e' Hrow' Hl'. simpl. rewrite Hsame.
      by apply (Hused set' row').
  - (* miss *)
    destruct (bool_decide (type = Read)
              || bool_decide (type = Write) && writeAllocate (Cache.config_ c)) eqn:Halloc.
    + unfold Cache.allocateEntry. simpl. rewrite Hrow. simpl.
      destruct (getVictim_in_range (Cache.policy_ c) set (length row))
        as (p' & way & Hvictim & Hway & Hpol'); [rewrite Hlen; apply Hinv
                                                 |rewrite Hlen; apply Hinv|].
      rewrite Hvictim. simpl.
      destruct (lookup_lt_is_Some_2 row way Hway) as [victim Hventry].
      rewrite Hventry. simpl. rewrite Hlen in Hway, Hvictim.
      destruct (getVictim_used _ _ _ _ _ Hrec (inv_some_way _ _ _ _ Hinv) Hvictim)
        as (Hrec1 & Hready1 & Hsub1 & Hsup1 & Hfull).
      pose proof (onAccess_records _ set way numWays Hrec1 Hway Hready1) as Hrec2.
      set (newE := {| valid_ := true; dirty_ := _; tag_ := _ |}).
      assert (policy_tracks
                (Cache.set_policy
                   (Cache.write_entry
                      (Cache.set_policy
                         (Cache.set_misses c (wrap64 (Cache.misses_ c + 1))) p')
                      set way newE)
                   (Policy.onAccess p' set way)) numWays) as Htracks'.
      { split; [exact Hrec2|].
        intros set' row' w' e' Hrow' Hl'. simpl. rewrite onAccess_used by done.
        simpl in Hrow'.
        destruct (write_entry_lookup_entry
                    (Cache.set_policy (Cache.set_misses c (wrap64 (Cache.misses_ c + 1))) p')
                    _ _ _ _ _ _ _ Hrow' Hl')
          as (row0 & Hrow0 & [(-> & -> & ->)|(Hne & Hl0)]).
        - simpl. split; [by right|done].
        - simpl in Hrow0. rewrite (Hused set' row0 w' e' Hrow0 Hl0). split.
          + intros Hu. left. by apply Hsub1.
          + intros [Hu|[-> ->]]; [|by destruct Hne].
            destruct (Hsup1 _ _ Hu) as [Hu0|[-> ->]]; [done|by destruct Hne]. }
      assert (valid_ victim = true → Forall (λ entry, valid_ entry = true) row)
        as Hallvalid.
      { intros Hvv. apply Forall_lookup. intros w e Hl.
        apply (Hused set row w e Hrow Hl). apply Hfull.
        - by apply (Hused set row way victim Hrow Hventry).
        - rewrite <- Hlen. by eapply lookup_lt_Some. }
      assert (is_Some (Cache.cacheEntries_
                         (Cache.write_entry
                            (Cache.set_policy
                               (Cache.set_misses c (wrap64 (Cache.misses_ c + 1))) p')
                            set way newE) !! set)) as [row2 Hrow2].
      { apply lookup_lt_is_Some_2. simpl. rewrite length_alter.
        apply (decode_set_lt _ _ _ _ Hinv). }
      destruct (valid_ victim) eqn:Hvv.
      * destruct (reconstructAddress_spec _ _ _ _ Hinv set (tag_ victim))
          as (v & Hv & _).
        { unfold set. destruct (inv_pow_pos _ _ _ _ Hinv) as (_ & HpS & _).
          pose proof (Z.mod_pos_bound (a / 2 ^ B) (2 ^ S) HpS). rewrite Z2Nat.id; lia. }
        { by eapply (inv_tags _ _ _ _ Hinv). }
        unfold Cache.reconstructAddress in *. simpl in *. rewrite Hv. simpl.
        fold newE. rewrite Hrow2. simpl. split; [exact Htracks'|].
        intros v' row' _ [= <-]. by apply Hallvalid.
      * simpl in *. rewrite Hrow2. simpl. split; [exact Htracks'|]. done.
    + simpl. split; [|done]. split; [exact Hrec|].
      intros set' row' w' e' Hrow' Hl'. by apply (Hused set' row').
Qed.

End tracking.

Section tracking_traces.

(** A freshly constructed cache: no way is valid and none is on record. *)
Lemma new_tracks (config : CacheConfig) (rd : nat → nat) (c : Cache.t) (numWays : nat) :
  Cache.new config rd = inr c → policy_tracks c numWays.
Proof.
  unfold Cache.new. intros Hnew.
  destruct (getNumSets config) as [ns|], (getNumWays config) as [nw|]; try done.
  injection Hnew as <-. simpl. split.
  - simpl. unfold Policy.createPolicy. repeat case_decide; simpl;
      intros ? ?; by rewrite lookup_empty.
  - simpl. intros set row way entry [-> _]%lookup_replicate [-> _]%lookup_replicate.
    simpl. unfold Policy.createPolicy.
    repeat case_decide; simpl; rewrite lookup_empty; simpl; split; try done;
      try (by intros ?%elem_of_nil); try (by intros ?%elem_of_empty);
      by rewrite lookup_nil.
Qed.

Lemma cache_trace_tracks (trace : list (Z * AccessType)) :
  ∀ (c c' : Cache.t) (outcomes : list bool) (B S : Z) (numWays : nat),
    cache_inv c B S numWays → policy_tracks c numWays →
    Forall (λ access, uint64 access.1) trace →
    cache_trace c trace = Some (c', outcomes) →
    cache_inv c' B S numWays ∧ policy_tracks c' numWays.
Proof.
  induction trace as [|[a t] trace IH];
    intros c c' outcomes B S numWays Hinv Htr Htrace Hrun.
  - simpl in Hrun. by injection Hrun as <- _.
  - apply Forall_cons in Htrace as [Ha Htrace]. simpl in Ha, Hrun.
    pose proof (access_spec c B S numWays Hinv a t Ha) as Hspec.
    pose proof (access_tracks c B S numWays Hinv Htr a t Ha) as Htr1.
    destruct (Cache.access c a t) as [[c1 r]|]; [|done]. simpl in Hrun.
    destruct (cache_trace c1 trace) as [[c2 outs]|] eqn:Hrest; [|done].
    simpl in Hrun. injection Hrun as <- _.
    destruct Hspec as (Hinv1 & _). destruct Htr1 as (Htr1 & _).
    by eapply IH.
Qed.

End tracking_traces.

(** X10: in a cache that is used through [access] alone, an access
    reports an evicted address only when every way of the accessed set
    held a valid entry: as long as the set has a free way, a miss fills
    it.  This holds for the LRU, FIFO and Random policies alike. *)
Theorem access_evicts_only_from_a_full_set
        (config : CacheConfig) (rd : nat → nat) (c : Cache.t)
        (address : Z) (type : AccessType) :
  well_formed config → reachable_by_accesses config rd c → uint64 address →
  ∃ c' result set tag row,
    Cache.access c address type = Some (c', result)
    ∧ Cache.getSetAndTag c address = Some (set, tag)
    ∧ Cache.cacheEntries_ c !! set = Some row
    ∧ (is_Some (evictedAddress result) →
       Forall (λ entry, valid_ entry = true) row).
Proof.
  intros Hwf Hreach Ha.
  pose proof Hreach as (c0 & trace & outcomes & Hnew & Htrace & Hrun).
  destruct (new_inv config rd Hwf) as (c0' & S & numWays & Hnew' & Hcfg & Hinv0 & _).
  rewrite Hnew in Hnew'. injection Hnew' as <-.
  destruct (cache_trace_tracks trace c0 c outcomes _ S numWays Hinv0
              (new_tracks config rd c0 numWays Hnew) Htrace Hrun) as [Hinv Htr].
  set (B := Z.log2 (blockSize config)) in *.
  pose proof (access_spec c B S numWays Hinv address type Ha) as Hspec.
  pose proof (access_tracks c B S numWays Hinv Htr address type Ha) as Htr1.
  destruct (Cache.access c address type) as [[c' result]|]; [|done].
  destruct (decode_row _ _ _ _ Hinv (address / 2 ^ B)) as (row & Hrow & Hlen).
  exists c', result. eexists _, _, row. split; [done|].
  split; [by apply (getSetAndTag_spec c B S numWays Hinv)|].
  split; [done|]. intros [v Hv]. destruct Htr1 as [_ Hfull]. by eapply Hfull.
Qed.

Lemma access_evicts_only_from_a_full_set_witness :
  ∃ c c' result row,
    cache_after nwa_l1 [(0x0, Read)] = Some c
    ∧ Cache.access c 0x40 Read = Some (c', result)
    ∧ evictedAddress result = Some 0x0
    ∧ Cache.cacheEntries_ c !! 0%nat = Some row
    ∧ Forall (λ entry, valid_ entry = true) row.
Proof.
  destruct (cache_after nwa_l1 [(0x0, Read)]) as [c|] eqn:Hc;
    [|vm_compute in Hc; discriminate].
  assert (well_formed nwa_l1) as Hwf.
  { unfold well_formed. simpl. rewrite pow2_64. lia. }
  assert (reachable_by_accesses nwa_l1 no_entropy c) as Hreach.
  { apply (cache_after_reachable _ _ _ Hc). trace_in_range. }
  destruct (access_evicts_only_from_a_full_set nwa_l1 no_entropy c 0x40 Read
              Hwf Hreach ltac:(in_range))
    as (c' & result & set & tag & row & Hacc & Hst & Hrow & Hfull).
  assert (set = 0%nat ∧ evictedAddress result = Some 0x0) as [-> Hev].
  { vm_compute in Hc. injection Hc as <-. vm_compute in Hst. vm_compute in Hacc.
    injection Hst as <- _. by injection Hacc as _ <-. }
  exists c, c', result, row. split; [reflexivity|]. split; [exact Hacc|].
  split; [exact Hev|]. split; [exact Hrow|]. apply Hfull. by rewrite Hev.
Defined.

Section dirty_bits.

Lemma write_entry_clean (c : Cache.t) (set way : nat) (e : CacheEntry) :
  clean c → dirty_ e = false → clean (Cache.write_entry c set way e).
Proof.
  unfold clean. simpl. intros Hc He. apply Forall_alter; [done|].
  intros row Hrow Hclean. by apply Forall_insert.
Qed.

(** A read, and any access to a write-through cache, leaves a cache
    without dirty entries as such, and triggers no write-back. *)
Lemma access_clean (c : Cache.t) (a : Z) (type : AccessType)
      (c' : Cache.t) (result : CacheResult) :
  Cache.access c a type = Some (c', result) → clean c →
  writeBack (Cache.config_ c) = false ∨ type = Read →
  clean c' ∧ writeBackTriggered result = false.
Proof.
  unfold Cache.access. intros H Hclean Hcase.
  assert (bool_decide (type = Write) && writeBack (Cache.config_ c) = false) as Hnw.
  { destruct Hcase as [->| ->]; [apply andb_false_r|done]. }
  apply bind_Some in H as ([set tag] & Hst & H).
  apply bind_Some in H as (wayOpt & Hfind & H).
  destruct wayOpt as [way|].
  - cbn [Cache.config_ Cache.set_policy Cache.set_hits] in H. rewrite Hnw in H.
    simpl in H. by injection H as <- <-.
  - destruct (_ || _) in H.
    + apply bind_Some in H as ([c1 allocResult] & Halloc & H).
      apply bind_Some in H as (chk & _ & H). injection H as <- <-. simpl.
      unfold Cache.allocateEntry in Halloc.
      apply bind_Some in Halloc as (row & Hrow & Halloc).
      apply bind_Some in Halloc as ([p' way] & Hvictim & Halloc).
      apply bind_Some in Halloc as (victim & Hventry & Halloc).
      apply bind_Some in Halloc as ([[ea ee] wb] & Hev & Halloc).
      cbn [Cache.config_ Cache.set_policy Cache.set_misses] in Halloc.
      rewrite Hnw in Halloc. injection Halloc as <- <-. simpl. split.
      * apply (write_entry_clean
                 (Cache.set_policy (Cache.set_misses c (wrap64 (Cache.misses_ c + 1))) p'));
          done.
      * assert (dirty_ victim = false) as Hvd.
        { unfold clean in Hclean. rewrite Forall_lookup in Hclean.
          simpl in Hrow. specialize (Hclean _ _ Hrow).
          rewrite Forall_lookup in Hclean. by eapply Hclean. }
        destruct (valid_ victim).
        -- apply bind_Some in Hev as (v & _ & Hev). injection Hev as _ _ <-.
           simpl. by rewrite Hvd, andb_false_r.
        -- by injection Hev as _ _ <-.
    + by injection H as <- <-.
Qed.

Lemma cache_results_clean (trace : list (Z * AccessType)) :
  ∀ (c c' : Cache.t) (results : list CacheResult),
    cache_results c trace = Some (c', results) → clean c →
    writeBack (Cache.config_ c) = false ∨ Forall (λ access, access.2 = Read) trace →
    clean c' ∧ Forall (λ r, writeBackTriggered r = false) results.
Proof.
  induction trace as [|[a t] trace IH]; intros c c' results Hrun Hclean Hcase.
  - simpl in Hrun. by injection Hrun as <- <-.
  - simpl in Hrun.
    destruct (Cache.access c a t) as [[c1 r]|] eqn:Hacc; [|done]. simpl in Hrun.
    destruct (cache_results c1 trace) as [[c2 rs]|] eqn:Hrest; [|done].
    simpl in Hrun. injection Hrun as <- <-.
    destruct (access_counters c a t c1 r Hacc) as (Hcfg & _).
    destruct (access_clean c a t c1 r Hacc Hclean) as [Hclean1 Hwb].
    { destruct Hcase as [?|Hreads]; [by left|right].
      by apply Forall_cons in Hreads as [? _]. }
    destruct (IH c1 c2 rs Hrest Hclean1) as [Hclean2 Hwbs].
    { rewrite Hcfg. destruct Hcase as [?|Hreads]; [by left|right].
      by apply Forall_cons in Hreads as [_ ?]. }
    split; [done|]. by constructor.
Qed.

Lemma cache_results_total (trace : list (Z * AccessType)) :
  ∀ (c : Cache.t) (B S : Z) (numWays : nat),
    cache_inv c B S numWays → Forall (λ access, uint64 access.1) trace →
    ∃ c' results, cache_results c trace = Some (c', results)
                  ∧ length results = length trace.
Proof.
  induction trace as [|[a t] trace IH]; intros c B S numWays Hinv Htrace.
  - by exists c, [].
  - apply Forall_cons in Htrace as [Ha Htrace]. simpl in Ha.
    pose proof (access_spec c B S numWays Hinv a t Ha) as Hspec. simpl.
    destruct (Cache.access c a t) as [[c1 r]|]; [|done]. simpl.
    destruct Hspec as (Hinv1 & _).
    destruct (IH c1 B S numWays Hinv1 Htrace) as (c' & rs & -> & Hlen).
    simpl. eexists _, _. split; [done|]. simpl. by rewrite Hlen.
Qed.

End dirty_bits.

(** X11: on a freshly constructed cache, a trace of reads, and any trace
    on a write-through cache, make no entry dirty and trigger no
    write-back: every result has [writeBack == false]. *)
Theorem no_write_back_without_a_write_back_write
        (config : CacheConfig) (rd : nat → nat) (trace : list (Z * AccessType)) :
  well_formed config → Forall (λ access, uint64 access.1) trace →
  writeBack config = false ∨ Forall (λ access, access.2 = Read) trace →
  ∃ c0 c results,
    Cache.new config rd = inr c0
    ∧ cache_results c0 trace = Some (c, results)
    ∧ length results = length trace
    ∧ Forall (λ result, writeBackTriggered result = false) results
    ∧ clean c.
Proof.
  intros Hwf Htrace Hcase.
  destruct (new_inv config rd Hwf) as (c0 & S & numWays & Hnew & Hcfg & Hinv & _).
  destruct (cache_results_total trace c0 _ S numWays Hinv Htrace)
    as (c & results & Hrun & Hlen).
  assert (clean c0) as Hclean0.
  { unfold Cache.new in Hnew.
    destruct (getNumSets config), (getNumWays config); try done.
    injection Hnew as <-. unfold clean. simpl.
    apply Forall_replicate. by apply Forall_replicate. }
  destruct (cache_results_clean trace c0 c results Hrun Hclean0) as [Hclean Hwbs].
  { by rewrite Hcfg. }
  by exists c0, c, results.
Qed.

Lemma no_write_back_without_a_write_back_write_witness :
  ∃ c0 c results,
    Cache.new scenario1_config no_entropy = inr c0
    ∧ cache_results c0 scenario1_trace = Some (c, results)
    ∧ Forall (λ result, writeBackTriggered result = false) results.
Proof.
  assert (well_formed scenario1_config) as Hwf.
  { unfold well_formed. simpl. rewrite pow2_64. lia. }
  destruct (no_write_back_without_a_write_back_write scenario1_config no_entropy
              scenario1_trace Hwf)
    as (c0 & c & results & Hnew & Hrun & _ & Hwbs & _).
  { unfold scenario1_trace. trace_in_range. }
  { right. unfold scenario1_trace. repeat (apply Forall_cons; split; [reflexivity|]).
    apply Forall_nil_2. }
  by exists c0, c, results.
Defined.

(** ** The LRU policy evicts the least recently used way *)

Section lru.

Lemma recency_elem (accessed : list nat) (w : nat) :
  w ∈ recency accessed ↔ w ∈ accessed.
Proof.
  induction accessed as [|x l IH]; [done|]. simpl.
  rewrite !elem_of_cons, list_elem_of_filter, IH.
  destruct (decide (w = x)); intuition.
Qed.

Lemma recency_NoDup (accessed : list nat) : NoDup (recency accessed).
Proof.
  induction accessed as [|x l IH]; simpl; constructor.
  - rewrite list_elem_of_filter. by intros [? _].
  - by apply NoDup_filter.
Qed.

Lemma filter_split (P : nat → Prop) `{∀ x, Decision (P x)} (l a b : list nat) (v : nat) :
  filter P l = a ++ v :: b →
  ∃ m1 m2, l = m1 ++ v :: m2 ∧ a = filter P m1 ∧ P v.
Proof.
  revert a. induction l as [|x l IH]; intros a Hf.
  - by destruct a.
  - destruct (decide (P x)) as [Hx|Hx].
    + rewrite filter_cons_True in Hf by done. destruct a as [|y a].
      * injection Hf as -> _. exists [], l. by rewrite filter_nil.
      * injection Hf as -> Hf. destruct (IH a Hf) as (m1 & m2 & -> & -> & Hv).
        exists (y :: m1), m2. by rewrite filter_cons_True.
    + rewrite filter_cons_False in Hf by done.
      destruct (IH a Hf) as (m1 & m2 & -> & -> & Hv).
      exists (x :: m1), m2. by rewrite filter_cons_False.
Qed.

(** The order of [recency]: the ways in front of a way are those accessed
    after its most recent access. *)
Lemma recency_order (accessed : list nat) :
  ∀ l1 v l2, recency accessed = l1 ++ v :: l2 →
  ∃ newer older, accessed = newer ++ v :: older ∧ (v ∉ newer)
                 ∧ ∀ w, w ∈ newer ↔ w ∈ l1.
Proof.
  induction accessed as [|x h IH]; intros l1 v l2 Hr.
  - by destruct l1.
  - simpl in Hr. destruct l1 as [|y l1].
    + injection Hr as -> _. exists [], h. split; [done|].
      split; [by intros ?%elem_of_nil|done].
    + injection Hr as -> Hf.
      destruct (filter_split _ _ _ _ _ Hf) as (m1 & m2 & Hm & -> & Hv).
      destruct (IH m1 v m2 Hm) as (newer & older & -> & Hnot & Hsame).
      exists (y :: newer), older. split; [done|]. split.
      * rewrite elem_of_cons. intros [?|?]; done.
      * intros w. rewrite !elem_of_cons, list_elem_of_filter, Hsame.
        destruct (decide (w = y)); intuition.
Qed.

Lemma list_erase_filter (way : nat) (l : list nat) :
  NoDup l → list_erase way l = filter (λ w, w ≠ way) l.
Proof.
  induction 1 as [|x l Hx Hnd IH]; [done|]. simpl.
  destruct (decide (x = way)) as [->|Hne].
  - rewrite filter_cons_False by (intros Hw; by apply Hw).
    symmetry. apply filter_all. apply Forall_forall. by intros w Hw ->.
  - rewrite filter_cons_True by done. by rewrite IH.
Qed.

Lemma first_way_least (unused : nat → bool) (numWays way : nat) :
  first_way unused numWays = Some way →
  (way < numWays)%nat ∧ unused way = true
  ∧ ∀ w, (w < way)%nat → unused w = false.
Proof.
  unfold first_way. intros ([i w] & Hf & ->)%fmap_Some.
  apply list_find_Some in Hf as (Hl & Hu & Hmin). simpl.
  apply lookup_seq in Hl as [-> Hi]. simpl in *. split; [done|]. split; [done|].
  intros w Hw. destruct (unused w) eqn:Huw; [|done]. exfalso.
  apply (Hmin w w); [|lia|done]. apply lookup_seq. lia.
Qed.

Lemma ways_of_snoc (set : nat) (history : list (nat * nat)) (s w : nat) :
  ways_of set (history ++ [(s, w)])
  = ways_of set history ++ (if decide (s = set) then [w] else []).
Proof.
  unfold ways_of. rewrite omap_app. simpl. by destruct (decide (s = set)).
Qed.

(** The LRU list of a set after a history: absent while the set was never
    touched, afterwards the touched ways by recency, each owning an
    iterator. *)
Lemma lru_state (history : list (nat * nat)) :
  ∃ lists pos,
    policy_accesses (LRUPolicy ∅ ∅) history = LRUPolicy lists pos
    ∧ ∀ set,
        lists !! set
        = (if decide (ways_of set history = []) then None
           else Some (recency (reverse (ways_of set history))))
        ∧ ∀ w, w ∈ default ∅ (pos !! set) ↔ w ∈ ways_of set history.
Proof.
  induction history as [|[s w] history IH] using rev_ind.
  - exists ∅, ∅. split; [done|]. intros set. rewrite !lookup_empty. simpl.
    split; [done|]. intros w. rewrite elem_of_empty, elem_of_nil. done.
  - destruct IH as (lists & pos & Hp & Hstate).
    unfold policy_accesses in *. rewrite foldl_snoc, Hp. simpl.
    destruct (Hstate s) as [Hl Hpos].
    assert (∀ set, set ≠ s → ways_of set (history ++ [(s, w)]) = ways_of set history)
      as Hother.
    { intros set Hne. rewrite ways_of_snoc, decide_False by done. apply app_nil_r. }
    assert (ways_of s (history ++ [(s, w)]) = ways_of s history ++ [w]) as Hthis.
    { by rewrite ways_of_snoc, decide_True. }
    destruct (lists !! s) as [l|] eqn:Hls.
    + eexists _, _. split; [done|]. intros set.
      destruct (decide (set = s)) as [->|Hne].
      * rewrite !lookup_insert_eq, Hthis. simpl.
        destruct (decide (ways_of s history ++ [w] = [])) as [Happ|_];
          [by apply app_eq_nil in Happ as [_ ?]|].
        destruct (decide (ways_of s history = [])) as [|Hnil]; [done|].
        injection Hl as ->.
        rewrite reverse_snoc. simpl. split.
        -- f_equal. f_equal. case_decide as Hin.
           ++ apply list_erase_filter, recency_NoDup.
           ++ symmetry. apply filter_all. apply Forall_forall. intros x Hx ->.
              apply Hin, Hpos. by rewrite recency_elem, elem_of_reverse in Hx.
        -- intros x. rewrite elem_of_union, elem_of_singleton, elem_of_app,
             list_elem_of_singleton, Hpos. tauto.
      * rewrite !lookup_insert_ne by done. rewrite Hother by done. apply Hstate.
    + eexists _, _. split; [done|]. intros set.
      destruct (decide (set = s)) as [->|Hne].
      * rewrite !lookup_insert_eq, Hthis. simpl.
        case_decide as Hnil; [|done]. rewrite Hnil. simpl. split; [done|].
        intros x. rewrite elem_of_union, elem_of_singleton, list_elem_of_singleton.
        rewrite Hpos, Hnil, elem_of_nil. tauto.
      * rewrite !lookup_insert_ne by done. rewrite Hother by done. apply Hstate.
Qed.

End lru.

(** X12: after any history of [onAccess] calls on a fresh LRU policy,
    [getVictim] for a set returns, without changing the policy: the lowest
    way of the set that was never accessed, if there is one; otherwise the
    least recently used way, that is, a way such that every other way of
    the set was accessed after its last access. *)
Theorem lru_victim_is_least_recently_used
        (history : list (nat * nat)) (set numWays : nat) :
  (0 < numWays)%nat → Forall (λ w, w < numWays)%nat (ways_of set history) →
  ∃ way,
    Policy.getVictim (policy_accesses (LRUPolicy ∅ ∅) history) set numWays
    = Some (policy_accesses (LRUPolicy ∅ ∅) history, way)
    ∧ (way < numWays)%nat
    ∧ (way ∉ ways_of set history →
       ∀ w, (w < way)%nat → w ∈ ways_of set history)
    ∧ (way ∈ ways_of set history →
       ∃ older newer,
         ways_of set history = older ++ way :: newer ∧ (way ∉ newer)
         ∧ ∀ w, (w < numWays)%nat → w ≠ way → w ∈ newer).
Proof.
  intros Hn Hrange.
  destruct (lru_state history) as (lists & pos & -> & Hstate).
  destruct (Hstate set) as [Hl _]. simpl. rewrite Hl.
  set (h := ways_of set history) in *.
  case_decide as Hnil.
  { exists 0%nat. rewrite Hnil. split; [done|]. split; [done|]. split.
    - intros _ w Hw. lia.
    - by intros ?%elem_of_nil. }
  set (l := recency (reverse h)).
  assert (∀ w, w ∈ l ↔ w ∈ h) as Hel.
  { intros w. unfold l. by rewrite recency_elem, elem_of_reverse. }
  assert (Forall (λ w, w < numWays)%nat l) as Hlt.
  { apply Forall_forall. intros w Hw%Hel. rewrite Forall_forall in Hrange. auto. }
  assert (l ≠ []) as Hlne.
  { destruct h as [|x h0] eqn:Hh; [done|]. intros Hl0.
    assert (x ∈ l) as Hx by (apply Hel; by left). rewrite Hl0 in Hx.
    by apply elem_of_nil in Hx. }
  assert ((∀ w, (w < numWays)%nat → w ∈ l) →
          ∃ way, last l = Some way
                 ∧ (way < numWays)%nat ∧ way ∈ h
                 ∧ ∃ older newer,
                     h = older ++ way :: newer ∧ (way ∉ newer)
                     ∧ ∀ w, (w < numWays)%nat → w ≠ way → w ∈ newer) as Hlast.
  { intros Hall. destruct (last l) as [v|] eqn:Hv; [|by apply last_None in Hv].
    exists v. split; [done|].
    pose proof Hv as (l1 & Hl1)%last_Some.
    assert (v ∈ l) as Hvl by (rewrite Hl1; apply elem_of_app; right; by left).
    rewrite Forall_forall in Hlt. split; [by apply Hlt|]. split; [by apply Hel|].
    destruct (recency_order (reverse h) l1 v [] Hl1) as (newer & older & Hr & Hnot & Hsame).
    exists (reverse older), (reverse newer). split; [|split].
    - rewrite <- (reverse_involutive h), Hr, reverse_app, reverse_cons.
      by rewrite <- app_assoc.
    - by rewrite elem_of_reverse.
    - intros w Hw Hne. rewrite elem_of_reverse. apply Hsame.
      specialize (Hall w Hw). rewrite Hl1 in Hall.
      apply elem_of_app in Hall as [?|Hw1]; [done|].
      by apply list_elem_of_singleton in Hw1. }
  destruct (decide (length l < numWays)%nat) as [Hshort|Hfull].
  - destruct (first_way _ numWays) as [way|] eqn:Hfirst.
    + apply first_way_least in Hfirst as (Hway & Hunused & Hleast).
      apply bool_decide_eq_true in Hunused.
      exists way. split; [done|]. split; [done|]. split.
      * intros _ w Hw. apply Hel. specialize (Hleast w Hw).
        apply bool_decide_eq_false in Hleast. by apply dec_stable.
      * intros Hin. exfalso. by apply Hunused, Hel.
    + destruct Hlast as (way & -> & Hway & Hin & Hsplit).
      { intros w Hw. pose proof (first_way_None _ _ Hfirst w Hw) as Hf.
        apply bool_decide_eq_false in Hf. by apply dec_stable. }
      exists way. simpl. split; [done|]. split; [done|]. split; [done|]. done.
  - destruct Hlast as (way & -> & Hway & Hin & Hsplit).
    { apply all_ways_listed; [apply recency_NoDup|done|lia]. }
    exists way. simpl. split; [done|]. split; [done|]. split; [done|]. done.
Qed.

Lemma lru_victim_is_least_recently_used_witness :
  Policy.getVictim
    (policy_accesses (LRUPolicy ∅ ∅)
                     [(0, 0); (0, 1); (5, 0); (0, 2); (0, 1); (0, 0)]%nat) 0 3
  = Some (policy_accesses (LRUPolicy ∅ ∅)
                          [(0, 0); (0, 1); (5, 0); (0, 2); (0, 1); (0, 0)]%nat, 2%nat).
Proof.
  destruct (lru_victim_is_least_recently_used
              [(0, 0); (0, 1); (5, 0); (0, 2); (0, 1); (0, 0)]%nat 0 3)
    as (way & Hv & _).
  - lia.
  - repeat constructor.
  - assert (way = 2%nat) as ->; [|exact Hv].
    vm_compute in Hv. by injection Hv as <-.
Defined.

(** ** The two-level hierarchy, call by call *)

Section level_steps.

Lemma wrap64_idem (x : Z) : wrap64 (wrap64 x) = wrap64 x.
Proof. unfold wrap64. by rewrite Z.mod_mod. Qed.

Lemma wrap64_eq_add (x y n : Z) : wrap64 x = wrap64 y → wrap64 (x + n) = wrap64 (y + n).
Proof. intros H. by rewrite <- (wrap64_add_l x), H, wrap64_add_l. Qed.

Lemma level_step_refl (c : Cache.t) : level_step c c 0 0.
Proof.
  split; [done|]. split; [apply same_reset_refl|]. by rewrite !Z.add_0_r.
Qed.

Lemma level_step_trans (c1 c2 c3 : Cache.t) (dh dm dh' dm' : Z) :
  level_step c1 c2 dh dm → level_step c2 c3 dh' dm' →
  level_step c1 c3 (dh + dh') (dm + dm').
Proof.
  intros (Hc & Hs & Hh & Hm & Hhr & Hmr) (Hc' & Hs' & Hh' & Hm' & Hhr' & Hmr').
  split; [congruence|]. split; [by eapply same_reset_trans|].
  split; [|split; [|auto]].
  - rewrite Hh', Z.add_assoc. by apply wrap64_eq_add.
  - rewrite Hm', Z.add_assoc. by apply wrap64_eq_add.
Qed.

Lemma access_level_step (c : Cache.t) (a : Z) (t : AccessType)
      (c' : Cache.t) (r : CacheResult) :
  Cache.access c a t = Some (c', r) →
  level_step c c' (if hit r then 1 else 0) (if hit r then 0 else 1).
Proof.
  intros Hacc. destruct (access_counters c a t c' r Hacc) as (Hcfg & Hcount & _).
  split; [done|]. split; [by eapply same_reset_access|].
  destruct (hit r); destruct Hcount as [-> ->]; rewrite ?Z.add_0_r, ?wrap64_idem;
    split_and!; try done; intros _; apply wrap64_range.
Qed.

Lemma invalidateEntry_level_step (c : Cache.t) (a : Z) (c' : Cache.t) :
  Cache.invalidateEntry c a = Some c' → level_step c c' 0 0.
Proof.
  intros Hinv. split; [|split; [by eapply same_reset_invalidateEntry|]].
  all: unfold Cache.invalidateEntry in Hinv;
    apply bind_Some in Hinv as ([set tag] & Hst & H);
    apply bind_Some in H as (wayOpt & Hfind & H);
    destruct wayOpt as [way|]; injection H as <-; simpl; by rewrite ?Z.add_0_r.
Qed.

Lemma forceEntry_level_step (c : Cache.t) (a : Z) (e : CacheEntry) (t : AccessType)
      (c' : Cache.t) (r : CacheResult) :
  Cache.forceEntry c a e t = Some (c', r) → level_step c c' 0 0.
Proof.
  intros Hforce.
  assert (Cache.config_ c' = Cache.config_ c ∧ Cache.hits_ c' = Cache.hits_ c
          ∧ Cache.misses_ c' = Cache.misses_ c) as (Hc & Hh & Hm).
  { unfold Cache.forceEntry in Hforce.
    apply bind_Some in Hforce as ([set tag] & Hst & H).
    apply bind_Some in H as (wayOpt & Hfind & H).
    apply bind_Some in H as ([[[[c1 way] ea] ee] wb] & Hsel & H).
    injection H as <- _. simpl.
    destruct wayOpt as [way'|].
    - by injection Hsel as <- _ _ _ _.
    - apply bind_Some in Hsel as (row & Hrow & Hsel).
      apply bind_Some in Hsel as ([p' way'] & Hvictim & Hsel).
      apply bind_Some in Hsel as (victim & Hventry & Hsel).
      destruct (_ && _) in Hsel.
      + apply bind_Some in Hsel as (v & _ & Hsel). by injection Hsel as <- _ _ _ _.
      + by injection Hsel as <- _ _ _ _. }
  split; [done|]. split; [by eapply same_reset_forceEntry|].
  rewrite Hh, Hm, !Z.add_0_r. done.
Qed.

End level_steps.

(** ** The entry of the accessed address *)

Section level_dirty.

Context (c : Cache.t) (B S : Z) (numWays : nat).
Hypothesis Hinv : cache_inv c B S numWays.

(** [Cache::access]: the entry of the accessed address before and after,
    and when the result asks for a write-back. *)
Lemma access_entries (a : Z) (type : AccessType) :
  0 ≤ a < UINT64_MODULUS →
  match Cache.access c a type with
  | Some (c', result) =>
      (hit result = true →
       ∃ e, Cache.getEntry c a = Some (Some e)
            ∧ Cache.getEntry c' a
              = Some (Some (if bool_decide (type = Write) && writeBack (Cache.config_ c)
                            then setDirty e true else e)))
      ∧ (hit result = false → allocates (Cache.config_ c) type = true →
         Cache.getEntry c' a
         = Some (Some {| valid_ := true;
                         dirty_ := bool_decide (type = Write)
                                   && writeBack (Cache.config_ c);
                         tag_ := a / 2 ^ B / 2 ^ S |}))
      ∧ (∀ v, evictedAddress result = Some v →
              ∃ e, Cache.getEntry c v = Some (Some e)
                   ∧ writeBackTriggered result
                     = writeBack (Cache.config_ c) && dirty_ e)
      ∧ (evictedAddress result = None → writeBackTriggered result = false)
  | None => False
  end.
Proof.
  intros Ha.
  pose proof (access_spec c B S numWays Hinv a type Ha) as Hspec.
  destruct (inv_bits _ _ _ _ Hinv) as (HB & HS & HBS).
  destruct (inv_pow_pos _ _ _ _ Hinv) as (HpB & HpS & HpT).
  revert Hspec. unfold Cache.access.
  rewrite (getSetAndTag_spec _ _ _ _ Hinv) by done.
  simpl. unfold Cache.findEntry.
  destruct (decode_row _ _ _ _ Hinv (a / 2 ^ B)) as (row & Hrow & Hlen).
  rewrite Hrow. simpl.
  pose proof (Z.mod_pos_bound (a / 2 ^ B) (2 ^ S) HpS) as Hset.
  destruct (Cache.find_way row (a / 2 ^ B / 2 ^ S)) as [way|] eqn:Hfind.
  - (* hit *)
    apply find_way_Some in Hfind as (entry & Hentry & Hvalid & Htag & _).
    pose proof (lookup_lt_Some _ _ _ Hentry) as Hway.
    assert (Cache.getEntry c a = Some (Some entry)) as Hbefore.
    { by apply (getEntry_unique_at c B S numWays a row way entry). }
    destruct (bool_decide (type = Write) && writeBack (Cache.config_ c)) eqn:Hwb.
    + rewrite Hentry. simpl. intros (Hinv' & _).
      split; [|by split].
      intros _. exists entry. split; [done|].
      eapply (getEntry_unique_at _ B S numWays a (<[way := setDirty entry true]> row) way);
        try done.
      * rewrite write_entry_lookup, decide_True by done. simpl. by rewrite Hrow.
      * by apply list_lookup_insert_eq.
    + simpl. intros (Hinv' & _).
      split; [|by split].
      intros _. exists entry. split; [done|].
      by apply (getEntry_unique_at _ B S numWays a row way entry).
  - (* miss *)
    destruct (bool_decide (type = Read)
              || bool_decide (type = Write) && writeAllocate (Cache.config_ c)) eqn:Halloc.
    + unfold Cache.allocateEntry. simpl. rewrite Hrow. simpl.
      destruct (getVictim_in_range (Cache.policy_ c)
                  (Z.to_nat ((a / 2 ^ B) mod 2 ^ S)) (length row))
        as (p' & way & Hvictim & Hway & Hpol'); [rewrite Hlen; apply Hinv
                                                 |rewrite Hlen; apply Hinv|].
      rewrite Hvictim. simpl.
      destruct (lookup_lt_is_Some_2 row way Hway) as [victim Hventry].
      rewrite Hventry. simpl.
      set (newE := {| valid_ := true; dirty_ := _; tag_ := _ |}).
      set (c2 := Cache.write_entry _ _ _ _).
      assert (Cache.cacheEntries_ c2 !! Z.to_nat ((a / 2 ^ B) mod 2 ^ S)
              = Some (<[way := newE]> row)) as Hrow2.
      { unfold c2. rewrite write_entry_lookup, decide_True by done. simpl.
        by rewrite Hrow. }
      assert (∀ c3, cache_inv c3 B S numWays →
                    Cache.cacheEntries_ c3 = Cache.cacheEntries_ c2 →
                    Cache.getEntry c3 a = Some (Some newE)) as Hafter.
      { intros c3 Hinv3 Hes.
        eapply (getEntry_unique_at _ B S numWays a (<[way := newE]> row) way);
          try done.
        - by rewrite Hes.
        - by apply list_lookup_insert_eq. }
      destruct (valid_ victim) eqn:Hvv.
      * destruct (reconstructAddress_spec _ _ _ _ Hinv
                    (Z.to_nat ((a / 2 ^ B) mod 2 ^ S)) (tag_ victim))
          as (v & Hv & Hrange & Hblock).
        { rewrite Z2Nat.id by lia. lia. }
        { by eapply (inv_tags _ _ _ _ Hinv). }
        rewrite Z2Nat.id in Hblock by lia.
        unfold Cache.reconstructAddress in *. simpl in *. rewrite Hv. simpl.
        fold newE. fold c2. rewrite Hrow2. simpl.
        intros (Hinv' & _).
        split; [done|]. split; [intros _ _; by apply Hafter|]. split; [|done].
        intros ? [= <-]. exists victim. split; [|done].
        pose proof (inv_tags _ _ _ _ Hinv _ _ _ _ Hrow Hventry Hvv) as Htagv.
        assert ((v / 2 ^ B) mod 2 ^ S = (a / 2 ^ B) mod 2 ^ S) as Hsetv.
        { rewrite Hblock, Z.add_comm, Z.mod_add by lia. apply Z.mod_small. lia. }
        assert (v / 2 ^ B / 2 ^ S = tag_ victim) as Htv.
        { rewrite Hblock, Z.add_comm, Z.div_add by lia.
          rewrite Z.div_small by lia. lia. }
        apply (getEntry_unique_at c B S numWays v row way victim); try done.
        by rewrite Hsetv.
      * simpl in *. fold newE. fold c2. rewrite Hrow2. simpl.
        intros (Hinv' & _).
        split; [done|]. split; [intros _ _; by apply Hafter|]. by split.
    + simpl. intros _. split; [done|]. split; [|by split].
      intros _ Hal. unfold allocates in Hal. destruct type; simpl in *; [done|].
      by rewrite Hal in Halloc.
Qed.

End level_dirty.
(** ** One call of the two-level hierarchy, phase by phase *)

Section two_level.

Context (B1 S1 B2 S2 : Z) (ways1 ways2 : nat).

Local Arguments Cache.access : simpl never.
Local Arguments Cache.forceEntry : simpl never.
Local Arguments Cache.invalidateEntry : simpl never.
Local Arguments Cache.getEntry : simpl never.
Local Arguments Cache.getSetAndTag : simpl never.
Local Arguments Cache.contains : simpl never.

(** All that the hierarchy needs to know about one [Cache::access]. *)
Lemma access_summary (c : Cache.t) (B S : Z) (numWays : nat) (a : Z) (t : AccessType) :
  cache_inv c B S numWays → uint64 a →
  ∃ c' r,
    Cache.access c a t = Some (c', r)
    ∧ cache_inv c' B S numWays
    ∧ level_step c c' (if hit r then 1 else 0) (if hit r then 0 else 1)
    ∧ Cache.contains c a = Some (hit r)
    ∧ Cache.contains c' a = Some (hit r || allocates (Cache.config_ c) t)
    ∧ wrap64 (latency r) = wrap64 (accessLatency (Cache.config_ c))
    ∧ (∀ v, evictedAddress r = Some v → uint64 v)
    ∧ (∀ v, evictedAddress r = Some v → v ≠ a)
    ∧ (hit r = true ∨ allocates (Cache.config_ c) t = false →
       evictedAddress r = None).
Proof.
  intros Hinv Ha.
  pose proof (access_spec c B S numWays Hinv a t Ha) as Hspec.
  pose proof (access_contents c B S numWays Hinv a t Ha) as Hcont.
  destruct (Cache.access c a t) as [[c' r]|] eqn:Hacc; [|done].
  destruct Hspec as (Hinv' & Hcfg' & _ & Hhit & Hmiss & Hnoalloc & Hev).
  destruct Hcont as (Hinst & _ & _).
  destruct (access_counters c a t c' r Hacc) as (_ & _ & Hlat).
  exists c', r. split; [done|]. split; [done|].
  split; [by apply (access_level_step c a t)|]. split; [|split; [|split; [done|]]].
  - destruct (hit r) eqn:Hh.
    + apply (contains_true c B S numWays); try done.
      destruct (Hhit eq_refl) as (_ & Hres' & Hsub). by apply Hsub.
    + apply (contains_false c B S numWays); try done. by apply Hmiss.
  - unfold allocates. destruct (hit r) eqn:Hh; simpl.
    + apply (contains_true c' B S numWays); try done. by apply Hhit.
    + destruct t; simpl.
      * apply (contains_true c' B S numWays); try done. apply Hinst; auto.
      * destruct (writeAllocate (Cache.config_ c)) eqn:Hwa.
        -- apply (contains_true c' B S numWays); try done. apply Hinst; auto.
        -- apply (contains_false c' B S numWays); try done.
           intros Hres. destruct (Hnoalloc eq_refl eq_refl eq_refl) as [_ Hsub].
           by apply Hmiss, Hsub.
  - split; [|split].
    + intros v Hv. by destruct (Hev v Hv).
    + intros v Hv ->. by destruct (Hev a Hv) as (_ & _ & Hne).
    + intros [Hh|Hno].
      * by destruct (Hhit Hh).
      * unfold allocates in Hno. apply orb_false_iff in Hno as [Hread Hwa].
        destruct (hit r) eqn:Hh; [by destruct (Hhit eq_refl)|].
        destruct t; [done|]. by destruct (Hnoalloc eq_refl eq_refl Hwa).
Qed.

(** An address that is contained is overwritten in place: nothing is
    evicted. *)
Lemma forceEntry_contained (c : Cache.t) (a : Z) (e : CacheEntry) (t : AccessType)
      (c' : Cache.t) (r : CacheResult) :
  Cache.contains c a = Some true → Cache.forceEntry c a e t = Some (c', r) →
  evictedAddress r = None.
Proof.
  unfold Cache.contains, Cache.forceEntry.
  destruct (Cache.getSetAndTag c a) as [[set tag]|]; simpl; [|done].
  destruct (Cache.findEntry c set tag) as [[way|]|]; simpl; try done.
  by intros _ [= _ <-].
Qed.

Lemma invalidateEntry_summary (c : Cache.t) (B S : Z) (numWays : nat) (a : Z) :
  cache_inv c B S numWays → uint64 a →
  ∃ c', Cache.invalidateEntry c a = Some c'
        ∧ cache_inv c' B S numWays ∧ level_step c c' 0 0.
Proof.
  intros Hinv Ha.
  pose proof (invalidateEntry_spec c B S numWays Hinv a Ha) as Hspec.
  destruct (Cache.invalidateEntry c a) as [c'|] eqn:Hcall; [|done].
  exists c'. split; [done|]. split; [apply Hspec|].
  by eapply invalidateEntry_level_step.
Qed.

Lemma forceEntry_summary (c : Cache.t) (B S : Z) (numWays : nat) (a : Z)
      (e : CacheEntry) (t : AccessType) :
  cache_inv c B S numWays → uint64 a →
  ∃ c' r, Cache.forceEntry c a e t = Some (c', r)
          ∧ cache_inv c' B S numWays ∧ level_step c c' 0 0
          ∧ (∀ v, evictedAddress r = Some v → uint64 v)
          ∧ Cache.contains c' a = Some true
          ∧ (Cache.contains c a = Some true → evictedAddress r = None).
Proof.
  intros Hinv Ha.
  pose proof (forceEntry_spec c B S numWays Hinv a e t Ha) as Hspec.
  pose proof (forceEntry_contents c B S numWays Hinv a e t Ha) as Hcont.
  destruct (Cache.forceEntry c a e t) as [[c' r]|] eqn:Hcall; [|done].
  destruct Hspec as (Hinv' & _ & _ & Hev).
  destruct Hcont as (Hres & _).
  exists c', r. split; [done|]. split; [done|].
  split; [by eapply forceEntry_level_step|].
  split; [intros v Hv; by destruct (Hev v Hv)|].
  split; [by apply (contains_true c' B S numWays)|].
  intros Hin. by eapply forceEntry_contained.
Qed.

(** [capture_eviction] returns, leaves the levels alone and keeps the
    tracker in range. *)
Lemma capture_eviction_summary (caches : list Cache.t) (tr : EvictionTracker)
      (l1 : Cache.t) (result : CacheResult) :
  cache_inv l1 B1 S1 ways1 →
  (∀ v, evictedAddress result = Some v → uint64 v) →
  tracker_in_range tr →
  ∃ tr', CacheHierarchy.capture_eviction
           {| CacheHierarchy.caches_ := caches;
              CacheHierarchy.evictionTracker_ := tr |} l1 result
         = Some {| CacheHierarchy.caches_ := caches;
                   CacheHierarchy.evictionTracker_ := tr' |}
         ∧ tracker_in_range tr'
         ∧ (evictedAddress result = None → tr' = tr)
         ∧ (∀ v, evictedAddress result = Some v →
                 hasEviction tr' = true ∧ trackedAddress tr' = v).
Proof.
  intros Hinv Hrange Htr. unfold CacheHierarchy.capture_eviction.
  destruct (evictedAddress result) as [v|]; [|by exists tr].
  specialize (Hrange v eq_refl).
  destruct (evictedEntry result) as [e|]; simpl.
  - eexists. split; [done|]. split; [by intros _|]. split; [done|].
    by intros ? [= <-].
  - rewrite (getSetAndTag_spec _ _ _ _ Hinv) by done. simpl.
    eexists. split; [done|]. split; [by intros _|]. split; [done|].
    by intros ? [= <-].
Qed.

(** The search of L2 after an L1 miss. *)
Lemma search_lower_summary (l1 l2 : Cache.t) (tr : EvictionTracker)
      (a : Z) (t : AccessType) (lat : Z) :
  cache_inv l1 B1 S1 ways1 → cache_inv l2 B2 S2 ways2 → uint64 a →
  tracker_in_range tr →
  ∃ l1' l2' tr' lat' hitInCache,
    CacheHierarchy.search_lower
      {| CacheHierarchy.caches_ := [l1; l2];
         CacheHierarchy.evictionTracker_ := tr |} a t lat 1 1
    = Some ({| CacheHierarchy.caches_ := [l1'; l2'];
               CacheHierarchy.evictionTracker_ := tr' |}, lat', hitInCache)
    ∧ cache_inv l1' B1 S1 ways1 ∧ cache_inv l2' B2 S2 ways2
    ∧ level_step l1 l1' 0 0
    ∧ level_step l2 l2' (if hitInCache then 1 else 0) (if hitInCache then 0 else 1)
    ∧ Cache.contains l2 a = Some hitInCache
    ∧ lat' = wrap64 (lat + accessLatency (Cache.config_ l2))
    ∧ tracker_in_range tr'
    ∧ (hitInCache = false →
       Cache.contains l2' a = Some (allocates (Cache.config_ l2) t))
    ∧ (inclusionPolicy (Cache.config_ l2) ≠ Exclusive → l1' = l1)
    ∧ (Cache.contains l1 a = Some true → tr' = tr)
    ∧ (inclusionPolicy (Cache.config_ l2) ≠ Exclusive →
       Cache.contains l2' a = Some (hitInCache || allocates (Cache.config_ l2) t))
    ∧ (inclusionPolicy (Cache.config_ l2) = Exclusive → hitInCache = true →
       ∃ e2, Cache.getEntry l2 a = Some (Some e2)
             ∧ Cache.getEntry l1' a
               = Some (Some {| valid_ := true;
                               dirty_ := (dirty_ e2
                                          || (bool_decide (t = Write)
                                              && writeBack (Cache.config_ l2)))
                                         || (bool_decide (t = Write)
                                             && writeBack (Cache.config_ l1));
                               tag_ := a / 2 ^ B1 / 2 ^ S1 |})).
Proof.
  intros Hinv1 Hinv2 Ha Htr. simpl.
  pose proof (access_entries l2 B2 S2 ways2 Hinv2 a t Ha) as Hentries.
  pose proof (forceEntry_contents l1 B1 S1 ways1 Hinv1 a) as Hforced.
  destruct (access_summary l2 B2 S2 ways2 a t Hinv2 Ha)
    as (l2' & r2 & Hacc2 & Hinv2' & Hstep2 & Hin2 & Hin2' & Hlat2 & Hev2 & _).
  rewrite Hacc2 in Hentries |- *. destruct Hentries as (Hhitentry & _).
  pose proof Hstep2 as (Hcfg2 & _).
  simpl.
  assert (wrap64 (lat + latency r2)
          = wrap64 (lat + accessLatency (Cache.config_ l2))) as Hlat.
  { rewrite (Z.add_comm lat), (Z.add_comm lat). by apply wrap64_eq_add. }
  destruct (hit r2) eqn:Hhit.
  - destruct (decide (inclusionPolicy (Cache.config_ l2') = Exclusive)) as [Hexcl|Hnot].
    + pose proof (getEntry_spec _ _ _ _ Hinv2' a Ha) as Hspec.
      destruct (Cache.getEntry l2' a) as [[entry|]|] eqn:Hget; [|simpl|done].
      * simpl.
        destruct (invalidateEntry_summary l2' B2 S2 ways2 a Hinv2' Ha)
          as (l2'' & -> & Hinv2'' & Hstep2'). simpl.
        specialize (Hforced entry t Ha).
        destruct (forceEntry_summary l1 B1 S1 ways1 a entry t Hinv1 Ha)
          as (l1' & rf & Hforce & Hinv1' & Hstep1 & Hevf & _ & Hnoev).
        rewrite Hforce in Hforced |- *. destruct Hforced as (_ & Hinstalled & _).
        simpl.
        destruct (capture_eviction_summary [l1'; l2''] tr l1' rf Hinv1' Hevf Htr)
          as (tr' & Hcap & Htr' & Hsame & _).
        unfold CacheHierarchy.set_level. simpl. rewrite Hcap. simpl.
        exists l1', l2'', tr'. eexists _, _. split; [done|].
        split; [done|]. split; [done|]. split; [done|]. split.
        { exact (level_step_trans l2 l2' l2'' 1 0 0 0 Hstep2 Hstep2'). }
        split; [done|]. split; [done|]. split; [done|]. split; [done|].
        split; [by rewrite <- Hcfg2|]. split; [|split; [by rewrite <- Hcfg2|]].
        { intros Hin1. by apply Hsame, Hnoev. }
        intros _ _. destruct (Hhitentry eq_refl) as (e2 & He2 & He2').
        exists e2. split; [done|]. rewrite Hinstalled.
        injection He2' as ->.
        destruct (bool_decide (t = Write) && writeBack (Cache.config_ l2)); simpl;
          by rewrite ?orb_true_r, ?orb_false_r.
      * by destruct (Hhitentry eq_refl) as (e2 & _ & He2').
    + exists l1, l2', tr. eexists _, _. split; [done|].
      split; [done|]. split; [done|]. split; [apply level_step_refl|].
      split; [done|]. split; [done|]. split; [done|]. split; [done|].
      split; [done|]. split; [done|]. split; [done|].
      split; [intros _; by rewrite Hin2'|]. intros Hpol. by rewrite <- Hcfg2 in Hpol.
  - simpl. exists l1, l2', tr. eexists _, _. split; [done|].
    split; [done|]. split; [done|]. split; [apply level_step_refl|].
    split; [done|]. split; [done|]. split; [done|]. split; [done|].
    split; [intros _; by rewrite Hin2'|]. split; [done|]. split; [done|].
    split; [intros _; by rewrite Hin2'|]. done.
Qed.

Local Arguments CacheHierarchy.search_lower : simpl never.

(** The block under "miss in all cache levels". *)
Lemma allocate_after_miss_summary (l1 l2 l1Cache : Cache.t) (tr : EvictionTracker)
      (a : Z) (t : AccessType) (hitInCache : bool) (lat : Z) :
  cache_inv l1 B1 S1 ways1 → cache_inv l2 B2 S2 ways2 → uint64 a →
  Cache.config_ l1Cache = Cache.config_ l1 →
  (hitInCache = false →
   Cache.contains l2 a = Some (allocates (Cache.config_ l2) t)) →
  let second := negb hitInCache
                && second_l2_access (Cache.config_ l1) (Cache.config_ l2) t in
  ∃ l2' lat',
    CacheHierarchy.allocate_after_miss
      {| CacheHierarchy.caches_ := [l1; l2];
         CacheHierarchy.evictionTracker_ := tr |}
      a t l1Cache
      (bool_decide (inclusionPolicy (Cache.config_ l2) = Exclusive))
      hitInCache lat
    = Some ({| CacheHierarchy.caches_ := [l1; l2'];
               CacheHierarchy.evictionTracker_ := tr |}, lat')
    ∧ cache_inv l2' B2 S2 ways2
    ∧ level_step l2 l2'
        (if second && allocates (Cache.config_ l2) t then 1 else 0)
        (if second && negb (allocates (Cache.config_ l2) t) then 1 else 0)
    ∧ lat' = (if second then wrap64 (lat + accessLatency (Cache.config_ l2))
              else lat)
    ∧ (inclusionPolicy (Cache.config_ l2) ≠ Exclusive →
       Cache.contains l2' a = Cache.contains l2 a).
Proof.
  intros Hinv1 Hinv2 Ha Hcfg Hin2 second. unfold CacheHierarchy.allocate_after_miss.
  rewrite Hcfg.
  assert (∀ lat0 : Z, ∃ l2' (lat' : Z),
            Some ({| CacheHierarchy.caches_ := [l1; l2];
                     CacheHierarchy.evictionTracker_ := tr |}, lat0)
            = Some ({| CacheHierarchy.caches_ := [l1; l2'];
                       CacheHierarchy.evictionTracker_ := tr |}, lat')
            ∧ cache_inv l2' B2 S2 ways2
            ∧ level_step l2 l2' 0 0
            ∧ lat' = lat0
            ∧ (inclusionPolicy (Cache.config_ l2) ≠ Exclusive →
               Cache.contains l2' a = Cache.contains l2 a)) as Hnothing.
  { intros lat0. exists l2, lat0. split; [done|]. split; [done|].
    split; [apply level_step_refl|]. done. }
  unfold second, second_l2_access.
  destruct hitInCache; simpl; [apply Hnothing|].
  replace (bool_decide (t = Read)
           || bool_decide (t = Write) && writeAllocate (Cache.config_ l1))
    with (bool_decide (t = Read) || writeAllocate (Cache.config_ l1))
    by (by destruct t).
  destruct (bool_decide (t = Read) || writeAllocate (Cache.config_ l1)) eqn:Halloc;
    simpl; rewrite ?andb_false_r; simpl; [|apply Hnothing].
  destruct (inclusionPolicy (Cache.config_ l2)) eqn:Hpol; simpl.
  - (* Inclusive: the second access to L2 *)
    destruct (access_summary l2 B2 S2 ways2 a t Hinv2 Ha)
      as (l2' & r3 & -> & Hinv2' & Hstep2 & Hin & Hin' & Hlat3 & Hev3 & _ & Hnoev3).
    pose proof Hin as Hbefore.
    simpl. rewrite (Hin2 eq_refl) in Hin. injection Hin as Hhit3.
    assert (wrap64 (lat + latency r3)
            = wrap64 (lat + accessLatency (Cache.config_ l2))) as Hlat.
    { rewrite (Z.add_comm lat), (Z.add_comm lat). by apply wrap64_eq_add. }
    assert (level_step l2 l2'
              (if allocates (Cache.config_ l2) t then 1 else 0)
              (if negb (allocates (Cache.config_ l2) t) then 1 else 0)) as Hstep2'.
    { rewrite Hhit3. by destruct (hit r3). }
    (* the second access hits, or misses without allocating: it evicts
       nothing, and [backinvalidate] is not reached *)
    rewrite Hnoev3.
    2:{ rewrite <- Hhit3. destruct (hit r3); auto. }
    simpl. exists l2'. eexists. split; [done|]. split; [done|].
    split; [done|]. split; [done|]. intros _.
    rewrite Hin', Hbefore, Hhit3. by destruct (hit r3).
  - (* Exclusive: the block is removed from L2 *)
    destruct (invalidateEntry_summary l2 B2 S2 ways2 a Hinv2 Ha)
      as (l2' & -> & Hinv2' & Hstep2). simpl.
    exists l2', lat. split; [done|]. split; [done|]. split; [done|]. split; [done|].
    done.
  - (* NINE: nothing is allocated *)
    apply Hnothing.
Qed.

(** The victim caching at the end of the call. *)
Lemma process_l1_eviction_summary (l1 l2 : Cache.t) (tr : EvictionTracker)
      (a : Z) (exclusiveL2 : bool) :
  cache_inv l2 B2 S2 ways2 → tracker_in_range tr →
  ∃ l2',
    CacheHierarchy.process_l1_eviction
      {| CacheHierarchy.caches_ := [l1; l2];
         CacheHierarchy.evictionTracker_ := tr |} a exclusiveL2
    = Some {| CacheHierarchy.caches_ := [l1; l2'];
              CacheHierarchy.evictionTracker_ := tr |}
    ∧ cache_inv l2' B2 S2 ways2 ∧ level_step l2 l2' 0 0
    ∧ (exclusiveL2 = true → hasEviction tr = true → trackedAddress tr ≠ a →
       Cache.contains l2' (trackedAddress tr) = Some true)
    ∧ (exclusiveL2 = false → l2' = l2).
Proof.
  intros Hinv2 Htr. unfold CacheHierarchy.process_l1_eviction. simpl.
  destruct (exclusiveL2 && hasEviction tr) eqn:Hcase; simpl.
  2:{ exists l2. split; [done|]. split; [done|]. split; [apply level_step_refl|].
      split; [|done]. intros -> Hhas. by rewrite Hhas in Hcase. }
  apply andb_true_iff in Hcase as [Hex Hhas].
  destruct (decide (trackedAddress tr ≠ a)); simpl.
  2:{ exists l2. split; [done|]. split; [done|]. split; [apply level_step_refl|].
      done. }
  destruct (forceEntry_summary l2 B2 S2 ways2 (trackedAddress tr) (trackedEntry tr)
              Write Hinv2 (Htr Hhas)) as (l2' & rf & -> & Hinv2' & Hstep2 & _ & Hin & _).
  simpl. exists l2'. split; [done|]. split; [done|]. split; [done|].
  split; [done|]. intros Hno. by rewrite Hno in Hex.
Qed.

Lemma level_step_eq (c c' : Cache.t) (dh dm dh' dm' : Z) :
  level_step c c' dh dm → dh = dh' → dm = dm' → level_step c c' dh' dm'.
Proof. by intros H <- <-. Qed.

(** One call of [CacheHierarchy::access] on a two-level hierarchy: it
    returns; the hit flag says whether one of the levels held the address;
    the latency and the counters of both levels advance as
    [hierarchy_latency], [l2_hits_step] and [l2_misses_step] say. *)
Lemma two_level_access_summary (l1 l2 : Cache.t) (tr : EvictionTracker)
      (a : Z) (t : AccessType) :
  cache_inv l1 B1 S1 ways1 → cache_inv l2 B2 S2 ways2 → uint64 a →
  ∃ l1' l2' tr' inL1 inL2 l1a r1,
    Cache.contains l1 a = Some inL1 ∧ Cache.contains l2 a = Some inL2
    ∧ CacheHierarchy.access
        {| CacheHierarchy.caches_ := [l1; l2];
           CacheHierarchy.evictionTracker_ := tr |} a t
      = Some ({| CacheHierarchy.caches_ := [l1'; l2'];
                 CacheHierarchy.evictionTracker_ := tr' |},
              (hierarchy_latency (Cache.config_ l1) (Cache.config_ l2) t inL1 inL2,
               inL1 || inL2))
    ∧ cache_inv l1' B1 S1 ways1 ∧ cache_inv l2' B2 S2 ways2
    ∧ level_step l1 l1' (if inL1 then 1 else 0) (if inL1 then 0 else 1)
    ∧ level_step l2 l2'
        (l2_hits_step (Cache.config_ l1) (Cache.config_ l2) t inL1 inL2)
        (l2_misses_step (Cache.config_ l1) (Cache.config_ l2) t inL1 inL2)
    ∧ Cache.access l1 a t = Some (l1a, r1)
    ∧ (inclusionPolicy (Cache.config_ l2) ≠ Exclusive → l1' = l1a)
    ∧ (inclusionPolicy (Cache.config_ l2) = Exclusive →
       ∀ v, evictedAddress r1 = Some v → Cache.contains l2' v = Some true)
    ∧ (inclusionPolicy (Cache.config_ l2) ≠ Exclusive →
       Cache.contains l1' a = Some (inL1 || allocates (Cache.config_ l1) t)
       ∧ Cache.contains l2' a
         = Some (if inL1 then inL2 else inL2 || allocates (Cache.config_ l2) t))
    ∧ (inclusionPolicy (Cache.config_ l2) = Exclusive → inL1 = false → inL2 = true →
       ∃ e2, Cache.getEntry l2 a = Some (Some e2)
             ∧ Cache.getEntry l1' a
               = Some (Some {| valid_ := true;
                               dirty_ := (dirty_ e2
                                          || (bool_decide (t = Write)
                                              && writeBack (Cache.config_ l2)))
                                         || (bool_decide (t = Write)
                                             && writeBack (Cache.config_ l1));
                               tag_ := a / 2 ^ B1 / 2 ^ S1 |})).
Proof.
  intros Hinv1 Hinv2 Ha.
  unfold CacheHierarchy.access, CacheHierarchy.hasExclusiveL2. simpl.
  set (exclusiveL2 := bool_decide (inclusionPolicy (Cache.config_ l2) = Exclusive)).
  assert (∃ e, (if exclusiveL2 then Cache.getEntry l1 a else Some None) = Some e)
    as [e0 ->].
  { destruct exclusiveL2; [|by eexists].
    pose proof (getEntry_spec _ _ _ _ Hinv1 a Ha) as Hget.
    destruct (Cache.getEntry l1 a); [by eexists|done]. }
  simpl.
  destruct (access_summary l1 B1 S1 ways1 a t Hinv1 Ha)
    as (l1a & r1 & Hacc1 & Hinv1a & Hstep1 & Hin1 & Hin1a & Hlat1 & Hev1 & Hne1 & Hnoev1).
  rewrite Hacc1.
  simpl. unfold CacheHierarchy.set_level, CacheHierarchy.set_tracker. simpl.
  set (tr0 := {| hasEviction := false; trackedAddress := trackedAddress tr;
                 trackedEntry := trackedEntry tr |}).
  assert (tracker_in_range tr0) as Htr0 by done.
  assert (∃ tr1,
            (if exclusiveL2
             then CacheHierarchy.capture_eviction
                    {| CacheHierarchy.caches_ := [l1a; l2];
                       CacheHierarchy.evictionTracker_ := tr0 |} l1a r1
             else Some {| CacheHierarchy.caches_ := [l1a; l2];
                          CacheHierarchy.evictionTracker_ := tr0 |})
            = Some {| CacheHierarchy.caches_ := [l1a; l2];
                      CacheHierarchy.evictionTracker_ := tr1 |}
            ∧ tracker_in_range tr1
            ∧ (exclusiveL2 = true →
               ∀ v, evictedAddress r1 = Some v →
                    hasEviction tr1 = true ∧ trackedAddress tr1 = v))
    as (tr1 & -> & Htr1 & Hcaptured).
  { destruct exclusiveL2; [|by exists tr0].
    destruct (capture_eviction_summary [l1a; l2] tr0 l1a r1 Hinv1a Hev1 Htr0)
      as (tr1 & Hcap & Htr1 & _ & Hset).
    exists tr1. split; [done|]. split; [done|]. by intros _. }
  simpl.
  assert (wrap64 (0 + latency r1) = wrap64 (accessLatency (Cache.config_ l1)))
    as Hlat1' by (by rewrite Z.add_0_l).
  destruct (access_summary l2 B2 S2 ways2 a t Hinv2 Ha)
    as (l2x & r2x & _ & _ & _ & Hin2x & _).
  destruct (hit r1) eqn:Hhit1.
  - exists l1a, l2, tr1, true, (hit r2x), l1a, r1.
    split; [done|]. split; [done|]. split.
    { unfold hierarchy_latency. simpl. by rewrite Z.add_0_r, Hlat1'. }
    split; [done|]. split; [done|]. split; [done|]. split; [apply level_step_refl|].
    split; [done|]. split; [done|].
    split; [intros _ v Hv; rewrite Hnoev1 in Hv by auto; done|].
    split; [|done]. intros _. by rewrite Hin1a.
  - change (length [l1a; l2] - 1)%nat with 1%nat.
    destruct (search_lower_summary l1a l2 tr1 a t (wrap64 (0 + latency r1))
                Hinv1a Hinv2 Ha Htr1)
      as (l1b & l2b & tr2 & lat2 & inL2 & -> & Hinv1b & Hinv2b & Hstep1b & Hstep2b
          & Hin2 & Hlat2 & Htr2 & Hin2b & Hl1b & Htr2same & Hin2after & Hpromoted).
    simpl.
    pose proof Hstep1 as (Hcfg1a & _). pose proof Hstep1b as (Hcfg1b & _).
    pose proof Hstep2b as (Hcfg2b & _).
    assert (Cache.config_ l1a = Cache.config_ l1b) as Hcfg by done.
    rewrite <- Hcfg2b in Hin2b.
    destruct (allocate_after_miss_summary l1b l2b l1a tr2 a t inL2 lat2
                Hinv1b Hinv2b Ha Hcfg Hin2b)
      as (l2c & lat3 & Halloc & Hinv2c & Hstep2c & Hlat3 & Hin2c).
    rewrite Hcfg2b in Hin2c.
    rewrite Hcfg1b, Hcfg1a, Hcfg2b in Hstep2c, Hlat3.
    rewrite Hcfg2b in Halloc. fold exclusiveL2 in Halloc. rewrite Halloc. simpl.
    destruct (process_l1_eviction_summary l1b l2c tr2 a exclusiveL2 Hinv2c Htr2)
      as (l2d & -> & Hinv2d & Hstep2d & Hvictim & Hl2d).
    simpl. exists l1b, l2d, tr2, false, inL2, l1a, r1.
    split; [done|]. split; [done|]. split.
    { simpl. do 3 f_equal. rewrite Hlat3, Hlat2. unfold hierarchy_latency. simpl.
      rewrite Hlat1'.
      destruct (negb inL2 && second_l2_access (Cache.config_ l1) (Cache.config_ l2) t);
        rewrite (wrap64_add_l (accessLatency (Cache.config_ l1))), ?wrap64_add_l;
        f_equal; lia. }
    split; [done|]. split; [done|]. split.
    { apply (level_step_eq l1 l1b (0 + 0) (1 + 0)); [|done|done].
      by apply (level_step_trans l1 l1a l1b). }
    split.
    { unfold l2_hits_step, l2_misses_step.
      eapply level_step_eq.
      { eapply level_step_trans; [|exact Hstep2d].
        eapply level_step_trans; [exact Hstep2b|exact Hstep2c]. }
      + destruct inL2,
          (second_l2_access (Cache.config_ l1) (Cache.config_ l2) t),
          (allocates (Cache.config_ l2) t); reflexivity.
      + destruct inL2,
          (second_l2_access (Cache.config_ l1) (Cache.config_ l2) t),
          (allocates (Cache.config_ l2) t); reflexivity. }
    split; [done|]. split; [done|]. split.
    { intros Hexcl v Hv.
      assert (exclusiveL2 = true) as Hex by (by apply bool_decide_eq_true).
      destruct (Hcaptured Hex v Hv) as [Hhas Haddr].
      assert (Cache.contains l1a a = Some true) as Hallocated.
      { rewrite Hin1a. simpl. destruct (allocates (Cache.config_ l1) t) eqn:Hal; [done|].
        rewrite Hnoev1 in Hv by auto. done. }
      rewrite (Htr2same Hallocated) in Hvictim.
      rewrite <- Haddr. apply Hvictim; try done. rewrite Haddr. by apply Hne1. }
    split.
    { intros Hnot.
      assert (exclusiveL2 = false) as Hex by (by apply bool_decide_eq_false).
      rewrite (Hl1b Hnot), (Hl2d Hex), (Hin2c Hnot), (Hin2after Hnot). by rewrite Hin1a. }
    intros Hexcl _ ->. rewrite <- Hcfg1a. by apply Hpromoted.
Qed.

End two_level.

(** ** The statistics of a run *)



Section run.

Context (B1 S1 B2 S2 : Z) (ways1 ways2 : nat).

Local Arguments CacheHierarchy.access : simpl never.
Local Arguments wrap64 : simpl never.




End run.









Section average.

Local Open Scope Q_scope.





End average.
Section two_levels.

Local Open Scope Q_scope.


End two_levels.




(** ** Victims are ways of the set *)

Lemma policy_calls_in_range (calls : list PolicyCall) :
  ∀ (p : ReplacementPolicy) (numWays : nat),
    (0 < numWays)%nat → policy_inv p numWays →
    Forall (policy_call_in_range numWays) calls →
    ∃ p' victims,
      policy_calls p numWays calls = Some (p', victims)
      ∧ Forall (λ way, way < numWays)%nat victims
      ∧ length victims = victim_calls calls.
Proof.
  induction calls as [|[set way|set] calls IH]; intros p numWays Hn Hinv Hcalls.
  - by exists p, [].
  - apply Forall_cons in Hcalls as [Hway Hcalls]. simpl in Hway.
    destruct (IH (Policy.onAccess p set way) numWays Hn
                (onAccess_inv p set way numWays Hinv Hway) Hcalls)
      as (p' & victims & Hrun & Hrange & Hlen).
    by exists p', victims.
  - apply Forall_cons in Hcalls as [_ Hcalls].
    destruct (getVictim_in_range p set numWays Hinv Hn) as (p1 & way & Hv & Hway & Hinv1).
    destruct (IH p1 numWays Hn Hinv1 Hcalls) as (p' & victims & Hrun & Hrange & Hlen).
    exists p', (way :: victims). simpl. rewrite Hv. simpl. rewrite Hrun. simpl.
    split; [done|]. split; [by constructor|]. by rewrite Hlen.
Qed.

(** X16: whatever policy [createPolicy] makes for a name, and in whatever
    order [onAccess] and [getVictim] are called on it, with a fixed positive
    [numWays] and [onAccess] told only ways below [numWays]: every
    [getVictim] call returns (no [back()] of an empty list, no [% 0]), and
    the way it returns is below [numWays]. *)
Theorem policy_victims_are_ways_of_the_set
        (name : string) (rd : nat → nat) (numWays : nat) (calls : list PolicyCall) :
  (0 < numWays)%nat → Forall (policy_call_in_range numWays) calls →
  ∃ p' victims,
    policy_calls (Policy.createPolicy name rd) numWays calls = Some (p', victims)
    ∧ Forall (λ way, way < numWays)%nat victims
    ∧ length victims = victim_calls calls.
Proof.
  intros Hn Hcalls. apply policy_calls_in_range; [done| |done].
  apply createPolicy_inv.
Qed.

Lemma policy_victims_are_ways_of_the_set_witness :
  ∃ p',
    policy_calls (Policy.createPolicy "RANDOM" (λ _, 7%nat)) 2
                 [GetVictim 0; OnAccess 0 0; GetVictim 0; GetVictim 0; GetVictim 0]
    = Some (p', [0; 1; 1; 1]%nat).
Proof.
  destruct (policy_victims_are_ways_of_the_set "RANDOM" (λ _, 7%nat) 2
              [GetVictim 0; OnAccess 0 0; GetVictim 0; GetVictim 0; GetVictim 0])
    as (p' & victims & Hrun & _).
  - lia.
  - repeat (apply Forall_cons; split; [simpl; lia|]). apply Forall_nil_2.
  - exists p'. rewrite Hrun. vm_compute in Hrun. by injection Hrun as _ <-.
Defined.


(** ** What a hierarchy access does to the levels *)









(** ** Dirty bits and write-backs *)

(** X20: the dirty bit after [Cache::access].  On a hit the entry of the
    address keeps its tag and flags, except that a write to a write-back
    cache sets the dirty bit.  On a miss that allocates, the new entry is
    valid, carries the tag of the address, and is dirty exactly when the
    access is a write to a write-back cache. *)
Theorem access_sets_the_dirty_bit
        (config : CacheConfig) (rd : nat → nat) (c : Cache.t)
        (address : Z) (type : AccessType) :
  well_formed config → reachable config rd c → uint64 address →
  ∃ c' result set tag before,
    Cache.access c address type = Some (c', result)
    ∧ Cache.getSetAndTag c address = Some (set, tag)
    ∧ Cache.getEntry c address = Some before
    ∧ match before with
      | Some entry =>
          hit result = true
          ∧ Cache.getEntry c' address
            = Some (Some (if bool_decide (type = Write) && writeBack config
                          then setDirty entry true else entry))
      | None =>
          hit result = false
          ∧ (allocates config type = true →
             Cache.getEntry c' address
             = Some (Some {| valid_ := true;
                             dirty_ := bool_decide (type = Write) && writeBack config;
                             tag_ := tag |}))
      end.
Proof.
  intros Hwf Hreach Ha.
  destruct (reachable_inv config rd c Hwf Hreach) as (Hcfg & S & numWays & Hinv).
  pose (B := getBlockOffsetBits config).
  pose proof (access_spec c B S numWays Hinv address type Ha) as Hspec.
  pose proof (access_entries c B S numWays Hinv address type Ha) as Hent.
  pose proof (getEntry_spec c B S numWays Hinv address Ha) as Hget.
  destruct (Cache.access c address type) as [[c' result]|] eqn:Hacc; [|done].
  destruct Hspec as (_ & _ & _ & Hhit & Hmiss & _).
  destruct Hent as (Hehit & Hemiss & _).
  rewrite Hcfg in Hehit, Hemiss.
  exists c', result. eexists _, _.
  destruct (Cache.getEntry c address) as [before|] eqn:Hbefore; [|done].
  exists before. split; [done|].
  split; [by apply (getSetAndTag_spec c B S numWays Hinv)|]. split; [done|].
  destruct (hit result) eqn:Hh.
  - destruct (Hehit eq_refl) as (e & He & Hafter).
    injection He as ->. done.
  - destruct before as [entry|]; [by destruct (Hmiss eq_refl)|].
    split; [done|]. by apply Hemiss.
Qed.

Lemma access_sets_the_dirty_bit_witness :
  ∃ c c' result,
    cache_after scenario1_config [(0x0, Read)] = Some c
    ∧ Cache.access c 0x8 Write = Some (c', result)
    ∧ hit result = true
    ∧ Cache.getEntry c 0x8 = Some (Some {| valid_ := true; dirty_ := false; tag_ := 0 |})
    ∧ Cache.getEntry c' 0x8 = Some (Some {| valid_ := true; dirty_ := true; tag_ := 0 |}).
Proof.
  destruct (cache_after scenario1_config [(0x0, Read)]) as [c|] eqn:Hc;
    [|vm_compute in Hc; discriminate].
  assert (well_formed scenario1_config) as Hwf.
  { unfold well_formed. simpl. rewrite pow2_64. lia. }
  assert (reachable scenario1_config no_entropy c) as Hreach.
  { apply reachable_by_accesses_reachable, (cache_after_reachable _ _ _ Hc).
    trace_in_range. }
  assert (uint64 0x8) as Ha by in_range.
  destruct (access_sets_the_dirty_bit scenario1_config no_entropy c 0x8 Write
              Hwf Hreach Ha) as (c' & result & set & tag & before & Hacc & _ & Hbefore & Hcase).
  assert (before = Some {| valid_ := true; dirty_ := false; tag_ := 0 |}) as ->.
  { vm_compute in Hc. injection Hc as <-. vm_compute in Hbefore.
    by injection Hbefore as <-. }
  destruct Hcase as [Hhit Hafter].
  exists c, c', result. split; [reflexivity|]. split; [exact Hacc|].
  split; [exact Hhit|]. split; [exact Hbefore|exact Hafter].
Defined.

(** X21: [Cache::access] asks for a write-back exactly when the cache is
    write-back and the entry of the address it reports as evicted was
    dirty. *)
Theorem write_back_exactly_for_dirty_victims
        (config : CacheConfig) (rd : nat → nat) (c : Cache.t)
        (address : Z) (type : AccessType) :
  well_formed config → reachable config rd c → uint64 address →
  ∃ c' result,
    Cache.access c address type = Some (c', result)
    ∧ (writeBackTriggered result = true
       ↔ writeBack config = true
         ∧ ∃ victim entry,
             evictedAddress result = Some victim
             ∧ Cache.getEntry c victim = Some (Some entry)
             ∧ dirty_ entry = true).
Proof.
  intros Hwf Hreach Ha.
  destruct (reachable_inv config rd c Hwf Hreach) as (Hcfg & S & numWays & Hinv).
  pose (B := getBlockOffsetBits config).
  pose proof (access_entries c B S numWays Hinv address type Ha) as Hent.
  destruct (Cache.access c address type) as [[c' result]|] eqn:Hacc; [|done].
  destruct Hent as (_ & _ & Hev & Hnone).
  rewrite Hcfg in Hev.
  exists c', result. split; [done|]. split.
  - intros Hwb. destruct (evictedAddress result) as [v|] eqn:Hv.
    + destruct (Hev v eq_refl) as (e & He & Hflag).
      rewrite Hwb in Hflag. symmetry in Hflag. apply andb_true_iff in Hflag as [? ?].
      split; [done|]. by exists v, e.
    + by rewrite Hnone in Hwb.
  - intros (Hwb & v & e & Hv & He & Hd).
    destruct (Hev v Hv) as (e' & He' & Hflag).
    rewrite He in He'. injection He' as <-. by rewrite Hflag, Hwb, Hd.
Qed.

Lemma write_back_exactly_for_dirty_victims_witness :
  ∃ c c' result,
    cache_after scenario1_config [(0x0, Write)] = Some c
    ∧ Cache.access c 0x100 Read = Some (c', result)
    ∧ evictedAddress result = Some 0x0
    ∧ writeBackTriggered result = true.
Proof.
  destruct (cache_after scenario1_config [(0x0, Write)]) as [c|] eqn:Hc;
    [|vm_compute in Hc; discriminate].
  assert (well_formed scenario1_config) as Hwf.
  { unfold well_formed. simpl. rewrite pow2_64. lia. }
  assert (reachable scenario1_config no_entropy c) as Hreach.
  { apply reachable_by_accesses_reachable, (cache_after_reachable _ _ _ Hc).
    trace_in_range. }
  assert (uint64 0x100) as Ha by in_range.
  destruct (write_back_exactly_for_dirty_victims scenario1_config no_entropy c 0x100 Read
              Hwf Hreach Ha) as (c' & result & Hacc & Hwb).
  assert (evictedAddress result = Some 0x0
          ∧ Cache.getEntry c 0x0
            = Some (Some {| valid_ := true; dirty_ := true; tag_ := 0 |}))
    as [Hev Hentry].
  { vm_compute in Hc. injection Hc as <-. vm_compute in Hacc.
    injection Hacc as _ <-. split; reflexivity. }
  exists c, c', result. split; [reflexivity|]. split; [exact Hacc|].
  split; [exact Hev|]. apply Hwb. split; [reflexivity|].
  eexists _, _. split; [exact Hev|]. split; [exact Hentry|reflexivity].
Defined.

(** ** Bit fields *)

Section bit_fields.

(** The mask loop sets bits [i .. i + count - 1]. *)
Lemma getBits_mask_spec (count : nat) :
  ∀ i mask, 0 ≤ i → i + Z.of_nat count ≤ 64 →
    getBits_mask i count mask
    = Some (Z.lor mask (Z.shiftl (Z.ones (Z.of_nat count)) i)).
Proof.
  induction count as [|count IH]; intros i mask Hi Hle.
  - simpl. by rewrite Z.shiftl_0_l, Z.lor_0_r.
  - cbn [getBits_mask]. unfold ADDRESS_WIDTH. rewrite decide_True by lia.
    unfold shl64, ADDRESS_WIDTH. rewrite decide_True by lia.
    cbn [mbind option_bind]. rewrite IH by lia. f_equal.
    rewrite Z.shiftl_1_l.
    rewrite wrap64_small by (pose proof (pow2_lt_modulus i ltac:(lia)); lia).
    rewrite <- Z.lor_assoc. f_equal.
    apply Z.bits_inj'. intros k Hk.
    rewrite !Z.lor_spec, !Z.shiftl_spec by lia.
    rewrite Z.pow2_bits_eqb by lia.
    destruct (decide (k < i)) as [Hlt|Hge].
    { rewrite !(Z.testbit_neg_r _ (k - _)) by lia.
      destruct (Z.eqb_spec i k); [lia|done]. }
    destruct (decide (k = i)) as [->|Hne].
    { rewrite Z.eqb_refl, Z.sub_diag, orb_true_l.
      rewrite Z.testbit_ones_nonneg by lia. symmetry. apply Z.ltb_lt. lia. }
    rewrite !Z.testbit_ones_nonneg by lia.
    destruct (Z.eqb_spec i k) as [->|_]; [done|]. rewrite orb_false_l.
    destruct (Z.ltb_spec (k - (i + 1)) (Z.of_nat count)),
      (Z.ltb_spec (k - i) (Z.of_nat (S count))); try done; lia.
Qed.

(** [getBits] is the field of the address between its two bit positions. *)
Lemma getBits_field (a start end_ : Z) :
  0 ≤ a < UINT64_MODULUS → 0 ≤ start ≤ end_ → start < 64 →
  getBits a start end_
  = Some ((a / 2 ^ start) mod 2 ^ (Z.min end_ 63 - start + 1)).
Proof.
  intros Ha Hse Hs. unfold getBits, ADDRESS_WIDTH.
  rewrite decide_False by lia.
  replace (if decide (64 ≤ end_) then 64 - 1 else end_) with (Z.min end_ 63)
    by (case_decide; lia).
  rewrite decide_False by lia.
  rewrite getBits_mask_spec by lia. cbn [mbind option_bind].
  unfold shr64, ADDRESS_WIDTH. rewrite decide_True by lia. f_equal.
  rewrite Z.lor_0_l, Z2Nat.id by lia.
  rewrite Z.shiftr_land, Z.shiftr_shiftl_l by lia.
  rewrite Z.sub_diag, Z.shiftl_0_r, Z.land_ones by lia.
  by rewrite Z.shiftr_div_pow2 by lia.
Qed.

End bit_fields.

(** X22: [MemoryAddress::getBits(start, end)] returns for every 64-bit
    address and every pair of [uint8_t] positions, in either order: 0 when
    the lower position is 64 or more, and otherwise the bits of the address
    from the lower position up to the higher one, which is clamped to 63.
    The three field accessors are such bit fields: the block offset is
    bits [0 .. B-1], the index is bits [B .. B+S-1] and the tag is bits
    [B+S .. 63]. *)
Theorem getBits_is_the_bit_field (a start end_ : Z) :
  uint64 a → uint8 start → uint8 end_ →
  let lo := Z.min start end_ in
  let hi := Z.min (Z.max start end_) 63 in
  getBits a start end_
  = Some (if decide (64 ≤ lo) then 0 else (a / 2 ^ lo) mod 2 ^ (hi - lo + 1))
  ∧ getBits a end_ start = getBits a start end_
  ∧ (∀ B, 1 ≤ B ≤ 64 → MemoryAddress.getBlockOffset a B = getBits a 0 (B - 1))
  ∧ (∀ B S, 0 ≤ B → 1 ≤ S → B + S ≤ 64 →
            MemoryAddress.getIndex a B S = getBits a B (B + S - 1))
  ∧ (∀ B S, 0 ≤ B → 0 ≤ S → B + S < 64 →
            MemoryAddress.getTag a B S = getBits a (B + S) 63).
Proof.
  intros Ha Hs He lo hi.
  assert (∀ s e, uint8 s → uint8 e →
            getBits a s e
            = Some (if decide (64 ≤ Z.min s e) then 0
                    else (a / 2 ^ Z.min s e)
                         mod 2 ^ (Z.min (Z.max s e) 63 - Z.min s e + 1))) as Hboth.
  { intros s e Hs' He'. unfold uint8 in *.
    destruct (decide (e < s)) as [Hswap|Horder].
    - replace (Z.min s e) with e by lia. replace (Z.max s e) with s by lia.
      case_decide as Hhigh.
      + unfold getBits, ADDRESS_WIDTH. rewrite (decide_True (P := e < s)) by lia.
        by rewrite (decide_True (P := 64 ≤ e)) by lia.
      + rewrite <- (getBits_field a e s) by (unfold uint64 in *; lia).
        unfold getBits. rewrite (decide_True (P := e < s)) by lia.
        by rewrite (decide_False (P := s < e)) by lia.
    - replace (Z.min s e) with s by lia. replace (Z.max s e) with e by lia.
      case_decide as Hhigh.
      + unfold getBits, ADDRESS_WIDTH. rewrite (decide_False (P := e < s)) by lia.
        by rewrite (decide_True (P := 64 ≤ s)) by lia.
      + apply getBits_field; unfold uint64 in *; lia. }
  split; [by apply Hboth|]. split.
  { rewrite !Hboth by done. by rewrite Z.min_comm, Z.max_comm. }
  unfold uint64 in Ha. split; [|split].
  - intros B HB. rewrite getBlockOffset_spec by lia.
    rewrite getBits_field by lia. rewrite Z.pow_0_r, Z.div_1_r.
    by replace (Z.min (B - 1) 63 - 0 + 1) with B by lia.
  - intros B S HB HS HBS. rewrite getIndex_spec by lia.
    rewrite getBits_field by lia.
    by replace (Z.min (B + S - 1) 63 - B + 1) with S by lia.
  - intros B S HB HS HBS. rewrite getTag_spec by lia.
    rewrite getBits_field by lia. f_equal. symmetry. apply Z.mod_small.
    replace (Z.min 63 63 - (B + S) + 1) with (64 - (B + S)) by lia.
    assert (0 < 2 ^ (B + S)) by (apply Z.pow_pos_nonneg; lia).
    split; [apply Z.div_pos; lia|].
    apply Z.div_lt_upper_bound; [lia|].
    rewrite <- Z.pow_add_r by lia. replace (B + S + (64 - (B + S))) with 64 by lia.
    rewrite pow2_64 in Ha. change (2 ^ 64) with 18446744073709551616. lia.
Qed.

Lemma getBits_is_the_bit_field_witness :
  getBits 0x123456789ABCDEF0 47 32 = Some 0x5678
  ∧ getBits 0x123456789ABCDEF0 32 47 = Some 0x5678
  ∧ getBits 0x123456789ABCDEF0 60 200 = Some 1.
Proof.
  assert (uint64 0x123456789ABCDEF0) as Ha by in_range.
  assert (∀ n, 0 ≤ n < 256 → uint8 n) as Hu by (intros; done).
  destruct (getBits_is_the_bit_field 0x123456789ABCDEF0 47 32 Ha
              (Hu 47 ltac:(lia)) (Hu 32 ltac:(lia))) as (H1 & H2 & _).
  destruct (getBits_is_the_bit_field 0x123456789ABCDEF0 60 200 Ha
              (Hu 60 ltac:(lia)) (Hu 200 ltac:(lia))) as (H3 & _).
  rewrite H2, H1, H3. repeat split; reflexivity.
Defined.

(** X23: decoding loses nothing.  For every 64-bit address and all field
    widths, also widths whose sum exceeds 64, the tag, index and block
    offset that the three accessors return put together give the address
    back: [address = tag * 2^(B+S) + index * 2^B + offset], with
    [offset < 2^B] and [index < 2^S]. *)
Theorem decode_fields_recompose (a B S : Z) :
  uint64 a → 0 ≤ B → 0 ≤ S →
  ∃ tag index offset,
    MemoryAddress.getTag a B S = Some tag
    ∧ MemoryAddress.getIndex a B S = Some index
    ∧ MemoryAddress.getBlockOffset a B = Some offset
    ∧ a = tag * 2 ^ (B + S) + index * 2 ^ B + offset
    ∧ 0 ≤ offset < 2 ^ B ∧ 0 ≤ index < 2 ^ S ∧ 0 ≤ tag.
Proof.
  intros Ha HB HS. unfold uint64 in Ha.
  eexists _, _, _. split; [by apply getTag_spec|].
  split; [by apply getIndex_spec|]. split; [by apply getBlockOffset_spec|].
  assert (0 < 2 ^ B) as HpB by (apply Z.pow_pos_nonneg; lia).
  assert (0 < 2 ^ S) as HpS by (apply Z.pow_pos_nonneg; lia).
  pose proof (Z.div_mod a (2 ^ B) ltac:(lia)) as H1.
  pose proof (Z.div_mod (a / 2 ^ B) (2 ^ S) ltac:(lia)) as H2.
  pose proof (Z.mod_pos_bound a (2 ^ B) HpB).
  pose proof (Z.mod_pos_bound (a / 2 ^ B) (2 ^ S) HpS).
  rewrite Z.pow_add_r by lia. rewrite <- Z.div_div by lia.
  assert (0 ≤ a / 2 ^ B) by (apply Z.div_pos; lia).
  assert (0 ≤ a / 2 ^ B / 2 ^ S) by (apply Z.div_pos; lia).
  split; [|done]. nia.
Qed.

Lemma decode_fields_recompose_witness :
  MemoryAddress.getTag 0xFFFF 60 10 = Some 0
  ∧ MemoryAddress.getIndex 0xFFFF 60 10 = Some 0
  ∧ MemoryAddress.getBlockOffset 0xFFFF 60 = Some 0xFFFF.
Proof.
  destruct (decode_fields_recompose 0xFFFF 60 10 ltac:(in_range) ltac:(lia) ltac:(lia))
    as (tag & index & offset & Ht & Hi & Ho & _).
  rewrite Ht, Hi, Ho. vm_compute in Ht, Hi, Ho.
  injection Ht as <-. injection Hi as <-. injection Ho as <-. done.
Defined.

(** ** Synthetic traces *)

Section synthetic.

Lemma uniform_int_range (a b raw : Z) :
  a ≤ b → ∃ v, uniform_int a b raw = Some v ∧ a ≤ v ≤ b.
Proof.
  intros Hab. unfold uniform_int. rewrite decide_True by done.
  eexists. split; [done|].
  pose proof (Z.mod_pos_bound raw (b - a + 1) ltac:(lia)). lia.
Qed.

Lemma loop_addresses_range (rng : nat → Z) (a b : Z) (count : nat) :
  a ≤ b →
  ∀ drawn, ∃ l drawn',
    SyntheticTraceSource.loop_addresses rng drawn a b count = Some (l, drawn')
    ∧ length l = count ∧ Forall (λ v, a ≤ v ≤ b) l.
Proof.
  intros Hab. induction count as [|count IH]; intros drawn; simpl.
  - by exists [], drawn.
  - destruct (uniform_int_range a b (rng drawn) Hab) as (v & -> & Hv). simpl.
    destruct (IH (S drawn)) as (l & drawn' & -> & Hlen & Hall). simpl.
    exists (v :: l), drawn'. split; [done|]. split; [by rewrite <- Hlen|].
    by constructor.
Qed.

(** One call of [getNextAccess] before the end of the trace. *)
Lemma getNextAccess_step (s : SyntheticTraceSource.t) (start end_ : Z) :
  SyntheticTraceSource.startAddress_ s = start →
  SyntheticTraceSource.endAddress_ s = end_ →
  uint64 start → uint64 end_ → start < end_ →
  (SyntheticTraceSource.pattern_ s = SyntheticTraceSource.Looping →
   SyntheticTraceSource.loopAddresses_ s ≠ []
   ∧ Forall (λ v, start ≤ v ≤ end_) (SyntheticTraceSource.loopAddresses_ s)) →
  0 ≤ SyntheticTraceSource.currentAccess_ s < SyntheticTraceSource.numAccesses_ s →
  SyntheticTraceSource.numAccesses_ s < UINT64_MODULUS →
  ∃ addr type s',
    SyntheticTraceSource.getNextAccess s = Some (Some (addr, type), s')
    ∧ start ≤ addr ≤ end_
    ∧ (SyntheticTraceSource.pattern_ s ≠ SyntheticTraceSource.Looping → addr < end_)
    ∧ (SyntheticTraceSource.pattern_ s = SyntheticTraceSource.Sequential →
       addr = start + SyntheticTraceSource.currentAccess_ s mod (end_ - start))
    ∧ (SyntheticTraceSource.pattern_ s = SyntheticTraceSource.Strided →
       addr = start + wrap64 (SyntheticTraceSource.currentAccess_ s * 64)
                      mod (end_ - start))
    ∧ SyntheticTraceSource.pattern_ s' = SyntheticTraceSource.pattern_ s
    ∧ SyntheticTraceSource.startAddress_ s' = start
    ∧ SyntheticTraceSource.endAddress_ s' = end_
    ∧ SyntheticTraceSource.numAccesses_ s' = SyntheticTraceSource.numAccesses_ s
    ∧ SyntheticTraceSource.loopAddresses_ s' = SyntheticTraceSource.loopAddresses_ s
    ∧ SyntheticTraceSource.currentAccess_ s'
      = SyntheticTraceSource.currentAccess_ s + 1.
Proof.
  intros Hstart Hend Hs He Hlt Hloop Hcur Hnum. unfold uint64 in *.
  unfold SyntheticTraceSource.getNextAccess. rewrite decide_False by lia.
  assert (wrap64 (end_ - start) = end_ - start) as Hsize by (apply wrap64_small; lia).
  assert (wrap64 (SyntheticTraceSource.currentAccess_ s + 1)
          = SyntheticTraceSource.currentAccess_ s + 1) as Hnext
    by (apply wrap64_small; lia).
  unfold SyntheticTraceSource.generateAddress, SyntheticTraceSource.umod.
  rewrite Hstart, Hend, Hsize.
  destruct (SyntheticTraceSource.pattern_ s) eqn:Hpat.
  - rewrite decide_False by lia. simpl.
    pose proof (Z.mod_pos_bound (SyntheticTraceSource.currentAccess_ s) (end_ - start)
                  ltac:(lia)).
    rewrite (wrap64_small (start + _)) by lia. rewrite Hnext.
    eexists _, _, _. split; [done|]. simpl. rewrite Hpat.
    split_and!; try done; lia.
  - assert (wrap64 (end_ - 1) = end_ - 1) as Hlast by (apply wrap64_small; lia).
    rewrite Hlast.
    destruct (uniform_int_range start (end_ - 1)
                (SyntheticTraceSource.rng_ s (SyntheticTraceSource.drawn_ s)) ltac:(lia))
      as (v & -> & Hv). simpl. rewrite Hnext.
    eexists _, _, _. split; [done|]. simpl. rewrite Hpat.
    split_and!; try done; lia.
  - rewrite decide_False by lia. simpl.
    pose proof (Z.mod_pos_bound (wrap64 (SyntheticTraceSource.currentAccess_ s * 64))
                  (end_ - start) ltac:(lia)).
    rewrite (wrap64_small (start + _)) by lia. rewrite Hnext.
    eexists _, _, _. split; [done|]. simpl. rewrite Hpat.
    split_and!; try done; lia.
  - destruct (Hloop eq_refl) as [Hne Hall].
    assert (0 < Z.of_nat (length (SyntheticTraceSource.loopAddresses_ s))) as Hlen.
    { destruct (SyntheticTraceSource.loopAddresses_ s); [done|]. simpl length. lia. }
    rewrite decide_False by lia. simpl.
    pose proof (Z.mod_pos_bound (SyntheticTraceSource.currentAccess_ s)
                  (Z.of_nat (length (SyntheticTraceSource.loopAddresses_ s))) Hlen) as Hi.
    destruct (lookup_lt_is_Some_2 (SyntheticTraceSource.loopAddresses_ s)
                (Z.to_nat (SyntheticTraceSource.currentAccess_ s
                           mod Z.of_nat (length (SyntheticTraceSource.loopAddresses_ s)))))
      as [v Hv]; [lia|].
    rewrite Hv. simpl. rewrite Hnext.
    eexists _, _, _. split; [done|]. simpl. rewrite Hpat.
    pose proof (proj1 (Forall_lookup _ _) Hall _ _ Hv) as Hrange. simpl in Hrange.
    split_and!; try done; try lia.
Qed.

(** Draining a source that has [k] accesses left. *)
Lemma drain_all (start end_ : Z) (k : nat) :
  uint64 start → uint64 end_ → start < end_ →
  ∀ s : SyntheticTraceSource.t,
    SyntheticTraceSource.startAddress_ s = start →
    SyntheticTraceSource.endAddress_ s = end_ →
    (SyntheticTraceSource.pattern_ s = SyntheticTraceSource.Looping →
     SyntheticTraceSource.loopAddresses_ s ≠ []
     ∧ Forall (λ v, start ≤ v ≤ end_) (SyntheticTraceSource.loopAddresses_ s)) →
    0 ≤ SyntheticTraceSource.currentAccess_ s →
    SyntheticTraceSource.numAccesses_ s
    = SyntheticTraceSource.currentAccess_ s + Z.of_nat k →
    SyntheticTraceSource.numAccesses_ s < UINT64_MODULUS →
    ∃ accesses s',
      drain (S k) s = Some (accesses, true, s')
      ∧ length accesses = k
      ∧ Forall (λ access : Z * AccessType, start ≤ access.1 ≤ end_) accesses
      ∧ (SyntheticTraceSource.pattern_ s ≠ SyntheticTraceSource.Looping →
         Forall (λ access : Z * AccessType, access.1 < end_) accesses)
      ∧ (SyntheticTraceSource.pattern_ s = SyntheticTraceSource.Sequential →
         accesses.*1
         = (λ i : nat, start + Z.of_nat i mod (end_ - start))
             <$> seq (Z.to_nat (SyntheticTraceSource.currentAccess_ s)) k)
      ∧ (SyntheticTraceSource.pattern_ s = SyntheticTraceSource.Strided →
         accesses.*1
         = (λ i : nat, start + wrap64 (Z.of_nat i * 64) mod (end_ - start))
             <$> seq (Z.to_nat (SyntheticTraceSource.currentAccess_ s)) k)
      ∧ SyntheticTraceSource.pattern_ s' = SyntheticTraceSource.pattern_ s
      ∧ SyntheticTraceSource.startAddress_ s' = start
      ∧ SyntheticTraceSource.endAddress_ s' = end_
      ∧ SyntheticTraceSource.numAccesses_ s' = SyntheticTraceSource.numAccesses_ s
      ∧ SyntheticTraceSource.loopAddresses_ s' = SyntheticTraceSource.loopAddresses_ s.
Proof.
  intros Hs He Hlt. induction k as [|k IH]; intros s Hstart Hend Hloop Hcur Hnum Hmax.
  - exists [], s. cbn [drain]. unfold SyntheticTraceSource.getNextAccess.
    rewrite decide_True by lia. simpl. split_and!; try done; by intros _.
  - destruct (getNextAccess_step s start end_ Hstart Hend Hs He Hlt Hloop
                ltac:(lia) Hmax)
      as (addr & type & s1 & Hnext & Hrange & Hbelow & Hseq & Hstr & Hpat & Hstart1
          & Hend1 & Hnum1 & Hloop1 & Hcur1).
    destruct (IH s1 Hstart1 Hend1) as (accesses & s' & Hdrain & Hlen & Hall & Hbelow'
                                       & Hseq' & Hstr' & Hpat' & Hstart' & Hend'
                                       & Hnum' & Hloop').
    { rewrite Hpat, Hloop1. exact Hloop. }
    { lia. }
    { lia. }
    { lia. }
    exists ((addr, type) :: accesses), s'.
    change (drain (S (S k)) s)
      with ('(next, s0) ← SyntheticTraceSource.getNextAccess s;
            match next with
            | None => Some ([], true, s0)
            | Some access =>
                '(rest, ended, s2) ← drain (S k) s0;
                Some (access :: rest, ended, s2)
            end).
    rewrite Hnext. cbn [mbind option_bind]. rewrite Hdrain. cbn [mbind option_bind].
    rewrite Hpat in Hbelow', Hseq', Hstr', Hpat'.
    assert (Z.to_nat (SyntheticTraceSource.currentAccess_ s1)
            = S (Z.to_nat (SyntheticTraceSource.currentAccess_ s))) as Hsucc by lia.
    split; [done|]. split; [simpl; by rewrite Hlen|]. split; [by constructor|].
    split; [intros Hp; constructor; [by apply Hbelow|by apply Hbelow']|].
    split; [|split; [|split_and!; congruence]].
    + intros Hp. cbn [seq fmap list_fmap]. simpl. rewrite (Hseq Hp).
      rewrite Z2Nat.id by done. f_equal. rewrite <- Hsucc. by apply Hseq'.
    + intros Hp. cbn [seq fmap list_fmap]. simpl. rewrite (Hstr Hp).
      rewrite Z2Nat.id by done. f_equal. rewrite <- Hsucc. by apply Hstr'.
Qed.

End synthetic.

(** X24: a [SyntheticTraceSource] built for an address range
    [start < end] yields, with any generator and any pattern, exactly
    [numAccesses] accesses and then [std::nullopt], without dividing by
    zero; every address lies in [start, end] and, except for the Looping
    pattern, below [end].  The Sequential and Strided addresses are
    [start + i mod (end - start)] and
    [start + (64 i mod 2^64) mod (end - start)] for the i-th access, so
    that after [reset] the source yields the same addresses again. *)
Theorem synthetic_trace_stays_in_range
        (pattern : SyntheticTraceSource.Pattern)
        (startAddress endAddress numAccesses : Z) (readRatio : Q) (rng : nat → Z) :
  uint64 startAddress → uint64 endAddress → uint64 numAccesses →
  startAddress < endAddress →
  ∃ s accesses s' again s'',
    SyntheticTraceSource.new pattern startAddress endAddress numAccesses readRatio rng
    = Some s
    ∧ drain (S (Z.to_nat numAccesses)) s = Some (accesses, true, s')
    ∧ drain (S (Z.to_nat numAccesses)) (SyntheticTraceSource.reset s')
      = Some (again, true, s'')
    ∧ length accesses = Z.to_nat numAccesses
    ∧ length again = Z.to_nat numAccesses
    ∧ Forall (λ access : Z * AccessType, startAddress ≤ access.1 ≤ endAddress)
             (accesses ++ again)
    ∧ (pattern ≠ SyntheticTraceSource.Looping →
       Forall (λ access : Z * AccessType, access.1 < endAddress) (accesses ++ again))
    ∧ (pattern = SyntheticTraceSource.Sequential →
       accesses.*1
       = (λ i : nat, startAddress + Z.of_nat i mod (endAddress - startAddress))
           <$> seq 0 (Z.to_nat numAccesses))
    ∧ (pattern = SyntheticTraceSource.Strided →
       accesses.*1
       = (λ i : nat, startAddress
                     + wrap64 (Z.of_nat i * 64) mod (endAddress - startAddress))
           <$> seq 0 (Z.to_nat numAccesses))
    ∧ (pattern = SyntheticTraceSource.Sequential
       ∨ pattern = SyntheticTraceSource.Strided → again.*1 = accesses.*1).
Proof.
  intros Hs He Hn Hlt. pose proof Hs as Hs'. pose proof He as He'. pose proof Hn as Hn'.
  unfold uint64 in Hs', He', Hn'.
  assert (∃ s, SyntheticTraceSource.new pattern startAddress endAddress numAccesses
                 readRatio rng = Some s
               ∧ SyntheticTraceSource.pattern_ s = pattern
               ∧ SyntheticTraceSource.startAddress_ s = startAddress
               ∧ SyntheticTraceSource.endAddress_ s = endAddress
               ∧ SyntheticTraceSource.numAccesses_ s = numAccesses
               ∧ SyntheticTraceSource.currentAccess_ s = 0
               ∧ (pattern = SyntheticTraceSource.Looping →
                  SyntheticTraceSource.loopAddresses_ s ≠ []
                  ∧ Forall (λ v, startAddress ≤ v ≤ endAddress)
                           (SyntheticTraceSource.loopAddresses_ s)))
    as (s & Hnew & Hpat & Hstart & Hend & Hnum & Hcur & Hloop).
  { unfold SyntheticTraceSource.new. destruct pattern; try (by eexists).
    rewrite decide_True by lia.
    destruct (loop_addresses_range rng startAddress endAddress
                (Z.to_nat (Z.min 100 (wrap64 (endAddress - startAddress))))
                ltac:(lia) 0%nat) as (l & drawn' & -> & Hlen & Hall).
    simpl. eexists. split; [done|]. simpl. split_and!; try done. intros _.
    split; [|done]. intros ->. simpl in Hlen.
    rewrite wrap64_small in Hlen by lia. lia. }
  destruct (drain_all startAddress endAddress (Z.to_nat numAccesses) Hs He Hlt s
              Hstart Hend) as (accesses & s' & Hdrain & Hlen & Hall & Hbelow & Hseq
                               & Hstr & Hpat' & Hstart' & Hend' & Hnum' & Hloop').
  { by rewrite Hpat. }
  { lia. }
  { lia. }
  { lia. }
  destruct (drain_all startAddress endAddress (Z.to_nat numAccesses) Hs He Hlt
              (SyntheticTraceSource.reset s') Hstart' Hend')
    as (again & s'' & Hdrain2 & Hlen2 & Hall2 & Hbelow2 & Hseq2 & Hstr2 & _).
  { simpl. rewrite Hloop', Hpat', Hpat. exact Hloop. }
  { simpl. lia. }
  { simpl. lia. }
  { simpl. lia. }
  simpl in Hbelow2, Hseq2, Hstr2. rewrite Hpat', Hpat in Hbelow2, Hseq2, Hstr2.
  rewrite Hpat, Hcur in *. change (Z.to_nat 0) with 0%nat in *.
  exists s, accesses, s', again, s''.
  split; [done|]. split; [done|]. split; [done|]. split; [done|]. split; [done|].
  split; [by apply Forall_app|].
  split; [intros Hp; apply Forall_app; auto|].
  split; [done|]. split; [done|].
  intros [Hp|Hp]; [by rewrite Hseq2, Hseq|by rewrite Hstr2, Hstr].
Qed.

Lemma synthetic_trace_stays_in_range_witness :
  ∃ s accesses s',
    SyntheticTraceSource.new SyntheticTraceSource.Strided 0x1000 0x1100 6 (7 # 10)
                             (λ _, 0)
    = Some s
    ∧ drain 7 s = Some (accesses, true, s')
    ∧ accesses.*1 = [0x1000; 0x1040; 0x1080; 0x10C0; 0x1000; 0x1040].
Proof.
  destruct (synthetic_trace_stays_in_range SyntheticTraceSource.Strided 0x1000 0x1100 6
              (7 # 10) (λ _, 0) ltac:(in_range) ltac:(in_range) ltac:(in_range)
              ltac:(lia))
    as (s & accesses & s' & again & s'' & Hnew & Hdrain & _ & _ & _ & _ & _ & _ & Hstr & _).
  exists s, accesses, s'. split; [exact Hnew|]. split; [exact Hdrain|].
  rewrite (Hstr eq_refl). reflexivity.
Defined.

(** ** Trace lines *)

Section trace_lines.

Lemma hex_char_facts (d : Z) :
  0 ≤ d < 16 →
  hex_digit (hex_char d) = Some d ∧ isspace (hex_char d) = false.
Proof.
  intros Hd. replace d with (Z.of_nat (Z.to_nat d)) by lia.
  assert (Z.to_nat d < 16)%nat as Hn by lia. revert Hn.
  generalize (Z.to_nat d). intros n Hn.
  do 16 (destruct n as [|n]; [by vm_compute|]). lia.
Qed.

Lemma to_hex_facts (width : nat) :
  ∀ a, 0 ≤ a →
    length (to_hex width a) = width
    ∧ Forall (λ c, isspace c = false ∧ is_Some (hex_digit c)) (to_hex width a).
Proof.
  induction width as [|width IH]; intros a Ha; simpl; [done|].
  destruct (IH (a / 16)) as [Hlen Hall]; [apply Z.div_pos; lia|].
  pose proof (Z.mod_pos_bound a 16 ltac:(lia)) as Hd.
  destruct (hex_char_facts (a mod 16) Hd) as [Hdigit Hspace].
  split; [rewrite length_app, Hlen; simpl; lia|].
  apply Forall_app. split; [done|]. apply Forall_singleton. by rewrite Hdigit.
Qed.

(** Reading back the digits that [to_hex] wrote. *)
Lemma hex_digits_to_hex (width : nat) :
  ∀ a acc rest, 0 ≤ a →
    hex_digits acc (to_hex width a ++ rest)
    = hex_digits (acc * 16 ^ Z.of_nat width + a mod 16 ^ Z.of_nat width) rest.
Proof.
  induction width as [|width IH]; intros a acc rest Ha.
  - simpl. by rewrite Z.mod_1_r, Z.mul_1_r, Z.add_0_r.
  - cbn [to_hex]. rewrite <- app_assoc. rewrite IH by (apply Z.div_pos; lia).
    pose proof (Z.mod_pos_bound a 16 ltac:(lia)) as Hd.
    cbn [app hex_digits]. rewrite (proj1 (hex_char_facts (a mod 16) Hd)).
    f_equal. rewrite Nat2Z.inj_succ, Z.pow_succ_r by lia.
    assert (0 < 16 ^ Z.of_nat width) as Hp by (apply Z.pow_pos_nonneg; lia).
    rewrite Z.rem_mul_r by lia. ring.
Qed.

Lemma skip_space_app (pre s : list ascii) :
  Forall (λ c, isspace c = true) pre → skip_space (pre ++ s) = skip_space s.
Proof. induction 1 as [|c pre Hc _ IH]; simpl; [done|]. by rewrite Hc. Qed.

Lemma skip_space_token (s : list ascii) (c : ascii) :
  isspace c = false → skip_space (c :: s) = c :: s.
Proof. intros Hc. simpl. by rewrite Hc. Qed.

Lemma take_token_app (token rest : list ascii) :
  Forall (λ c, isspace c = false) token →
  rest = [] ∨ (∃ c rest', rest = c :: rest' ∧ isspace c = true) →
  take_token (token ++ rest) = (token, rest).
Proof.
  intros Htoken Hrest. induction Htoken as [|c token Hc _ IH]; simpl.
  - destruct Hrest as [->|(c & rest' & -> & Hc)]; simpl; [done|]. by rewrite Hc.
  - by rewrite Hc, IH.
Qed.

(** [toString] writes a token without white space that [stoull] reads back. *)
Lemma toString_facts (a : Z) :
  uint64 a →
  Forall (λ c, isspace c = false) (toString a)
  ∧ toString a ≠ []
  ∧ stoull16 (toString a) = Some a.
Proof.
  intros Ha. unfold uint64 in Ha.
  destruct (to_hex_facts 16 a ltac:(lia)) as [Hlen Hall].
  split; [|split; [done|]].
  - unfold toString. apply Forall_app. split.
    + repeat constructor.
    + eapply Forall_impl; [exact Hall|]. by intros c [? _].
  - unfold toString, stoull16.
    destruct (to_hex 16 a) as [|d digits] eqn:Hhex; [done|].
    apply Forall_cons in Hall as [[_ Hd] _].
    cbn [String.list_ascii_of_string app skip_space].
    replace (isspace "0") with false by done.
    rewrite decide_False by done. rewrite decide_False by done.
    rewrite !bool_decide_eq_true_2 by done. cbn [andb orb].
    rewrite (bool_decide_eq_true_2 _ Hd).
    rewrite (decide_True (P := is_Some (hex_digit d))) by done.
    rewrite <- Hhex, <- (app_nil_r (to_hex 16 a)).
    rewrite hex_digits_to_hex by lia. cbn [hex_digits].
    rewrite Z.mul_0_l, Z.add_0_l.
    change (16 ^ Z.of_nat 16) with UINT64_MODULUS.
    rewrite Z.mod_small by lia. by rewrite decide_True by lia.
Qed.

End trace_lines.

(** X25: a trace line written with [MemoryAddress::toString] is read back
    by [FileTraceSource::getNextAccess].  For every 64-bit address and
    either access type, the line made of the address as [toString] prints
    it, white space, and the letter R or W is parsed as that access; white
    space in front and anything after further white space are ignored.  A
    line without any character other than white space, such as an empty
    line, is rejected as an invalid address, and a line that ends after
    the address as an invalid access type. *)
Theorem trace_line_round_trip (address : Z) (type : AccessType)
        (pre mid post : list ascii) :
  uint64 address →
  Forall (λ c, isspace c = true) pre →
  Forall (λ c, isspace c = true) mid → mid ≠ [] →
  post = [] ∨ (∃ c post', post = c :: post' ∧ isspace c = true) →
  parse_line (pre ++ toString address ++ mid ++ [type_letter type] ++ post)
  = LineAccess address type
  ∧ parse_line (pre ++ toString address) = InvalidAccessType
  ∧ parse_line pre = InvalidAddressFormat.
Proof.
  intros Ha Hpre Hmid Hne Hpost.
  destruct (toString_facts address Ha) as (Hnospace & Hnonempty & Hread).
  assert (∀ rest, skip_space (toString address ++ rest) = toString address ++ rest)
    as Hskip.
  { intros rest. destruct (toString address) as [|c s] eqn:Hs; [done|].
    apply Forall_cons in Hnospace as [Hc _]. simpl. by rewrite Hc. }
  split; [|split].
  - unfold parse_line, extract.
    rewrite skip_space_app, Hskip by done.
    rewrite take_token_app; [|done|].
    2:{ right. destruct mid as [|c mid']; [done|].
        apply Forall_cons in Hmid as [Hc _]. by eexists _, _. }
    rewrite decide_False by done. rewrite Hread.
    rewrite skip_space_app by done.
    assert (isspace (type_letter type) = false) as Hletter by (by destruct type).
    change ([type_letter type] ++ post) with (type_letter type :: post).
    rewrite (skip_space_token _ _ Hletter).
    change (type_letter type :: post) with ([type_letter type] ++ post).
    rewrite (take_token_app [type_letter type] post);
      [|by apply Forall_singleton|done].
    simpl. by destruct type.
  - unfold parse_line, extract.
    rewrite skip_space_app by done.
    rewrite <- (app_nil_r (toString address)), Hskip.
    rewrite take_token_app; [|done|by left].
    rewrite decide_False by done. rewrite Hread. simpl. done.
  - unfold parse_line, extract.
    rewrite <- (app_nil_r pre), skip_space_app by done. simpl. done.
Qed.

Lemma trace_line_round_trip_witness :
  parse_line (String.list_ascii_of_string "  0x0000000000001a2b W  # store")
  = LineAccess 0x1a2b Write.
Proof.
  assert (uint64 0x1a2b) as Ha by in_range.
  assert (Forall (λ c, isspace c = true) (String.list_ascii_of_string "  ")) as Hsp
    by (by repeat constructor).
  assert (Forall (λ c, isspace c = true) (String.list_ascii_of_string " ")) as Hmid
    by (by repeat constructor).
  destruct (trace_line_round_trip 0x1a2b Write (String.list_ascii_of_string "  ")
              (String.list_ascii_of_string " ")
              (String.list_ascii_of_string "  # store") Ha Hsp Hmid ltac:(done))
    as (Hline & _).
  - right. by eexists _, _.
  - exact Hline.
Defined.

(** ** Resetting a hierarchy *)

Section tracker.

Local Arguments Cache.access : simpl never.
Local Arguments Cache.forceEntry : simpl never.
Local Arguments Cache.invalidateEntry : simpl never.
Local Arguments Cache.getEntry : simpl never.
Local Arguments Cache.getSetAndTag : simpl never.

Lemma same_hierarchy_levels (cs : list Cache.t) (tr tr' : EvictionTracker) :
  same_hierarchy {| CacheHierarchy.caches_ := cs; CacheHierarchy.evictionTracker_ := tr |}
                 {| CacheHierarchy.caches_ := cs; CacheHierarchy.evictionTracker_ := tr' |}
  ↔ hasEviction tr = hasEviction tr' ∧ (hasEviction tr = true → tr = tr').
Proof. unfold same_hierarchy. simpl. tauto. Qed.

Lemma capture_eviction_same (cs : list Cache.t) (tr tr' : EvictionTracker)
      (l1 : Cache.t) (r : CacheResult) :
  same_hierarchy {| CacheHierarchy.caches_ := cs; CacheHierarchy.evictionTracker_ := tr |}
                 {| CacheHierarchy.caches_ := cs; CacheHierarchy.evictionTracker_ := tr' |} →
  match CacheHierarchy.capture_eviction
          {| CacheHierarchy.caches_ := cs; CacheHierarchy.evictionTracker_ := tr |} l1 r,
        CacheHierarchy.capture_eviction
          {| CacheHierarchy.caches_ := cs; CacheHierarchy.evictionTracker_ := tr' |} l1 r
  with
  | Some g, Some g' =>
      same_hierarchy g g' ∧ CacheHierarchy.caches_ g = cs
  | None, None => True
  | _, _ => False
  end.
Proof.
  intros Hsame. unfold CacheHierarchy.capture_eviction.
  destruct (evictedAddress r) as [v|]; [|done].
  destruct (evictedEntry r) as [e|]; simpl.
  - split; [|done]. by apply same_hierarchy_levels.
  - destruct (Cache.getSetAndTag l1 v) as [[set tag]|]; simpl; [|done].
    split; [|done]. by apply same_hierarchy_levels.
Qed.

Lemma search_lower_same (a : Z) (t : AccessType) (remaining : nat) :
  ∀ (cs : list Cache.t) (tr tr' : EvictionTracker) (lat : Z) (i : nat),
  same_hierarchy {| CacheHierarchy.caches_ := cs; CacheHierarchy.evictionTracker_ := tr |}
                 {| CacheHierarchy.caches_ := cs; CacheHierarchy.evictionTracker_ := tr' |} →
  match CacheHierarchy.search_lower
          {| CacheHierarchy.caches_ := cs; CacheHierarchy.evictionTracker_ := tr |}
          a t lat i remaining,
        CacheHierarchy.search_lower
          {| CacheHierarchy.caches_ := cs; CacheHierarchy.evictionTracker_ := tr' |}
          a t lat i remaining
  with
  | Some (g, lat1, hit1), Some (g', lat1', hit1') =>
      same_hierarchy g g' ∧ lat1 = lat1' ∧ hit1 = hit1'
  | None, None => True
  | _, _ => False
  end.
Proof.
  induction remaining as [|remaining IH]; intros cs tr tr' lat i Hsame.
  - simpl. done.
  - cbn [CacheHierarchy.search_lower]. simpl.
    destruct (cs !! i) as [cache|]; simpl; [|done].
    destruct (Cache.access cache a t) as [[cache1 result]|]; simpl; [|done].
    unfold CacheHierarchy.set_level. simpl.
    assert (same_hierarchy
              {| CacheHierarchy.caches_ := <[i:=cache1]> cs;
                 CacheHierarchy.evictionTracker_ := tr |}
              {| CacheHierarchy.caches_ := <[i:=cache1]> cs;
                 CacheHierarchy.evictionTracker_ := tr' |}) as Hsame1.
    { apply same_hierarchy_levels. by apply same_hierarchy_levels in Hsame. }
    destruct (hit result); [|by apply IH].
    destruct (decide (inclusionPolicy (Cache.config_ cache1) = Exclusive)); [|done].
    destruct (Cache.getEntry cache1 a) as [[entry|]|]; simpl; [|done|done].
    destruct (Cache.invalidateEntry cache1 a) as [cache2|]; simpl; [|done].
    destruct (<[i:=cache2]> (<[i:=cache1]> cs) !! 0%nat) as [l1|]; simpl; [|done].
    destruct (Cache.forceEntry l1 a entry t) as [[l1' rf]|]; simpl; [|done].
    match goal with
    | |- context [CacheHierarchy.capture_eviction
                    {| CacheHierarchy.caches_ := ?cs2;
                       CacheHierarchy.evictionTracker_ := tr |} _ _] =>
        pose proof (capture_eviction_same cs2 tr tr' l1' rf) as Hcap
    end.
    destruct (CacheHierarchy.capture_eviction _ _ _) as [g|],
      (CacheHierarchy.capture_eviction _ _ _) as [g'|]; simpl.
    + split; [|done]. apply Hcap. apply same_hierarchy_levels.
      by apply same_hierarchy_levels in Hsame.
    + apply Hcap. apply same_hierarchy_levels. by apply same_hierarchy_levels in Hsame.
    + apply Hcap. apply same_hierarchy_levels. by apply same_hierarchy_levels in Hsame.
    + done.
Qed.

Lemma backinvalidate_from_same (a : Z) (remaining : nat) :
  ∀ (cs : list Cache.t) (tr tr' : EvictionTracker) (i : nat),
  match CacheHierarchy.backinvalidate_from
          {| CacheHierarchy.caches_ := cs; CacheHierarchy.evictionTracker_ := tr |}
          a i remaining,
        CacheHierarchy.backinvalidate_from
          {| CacheHierarchy.caches_ := cs; CacheHierarchy.evictionTracker_ := tr' |}
          a i remaining
  with
  | Some g, Some g' =>
      CacheHierarchy.caches_ g = CacheHierarchy.caches_ g'
      ∧ CacheHierarchy.evictionTracker_ g = tr
      ∧ CacheHierarchy.evictionTracker_ g' = tr'
  | None, None => True
  | _, _ => False
  end.
Proof.
  induction remaining as [|remaining IH]; intros cs tr tr' i; simpl; [done|].
  destruct (cs !! i) as [cache|]; simpl; [|done].
  destruct (Cache.invalidateEntry cache a) as [cache1|]; simpl; [|done].
  apply IH.
Qed.

Lemma allocate_inclusive_same (a : Z) (t : AccessType) (remaining : nat) :
  ∀ (cs : list Cache.t) (tr tr' : EvictionTracker) (lat : Z) (i : nat),
  match CacheHierarchy.allocate_inclusive
          {| CacheHierarchy.caches_ := cs; CacheHierarchy.evictionTracker_ := tr |}
          a t lat i remaining,
        CacheHierarchy.allocate_inclusive
          {| CacheHierarchy.caches_ := cs; CacheHierarchy.evictionTracker_ := tr' |}
          a t lat i remaining
  with
  | Some (g, lat1), Some (g', lat1') =>
      CacheHierarchy.caches_ g = CacheHierarchy.caches_ g'
      ∧ CacheHierarchy.evictionTracker_ g = tr
      ∧ CacheHierarchy.evictionTracker_ g' = tr'
      ∧ lat1 = lat1'
  | None, None => True
  | _, _ => False
  end.
Proof.
  induction remaining as [|remaining IH]; intros cs tr tr' lat i.
  - simpl. done.
  - cbn [CacheHierarchy.allocate_inclusive]. simpl.
    destruct (cs !! i) as [cache|]; simpl; [|done].
    destruct (decide (inclusionPolicy (Cache.config_ cache) = Inclusive)); [|apply IH].
    destruct (Cache.access cache a t) as [[cache1 result]|]; simpl; [|done].
    unfold CacheHierarchy.set_level. simpl.
    destruct (evictedAddress result) as [v|]; simpl; [|apply IH].
    unfold CacheHierarchy.backinvalidate.
    pose proof (backinvalidate_from_same v i (<[i:=cache1]> cs) tr tr' 0) as Hback.
    destruct (CacheHierarchy.backinvalidate_from _ _ _ _) as [[cs1 tr1]|],
      (CacheHierarchy.backinvalidate_from _ _ _ _) as [[cs1' tr1']|]; simpl in *;
      try done.
    destruct Hback as (-> & -> & ->). apply IH.
Qed.

Lemma allocate_after_miss_same (cs : list Cache.t) (tr tr' : EvictionTracker)
      (a : Z) (t : AccessType) (l1Cache : Cache.t) (exclusiveL2 hitInCache : bool)
      (lat : Z) :
  match CacheHierarchy.allocate_after_miss
          {| CacheHierarchy.caches_ := cs; CacheHierarchy.evictionTracker_ := tr |}
          a t l1Cache exclusiveL2 hitInCache lat,
        CacheHierarchy.allocate_after_miss
          {| CacheHierarchy.caches_ := cs; CacheHierarchy.evictionTracker_ := tr' |}
          a t l1Cache exclusiveL2 hitInCache lat
  with
  | Some (g, lat1), Some (g', lat1') =>
      CacheHierarchy.caches_ g = CacheHierarchy.caches_ g'
      ∧ CacheHierarchy.evictionTracker_ g = tr
      ∧ CacheHierarchy.evictionTracker_ g' = tr'
      ∧ lat1 = lat1'
  | None, None => True
  | _, _ => False
  end.
Proof.
  unfold CacheHierarchy.allocate_after_miss. simpl.
  destruct (negb hitInCache && _); [|done].
  destruct exclusiveL2.
  - destruct (cs !! 1%nat) as [l2|]; [|done].
    destruct (Cache.invalidateEntry l2 a) as [l2'|]; simpl; done.
  - apply allocate_inclusive_same.
Qed.

Lemma process_l1_eviction_same (cs : list Cache.t) (tr tr' : EvictionTracker)
      (a : Z) (exclusiveL2 : bool) :
  same_hierarchy {| CacheHierarchy.caches_ := cs; CacheHierarchy.evictionTracker_ := tr |}
                 {| CacheHierarchy.caches_ := cs; CacheHierarchy.evictionTracker_ := tr' |} →
  match CacheHierarchy.process_l1_eviction
          {| CacheHierarchy.caches_ := cs; CacheHierarchy.evictionTracker_ := tr |}
          a exclusiveL2,
        CacheHierarchy.process_l1_eviction
          {| CacheHierarchy.caches_ := cs; CacheHierarchy.evictionTracker_ := tr' |}
          a exclusiveL2
  with
  | Some g, Some g' => CacheHierarchy.caches_ g = CacheHierarchy.caches_ g'
  | None, None => True
  | _, _ => False
  end.
Proof.
  intros [Hflag Heq]%same_hierarchy_levels.
  unfold CacheHierarchy.process_l1_eviction. simpl. rewrite <- Hflag.
  destruct (exclusiveL2 && hasEviction tr) eqn:Hcase; [|done].
  apply andb_true_iff in Hcase as [_ Hhas]. rewrite <- (Heq Hhas).
  destruct (cs !! 1%nat) as [l2|]; simpl; [|done].
  destruct (decide (trackedAddress tr ≠ a)); [|done].
  destruct (Cache.forceEntry l2 _ _ _) as [[l2' r]|]; simpl; done.
Qed.

(** [CacheHierarchy::access] reads nothing of what the tracker held
    before the call. *)
Lemma access_tracker_irrelevant (h h' : CacheHierarchy.t) (a : Z) (t : AccessType) :
  CacheHierarchy.caches_ h = CacheHierarchy.caches_ h' →
  match CacheHierarchy.access h a t, CacheHierarchy.access h' a t with
  | Some (g, result), Some (g', result') =>
      CacheHierarchy.caches_ g = CacheHierarchy.caches_ g' ∧ result = result'
  | None, None => True
  | _, _ => False
  end.
Proof.
  destruct h as [cs tr], h' as [cs' tr']. simpl. intros <-.
  unfold CacheHierarchy.access, CacheHierarchy.hasExclusiveL2,
    CacheHierarchy.set_tracker, CacheHierarchy.set_level. simpl.
  set (exclusiveL2 := match cs !! 1%nat with
                      | Some l2 => bool_decide (inclusionPolicy (Cache.config_ l2) = Exclusive)
                      | None => false
                      end).
  destruct (cs !! 0%nat) as [l1|]; simpl; [|done].
  destruct (if exclusiveL2 then Cache.getEntry l1 a else Some None); simpl; [|done].
  destruct (Cache.access l1 a t) as [[l1a r1]|]; simpl; [|done].
  set (tr0 := {| hasEviction := false; trackedAddress := trackedAddress tr;
                 trackedEntry := trackedEntry tr |}).
  set (tr0' := {| hasEviction := false; trackedAddress := trackedAddress tr';
                  trackedEntry := trackedEntry tr' |}).
  assert (same_hierarchy
            {| CacheHierarchy.caches_ := <[0%nat:=l1a]> cs;
               CacheHierarchy.evictionTracker_ := tr0 |}
            {| CacheHierarchy.caches_ := <[0%nat:=l1a]> cs;
               CacheHierarchy.evictionTracker_ := tr0' |}) as Hsame0.
  { by apply same_hierarchy_levels. }
  assert (∃ tr1 tr1',
            (if exclusiveL2
             then CacheHierarchy.capture_eviction
                    {| CacheHierarchy.caches_ := <[0%nat:=l1a]> cs;
                       CacheHierarchy.evictionTracker_ := tr0 |} l1a r1
             else Some {| CacheHierarchy.caches_ := <[0%nat:=l1a]> cs;
                          CacheHierarchy.evictionTracker_ := tr0 |})
            = (λ tr1, {| CacheHierarchy.caches_ := <[0%nat:=l1a]> cs;
                         CacheHierarchy.evictionTracker_ := tr1 |}) <$> tr1
            ∧ (if exclusiveL2
               then CacheHierarchy.capture_eviction
                      {| CacheHierarchy.caches_ := <[0%nat:=l1a]> cs;
                         CacheHierarchy.evictionTracker_ := tr0' |} l1a r1
               else Some {| CacheHierarchy.caches_ := <[0%nat:=l1a]> cs;
                            CacheHierarchy.evictionTracker_ := tr0' |})
              = (λ tr1, {| CacheHierarchy.caches_ := <[0%nat:=l1a]> cs;
                           CacheHierarchy.evictionTracker_ := tr1 |}) <$> tr1'
            ∧ match tr1, tr1' with
              | Some x, Some x' => hasEviction x = hasEviction x'
                                   ∧ (hasEviction x = true → x = x')
              | None, None => True
              | _, _ => False
              end) as (tr1 & tr1' & -> & -> & Hcap).
  { destruct exclusiveL2.
    - pose proof (capture_eviction_same _ tr0 tr0' l1a r1 Hsame0) as Hcap.
      destruct (CacheHierarchy.capture_eviction _ _ _) as [[cs1 x]|],
        (CacheHierarchy.capture_eviction _ _ _) as [[cs1' x']|]; try done.
      + destruct Hcap as [Hs Hcs]. simpl in Hcs. subst cs1.
        destruct Hs as (Hcs' & Hs). simpl in Hcs', Hs. subst cs1'.
        by exists (Some x), (Some x').
      + by exists None, None.
    - by exists (Some tr0), (Some tr0'). }
  destruct tr1 as [tr1|], tr1' as [tr1'|]; simpl; try done.
  destruct (hit r1); [done|].
  pose proof (search_lower_same a t (length (<[0%nat:=l1a]> cs) - 1)
                (<[0%nat:=l1a]> cs) tr1 tr1' (wrap64 (0 + latency r1)) 1
                ltac:(by apply same_hierarchy_levels)) as Hsearch.
  destruct (CacheHierarchy.search_lower _ _ _ _ _ _) as [[[[cs2 tr2] lat2] hit2]|],
    (CacheHierarchy.search_lower _ _ _ _ _ _) as [[[[cs2' tr2'] lat2'] hit2']|];
    simpl; try done.
  destruct Hsearch as (Hsame2 & <- & <-).
  pose proof Hsame2 as (Hcs2 & _). simpl in Hcs2. subst cs2'.
  pose proof (allocate_after_miss_same cs2 tr2 tr2' a t l1a exclusiveL2 hit2 lat2)
    as Halloc.
  destruct (CacheHierarchy.allocate_after_miss _ _ _ _ _ _ _) as [[[cs3 tr3] lat3]|],
    (CacheHierarchy.allocate_after_miss _ _ _ _ _ _ _) as [[[cs3' tr3'] lat3']|];
    simpl in *; try done.
  destruct Halloc as (<- & -> & -> & <-).
  assert (same_hierarchy
            {| CacheHierarchy.caches_ := cs3; CacheHierarchy.evictionTracker_ := tr2 |}
            {| CacheHierarchy.caches_ := cs3; CacheHierarchy.evictionTracker_ := tr2' |})
    as Hsame3.
  { apply same_hierarchy_levels. by apply same_hierarchy_levels in Hsame2. }
  pose proof (process_l1_eviction_same cs3 tr2 tr2' a exclusiveL2 Hsame3) as Hproc.
  destruct (CacheHierarchy.process_l1_eviction _ _ _) as [[cs4 tr4]|],
    (CacheHierarchy.process_l1_eviction _ _ _) as [[cs4' tr4']|]; simpl in *;
    try done.
Qed.

End tracker.

Lemma run_results_same_levels (trace : list (Z * AccessType)) :
  ∀ h h', CacheHierarchy.caches_ h = CacheHierarchy.caches_ h' →
          run_results h trace = run_results h' trace.
Proof.
  induction trace as [|[a t] trace IH]; intros h h' Hcs; simpl; [done|].
  pose proof (access_tracker_irrelevant h h' a t Hcs) as Hacc.
  destruct (CacheHierarchy.access h a t) as [[g r]|],
    (CacheHierarchy.access h' a t) as [[g' r']|]; simpl; try done.
  destruct Hacc as [Hcs' <-]. by rewrite (IH g g' Hcs').
Qed.

(** Resetting a cache that has the shape of a constructed cache gives
    that constructed cache, for the LRU and FIFO policies. *)
Lemma reset_fresh (config : CacheConfig) (rd : nat → nat) (c0 c : Cache.t) :
  Cache.new config rd = inr c0 → same_reset c0 c → policy config ≠ "RANDOM" →
  Cache.reset c = c0.
Proof.
  intros Hnew Hsame Hname.
  destruct (reset_shape c0 c Hsame) as (Hes & Hcfg & Hpol).
  unfold Cache.new in Hnew.
  destruct (getNumSets config) as [ns|], (getNumWays config) as [nw|]; try done.
  injection Hnew as <-.
  assert (map (map (λ _ : CacheEntry, CacheEntry_default))
              (replicate (Z.to_nat ns) (replicate (Z.to_nat nw) CacheEntry_default))
          = replicate (Z.to_nat ns) (replicate (Z.to_nat nw) CacheEntry_default))
    as Hfresh.
  { change map with (@fmap list _). rewrite fmap_replicate. f_equal.
    by rewrite fmap_replicate. }
  simpl in Hpol. unfold Policy.createPolicy in *.
  repeat case_decide; try done; rewrite Hpol; unfold Cache.reset;
    cbn [Cache.config_ Cache.policy_ Cache.cacheEntries_ Policy.reset];
    by rewrite Hfresh.
Qed.

Section run_shape.

Context (B1 S1 B2 S2 : Z) (ways1 ways2 : nat).

(** The levels keep their shape along a trace. *)
Lemma run_trace_same_reset (trace : list (Z * AccessType)) :
  ∀ (l1 l2 : Cache.t) (tr : EvictionTracker),
  cache_inv l1 B1 S1 ways1 → cache_inv l2 B2 S2 ways2 →
  Forall (λ access : Z * AccessType, uint64 access.1) trace →
  ∃ l1' l2' tr',
    run_trace {| CacheHierarchy.caches_ := [l1; l2];
                 CacheHierarchy.evictionTracker_ := tr |} trace
    = Some {| CacheHierarchy.caches_ := [l1'; l2'];
              CacheHierarchy.evictionTracker_ := tr' |}
    ∧ same_reset l1 l1' ∧ same_reset l2 l2'.
Proof.
  induction trace as [|[a t] trace IH]; intros l1 l2 tr Hinv1 Hinv2 Htrace.
  - exists l1, l2, tr. split; [done|]. split; apply same_reset_refl.
  - apply Forall_cons in Htrace as [Ha Htrace]. simpl in Ha.
    destruct (two_level_access_summary B1 S1 B2 S2 ways1 ways2 l1 l2 tr a t
                Hinv1 Hinv2 Ha)
      as (l1a & l2a & tra & inL1 & inL2 & l1x & r1 & _ & _ & Hacc & Hinv1a & Hinv2a
          & (_ & Hs1 & _) & (_ & Hs2 & _) & _).
    cbn [run_trace]. rewrite Hacc. cbn [mbind option_bind].
    destruct (IH l1a l2a tra Hinv1a Hinv2a Htrace)
      as (l1' & l2' & tr' & Hrun & Hs1' & Hs2').
    exists l1', l2', tr'. split; [done|].
    split; by eapply same_reset_trans.
Qed.

End run_shape.

(** X27: resetting a hierarchy gives back a new one.  Whatever trace a
    two-level hierarchy with LRU or FIFO levels has seen,
    [CacheHierarchy::reset] makes its levels equal to freshly constructed
    ones, and every trace then returns the same latencies and hit flags as
    on a newly built hierarchy; the eviction tracker, which [reset] leaves
    as it is, has no influence. *)
Theorem reset_hierarchy_runs_like_a_new_one (l1Config l2Config : CacheConfig)
        (rd : nat → nat) (h : CacheHierarchy.t) :
  well_formed l1Config → well_formed l2Config →
  policy l1Config ≠ "RANDOM" → policy l2Config ≠ "RANDOM" →
  hierarchy_reachable l1Config l2Config rd h →
  ∃ h0,
    two_level l1Config l2Config rd = Some h0
    ∧ CacheHierarchy.caches_ (CacheHierarchy.reset h) = CacheHierarchy.caches_ h0
    ∧ ∀ trace, run_results (CacheHierarchy.reset h) trace = run_results h0 trace.
Proof.
  intros Hwf1 Hwf2 Hp1 Hp2 (h0 & trace0 & Hbuild & Htrace0 & Hrun).
  exists h0. split; [done|].
  assert (CacheHierarchy.caches_ (CacheHierarchy.reset h) = CacheHierarchy.caches_ h0)
    as Hlevels.
  { destruct (new_inv l1Config rd Hwf1) as (l1 & S1 & ways1 & Hnew1 & Hcfg1 & Hinv1 & _).
    destruct (new_inv l2Config rd Hwf2) as (l2 & S2 & ways2 & Hnew2 & Hcfg2 & Hinv2 & _).
    unfold two_level in Hbuild. rewrite Hnew1, Hnew2 in Hbuild.
    injection Hbuild as <-.
    destruct (run_trace_same_reset _ S1 _ S2 ways1 ways2 trace0 l1 l2
                (CacheHierarchy.evictionTracker_ CacheHierarchy.empty)
                Hinv1 Hinv2 Htrace0) as (l1' & l2' & tr' & Hrun' & Hs1 & Hs2).
    change (run_trace
              {| CacheHierarchy.caches_ := [l1; l2];
                 CacheHierarchy.evictionTracker_ :=
                   CacheHierarchy.evictionTracker_ CacheHierarchy.empty |} trace0
            = Some h) in Hrun.
    rewrite Hrun' in Hrun. injection Hrun as <-.
    unfold CacheHierarchy.reset, CacheHierarchy.addCacheLevel. simpl.
    by rewrite (reset_fresh l1Config rd l1 l1' Hnew1 Hs1 Hp1),
      (reset_fresh l2Config rd l2 l2' Hnew2 Hs2 Hp2). }
  split; [done|]. intros trace. by apply run_results_same_levels.
Qed.

Lemma reset_hierarchy_runs_like_a_new_one_witness :
  ∃ h h0,
    hierarchy_reachable nwa_l1 exclusive_l2 no_entropy h
    ∧ two_level nwa_l1 exclusive_l2 no_entropy = Some h0
    ∧ hasEviction (CacheHierarchy.evictionTracker_ (CacheHierarchy.reset h)) = true
    ∧ CacheHierarchy.caches_ (CacheHierarchy.reset h) = CacheHierarchy.caches_ h0
    ∧ run_results (CacheHierarchy.reset h) [(0, Read); (64, Read); (0, Read)]
      = run_results h0 [(0, Read); (64, Read); (0, Read)].
Proof.
  destruct (two_level nwa_l1 exclusive_l2 no_entropy) as [h0|] eqn:Hbuild;
    [|vm_compute in Hbuild; discriminate].
  destruct (run_trace h0 [(0, Read); (64, Read)]) as [h|] eqn:Hrun.
  2:{ vm_compute in Hbuild. injection Hbuild as <-. vm_compute in Hrun. discriminate. }
  assert (well_formed nwa_l1) as Hwf1.
  { unfold well_formed. simpl. rewrite pow2_64. lia. }
  assert (well_formed exclusive_l2) as Hwf2.
  { unfold well_formed. simpl. rewrite pow2_64. lia. }
  assert (hierarchy_reachable nwa_l1 exclusive_l2 no_entropy h) as Hreach.
  { exists h0, [(0, Read); (64, Read)]. split; [exact Hbuild|].
    split; [trace_in_range|exact Hrun]. }
  destruct (reset_hierarchy_runs_like_a_new_one nwa_l1 exclusive_l2 no_entropy h
              Hwf1 Hwf2 ltac:(done) ltac:(done) Hreach)
    as (h0' & Hbuild' & Hlevels & Hsame).
  rewrite Hbuild in Hbuild'. injection Hbuild' as <-.
  exists h, h0. split; [exact Hreach|]. split; [reflexivity|].
  split; [|split; [exact Hlevels|apply Hsame]].
  vm_compute in Hbuild. injection Hbuild as <-. vm_compute in Hrun.
  by injection Hrun as <-.
Defined.
